(** * TSP algorithm library (konard/sonar): shallow embedding and properties

    JavaScript numbers that carry distances, lengths and angles are modelled
    as rationals [Q]; [Infinity] is a separate constructor.  The modules
    named after the source files compute with them exactly.  The modules
    whose name ends in [64] are the same functions with a rounding [rnd]
    after every arithmetic operation, [round64] being the rounding of
    binary64; they carry the properties of computed lengths, quotients
    and bucket indexes in which a rounding error changes the outcome.
    City ids
    stored in arrays are [Z] (the code uses [-1] as a sentinel); loop
    counters are [nat].  [Math.random] draws, [Math.hypot] and [Math.PI] are
    parameters of the functions that use them.  A [while] loop whose number
    of rounds is not bounded by its own text, and the recursion of the
    union-find [find], take a [fuel] argument and return [None] when the
    fuel runs out. *)

From Stdlib Require Import QArith Qround ZArith List Lia Lqa Permutation Bool Arith.
From Stdlib Require Import Sorted Qpower.
From stdpp Require Import gmap.
Import ListNotations.

Local Open Scope nat_scope.

(** ** JavaScript numbers and arrays *)

(** A number that may be [Infinity] (initial value of running minima). *)
Inductive num : Type :=
| Fin (q : Q)
| Infinity.

(** [a < b] on finite numbers. *)
Definition Qltb (a b : Q) : bool := if Qlt_le_dec a b then true else false.

(** [q < x] for a finite [q] and a possibly infinite [x]. *)
Definition lt_num (q : Q) (x : num) : bool :=
  match x with
  | Fin r => Qltb q r
  | Infinity => true
  end.

(** [graph[i][j]]: the theorems keep [i] and [j] inside the matrix; a read
    outside it ([undefined] in JavaScript) is not part of the model. *)
Definition graph_at (graph : list (list Q)) (i j : Z) : Q :=
  nth (Z.to_nat j) (nth (Z.to_nat i) graph []) 0%Q.

(** [tour[i]] for a loop counter [i]. *)
Definition at_ (tour : list Z) (i : nat) : Z := nth i tour (-1)%Z.

(** [arr[i] = x] where the array is extended when [i] is past its end
    (the skipped slots read as [hole]). *)
Definition js_set {A : Type} (hole : A) (arr : list A) (i : nat) (x : A) : list A :=
  if i <? length arr then <[i:=x]> arr
  else arr ++ repeat hole (i - length arr) ++ [x].

(** The values [lo, lo+1, ..., n-1] of a counter [for (let i = lo; i < n; i++)]
    that is used as a city id. *)
Definition range (lo n : nat) : list Z := map Z.of_nat (seq lo (n - lo)).

(** [Array.from({ length: n }, (_, i) => i)]. *)
Definition cities (n : nat) : list Z := range 0 n.

(** 32-bit integers of the bitwise operators. *)
Definition to_int32 (z : Z) : Z := ((z + 2 ^ 31) mod 2 ^ 32 - 2 ^ 31)%Z.
Definition js_shl (a b : Z) : Z := to_int32 (Z.shiftl (to_int32 a) (Z.land b 31)).
Definition js_and (a b : Z) : Z := to_int32 (Z.land (to_int32 a) (to_int32 b)).
Definition js_or (a b : Z) : Z := to_int32 (Z.lor (to_int32 a) (to_int32 b)).
Definition js_xor (a b : Z) : Z := to_int32 (Z.lxor (to_int32 a) (to_int32 b)).

(** A point: position, angle from the centre, id. *)
Record Point : Type := mkPoint {
  x : Q;
  y : Q;
  angle : Q;
  id : Z
}.

(** [arr.sort((a, b) => key(a) - key(b))]: the stable ascending order. *)
Section Sort.
Context {A : Type} (key : A -> Q).

Fixpoint sort_insert (a : A) (l : list A) : list A :=
  match l with
  | [] => [a]
  | b :: t => if Qltb (key b) (key a) then b :: sort_insert a t else a :: b :: t
  end.

Definition js_sort (l : list A) : list A := fold_right sort_insert [] l.
End Sort.

(** ** utils.js *)
Module TSPUtils.

(** [distance(start, end)]. *)
Definition distance (hypot : Q -> Q -> Q) (start end_ : Point) : Q :=
  hypot (y end_ - y start)%Q (x end_ - x start)%Q.

(** [calculateTourLength(tour, graph)]: the loop over [i = 0 .. n-1]. *)
Definition calculateTourLength (tour : list Z) (graph : list (list Q)) : Q :=
  let n := length tour in
  fold_left
    (fun totalDistance i =>
       (totalDistance + graph_at graph (at_ tour i) (at_ tour ((i + 1) mod n)))%Q)
    (seq 0 n) 0%Q.

(** [calculateEfficiency(solutionLength, optimalLength)]. *)
Definition calculateEfficiency (solutionLength optimalLength : Q) : Q :=
  if Qle_bool solutionLength 0 then 0%Q
  else ((optimalLength / solutionLength) * 100)%Q.

(** What [points[i]] reads past the end of the array; the loops below
    keep [i] inside it. *)
Definition no_point : Point := mkPoint 0 0 0 (-1).

(** [createDistanceMatrix(points)]: the two nested loops write
    [graph[i][j]] for [i !== j] into the matrix of zeros. *)
Definition createDistanceMatrix (hypot : Q -> Q -> Q) (points : list Point)
    : list (list Q) :=
  let n := length points in
  fold_left
    (fun graph i =>
       fold_left
         (fun graph j =>
            if negb (i =? j)
            then <[i := <[j := distance hypot (nth i points no_point)
                                               (nth j points no_point)]>
                          (nth i graph [])]> graph
            else graph)
         (seq 0 n) graph)
    (seq 0 n) (repeat (repeat 0%Q n) n).


(** The two nested [for] loops of [calculateMST]: the triple
    [(min, x, y)].  [graph[i][j]] counts as true when it is not zero. *)
Definition mst_scan (graph : list (list Q)) (n : nat) (selected : list bool)
    : num * nat * nat :=
  fold_left
    (fun st i =>
       if nth i selected false then
         fold_left
           (fun st j =>
              let g := graph_at graph (Z.of_nat i) (Z.of_nat j) in
              if negb (nth j selected false) && negb (Qeq_bool g 0) then
                if lt_num g (fst (fst st)) then (Fin g, i, j) else st
              else st)
           (seq 0 n) st
       else st)
    (seq 0 n) (Infinity, 0, 0).

(** [calculateMST(graph)]: the [while] loop runs [n - 1] times; its
    state is [(selected, mstWeight)]. *)
Definition calculateMST (graph : list (list Q)) : Q :=
  let n := length graph in
  snd (fold_left
         (fun st _ =>
            let scan := mst_scan graph n (fst st) in
            let x := snd (fst scan) in
            let y := snd scan in
            (js_set false (fst st) y true,
             (snd st + graph_at graph (Z.of_nat x) (Z.of_nat y))%Q))
         (seq 0 (n - 1))
         (js_set false (repeat false n) 0 true, 0%Q)).

End TSPUtils.

(** ** brute-force.js *)
Module BruteForce.

(** The object [{ tour, length }]. *)
Record TourResult : Type := mkTourResult {
  tour : list Z;
  length : num
}.

(** [[arr[i], arr[j]] = [arr[j], arr[i]]]. *)
Definition swap (arr : list Z) (i j : nat) : list Z :=
  <[j := at_ arr i]> (<[i := at_ arr j]> arr).

(** [permute(arr, start)] with the closure variables [bestTour] and
    [bestLength] threaded as [best]; returns the array (restored by the
    swaps) and the new best.  [depth] counts the levels of recursion left:
    a call has [depth = arr.length - start], so [depth = 0] is the call
    whose [for] loop is empty. *)
Fixpoint permute (depth : nat) (graph : list (list Q)) (arr : list Z)
    (start : nat) (best : list Z * Q) : list Z * (list Z * Q) :=
  if start + 1 =? List.length arr then
    let length := TSPUtils.calculateTourLength arr graph in
    (arr, if Qltb length (snd best) then (arr, length) else best)
  else
    match depth with
    | O => (arr, best)
    | S d =>
        fold_left
          (fun st i =>
             let arr1 := swap (fst st) start i in
             let r := permute d graph arr1 (start + 1) (snd st) in
             (swap (fst r) start i, snd r))
          (seq start (List.length arr - start)) (arr, best)
    end.

(** [bruteForceExact(graph, n)]. *)
Definition bruteForceExact (graph : list (list Q)) (n : nat) : TourResult :=
  let cities := cities n in
  let bestTour := cities in
  let bestLength := TSPUtils.calculateTourLength bestTour graph in
  let r := permute (n - 1) graph cities 1 (bestTour, bestLength) in
  {| tour := fst (snd r); length := Fin (snd (snd r)) |}.

(** The key [`${mask},${i}`] of the maps [dp] and [parent]. *)
Definition key (mask i : Z) : Z * Z := (mask, i).

(** Base case of [heldKarp]. *)
Definition hk_base (graph : list (list Q)) (n : nat)
    : gmap (Z * Z) Q * gmap (Z * Z) Z :=
  fold_left
    (fun st i =>
       let mask := js_shl 1 i in
       (<[key mask i := graph_at graph 0 i]> (fst st),
        <[key mask i := 0%Z]> (snd st)))
    (range 1 n) (∅, ∅).

(** [generateSubsets(start, current, count)]: the masks pushed, in order.
    [start] grows with each level, so a call has [fuel >= n - start] and
    [fuel = 0] is a call whose [for] loop is empty. *)
Fixpoint generateSubsets (fuel n size start : nat) (current : Z) (count : nat)
    : list Z :=
  if count =? size then [current]
  else
    match fuel with
    | O => []
    | S f =>
        flat_map
          (fun i => generateSubsets f n size (i + 1)
                      (js_or current (js_shl 1 (Z.of_nat i))) (count + 1))
          (seq start (n - start))
    end.

(** The loop over [prev]: the pair [(bestDist, bestPrev)]. *)
Definition hk_best_prev (graph : list (list Q)) (n : nat) (dp : gmap (Z * Z) Q)
    (prevMask last : Z) : num * Z :=
  fold_left
    (fun best prev =>
       if (js_and prevMask (js_shl 1 prev) =? 0)%Z then best
       else
         match dp !! key prevMask prev with
         | None => best
         | Some d =>
             let dist := (d + graph_at graph prev last)%Q in
             if lt_num dist (fst best) then (Fin dist, prev) else best
         end)
    (range 1 n) (Infinity, (-1)%Z).

(** One round of the loop over [last] for a given [mask]. *)
Definition hk_last (graph : list (list Q)) (n : nat) (mask : Z)
    (st : gmap (Z * Z) Q * gmap (Z * Z) Z) (last : Z)
    : gmap (Z * Z) Q * gmap (Z * Z) Z :=
  if (js_and mask (js_shl 1 last) =? 0)%Z then st
  else
    let prevMask := js_xor mask (js_shl 1 last) in
    if (prevMask =? 0)%Z then st
    else
      match hk_best_prev graph n (fst st) prevMask last with
      | (Fin bestDist, bestPrev) =>
          (<[key mask last := bestDist]> (fst st),
           <[key mask last := bestPrev]> (snd st))
      | (Infinity, _) => st
      end.

(** One round of the loop over [size]. *)
Definition hk_size (graph : list (list Q)) (n : nat)
    (st : gmap (Z * Z) Q * gmap (Z * Z) Z) (size : nat)
    : gmap (Z * Z) Q * gmap (Z * Z) Z :=
  let subsets := generateSubsets n n size 1 0%Z 0 in
  fold_left
    (fun st mask => fold_left (hk_last graph n mask) (range 1 n) st)
    subsets st.

(** The tables after the loop over [size]. *)
Definition hk_tables (graph : list (list Q)) (n : nat)
    : gmap (Z * Z) Q * gmap (Z * Z) Z :=
  fold_left (hk_size graph n) (seq 2 (n - 2)) (hk_base graph n).

(** [fullMask]. *)
Definition fullMask (n : nat) : Z := js_xor (js_shl 1 (Z.of_nat n) - 1) 1.

(** The loop that closes the tour: the pair [(minLength, lastCity)]. *)
Definition hk_close (graph : list (list Q)) (n : nat) (dp : gmap (Z * Z) Q)
    : num * Z :=
  fold_left
    (fun best i =>
       match dp !! key (fullMask n) i with
       | Some d =>
           let dist := (d + graph_at graph i 0)%Q in
           if lt_num dist (fst best) then (Fin dist, i) else best
       | None => best
       end)
    (range 1 n) (Infinity, (-1)%Z).

(** The [while] loop that rebuilds the tour; [current] is [None] when it
    is [undefined]. *)
Fixpoint reconstruct (fuel : nat) (parent : gmap (Z * Z) Z) (tour : list Z)
    (currentMask : Z) (current : option Z) : option (list Z) :=
  match current with
  | None => Some tour
  | Some c =>
      if (c =? 0)%Z then Some tour
      else
        match fuel with
        | O => None
        | S f =>
            reconstruct f parent (tour ++ [c])
              (js_xor currentMask (js_shl 1 c))
              (parent !! key currentMask c)
        end
  end.

(** [heldKarp(graph, n)]. *)
Definition heldKarp (fuel : nat) (graph : list (list Q)) (n : nat)
    : option TourResult :=
  let tables := hk_tables graph n in
  let closing := hk_close graph n (fst tables) in
  match reconstruct fuel (snd tables) [0%Z] (fullMask n) (Some (snd closing)) with
  | Some tour => Some {| tour := tour; length := fst closing |}
  | None => None
  end.




End BruteForce.

(** ** two-opt.js *)
Module TwoOpt.

(** The loop over [k] that writes the reversed segment into the copy. *)
Definition reverse_segment (currentTour : list Z) (i j : nat) : list Z :=
  fold_left
    (fun newTour k => <[i + 1 + k := at_ currentTour (j - k)]> newTour)
    (seq 0 (j - i)) currentTour.

(** Body of the loop over [j]; the state is [(currentTour, improved)]. *)
Definition scan_j (graph : list (list Q)) (n i : nat) (st : list Z * bool)
    (j : nat) : list Z * bool :=
  let currentTour := fst st in
  if (j =? n - 1) && (i =? 0) then st
  else
    let currentDistance :=
      (graph_at graph (at_ currentTour i) (at_ currentTour (i + 1)) +
       graph_at graph (at_ currentTour j) (at_ currentTour ((j + 1) mod n)))%Q in
    let newDistance :=
      (graph_at graph (at_ currentTour i) (at_ currentTour j) +
       graph_at graph (at_ currentTour (i + 1)) (at_ currentTour ((j + 1) mod n)))%Q in
    if Qltb newDistance currentDistance
    then (reverse_segment currentTour i j, true)
    else st.

(** Body of the loop over [i]. *)
Definition scan_i (graph : list (list Q)) (n : nat) (st : list Z * bool)
    (i : nat) : list Z * bool :=
  fold_left (scan_j graph n i) (seq (i + 2) (n - (i + 2))) st.

(** One round of the [while] loop, after [improved = false]. *)
Definition pass (graph : list (list Q)) (n : nat) (currentTour : list Z)
    : list Z * bool :=
  fold_left (scan_i graph n) (seq 0 (n - 1)) (currentTour, false).

(** The [while] loop; [remaining] is [maxIterations - iterations]. *)
Fixpoint improve_loop (remaining : nat) (graph : list (list Q)) (n : nat)
    (currentTour : list Z) : list Z :=
  match remaining with
  | O => currentTour
  | S r =>
      let st := pass graph n currentTour in
      if snd st then improve_loop r graph n (fst st) else fst st
  end.

(** [improve(tour, graph, maxIterations)]. *)
Definition improve (tour : list Z) (graph : list (list Q)) (maxIterations : nat)
    : list Z :=
  improve_loop maxIterations graph (length tour) tour.

End TwoOpt.

(** ** genetic.js: the crossover operator *)
Module GeneticAlgorithm.

(** [Math.floor(r * k)] for a draw [r] of [Math.random()]. *)
Definition random_index (r : Q) (k : nat) : nat :=
  Z.to_nat (Qfloor (r * inject_Z (Z.of_nat k))).

(** The loop that copies the segment of [parent1]; the state is
    [(child, used)]. *)
Definition copy_segment (parent1 : list Z) (start end_ : nat)
    (st : list Z * gset Z) : list Z * gset Z :=
  fold_left
    (fun st i => (<[i := at_ parent1 i]> (fst st), {[at_ parent1 i]} ∪ snd st))
    (seq start (end_ + 1 - start)) st.

(** The loop that fills the rest from [parent2]; the state is
    [(child, idx)]. *)
Definition fill_rest (parent2 : list Z) (n end_ : nat) (used : gset Z)
    (st : list Z * nat) : list Z * nat :=
  fold_left
    (fun st i =>
       let city := at_ parent2 ((end_ + 1 + i) mod n) in
       if bool_decide (city ∈ used) then st
       else (<[snd st := city]> (fst st), (snd st + 1) mod n))
    (seq 0 n) st.

(** The body of [crossover] once [start] and [end] are drawn.  For
    [n >= 1] every write is inside the array [child]. *)
Definition crossover_at (start end_ : nat) (parent1 parent2 : list Z) : list Z :=
  let n := length parent1 in
  let child := repeat (-1)%Z n in
  let seg := copy_segment parent1 start end_ (child, ∅) in
  fst (fill_rest parent2 n end_ (snd seg) (fst seg, (end_ + 1) mod n)).

(** [crossover(parent1, parent2)] with the two draws [r1] and [r2] of
    [Math.random()]. *)
Definition crossover (r1 r2 : Q) (parent1 parent2 : list Z) : list Z :=
  let n := length parent1 in
  let start := random_index r1 n in
  let end_ := start + random_index r2 (n - start) in
  crossover_at start end_ parent1 parent2.


(** [randomTour(n)]: the Fisher-Yates shuffle; [rand k] is the draw of
    the call of [Math.random()] number [k] (from 0) of this run. *)
Definition randomTour (rand : nat -> Q) (n : nat) : list Z :=
  fold_left
    (fun tour i =>
       let j := random_index (rand (n - 1 - i)) (i + 1) in
       BruteForce.swap tour i j)
    (rev (seq 1 (n - 1))) (cities n).

(** [mutate(tour)] with the two draws [r1] and [r2]; as for [crossover],
    the two writes are inside the array for [n >= 1]. *)
Definition mutate (r1 r2 : Q) (tour : list Z) : list Z :=
  let n := length tour in
  let i := random_index r1 n in
  let j := random_index r2 n in
  BruteForce.swap tour i j.


(** Numbers as [optimize] computes with them: the fitness [1 / length]
    of a tour of length zero is [Infinity], and the roulette wheel then
    meets [Infinity], [-Infinity] and [NaN]. *)
Inductive jsnum : Type :=
| JNum (q : Q)
| JPosInf
| JNegInf
| JNaN.

(** [a + b]. *)
Definition js_add (a b : jsnum) : jsnum :=
  match a, b with
  | JNaN, _ | _, JNaN => JNaN
  | JNum p, JNum q => JNum (p + q)
  | JPosInf, JNegInf | JNegInf, JPosInf => JNaN
  | JPosInf, _ | _, JPosInf => JPosInf
  | JNegInf, _ | _, JNegInf => JNegInf
  end.

(** [a - b]. *)
Definition js_sub (a b : jsnum) : jsnum :=
  match a, b with
  | JNaN, _ | _, JNaN => JNaN
  | JNum p, JNum q => JNum (p - q)
  | JPosInf, JPosInf | JNegInf, JNegInf => JNaN
  | JPosInf, _ | _, JNegInf => JPosInf
  | JNegInf, _ | _, JPosInf => JNegInf
  end.

(** [r * b] for a draw [r]. *)
Definition js_scale (r : Q) (b : jsnum) : jsnum :=
  match b with
  | JNum q => JNum (r * q)
  | JNaN => JNaN
  | JPosInf =>
      if Qltb 0 r then JPosInf else if Qltb r 0 then JNegInf else JNaN
  | JNegInf =>
      if Qltb 0 r then JNegInf else if Qltb r 0 then JPosInf else JNaN
  end.

(** [a <= 0]. *)
Definition js_le_zero (a : jsnum) : bool :=
  match a with
  | JNum q => Qle_bool q 0
  | JNegInf => true
  | JPosInf | JNaN => false
  end.

(** [a > b]. *)
Definition js_gt (a b : jsnum) : bool :=
  match a, b with
  | JNum p, JNum q => Qltb q p
  | JPosInf, JNum _ | JPosInf, JNegInf | JNum _, JNegInf => true
  | _, _ => false
  end.

(** [1 / calculateTourLength(tour, graph)]; the sum that gives the
    length starts from [0] and is never [-0]. *)
Definition fitness (graph : list (list Q)) (tour : list Z) : jsnum :=
  let length := TSPUtils.calculateTourLength tour graph in
  if Qeq_bool length 0 then JPosInf else JNum (1 / length).

(** The loop of [select()]: [population[i]] for the first [i] at which
    [r] has dropped to zero or below, [population[populationSize - 1]]
    when there is none.  [None] stands for [undefined]. *)
Fixpoint select_loop (population : list (list Z)) (fitnesses : list jsnum)
    (populationSize : nat) (r : jsnum) (i rounds : nat) : option (list Z) :=
  match rounds with
  | O => if populationSize =? 0 then None
         else population !! (populationSize - 1)
  | S c =>
      let r' := js_sub r (nth i fitnesses JNaN) in
      if js_le_zero r' then population !! i
      else select_loop population fitnesses populationSize r' (i + 1) c
  end.

(** [select()] with its draw [r]. *)
Definition select (r : Q) (population : list (list Z)) (fitnesses : list jsnum)
    (populationSize : nat) : option (list Z) :=
  let totalFitness := fold_left js_add fitnesses (JNum 0) in
  select_loop population fitnesses populationSize (js_scale r totalFitness)
    0 populationSize.

(** The loop that looks for the fittest individual. *)
Definition best_index (fitnesses : list jsnum) (populationSize : nat) : nat :=
  fold_left
    (fun bestIdx i =>
       if js_gt (nth i fitnesses JNaN) (nth bestIdx fitnesses JNaN)
       then i else bestIdx)
    (seq 1 (populationSize - 1)) 0.

(** One round of the loop that fills [newPopulation]; the state is
    [newPopulation] and the number of calls of [Math.random()] made so
    far, or [None] once an exception is thrown ([crossover] of an
    [undefined] parent). *)
Definition breed (rand : nat -> Q) (mutationRate : Q)
    (population : list (list Z)) (fitnesses : list jsnum)
    (populationSize : nat) (st : option (list (list Z) * nat))
    : option (list (list Z) * nat) :=
  match st with
  | None => None
  | Some (newPopulation, k) =>
      match select (rand k) population fitnesses populationSize,
            select (rand (k + 1)) population fitnesses populationSize with
      | Some parent1, Some parent2 =>
          let child := crossover (rand (k + 2)) (rand (k + 3)) parent1 parent2 in
          if Qltb (rand (k + 4)) mutationRate
          then Some (newPopulation ++
                       [mutate (rand (k + 5)) (rand (k + 6)) child], k + 7)
          else Some (newPopulation ++ [child], k + 5)
      | _, _ => None
      end
  end.

(** One generation.  With an empty population the code keeps an
    [undefined] individual, on which the next [calculateTourLength]
    throws: the model stops there. *)
Definition generation (rand : nat -> Q) (graph : list (list Q))
    (populationSize : nat) (mutationRate : Q)
    (st : option (list (list Z) * nat)) : option (list (list Z) * nat) :=
  match st with
  | None => None
  | Some (population, k) =>
      let fitnesses := map (fitness graph) population in
      match population !! best_index fitnesses populationSize with
      | None => None
      | Some elite =>
          fold_left
            (fun st _ =>
               breed rand mutationRate population fitnesses populationSize st)
            (seq 1 (populationSize - 1)) (Some ([elite], k))
      end
  end.

(** The initial population: one [randomTour(n)] after the other. *)
Definition initial_population (rand : nat -> Q) (n populationSize : nat)
    : list (list Z) * nat :=
  fold_left
    (fun st _ =>
       (fst st ++ [randomTour (fun j => rand (snd st + j)) n],
        snd st + (n - 1)))
    (seq 0 populationSize) ([], 0).

(** The last loop: the shortest tour of the final population. *)
Definition best_of (graph : list (list Q)) (population : list (list Z))
    : option (list Z) :=
  match population with
  | [] => None
  | first :: _ =>
      Some (fst (fold_left
                   (fun best tour =>
                      let length := TSPUtils.calculateTourLength tour graph in
                      if Qltb length (snd best) then (tour, length) else best)
                   population
                   (first, TSPUtils.calculateTourLength first graph)))
  end.

(** [optimize(graph, n, populationSize, generations, mutationRate)] for
    [n >= 1]; [rand k] is the draw of call number [k] of
    [Math.random()], [None] an exception. *)
Definition optimize (rand : nat -> Q) (graph : list (list Q))
    (n populationSize generations : nat) (mutationRate : Q)
    : option (list Z) :=
  match fold_left
          (fun st _ => generation rand graph populationSize mutationRate st)
          (seq 0 generations)
          (Some (initial_population rand n populationSize)) with
  | None => None
  | Some (population, _) => best_of graph population
  end.

End GeneticAlgorithm.

(** ** greedy-edge.js *)
Module GreedyEdge.

(** An entry [{ from, to, dist }] of [edges]. *)
Record Edge : Type := mkEdge {
  from : nat;
  to : nat;
  dist : Q
}.

(** The list of all edges [i < j], in the order the two loops push them. *)
Definition all_edges (graph : list (list Q)) (n : nat) : list Edge :=
  flat_map
    (fun i =>
       map (fun j => mkEdge i j (graph_at graph (Z.of_nat i) (Z.of_nat j)))
           (seq (i + 1) (n - (i + 1))))
    (seq 0 n).

(** [find(x)] with path compression: the new [parent] array and the root.
    [None] when the recursion is deeper than [fuel]. *)
Fixpoint find (fuel : nat) (parent : list nat) (x : nat) : option (list nat * nat) :=
  match fuel with
  | O => None
  | S f =>
      let px := nth x parent 0 in
      if px =? x then Some (parent, px)
      else
        match find f parent px with
        | None => None
        | Some (parent', r) => Some (<[x := r]> parent', r)
        end
  end.

(** [union(x, y)]: [find(x)] is evaluated first, then [find(y)]. *)
Definition union (fuel : nat) (parent : list nat) (x y : nat) : option (list nat) :=
  match find fuel parent x with
  | None => None
  | Some (p1, rx) =>
      match find fuel p1 y with
      | None => None
      | Some (p2, ry) => Some (<[rx := ry]> p2)
      end
  end.

(** The variables the edge loop updates. *)
Record State : Type := mkState {
  degree : list nat;
  parent : list nat;
  adj : list (list nat);
  edgeCount : nat
}.

(** The statements after the two [continue] tests: the edge is added. *)
Definition add_edge (fuel : nat) (st : State) (e : Edge) : option State :=
  let adj1 := <[from e := nth (from e) (adj st) [] ++ [to e]]> (adj st) in
  let adj2 := <[to e := nth (to e) adj1 [] ++ [from e]]> adj1 in
  let degree1 := <[from e := nth (from e) (degree st) 0 + 1]> (degree st) in
  let degree2 := <[to e := nth (to e) degree1 0 + 1]> degree1 in
  match union fuel (parent st) (from e) (to e) with
  | None => None
  | Some parent' => Some (mkState degree2 parent' adj2 (edgeCount st + 1))
  end.

(** Body of the loop over the sorted edges; after the [break] the state no
    longer changes. *)
Definition edge_step (fuel n : nat) (st : State) (e : Edge) : option State :=
  if n <=? edgeCount st then Some st
  else if (2 <=? nth (from e) (degree st) 0) || (2 <=? nth (to e) (degree st) 0)
  then Some st
  else if edgeCount st <? n - 1 then
    match find fuel (parent st) (from e) with
    | None => None
    | Some (p1, r1) =>
        match find fuel p1 (to e) with
        | None => None
        | Some (p2, r2) =>
            let st' := mkState (degree st) p2 (adj st) (edgeCount st) in
            if r1 =? r2 then Some st' else add_edge fuel st' e
        end
    end
  else add_edge fuel st e.

(** The loop over the sorted edges. *)
Fixpoint edge_loop (fuel n : nat) (edges : list Edge) (st : State) : option State :=
  match edges with
  | [] => Some st
  | e :: rest =>
      match edge_step fuel n st e with
      | None => None
      | Some st' => edge_loop fuel n rest st'
      end
  end.

(** The [while] loop that walks the adjacency lists; [k] is
    [n - tour.length], every round pushes one city. *)
Fixpoint walk (k : nat) (adj : list (list nat)) (visited : list bool)
    (tour : list Z) (current : nat) : list Z :=
  match k with
  | O => tour
  | S k' =>
      let tour' := tour ++ [Z.of_nat current] in
      let visited' := js_set false visited current true in
      match List.find (fun neighbor => negb (nth neighbor visited' false))
                      (nth current adj []) with
      | None => tour'
      | Some next => walk k' adj visited' tour' next
      end
  end.

(** [generateTour(points, graph)]. *)
Definition generateTour (fuel : nat) (points : list Point) (graph : list (list Q))
    : option (list Z) :=
  let n := length points in
  let edges := js_sort dist (all_edges graph n) in
  let st0 := mkState (repeat 0 n) (seq 0 n) (repeat [] n) 0 in
  match edge_loop fuel n edges st0 with
  | None => None
  | Some st => Some (walk n (adj st) (repeat false n) [] 0)
  end.

End GreedyEdge.

(** ** nearest-neighbor.js *)
Module NearestNeighbor.

(** The [for] loop that looks for the nearest unvisited city: the pair
    [(nearest, nearestDist)]. *)
Definition nearest_scan (graph : list (list Q)) (n : nat) (visited : list bool)
    (current : Z) : Z * num :=
  fold_left
    (fun best i =>
       if negb (nth i visited false) &&
          lt_num (graph_at graph current (Z.of_nat i)) (snd best)
       then (Z.of_nat i, Fin (graph_at graph current (Z.of_nat i)))
       else best)
    (seq 0 n) ((-1)%Z, Infinity).

(** The [while (tour.length < n)] loop.  A round that finds no city leaves
    every variable as it was. *)
Fixpoint tour_loop (fuel : nat) (graph : list (list Q)) (n : nat)
    (visited : list bool) (tour : list Z) (current : Z) : option (list Z) :=
  if length tour <? n then
    match fuel with
    | O => None
    | S f =>
        let nearest := fst (nearest_scan graph n visited current) in
        if (nearest =? -1)%Z then tour_loop f graph n visited tour current
        else tour_loop f graph n (js_set false visited (Z.to_nat nearest) true)
               (tour ++ [nearest]) nearest
    end
  else Some tour.

(** [generateTour(points, graph, startCity)]. *)
Definition generateTour (fuel : nat) (points : list Point) (graph : list (list Q))
    (startCity : nat) : option (list Z) :=
  let n := length points in
  let visited := repeat false n in
  let current := Z.of_nat startCity in
  tour_loop fuel graph n (js_set false visited startCity true) [current] current.

End NearestNeighbor.

(** ** sonar-visit.js *)
Module SonarVisit.

(** The [forEach] that groups the points by angle bucket. *)
Definition group_points (PI angleStep : Q) (points : list Point)
    : gmap Z (list Point) :=
  fold_left
    (fun angleBuckets point =>
       let angle := if Qltb (angle point) 0 then (angle point + 2 * PI)%Q
                    else angle point in
       let bucketIndex := Qfloor (angle / angleStep) in
       <[bucketIndex := default [] (angleBuckets !! bucketIndex) ++ [point]]>
         angleBuckets)
    points ∅.

(** [generateTour(points, gridSize)]. *)
Definition generateTour (PI : Q) (hypot : Q -> Q -> Q) (points : list Point)
    (gridSize : nat) : list Z :=
  let angleSteps := 4 * gridSize in
  let angleStep := (2 * PI / inject_Z (Z.of_nat angleSteps))%Q in
  let angleBuckets := group_points PI angleStep points in
  let sorted :=
    js_sort (fun a => hypot (x a - (1 # 2))%Q (y a - (1 # 2))%Q) <$> angleBuckets in
  flat_map
    (fun i =>
       match sorted !! Z.of_nat i with
       | Some bucketPoints => map id bucketPoints
       | None => []
       end)
    (seq 0 angleSteps).

End SonarVisit.

(** ** angular-sort.js *)
Module AngularSort.

(** [generateTour(points)]. *)
Definition generateTour (points : list Point) : list Z :=
  map id (js_sort angle points).

End AngularSort.

(** ** zigzag.js *)
Module Zigzag.

(** An element of [tourPoints]: the point and its [originalId]. *)
Definition TourPoint : Type := (Point * Z)%type.
Definition originalId (p : TourPoint) : Z := snd p.

(** What [points[idx]] reads when there is no such point. *)
Definition no_point : Point := mkPoint 0 0 0 (-1).

(** [pts[i]]. *)
Definition pt (pts : list TourPoint) (i : nat) : TourPoint :=
  nth i pts (no_point, (-1)%Z).

(** [shouldZigzag(i, pts)]. *)
Definition shouldZigzag (hypot : Q -> Q -> Q) (i : nat) (pts : list TourPoint)
    : bool :=
  let p1 := fst (pt pts ((i - 1 + length pts) mod length pts)) in
  let p2 := fst (pt pts (i mod length pts)) in
  let p3 := fst (pt pts ((i + 1) mod length pts)) in
  let p4 := fst (pt pts ((i + 2) mod length pts)) in
  let segment1 := TSPUtils.distance hypot p1 p2 in
  let segment3 := TSPUtils.distance hypot p3 p4 in
  let zigZagSegment1 := TSPUtils.distance hypot p1 p3 in
  let zigZagSegment3 := TSPUtils.distance hypot p2 p4 in
  Qltb (zigZagSegment1 + zigZagSegment3) (segment1 + segment3).

(** The [while (i < tourPoints.length)] loop: the ids pushed to [newTour]. *)
Fixpoint emit (fuel : nat) (hypot : Q -> Q -> Q) (tourPoints : list TourPoint)
    (i : nat) (newTour : list Z) : option (list Z) :=
  let len := length tourPoints in
  if i <? len then
    match fuel with
    | O => None
    | S f =>
        if (2 <? len - i) && shouldZigzag hypot i tourPoints then
          emit f hypot tourPoints (i + 3)
            (newTour ++ [originalId (pt tourPoints (i - 1));
                         originalId (pt tourPoints ((i + 1) mod len));
                         originalId (pt tourPoints (i mod len));
                         originalId (pt tourPoints ((i + 2) mod len))])
        else
          emit f hypot tourPoints (i + 1)
            (newTour ++ [originalId (pt tourPoints (i - 1));
                         originalId (pt tourPoints (i mod len))])
    end
  else Some newTour.

(** [new Set(newTour)] as the list of its elements in insertion order. *)
Definition set_add (s : list Z) (v : Z) : list Z :=
  if existsb (Z.eqb v) s then s else s ++ [v].
Definition new_Set (l : list Z) : list Z := fold_left set_add l [].

(** [tourIndices.map(idx => ({ ...points[idx], originalId: idx }))]. *)
Definition tour_points (tourIndices : list Z) (points : list Point)
    : list TourPoint :=
  map (fun idx => (nth (Z.to_nat idx) points no_point, idx)) tourIndices.

(** [optimize(tourIndices, points, graph)]. *)
Definition optimize (fuel : nat) (hypot : Q -> Q -> Q) (tourIndices : list Z)
    (points : list Point) (graph : list (list Q)) : option (list Z) :=
  let tourPoints := tour_points tourIndices points in
  option_map new_Set (emit fuel hypot tourPoints 1 []).

End Zigzag.

(** ** simulated-annealing.js *)
Module SimulatedAnnealing.

(** The [while (left < right)] loop that reverses [newTour[left..right]]
    by swaps; [rounds] is the number of rounds it may take, and
    [right - left] rounds are always enough. *)
Fixpoint reverse_between (rounds : nat) (newTour : list Z) (left right : nat)
    : list Z :=
  match rounds with
  | O => newTour
  | S r =>
      if left <? right
      then reverse_between r (BruteForce.swap newTour left right)
             (left + 1) (right - 1)
      else newTour
  end.

(** The variables of the [for] loop; [calls] counts the calls of
    [Math.random()] made so far. *)
Record State : Type := mkState {
  currentTour : list Z;
  currentLength : Q;
  bestTour : list Z;
  bestLength : Q;
  temperature : Q;
  calls : nat
}.

(** One iteration.  [rand k] is the draw of call number [k] of
    [Math.random()] and [exp] stands for [Math.exp].  The tour has
    [n >= 2] cities, so that all the indices are inside it, and
    [(minIdx - 1 + n) % n] is written without the negative intermediate
    value.  Numbers are exact: the theorems keep [temperature] away
    from zero. *)
Definition step (rand : nat -> Q) (exp : Q -> Q) (graph : list (list Q))
    (coolingRate : Q) (n : nat) (st : State) : State :=
  let i := GeneticAlgorithm.random_index (rand (calls st)) (n - 1) in
  let j0 := GeneticAlgorithm.random_index (rand (calls st + 1)) (n - 1) in
  let j := if i <=? j0 then j0 + 1 else j0 in
  let minIdx := if i <? j then i else j in
  let maxIdx := if i <? j then j else i in
  let prev := (minIdx + n - 1) mod n in
  let nextMax := (maxIdx + 1) mod n in
  let tour := currentTour st in
  let oldDist :=
    (graph_at graph (at_ tour prev) (at_ tour minIdx) +
     graph_at graph (at_ tour maxIdx) (at_ tour nextMax))%Q in
  let newDist :=
    (graph_at graph (at_ tour prev) (at_ tour maxIdx) +
     graph_at graph (at_ tour minIdx) (at_ tour nextMax))%Q in
  let delta := (newDist - oldDist)%Q in
  let downhill := Qltb delta 0 in
  let accepted :=
    downhill ||
    Qltb (rand (calls st + 2)) (exp (- delta / temperature st)%Q) in
  let calls' := if downhill then calls st + 2 else calls st + 3 in
  if accepted then
    let newTour := reverse_between (maxIdx - minIdx) tour minIdx maxIdx in
    let newLength := TSPUtils.calculateTourLength newTour graph in
    if Qltb newLength (bestLength st)
    then mkState newTour newLength newTour newLength
           (temperature st * coolingRate)%Q calls'
    else mkState newTour newLength (bestTour st) (bestLength st)
           (temperature st * coolingRate)%Q calls'
  else
    mkState tour (currentLength st) (bestTour st) (bestLength st)
      (temperature st * coolingRate)%Q calls'.

(** [optimize(graph, initialTour, maxIterations, initialTemperature,
    coolingRate)]. *)
Definition optimize (rand : nat -> Q) (exp : Q -> Q) (graph : list (list Q))
    (initialTour : list Z) (maxIterations : nat)
    (initialTemperature coolingRate : Q) : list Z :=
  let currentLength := TSPUtils.calculateTourLength initialTour graph in
  let n := length initialTour in
  bestTour
    (fold_left (fun st _ => step rand exp graph coolingRate n st)
       (seq 0 maxIterations)
       (mkState initialTour currentLength initialTour currentLength
          initialTemperature 0)).

End SimulatedAnnealing.

(** ** Vocabulary of the properties *)

(** [graph] has [n] rows of [n] entries. *)
Definition square (n : nat) (graph : list (list Q)) : Prop :=
  length graph = n /\ Forall (fun row => length row = n) graph.

(** [graph[i][j] = graph[j][i]] for all cities [i], [j] below [n]. *)
Definition symmetric (n : nat) (graph : list (list Q)) : Prop :=
  forall i j, i < n -> j < n ->
    (graph_at graph (Z.of_nat i) (Z.of_nat j) ==
     graph_at graph (Z.of_nat j) (Z.of_nat i))%Q.

(** No entry of the matrix is negative. *)
Definition non_negative (n : nat) (graph : list (list Q)) : Prop :=
  forall i j, i < n -> j < n ->
    (0 <= graph_at graph (Z.of_nat i) (Z.of_nat j))%Q.

(** [tour] is a permutation of [{0..n-1}]. *)
Definition is_tour (n : nat) (tour : list Z) : Prop :=
  Permutation tour (cities n).

(** Sum of the distances between neighbours of an open path. *)
Fixpoint path_length (graph : list (list Q)) (path : list Z) : Q :=
  match path with
  | a :: (b :: _) as rest => (graph_at graph a b + path_length graph rest)%Q
  | _ => 0%Q
  end.

(** Sum of the edge distances of a tour, the wrap-around edge included. *)
Definition cycle_length (graph : list (list Q)) (tour : list Z) : Q :=
  match tour with
  | [] => 0%Q
  | a :: _ => path_length graph (tour ++ [a])
  end.

(** Sum of [f i] over a list of counters. *)
Fixpoint Qsum (f : nat -> Q) (l : list nat) : Q :=
  match l with
  | [] => 0%Q
  | i :: t => (f i + Qsum f t)%Q
  end.

(** *** Reference for two-opt: restart after the first improving reversal *)
Module TwoOptRestart.

(** The pairs [(i, j)] in the order the two loops visit them. *)
Definition scan_order (n : nat) : list (nat * nat) :=
  flat_map (fun i => map (pair i) (seq (i + 2) (n - (i + 2)))) (seq 0 (n - 1)).

(** The test of the loop body: the pair is not skipped and the reversal
    shortens the tour. *)
Definition improves (graph : list (list Q)) (n : nat) (tour : list Z)
    (p : nat * nat) : bool :=
  let i := fst p in
  let j := snd p in
  negb ((j =? n - 1) && (i =? 0)) &&
  Qltb (graph_at graph (at_ tour i) (at_ tour j) +
        graph_at graph (at_ tour (i + 1)) (at_ tour ((j + 1) mod n)))
       (graph_at graph (at_ tour i) (at_ tour (i + 1)) +
        graph_at graph (at_ tour j) (at_ tour ((j + 1) mod n))).

(** The loop body at a pair. *)
Definition scan_step (graph : list (list Q)) (n : nat) (st : list Z * bool)
    (p : nat * nat) : list Z * bool :=
  TwoOpt.scan_j graph n (fst p) st (snd p).

(** One pass that stops at the first improving pair and applies it. *)
Definition pass (graph : list (list Q)) (n : nat) (currentTour : list Z)
    : list Z * bool :=
  match List.find (improves graph n currentTour) (scan_order n) with
  | Some p => (TwoOpt.reverse_segment currentTour (fst p) (snd p), true)
  | None => (currentTour, false)
  end.

(** The loop: every applied reversal ends the pass, the next pass scans
    the new tour from the top. *)
Fixpoint improve_loop (remaining : nat) (graph : list (list Q)) (n : nat)
    (currentTour : list Z) : list Z :=
  match remaining with
  | O => currentTour
  | S r =>
      let st := pass graph n currentTour in
      if snd st then improve_loop r graph n (fst st) else fst st
  end.

Definition improve (tour : list Z) (graph : list (list Q)) (maxIterations : nat)
    : list Z :=
  improve_loop maxIterations graph (length tour) tour.

End TwoOptRestart.

(** Executable checks of the three conditions on a matrix. *)
Definition squareb (n : nat) (graph : list (list Q)) : bool :=
  (length graph =? n) && forallb (fun row => length row =? n) graph.

Definition all_pairs_below (n : nat) (f : nat -> nat -> bool) : bool :=
  forallb (fun i => forallb (f i) (seq 0 n)) (seq 0 n).

Definition symmetricb (n : nat) (graph : list (list Q)) : bool :=
  all_pairs_below n
    (fun i j => Qeq_bool (graph_at graph (Z.of_nat i) (Z.of_nat j))
                         (graph_at graph (Z.of_nat j) (Z.of_nat i))).

Definition non_negativeb (n : nat) (graph : list (list Q)) : bool :=
  all_pairs_below n
    (fun i j => Qle_bool 0 (graph_at graph (Z.of_nat i) (Z.of_nat j))).

(** What the loop of the nearest-neighbour heuristic keeps true:
    [visited] marks the cities of [tour], which are distinct cities below
    [n], the first of them [start]. *)
Definition nn_invariant (n : nat) (start : Z) (visited : list bool)
    (tour : list Z) : Prop :=
  length visited = n /\ List.NoDup tour /\ hd (-1)%Z tour = start /\
  (forall c, In c tour -> exists i, i < n /\ c = Z.of_nat i) /\
  (forall i, i < n -> nth i visited false = true <-> In (Z.of_nat i) tour).

(** The elements of a list in the order of their first occurrence. *)
Fixpoint first_occurrences (l : list Z) : list Z :=
  match l with
  | [] => []
  | v :: t => v :: List.filter (fun w => negb (w =? v)%Z) (first_occurrences t)
  end.

(** Writing one city at [idx] and stepping [idx] round the array: what the
    second loop of the crossover does with a city it keeps. *)
Definition cyclic_write (n : nat) (st : list Z * nat) (city : Z) : list Z * nat :=
  (<[snd st := city]> (fst st), (snd st + 1) mod n).

(** Distance from [idx] forward to [pos], round an array of [n] cells. *)
Definition offset (n idx pos : nat) : nat :=
  if idx <=? pos then pos - idx else pos + n - idx.

(** *** Vocabulary of the Held-Karp tables *)












(** *** Vocabulary of the greedy-edge construction *)

(** [Root parent k x r]: following the [parent] entries from [x] reaches
    the root [r] after [k] steps. *)
Inductive Root (parent : list nat) : nat -> nat -> nat -> Prop :=
| Root_here (x : nat) : nth x parent 0 = x -> Root parent 0 x x
| Root_step (k x y r : nat) :
    nth x parent 0 = y -> y <> x -> Root parent k y r -> Root parent (S k) x r.

(** [x] comes right before [y] in [path]. *)
Definition link (path : list nat) (x y : nat) : Prop :=
  exists l1 l2, path = l1 ++ x :: y :: l2.

(** [x] and [y] are neighbours in [path]. *)
Definition adjacent (path : list nat) (x y : nat) : Prop :=
  link path x y \/ link path y x.

(** The accepted edges form the vertex-disjoint simple paths [paths]. *)
Definition paths_ok (n : nat) (paths : list (list nat)) : Prop :=
  Permutation (concat paths) (seq 0 n) /\ Forall (fun P => P <> []) paths.

(** [x] and [y] are neighbours in one of the [paths]. *)
Definition joined (paths : list (list nat)) (x y : nat) : Prop :=
  exists P, In P paths /\ adjacent P x y.

(** [x] and [y] lie on the same one of the [paths]. *)
Definition together (paths : list (list nat)) (x y : nat) : Prop :=
  exists P, In P paths /\ In x P /\ In y P.

(** [adj] lists, for every city, its neighbours in the paths. *)
Definition adj_ok (n : nat) (adj : list (list nat)) (paths : list (list nat))
    : Prop :=
  length adj = n /\
  forall x, x < n ->
    List.NoDup (nth x adj []) /\
    forall y, In y (nth x adj []) <-> joined paths x y.

(** [degree] counts the neighbours. *)
Definition deg_ok (n : nat) (degree : list nat) (adj : list (list nat)) : Prop :=
  length degree = n /\
  forall x, x < n -> nth x degree 0 = length (nth x adj []).

(** The union-find forest has one tree per path, of height at most
    [bound]. *)
Definition uf_ok (n : nat) (parent : list nat) (paths : list (list nat))
    (bound : nat) : Prop :=
  length parent = n /\
  (forall x, x < n -> nth x parent 0 < n) /\
  (forall x, x < n -> exists r k, Root parent k x r /\ k <= bound /\ r < n) /\
  (forall x y rx ry kx ky, x < n -> y < n ->
     Root parent kx x rx -> Root parent ky y ry ->
     (rx = ry <-> together paths x y)).

(** An edge [a]-[b] that the loop has passed stays unusable: an end has
    two neighbours already, or the ends are on one path while the tour
    is not ready to be closed. *)
Definition blocked (degree : list nat) (paths : list (list nat))
    (a b : nat) : Prop :=
  2 <= nth a degree 0 \/ 2 <= nth b degree 0 \/
  (together paths a b /\ 2 <= length paths).

(** The state of the loop while fewer than [n] edges are accepted. *)
Definition forest_ok (n : nat) (st : GreedyEdge.State)
    (paths : list (list nat)) : Prop :=
  paths_ok n paths /\
  adj_ok n (GreedyEdge.adj st) paths /\
  deg_ok n (GreedyEdge.degree st) (GreedyEdge.adj st) /\
  uf_ok n (GreedyEdge.parent st) paths (GreedyEdge.edgeCount st) /\
  GreedyEdge.edgeCount st + length paths = n.

(** [adj] lists the neighbours along [P], which covers all cities, and
    the two ends of [P] are neighbours as well. *)
Definition ring_ok (n : nat) (adj : list (list nat)) (P : list nat) : Prop :=
  Permutation P (seq 0 n) /\
  length adj = n /\
  forall x y, x < n ->
    (In y (nth x adj []) <->
     adjacent P x y \/
     (x = hd 0 P /\ y = List.last P 0) \/ (x = List.last P 0 /\ y = hd 0 P)).

(** The loop has passed the edges [scanned] and the accepted ones form
    paths that leave every passed edge unusable. *)
Definition scanning (n : nat) (st : GreedyEdge.State)
    (scanned : list GreedyEdge.Edge) : Prop :=
  exists paths,
    forest_ok n st paths /\
    forall e, In e scanned ->
      blocked (GreedyEdge.degree st) paths (GreedyEdge.from e) (GreedyEdge.to e).

(** The [n] accepted edges form one closed tour. *)
Definition closed_tour (n : nat) (st : GreedyEdge.State) : Prop :=
  GreedyEdge.edgeCount st = n /\ exists P, ring_ok n (GreedyEdge.adj st) P.

(** Every entry of [tour] is a city below [n]. *)
Definition in_range (n : nat) (tour : list Z) : Prop :=
  Forall (fun c => (0 <= c < Z.of_nat n)%Z) tour.


(** Every city of [tour] after the first is, among the cities that do
    not come before it, one that is nearest to its predecessor. *)
Definition nearest_first (graph : list (list Q)) (n : nat) (tour : list Z)
    : Prop :=
  forall pre a b post, tour = pre ++ a :: b :: post ->
    forall i, i < n -> ~ In (Z.of_nat i) (pre ++ [a]) ->
      (graph_at graph a b <= graph_at graph a (Z.of_nat i))%Q.

(** The bucket of the sweep that a point falls in (sonar-visit.js): an
    angle below zero is shifted by [2 PI] first. *)
Definition sweep_bucket (PI : Q) (gridSize : nat) (point : Point) : Z :=
  Qfloor ((if Qltb (angle point) 0 then (angle point + 2 * PI)%Q
           else angle point) /
          (2 * PI / inject_Z (Z.of_nat (4 * gridSize)))).

(** The sort key inside a bucket: the distance from the centre. *)
Definition centre_distance (hypot : Q -> Q -> Q) (a : Point) : Q :=
  hypot (x a - (1 # 2))%Q (y a - (1 # 2))%Q.



(** ** Spanning trees, for [calculateMST] *)

(** [E] has an edge between [u] and [v], in either direction. *)
Definition edge_in (E : list (nat * nat)) (u v : nat) : Prop :=
  In (u, v) E \/ In (v, u) E.

(** [w] can be reached from [u] along edges of [E]. *)
Inductive reach (E : list (nat * nat)) : nat -> nat -> Prop :=
| reach_here (u : nat) : reach E u u
| reach_step (u v w : nat) : edge_in E u v -> reach E v w -> reach E u w.

(** Neighbours in [l] are joined by an edge of [E]. *)
Fixpoint chain (E : list (nat * nat)) (l : list nat) : Prop :=
  match l with
  | a :: (b :: _) as rest => edge_in E a b /\ chain E rest
  | _ => True
  end.

(** [n - 1] edges between cities below [n] that connect every city to
    city 0: a spanning tree of the complete graph on [n] cities. *)
Definition spanning_tree (n : nat) (E : list (nat * nat)) : Prop :=
  length E = n - 1 /\
  (forall u v, In (u, v) E -> u < n /\ v < n) /\
  (forall v, v < n -> reach E 0 v).

(** Sum of the distances of the edges of [E]. *)
Definition tree_weight (graph : list (list Q)) (E : list (nat * nat)) : Q :=
  fold_right
    (fun e acc => (graph_at graph (Z.of_nat (fst e)) (Z.of_nat (snd e)) + acc)%Q)
    0%Q E.

(** Two different cities are never at distance zero or less. *)
Definition apart (n : nat) (graph : list (list Q)) : Prop :=
  forall i j, i < n -> j < n -> i <> j ->
    (0 < graph_at graph (Z.of_nat i) (Z.of_nat j))%Q.

(** The edges between neighbours of an open path. *)
Fixpoint path_edges (path : list Z) : list (nat * nat) :=
  match path with
  | a :: (b :: _) as rest => (Z.to_nat a, Z.to_nat b) :: path_edges rest
  | _ => []
  end.


(** ** Binary64 arithmetic

    A JavaScript number is a binary64 number, and the result of [a + b],
    [a - b], [a * b] or [a / b] is the binary64 number nearest to the
    exact result.  A finite binary64 number is a rational, so the values
    stay in [Q] and the rounding is a function on [Q]; overflow to
    [Infinity] is left out. *)

(** Rounding of a rational to a whole number: to the nearest one, and to
    the even one of the two when it lies half way. *)
Definition round_even (x : Q) : Z :=
  let f := Qfloor x in
  match Qcompare (x - inject_Z f) (1 # 2) with
  | Lt => f
  | Gt => (f + 1)%Z
  | Eq => if Z.even f then f else (f + 1)%Z
  end.

(** The binary exponent of a positive number [a]: the [e] with
    [2^e <= a < 2^(e+1)]. *)
Definition exponent (a : Q) : Z :=
  let e0 := (Z.log2 (Qnum a) - Z.log2 (Zpos (Qden a)))%Z in
  if Qltb a (2 ^ e0)%Q then (e0 - 1)%Z else e0.

(** The binary64 number nearest to a positive [a]: 53 significant bits,
    exponents from -1022 on (below that the spacing stays [2^-1074]). *)
Definition round_pos (a : Q) : Q :=
  let ulp := (2 ^ (Z.max (exponent a) (-1022) - 52))%Q in
  Qred (inject_Z (round_even (a / ulp)) * ulp).

(** Round to nearest, ties to even. *)
Definition round64 (x : Q) : Q :=
  match Qnum x with
  | Z0 => 0%Q
  | Zpos _ => round_pos x
  | Zneg _ => (- round_pos (- x))%Q
  end.


(** ** The code with the rounding of its arithmetic

    In the modules below every addition, subtraction and division of
    JavaScript numbers is followed by [rnd]; with [rnd := round64] a
    function computes what the code computes.  Comparisons, array
    accesses and [Math.floor] are exact. *)

(** *** utils.js *)
Module TSPUtils64.

(** [calculateTourLength(tour, graph)]. *)
Definition calculateTourLength (rnd : Q -> Q) (tour : list Z)
    (graph : list (list Q)) : Q :=
  let n := length tour in
  fold_left
    (fun totalDistance i =>
       rnd (totalDistance +
            graph_at graph (at_ tour i) (at_ tour ((i + 1) mod n)))%Q)
    (seq 0 n) 0%Q.


(** [calculateEfficiency(solutionLength, optimalLength)]. *)
Definition calculateEfficiency (rnd : Q -> Q) (solutionLength optimalLength : Q)
    : Q :=
  if Qle_bool solutionLength 0 then 0%Q
  else rnd (rnd (optimalLength / solutionLength) * 100)%Q.


(** [calculateMST(graph)]. *)
Definition calculateMST (rnd : Q -> Q) (graph : list (list Q)) : Q :=
  let n := length graph in
  snd (fold_left
         (fun st _ =>
            let scan := TSPUtils.mst_scan graph n (fst st) in
            let x := snd (fst scan) in
            let y := snd scan in
            (js_set false (fst st) y true,
             rnd (snd st + graph_at graph (Z.of_nat x) (Z.of_nat y))%Q))
         (seq 0 (n - 1))
         (js_set false (repeat false n) 0 true, 0%Q)).

End TSPUtils64.

(** *** brute-force.js *)
Module BruteForce64.

(** [permute(arr, start)], with [best] and [depth] as in
    [BruteForce.permute]. *)
Fixpoint permute (rnd : Q -> Q) (depth : nat) (graph : list (list Q))
    (arr : list Z) (start : nat) (best : list Z * Q)
    : list Z * (list Z * Q) :=
  if start + 1 =? List.length arr then
    let length := TSPUtils64.calculateTourLength rnd arr graph in
    (arr, if Qltb length (snd best) then (arr, length) else best)
  else
    match depth with
    | O => (arr, best)
    | S d =>
        fold_left
          (fun st i =>
             let arr1 := BruteForce.swap (fst st) start i in
             let r := permute rnd d graph arr1 (start + 1) (snd st) in
             (BruteForce.swap (fst r) start i, snd r))
          (seq start (List.length arr - start)) (arr, best)
    end.

(** [bruteForceExact(graph, n)]. *)
Definition bruteForceExact (rnd : Q -> Q) (graph : list (list Q)) (n : nat)
    : BruteForce.TourResult :=
  let cities := cities n in
  let bestTour := cities in
  let bestLength := TSPUtils64.calculateTourLength rnd bestTour graph in
  let r := permute rnd (n - 1) graph cities 1 (bestTour, bestLength) in
  {| BruteForce.tour := fst (snd r);
     BruteForce.length := Fin (snd (snd r)) |}.

End BruteForce64.

(** *** two-opt.js *)
Module TwoOpt64.

(** Body of the loop over [j]; the state is [(currentTour, improved)]. *)
Definition scan_j (rnd : Q -> Q) (graph : list (list Q)) (n i : nat)
    (st : list Z * bool) (j : nat) : list Z * bool :=
  let currentTour := fst st in
  if (j =? n - 1) && (i =? 0) then st
  else
    let currentDistance :=
      rnd (graph_at graph (at_ currentTour i) (at_ currentTour (i + 1)) +
           graph_at graph (at_ currentTour j) (at_ currentTour ((j + 1) mod n)))%Q in
    let newDistance :=
      rnd (graph_at graph (at_ currentTour i) (at_ currentTour j) +
           graph_at graph (at_ currentTour (i + 1))
                          (at_ currentTour ((j + 1) mod n)))%Q in
    if Qltb newDistance currentDistance
    then (TwoOpt.reverse_segment currentTour i j, true)
    else st.

(** Body of the loop over [i]. *)
Definition scan_i (rnd : Q -> Q) (graph : list (list Q)) (n : nat)
    (st : list Z * bool) (i : nat) : list Z * bool :=
  fold_left (scan_j rnd graph n i) (seq (i + 2) (n - (i + 2))) st.

(** One round of the [while] loop, after [improved = false]. *)
Definition pass (rnd : Q -> Q) (graph : list (list Q)) (n : nat)
    (currentTour : list Z) : list Z * bool :=
  fold_left (scan_i rnd graph n) (seq 0 (n - 1)) (currentTour, false).

(** The [while] loop; [remaining] is [maxIterations - iterations]. *)
Fixpoint improve_loop (rnd : Q -> Q) (remaining : nat) (graph : list (list Q))
    (n : nat) (currentTour : list Z) : list Z :=
  match remaining with
  | O => currentTour
  | S r =>
      let st := pass rnd graph n currentTour in
      if snd st then improve_loop rnd r graph n (fst st) else fst st
  end.

(** [improve(tour, graph, maxIterations)]. *)
Definition improve (rnd : Q -> Q) (tour : list Z) (graph : list (list Q))
    (maxIterations : nat) : list Z :=
  improve_loop rnd maxIterations graph (length tour) tour.

End TwoOpt64.

(** *** sonar-visit.js *)
Module SonarVisit64.

(** [bucketIndex] of a point. *)
Definition bucketIndex (rnd : Q -> Q) (PI angleStep : Q) (point : Point) : Z :=
  let angle := if Qltb (angle point) 0 then rnd (angle point + rnd (2 * PI))%Q
               else angle point in
  Qfloor (rnd (angle / angleStep)%Q).

(** The [forEach] that groups the points by angle bucket. *)
Definition group_points (rnd : Q -> Q) (PI angleStep : Q) (points : list Point)
    : gmap Z (list Point) :=
  fold_left
    (fun angleBuckets point =>
       let bucketIndex := bucketIndex rnd PI angleStep point in
       <[bucketIndex := default [] (angleBuckets !! bucketIndex) ++ [point]]>
         angleBuckets)
    points ∅.

(** [angleStep]. *)
Definition angleStep (rnd : Q -> Q) (PI : Q) (gridSize : nat) : Q :=
  rnd (rnd (2 * PI) / inject_Z (Z.of_nat (4 * gridSize)))%Q.

(** [generateTour(points, gridSize)]. *)
Definition generateTour (rnd : Q -> Q) (PI : Q) (hypot : Q -> Q -> Q)
    (points : list Point) (gridSize : nat) : list Z :=
  let angleSteps := 4 * gridSize in
  let angleStep := angleStep rnd PI gridSize in
  let angleBuckets := group_points rnd PI angleStep points in
  let sorted :=
    js_sort (fun a => hypot (rnd (x a - (1 # 2)))%Q (rnd (y a - (1 # 2)))%Q)
      <$> angleBuckets in
  flat_map
    (fun i =>
       match sorted !! Z.of_nat i with
       | Some bucketPoints => map id bucketPoints
       | None => []
       end)
    (seq 0 angleSteps).

End SonarVisit64.


(** The variables of [SimulatedAnnealing.optimize] after [k] rounds of
    its [for] loop. *)
Definition annealing_state (rand : nat -> Q) (exp : Q -> Q)
    (graph : list (list Q)) (initialTour : list Z) (k : nat)
    (initialTemperature coolingRate : Q) : SimulatedAnnealing.State :=
  let currentLength := TSPUtils.calculateTourLength initialTour graph in
  fold_left
    (fun st _ =>
       SimulatedAnnealing.step rand exp graph coolingRate (length initialTour) st)
    (seq 0 k)
    (SimulatedAnnealing.mkState initialTour currentLength initialTour
       currentLength initialTemperature 0).


(** The edges [(x, y)] that the [while] loop of [calculateMST] adds, in
    the order in which it adds them. *)
Definition mst_edges (graph : list (list Q)) : list (nat * nat) :=
  let n := length graph in
  snd (fold_left
         (fun st _ =>
            let scan := TSPUtils.mst_scan graph n (fst st) in
            (js_set false (fst st) (snd scan) true,
             snd st ++ [(snd (fst scan), snd scan)]))
         (seq 0 (n - 1))
         (js_set false (repeat false n) 0 true, [])).

(** The distances of the edges of [E] added from left to right, each sum
    rounded. *)
Definition rounded_weight (rnd : Q -> Q) (graph : list (list Q))
    (E : list (nat * nat)) : Q :=
  fold_left
    (fun acc e =>
       rnd (acc + graph_at graph (Z.of_nat (fst e)) (Z.of_nat (snd e)))%Q)
    E 0%Q.

(** * Properties *)

(** ** Efficiency *)

(** C9: [calculateEfficiency(s, r)] is [r / s * 100] for [s > 0] and [0]
    for [s <= 0]; [efficiency(4, 4) = 100], [efficiency(5, 4) = 80] and
    [efficiency(0, x) = 0]. *)
Theorem calculateEfficiency_spec :
  (forall s r : Q, (0 < s)%Q ->
     TSPUtils.calculateEfficiency s r = (r / s * 100)%Q) /\
  (forall s r : Q, (s <= 0)%Q -> TSPUtils.calculateEfficiency s r = 0%Q) /\
  (TSPUtils.calculateEfficiency 4 4 == 100)%Q /\
  (TSPUtils.calculateEfficiency 5 4 == 80)%Q /\
  (forall r : Q, TSPUtils.calculateEfficiency 0 r = 0%Q).
Proof.
  unfold TSPUtils.calculateEfficiency.
  split; [|split; [|split; [|split]]].
  - intros s r Hs. destruct (Qle_bool s 0) eqn:E; [|reflexivity].
    apply Qle_bool_iff in E. lra.
  - intros s r Hs. apply Qle_bool_iff in Hs. now rewrite Hs.
  - reflexivity.
  - reflexivity.
  - reflexivity.
Qed.

Lemma calculateEfficiency_spec_witness :
  TSPUtils.calculateEfficiency 8 6 = (6 / 8 * 100)%Q /\
  TSPUtils.calculateEfficiency (-3) 6 = 0%Q.
Proof.
  split.
  - apply (proj1 calculateEfficiency_spec). reflexivity.
  - apply (proj1 (proj2 calculateEfficiency_spec)). discriminate.
Defined.

(** ** Tour length *)

Section TourLength.
Variable graph : list (list Q).

Lemma fold_left_Qsum (f : nat -> Q) (l : list nat) (a : Q) :
  (fold_left (fun acc i => acc + f i) l a == a + Qsum f l)%Q.
Proof.
  revert a. induction l as [|i t IH]; intros a; simpl.
  - lra.
  - rewrite IH. lra.
Qed.

Lemma Qsum_ext (f g : nat -> Q) (l : list nat) :
  (forall i, In i l -> (f i == g i)%Q) -> (Qsum f l == Qsum g l)%Q.
Proof.
  induction l as [|i t IH]; intros H; simpl.
  - reflexivity.
  - rewrite (H i) by (now left). rewrite IH; [reflexivity|].
    intros k Hk. apply H. now right.
Qed.

Lemma Qsum_map_S (f : nat -> Q) (l : list nat) :
  Qsum f (map S l) = Qsum (fun i => f (S i)) l.
Proof. induction l as [|i t IH]; simpl; [reflexivity | now rewrite IH]. Qed.

Lemma path_length_Qsum (path : list Z) (d : Z) :
  (Qsum (fun i => graph_at graph (nth i path d) (nth (S i) path d))
        (seq 0 (length path - 1)) == path_length graph path)%Q.
Proof.
  induction path as [|a [|b t] IH].
  - reflexivity.
  - reflexivity.
  - change (length (a :: b :: t) - 1) with (S (length t)).
    rewrite <- cons_seq, <- seq_shift. cbn [Qsum].
    rewrite Qsum_map_S.
    change (path_length graph (a :: b :: t))
      with (graph_at graph a b + path_length graph (b :: t))%Q.
    rewrite <- IH. cbn [length].
    replace (S (length t) - 1) with (length t) by lia.
    reflexivity.
Qed.

(** The loop of [calculateTourLength] adds up the edges of the cycle. *)
Lemma calculateTourLength_cycle (tour : list Z) :
  (TSPUtils.calculateTourLength tour graph == cycle_length graph tour)%Q.
Proof.
  unfold TSPUtils.calculateTourLength.
  rewrite fold_left_Qsum, Qplus_0_l.
  destruct tour as [|a t]; [reflexivity|].
  unfold cycle_length.
  rewrite <- (path_length_Qsum _ (-1)%Z).
  rewrite length_app. cbn [length]. 
  replace (S (length t) + 1 - 1) with (S (length t)) by lia.
  apply Qsum_ext. intros i Hi. apply in_seq in Hi.
  unfold at_.
  assert (E1 : nth i (a :: t) (-1)%Z = nth i ((a :: t) ++ [a]) (-1)%Z).
  { rewrite app_nth1; [reflexivity | cbn [length]; lia]. }
  assert (E2 : nth ((i + 1) mod S (length t)) (a :: t) (-1)%Z =
               nth (S i) ((a :: t) ++ [a]) (-1)%Z).
  { destruct (Nat.eq_dec (S i) (S (length t))) as [E|E].
    - replace (i + 1) with (S (length t)) by lia.
      rewrite Nat.Div0.mod_same.
      rewrite app_nth2; cbn [length]; [|lia].
      rewrite E, Nat.sub_diag. reflexivity.
    - rewrite Nat.mod_small by lia.
      rewrite app_nth1; cbn [length]; [|lia].
      now replace (i + 1) with (S i) by lia. }
  rewrite E1, E2. reflexivity.
Qed.

Lemma path_length_app (p q : list Z) (a b : Z) :
  (path_length graph ((p ++ [a]) ++ b :: q) ==
   path_length graph (p ++ [a]) + graph_at graph a b + path_length graph (b :: q))%Q.
Proof.
  induction p as [|c p IH].
  - cbn -[Qplus]. destruct q; cbn -[Qplus]; lra.
  - destruct p as [|c' p].
    + cbn -[Qplus] in *. destruct q; cbn -[Qplus] in *; lra.
    + change (path_length graph (((c :: c' :: p) ++ [a]) ++ b :: q))
        with (graph_at graph c c' + path_length graph (((c' :: p) ++ [a]) ++ b :: q))%Q.
      change (path_length graph ((c :: c' :: p) ++ [a]))
        with (graph_at graph c c' + path_length graph ((c' :: p) ++ [a]))%Q.
      rewrite IH. lra.
Qed.

End TourLength.

(** ** Arrays *)

Lemma nth_insert_eq {A : Type} (l : list A) (k : nat) (v d : A) :
  k < length l -> nth k (<[k := v]> l) d = v.
Proof.
  intros H. rewrite nth_lookup, list_lookup_insert_eq by exact H. reflexivity.
Qed.

Lemma nth_insert_ne {A : Type} (l : list A) (k p : nat) (v d : A) :
  k <> p -> nth p (<[k := v]> l) d = nth p l d.
Proof.
  intros H. rewrite !nth_lookup, list_lookup_insert_ne by exact H. reflexivity.
Qed.

(** ** Two-opt *)

Section TwoOptFacts.
Variable graph : list (list Q).

(** What the loop over [k] has written after [m] rounds. *)
Lemma reverse_loop_nth (tour : list Z) (i j m p : nat) :
  m <= j - i -> j < length tour ->
  let r := fold_left
             (fun newTour k => <[i + 1 + k := at_ tour (j - k)]> newTour)
             (seq 0 m) tour in
  length r = length tour /\
  nth p r (-1)%Z =
    if (i + 1 <=? p) && (p <? i + 1 + m)
    then at_ tour (j - (p - (i + 1))) else nth p tour (-1)%Z.
Proof.
  intros Hm Hj. induction m as [|m IH]; cbn zeta.
  - split; [reflexivity|].
    destruct (i + 1 <=? p) eqn:E1; destruct (p <? i + 1 + 0) eqn:E2;
      try reflexivity.
    apply Nat.leb_le in E1. apply Nat.ltb_lt in E2. lia.
  - rewrite seq_S, fold_left_app. cbn [fold_left Nat.add].
    destruct IH as [IHl IHn]; [lia|]. cbn zeta in IHl, IHn.
    split; [now rewrite length_insert|].
    destruct (Nat.eq_dec p (i + 1 + m)) as [->|Hne].
    + rewrite nth_insert_eq by lia.
      replace (i + 1 <=? i + 1 + m) with true by (symmetry; apply Nat.leb_le; lia).
      replace (i + 1 + m <? i + 1 + S m) with true
        by (symmetry; apply Nat.ltb_lt; lia).
      cbn [andb]. f_equal. lia.
    + rewrite nth_insert_ne by lia. rewrite IHn.
      destruct (i + 1 <=? p) eqn:E1; [|reflexivity]. cbn [andb].
      destruct (p <? i + 1 + m) eqn:E2; destruct (p <? i + 1 + S m) eqn:E3;
        try reflexivity.
      * apply Nat.ltb_lt in E2. apply Nat.ltb_ge in E3. lia.
      * apply Nat.ltb_ge in E2. apply Nat.ltb_lt in E3. lia.
Qed.

(** The copy with the segment [i+1 .. j] written backwards. *)
Lemma reverse_segment_split (tour : list Z) (i j : nat) :
  i < j -> j < length tour ->
  TwoOpt.reverse_segment tour i j =
    firstn (i + 1) tour ++
    rev (firstn (j - i) (skipn (i + 1) tour)) ++
    skipn (j + 1) tour.
Proof.
  intros Hij Hj. unfold TwoOpt.reverse_segment.
  destruct (reverse_loop_nth tour i j (j - i) 0 (le_n _) Hj) as [Hl _].
  cbn zeta in Hl.
  assert (Hseg : length (firstn (j - i) (skipn (i + 1) tour)) = j - i).
  { rewrite length_firstn, length_skipn. lia. }
  apply (nth_ext _ _ (-1)%Z (-1)%Z).
  - rewrite Hl, !length_app, length_rev, Hseg, length_firstn, length_skipn. lia.
  - intros p Hp. rewrite Hl in Hp.
    destruct (reverse_loop_nth tour i j (j - i) p (le_n _) Hj) as [_ Hn].
    cbn zeta in Hn. rewrite Hn. clear Hn.
    destruct (Nat.lt_ge_cases p (i + 1)) as [C1|C1].
    + replace (i + 1 <=? p) with false by (symmetry; apply Nat.leb_gt; lia).
      cbn [andb]. rewrite app_nth1 by (rewrite length_firstn; lia).
      rewrite nth_firstn.
      replace (p <? i + 1) with true by (symmetry; apply Nat.ltb_lt; lia).
      reflexivity.
    + replace (i + 1 <=? p) with true by (symmetry; apply Nat.leb_le; lia).
      cbn [andb].
      rewrite app_nth2 by (rewrite length_firstn; lia).
      rewrite length_firstn. replace (Init.Nat.min (i + 1) (length tour)) with (i + 1) by lia.
      destruct (Nat.lt_ge_cases p (j + 1)) as [C2|C2].
      * replace (p <? i + 1 + (j - i)) with true by (symmetry; apply Nat.ltb_lt; lia).
        rewrite app_nth1 by (rewrite length_rev, Hseg; lia).
        rewrite rev_nth by (rewrite Hseg; lia).
        rewrite Hseg, nth_firstn.
        replace (j - i - S (p - (i + 1)) <? j - i) with true
          by (symmetry; apply Nat.ltb_lt; lia).
        rewrite nth_skipn. unfold at_. f_equal. lia.
      * replace (p <? i + 1 + (j - i)) with false by (symmetry; apply Nat.ltb_ge; lia).
        rewrite app_nth2 by (rewrite length_rev, Hseg; lia).
        rewrite length_rev, Hseg, nth_skipn. f_equal. lia.
Qed.
End TwoOptFacts.

Section TwoOptLength.
Variable graph : list (list Q).
Hypothesis graph_sym : forall a b : Z, (graph_at graph a b == graph_at graph b a)%Q.

Lemma last_nth_len (l : list Z) (d : Z) : List.last l d = nth (length l - 1) l d.
Proof.
  induction l as [|a [|b t] IH]; try reflexivity.
  change (List.last (a :: b :: t) d) with (List.last (b :: t) d). rewrite IH.
  cbn [length]. replace (S (S (length t)) - 1) with (S (S (length t) - 1)) by lia.
  reflexivity.
Qed.

Lemma path_length_join (p q : list Z) (d : Z) :
  p <> [] -> q <> [] ->
  (path_length graph (p ++ q) ==
   path_length graph p + graph_at graph (List.last p d) (hd d q) + path_length graph q)%Q.
Proof.
  intros Hp Hq.
  destruct (exists_last Hp) as (p' & a & ->).
  destruct q as [|b q]; [congruence|].
  rewrite last_last. cbn [hd]. apply path_length_app.
Qed.

Lemma path_length_rev (l : list Z) :
  (path_length graph (rev l) == path_length graph l)%Q.
Proof.
  induction l as [|a [|b t] IH]; try reflexivity.
  change (rev (a :: b :: t)) with (rev (b :: t) ++ [a]).
  rewrite (path_length_join _ _ 0%Z).
  - rewrite IH.
    change (path_length graph (a :: b :: t))
      with (graph_at graph a b + path_length graph (b :: t))%Q.
    replace (List.last (rev (b :: t)) 0%Z) with b.
    + cbn -[Qplus]. rewrite (graph_sym b a). lra.
    + cbn [rev]. now rewrite last_last.
  - cbn [rev]. now destruct (rev t).
  - discriminate.
Qed.

(** The reversal replaces the two edges the code compares and leaves the
    rest of the cycle as long as it was. *)
Lemma reverse_segment_length (tour : list Z) (i j : nat) :
  i < j -> j < length tour ->
  let n := length tour in
  (cycle_length graph (TwoOpt.reverse_segment tour i j) +
     (graph_at graph (at_ tour i) (at_ tour (i + 1)) +
      graph_at graph (at_ tour j) (at_ tour ((j + 1) mod n))) ==
   cycle_length graph tour +
     (graph_at graph (at_ tour i) (at_ tour j) +
      graph_at graph (at_ tour (i + 1)) (at_ tour ((j + 1) mod n))))%Q.
Proof.
  intros Hij Hj n.
  rewrite reverse_segment_split by assumption.
  set (pre := firstn (i + 1) tour).
  set (seg := firstn (j - i) (skipn (i + 1) tour)).
  set (post := skipn (j + 1) tour).
  assert (Hpre : length pre = i + 1)
    by (unfold pre; rewrite length_firstn; lia).
  assert (Hseg : length seg = j - i)
    by (unfold seg; rewrite length_firstn, length_skipn; lia).
  assert (Hpost : length post = length tour - (j + 1))
    by (unfold post; now rewrite length_skipn).
  assert (Htour : tour = pre ++ seg ++ post).
  { unfold pre, seg, post.
    rewrite <- (firstn_skipn (i + 1) tour) at 1. f_equal.
    rewrite <- (firstn_skipn (j - i) (skipn (i + 1) tour)) at 1. f_equal.
    rewrite skipn_skipn. f_equal. lia. }
  destruct pre as [|a pre'] eqn:Epre; [cbn in Hpre; lia|].
  set (X := post ++ [a]).
  assert (HX : X <> []) by (unfold X; now destruct post).
  assert (Hsegne : seg <> []) by (intros E; rewrite E in Hseg; cbn in Hseg; lia).
  assert (Hrevne : rev seg <> []).
  { intros E. apply (f_equal (@length Z)) in E.
    rewrite length_rev, Hseg in E. cbn in E. lia. }
  assert (Ha : a = at_ tour 0) by (rewrite Htour; reflexivity).
  assert (Hlast_pre : List.last (a :: pre') (-1)%Z = at_ tour i).
  { rewrite last_nth_len, Hpre. replace (i + 1 - 1) with i by lia.
    unfold at_. rewrite <- Epre. unfold pre. rewrite nth_firstn.
    replace (i <? i + 1) with true by (symmetry; apply Nat.ltb_lt; lia).
    reflexivity. }
  assert (Hhd_seg : hd (-1)%Z seg = at_ tour (i + 1)).
  { transitivity (nth 0 seg (-1)%Z); [now destruct seg|].
    unfold seg. rewrite nth_firstn.
    replace (0 <? j - i) with true by (symmetry; apply Nat.ltb_lt; lia).
    rewrite nth_skipn. unfold at_. f_equal. lia. }
  assert (Hlast_seg : List.last seg (-1)%Z = at_ tour j).
  { rewrite last_nth_len, Hseg. unfold seg. rewrite nth_firstn.
    replace (j - i - 1 <? j - i) with true by (symmetry; apply Nat.ltb_lt; lia).
    rewrite nth_skipn. unfold at_. f_equal. lia. }
  assert (Hhd_X : hd (-1)%Z X = at_ tour ((j + 1) mod n)).
  { unfold X. destruct (Nat.eq_dec (j + 1) n) as [E|E].
    - rewrite E, Nat.Div0.mod_same.
      assert (post = []) as -> by (apply length_zero_iff_nil; lia).
      exact Ha.
    - rewrite Nat.mod_small by lia.
      transitivity (nth 0 post (-1)%Z).
      + destruct post; [cbn in Hpost; lia | reflexivity].
      + unfold post. rewrite nth_skipn. unfold at_. f_equal. lia. }
  assert (Hhd_rev : hd (-1)%Z (rev seg) = List.last seg (-1)%Z).
  { destruct (exists_last Hsegne) as (s & z & ->).
    now rewrite rev_unit, last_last. }
  assert (Hlast_rev : List.last (rev seg) (-1)%Z = hd (-1)%Z seg).
  { destruct seg as [|s0 s]; [congruence|]. cbn [rev hd]. apply last_last. }
  assert (C1 : (cycle_length graph ((a :: pre') ++ rev seg ++ post) ==
                path_length graph ((a :: pre') ++ rev seg ++ X))%Q).
  { unfold cycle_length, X. cbn [app]. now rewrite <- !app_assoc. }
  assert (C2 : (cycle_length graph tour ==
                path_length graph ((a :: pre') ++ seg ++ X))%Q).
  { rewrite Htour at 1. unfold cycle_length, X. cbn [app].
    now rewrite <- !app_assoc. }
  rewrite C1, C2.
  rewrite !(path_length_join (a :: pre') _ (-1)%Z);
    try discriminate; try (now destruct seg); try (now destruct (rev seg)).
  rewrite !(path_length_join _ X (-1)%Z) by assumption.
  rewrite path_length_rev.
  assert (H1 : hd (-1)%Z (rev seg ++ X) = at_ tour j).
  { destruct (rev seg) eqn:E; [congruence|].
    cbn [app hd]. cbn [hd] in Hhd_rev. congruence. }
  assert (H2 : hd (-1)%Z (seg ++ X) = at_ tour (i + 1)).
  { destruct seg; [congruence|]. exact Hhd_seg. }
  rewrite H1, H2, Hlast_pre, Hlast_rev, Hhd_seg, Hlast_seg, Hhd_X.
  lra.
Qed.

End TwoOptLength.

(** ** Conditions on the matrix *)

Lemma squareb_square (n : nat) (graph : list (list Q)) :
  squareb n graph = true -> square n graph.
Proof.
  unfold squareb, square. intros H. apply andb_prop in H as [H1 H2].
  split; [now apply Nat.eqb_eq|].
  apply List.Forall_forall. intros row Hrow.
  rewrite forallb_forall in H2. apply Nat.eqb_eq. now apply H2.
Qed.

Lemma all_pairs_below_spec (n : nat) (f : nat -> nat -> bool) :
  all_pairs_below n f = true ->
  forall i j, i < n -> j < n -> f i j = true.
Proof.
  unfold all_pairs_below. intros H i j Hi Hj.
  rewrite forallb_forall in H.
  specialize (H i ltac:(apply in_seq; lia)).
  rewrite forallb_forall in H. apply H. apply in_seq. lia.
Qed.

Lemma symmetricb_symmetric (n : nat) (graph : list (list Q)) :
  symmetricb n graph = true -> symmetric n graph.
Proof.
  intros H i j Hi Hj. apply Qeq_bool_iff.
  exact (all_pairs_below_spec n _ H i j Hi Hj).
Qed.

Lemma non_negativeb_non_negative (n : nat) (graph : list (list Q)) :
  non_negativeb n graph = true -> non_negative n graph.
Proof.
  intros H i j Hi Hj. apply Qle_bool_iff.
  exact (all_pairs_below_spec n _ H i j Hi Hj).
Qed.

(** A symmetric square matrix is symmetric at every pair of indices the
    model can read. *)
Lemma symmetric_everywhere (n : nat) (graph : list (list Q)) :
  square n graph -> symmetric n graph ->
  forall a b : Z, (graph_at graph a b == graph_at graph b a)%Q.
Proof.
  intros [Hlen Hrows] Hsym a b.
  assert (Hrow : forall i, length (nth i graph []) = if i <? n then n else 0).
  { intros i. destruct (i <? n) eqn:E.
    - apply Nat.ltb_lt in E. rewrite List.Forall_forall in Hrows.
      apply Hrows. apply nth_In. lia.
    - apply Nat.ltb_ge in E. rewrite nth_overflow by lia. reflexivity. }
  assert (Hout : forall i j, n <= i \/ n <= j ->
            nth j (nth i graph []) 0%Q = 0%Q).
  { intros i j Hij. apply nth_overflow. rewrite Hrow.
    destruct (i <? n) eqn:E; [|lia]. apply Nat.ltb_lt in E. lia. }
  unfold graph_at.
  destruct (Nat.lt_ge_cases (Z.to_nat a) n) as [Ha|Ha];
    destruct (Nat.lt_ge_cases (Z.to_nat b) n) as [Hb|Hb].
  - specialize (Hsym _ _ Ha Hb). unfold graph_at in Hsym.
    now rewrite !Nat2Z.id in Hsym.
  - rewrite !Hout by lia. reflexivity.
  - rewrite !Hout by lia. reflexivity.
  - rewrite !Hout by lia. reflexivity.
Qed.

Lemma is_tour_length (n : nat) (tour : list Z) :
  is_tour n tour -> length tour = n.
Proof.
  intros H. apply Permutation_length in H. rewrite H.
  unfold cities, range. rewrite length_map, length_seq. lia.
Qed.

(** ** Two-opt: how the scan goes on after a reversal *)

Lemma fold_left_flat_map {A B S : Type} (f : S -> B -> S) (g : A -> list B)
    (l : list A) (s : S) :
  fold_left f (flat_map g l) s = fold_left (fun s a => fold_left f (g a) s) l s.
Proof.
  revert s. induction l as [|a l IH]; intros s; cbn [flat_map fold_left].
  - reflexivity.
  - now rewrite fold_left_app, IH.
Qed.

Lemma fold_left_pointwise {A S : Type} (f g : S -> A -> S) (l : list A) (s : S) :
  (forall s a, f s a = g s a) -> fold_left f l s = fold_left g l s.
Proof.
  intros H. revert s. induction l as [|a l IH]; intros s; cbn [fold_left].
  - reflexivity.
  - now rewrite H, IH.
Qed.

(** A pass is one run of the loop body over all pairs in scan order. *)
Lemma pass_scan_order (graph : list (list Q)) (n : nat) (tour : list Z) :
  TwoOpt.pass graph n tour =
  fold_left (TwoOptRestart.scan_step graph n) (TwoOptRestart.scan_order n)
            (tour, false).
Proof.
  unfold TwoOpt.pass, TwoOptRestart.scan_order.
  rewrite fold_left_flat_map.
  symmetry. apply fold_left_pointwise. intros st i. unfold TwoOpt.scan_i.
  generalize (seq (i + 2) (n - (i + 2))). intros l. revert st.
  induction l as [|j l IH]; intros st; cbn [map fold_left]; [reflexivity|].
  apply IH.
Qed.

Lemma scan_step_improves (graph : list (list Q)) (n : nat)
    (st : list Z * bool) (p : nat * nat) :
  TwoOptRestart.scan_step graph n st p =
  if TwoOptRestart.improves graph n (fst st) p
  then (TwoOpt.reverse_segment (fst st) (fst p) (snd p), true)
  else st.
Proof.
  unfold TwoOptRestart.scan_step, TwoOptRestart.improves, TwoOpt.scan_j.
  destruct ((snd p =? n - 1) && (fst p =? 0)); cbn [negb andb]; reflexivity.
Qed.

(** C5, as stated, fails: on this matrix the loop of [improve] and the loop
    that restarts after every reversal return different tours. *)
Lemma improve_differs_from_restart :
  let graph := [[0; 1; 1; 1; 1]; [1; 0; 3; 1; 1]; [1; 3; 0; 1; 1];
                [1; 1; 1; 0; 2]; [1; 1; 1; 2; 0]]%Q in
  let tour := [0; 1; 2; 3; 4]%Z in
  TwoOpt.improve tour graph 100 = [0; 3; 2; 4; 1]%Z /\
  TwoOptRestart.improve tour graph 100 = [0; 2; 3; 1; 4]%Z /\
  TwoOpt.improve tour graph 100 <> TwoOptRestart.improve tour graph 100.
Proof.
  cbn zeta. split; [|split].
  - vm_compute. reflexivity.
  - vm_compute. reflexivity.
  - vm_compute. discriminate.
Qed.

(** C5 (amended): when the scan meets its first improving pair it applies
    the reversal, marks the pass as improving and goes on with the pairs
    that follow in scan order, on the new tour; the scan starts again from
    the top only with the next round of the [while] loop. *)
Theorem improve_pass_continues_scan :
  forall (graph : list (list Q)) (tour : list Z)
         (before after : list (nat * nat)) (p : nat * nat),
    TwoOptRestart.scan_order (length tour) = before ++ p :: after ->
    (forall q, In q before ->
       TwoOptRestart.improves graph (length tour) tour q = false) ->
    TwoOptRestart.improves graph (length tour) tour p = true ->
    TwoOpt.pass graph (length tour) tour =
      fold_left (TwoOptRestart.scan_step graph (length tour)) after
        (TwoOpt.reverse_segment tour (fst p) (snd p), true) /\
    forall r,
      TwoOpt.improve tour graph (S r) =
      if snd (TwoOpt.pass graph (length tour) tour)
      then TwoOpt.improve_loop r graph (length tour)
             (fst (TwoOpt.pass graph (length tour) tour))
      else fst (TwoOpt.pass graph (length tour) tour).
Proof.
  intros graph tour before after p Horder Hbefore Hp. split; [|reflexivity].
  rewrite pass_scan_order, Horder, fold_left_app. cbn [fold_left].
  assert (Hpre : fold_left (TwoOptRestart.scan_step graph (length tour)) before
                   (tour, false) = (tour, false)).
  { clear Horder. induction before as [|q before IH]; [reflexivity|].
    cbn [fold_left]. rewrite scan_step_improves. cbn [fst].
    rewrite (Hbefore q) by (now left).
    apply IH. intros q' Hq'. apply Hbefore. now right. }
  rewrite Hpre, scan_step_improves. cbn [fst]. now rewrite Hp.
Qed.

Lemma improve_pass_continues_scan_witness :
  let graph := [[0; 1; 1; 1; 1]; [1; 0; 3; 1; 1]; [1; 3; 0; 1; 1];
                [1; 1; 1; 0; 2]; [1; 1; 1; 2; 0]]%Q in
  let tour := [0; 1; 2; 3; 4]%Z in
  TwoOpt.pass graph 5 tour =
    fold_left (TwoOptRestart.scan_step graph 5) [(0, 4); (1, 3); (1, 4); (2, 4)]
      (TwoOpt.reverse_segment tour 0 3, true).
Proof.
  intros graph tour.
  refine (proj1 (improve_pass_continues_scan graph tour [(0, 2)]
                   [(0, 4); (1, 3); (1, 4); (2, 4)] (0, 3) _ _ _)).
  - reflexivity.
  - intros q [<-|[]]. reflexivity.
  - reflexivity.
Defined.

(** ** Exhaustive search *)

Section Swap.

Lemma swap_same (arr : list Z) (s : nat) : BruteForce.swap arr s s = arr.
Proof.
  unfold BruteForce.swap, at_.
  destruct (Nat.lt_ge_cases s (length arr)) as [H|H].
  - rewrite list_insert_insert_eq. apply list_insert_id.
    rewrite nth_lookup. destruct (arr !! s) eqn:E; [reflexivity|].
    apply lookup_ge_None in E. lia.
  - now rewrite !list_insert_ge by (rewrite ?length_insert; lia).
Qed.

Lemma swap_split (l1 l2 l3 : list Z) (a b : Z) :
  BruteForce.swap (l1 ++ a :: l2 ++ b :: l3) (length l1) (length l1 + S (length l2)) =
  l1 ++ b :: l2 ++ a :: l3.
Proof.
  unfold BruteForce.swap, at_.
  rewrite nth_middle.
  replace (nth (length l1 + S (length l2)) (l1 ++ a :: l2 ++ b :: l3) (-1)%Z)
    with b.
  2:{ rewrite app_nth2_plus. cbn [nth]. now rewrite nth_middle. }
  rewrite (insert_app_r_alt l1 _ (length l1)) by lia.
  rewrite Nat.sub_diag. cbn [insert list_insert].
  rewrite (insert_app_r_alt l1) by lia.
  replace (length l1 + S (length l2) - length l1) with (S (length l2)) by lia.
  cbn [insert list_insert]. f_equal. f_equal.
  change (list_insert (length l2) a (l2 ++ b :: l3))
    with (<[length l2 := a]> (l2 ++ b :: l3)).
  rewrite (insert_app_r_alt l2) by lia. rewrite Nat.sub_diag. reflexivity.
Qed.

(** Two positions [s < i] cut a list in three. *)
Lemma split_two (arr : list Z) (s i : nat) :
  s < i -> i < length arr ->
  exists l1 a l2 b l3,
    arr = l1 ++ a :: l2 ++ b :: l3 /\ length l1 = s /\
    i = s + S (length l2).
Proof.
  intros Hsi Hi.
  exists (firstn s arr), (nth s arr 0%Z),
         (firstn (i - S s) (skipn (S s) arr)), (nth i arr 0%Z),
         (skipn (S i) arr).
  split; [|split].
  - rewrite <- (firstn_skipn s arr) at 1. f_equal.
    assert (E2 : forall k, k < length arr ->
              skipn k arr = nth k arr 0%Z :: skipn (S k) arr).
    { clear. induction arr as [|x arr IH]; intros k Hk; [cbn in Hk; lia|].
      destruct k; [reflexivity|]. cbn [skipn nth]. apply IH. cbn in Hk. lia. }
    rewrite (E2 s) by lia. f_equal.
    rewrite <- (firstn_skipn (i - S s) (skipn (S s) arr)) at 1. f_equal.
    rewrite skipn_skipn. replace (i - S s + S s) with i by lia.
    apply E2. lia.
  - rewrite length_firstn. lia.
  - rewrite length_firstn, length_skipn. lia.
Qed.

Lemma swap_perm (arr : list Z) (s i : nat) :
  s <= i -> i < length arr -> Permutation (BruteForce.swap arr s i) arr.
Proof.
  intros Hsi Hi. destruct (Nat.eq_dec s i) as [->|Hne].
  - now rewrite swap_same.
  - destruct (split_two arr s i ltac:(lia) Hi)
      as (l1 & a & l2 & b & l3 & -> & <- & ->).
    rewrite swap_split.
    apply Permutation_app_head.
    rewrite <- !Permutation_middle. rewrite perm_swap.
    reflexivity.
Qed.

Lemma swap_swap (arr : list Z) (s i : nat) :
  s <= i -> i < length arr -> BruteForce.swap (BruteForce.swap arr s i) s i = arr.
Proof.
  intros Hsi Hi. destruct (Nat.eq_dec s i) as [->|Hne].
  - now rewrite !swap_same.
  - destruct (split_two arr s i ltac:(lia) Hi)
      as (l1 & a & l2 & b & l3 & -> & <- & ->).
    now rewrite !swap_split.
Qed.

Lemma swap_length (arr : list Z) (s i : nat) :
  length (BruteForce.swap arr s i) = length arr.
Proof. unfold BruteForce.swap. now rewrite !length_insert. Qed.

Lemma swap_firstn (arr : list Z) (s i : nat) :
  s <= i -> firstn s (BruteForce.swap arr s i) = firstn s arr.
Proof.
  intros Hsi. unfold BruteForce.swap.
  change (@firstn Z) with (@take Z).
  rewrite !take_insert_ge by lia. reflexivity.
Qed.

(** A permutation that agrees with [arr] on the first [s] cells starts
    with one of the arrays the loop of [permute] builds. *)
Lemma swap_covers (arr p : list Z) (s : nat) :
  s < length arr -> Permutation p arr -> firstn s p = firstn s arr ->
  exists i, s <= i /\ i < length arr /\
    firstn (s + 1) p = firstn (s + 1) (BruteForce.swap arr s i).
Proof.
  intros Hs Hperm Hpre.
  pose proof (Permutation_length Hperm) as Hlen.
  assert (Hsuf : Permutation (skipn s p) (skipn s arr)).
  { apply (Permutation_app_inv_l (firstn s arr)).
    rewrite <- Hpre at 1. now rewrite !firstn_skipn. }
  destruct (skipn s p) as [|x rest] eqn:Ep.
  { apply (f_equal (@length Z)) in Ep. rewrite length_skipn in Ep.
    cbn in Ep. lia. }
  assert (Hin : In x (skipn s arr)).
  { eapply Permutation_in; [exact Hsuf | now left]. }
  destruct (in_split _ _ Hin) as (u & v & Eu).
  assert (Hl : length (firstn s arr) = s) by (rewrite length_firstn; lia).
  assert (Earr : arr = firstn s arr ++ u ++ x :: v).
  { rewrite <- Eu. now rewrite firstn_skipn. }
  assert (Ep' : p = firstn s arr ++ x :: rest).
  { rewrite <- Ep, <- Hpre. now rewrite firstn_skipn. }
  revert Hl Earr Ep'. generalize (firstn s arr). intros pre Hl Earr Ep'.
  clear Hpre Hsuf Hin Eu Ep Hperm Hlen Hs. subst arr p.
  assert (Hfirst : forall w t, firstn (s + 1) (pre ++ w :: t) = pre ++ [w]).
  { intros w t. rewrite firstn_app, Hl.
    replace (s + 1 - s) with 1 by lia.
    rewrite firstn_all2 by lia. reflexivity. }
  exists (s + length u). split; [lia|]. split.
  { rewrite !length_app, Hl. cbn [length]. lia. }
  rewrite Hfirst. destruct u as [|a u].
  - rewrite Nat.add_0_r, swap_same. cbn [app]. now rewrite Hfirst.
  - cbn [app length]. rewrite <- Hl at 2 3. rewrite swap_split.
    now rewrite Hfirst.
Qed.
End Swap.

Section Permute.
Variable graph : list (list Q).

Let len (p : list Z) : Q := TSPUtils.calculateTourLength p graph.

(** [best] is a permutation of [arr] stored with its length. *)
Let sound (arr : list Z) (best : list Z * Q) : Prop :=
  Permutation (fst best) arr /\ snd best = len (fst best).

(** What a call of [permute] guarantees. *)
Let permute_post (arr : list Z) (start : nat) (best : list Z * Q)
    (r : list Z * (list Z * Q)) : Prop :=
  fst r = arr /\
  (snd (snd r) <= snd best)%Q /\
  (sound arr best -> sound arr (snd r)) /\
  (forall p, Permutation p arr -> firstn start p = firstn start arr ->
     (snd (snd r) <= len p)%Q).

Lemma last_cell_fixed (arr p : list Z) (s : nat) :
  s + 1 = length arr -> Permutation p arr ->
  firstn s p = firstn s arr -> p = arr.
Proof.
  intros Hs Hperm Hpre.
  pose proof (Permutation_length Hperm) as Hlen.
  assert (Hsuf : Permutation (skipn s p) (skipn s arr)).
  { apply (Permutation_app_inv_l (firstn s arr)).
    rewrite <- Hpre at 1. now rewrite !firstn_skipn. }
  rewrite <- (firstn_skipn s p), <- (firstn_skipn s arr), Hpre. f_equal.
  destruct (skipn s arr) as [|y [|? ?]] eqn:E;
    apply (f_equal (@length Z)) in E; rewrite length_skipn in E;
    cbn in E; try lia.
  now apply Permutation_sym, Permutation_length_1_inv in Hsuf.
Qed.

End Permute.

Lemma cities_length (n : nat) : length (cities n) = n.
Proof. unfold cities, range. rewrite length_map, length_seq. lia. Qed.

Lemma cities_S (n : nat) : cities (S n) = 0%Z :: map Z.of_nat (seq 1 n).
Proof. unfold cities, range. now rewrite Nat.sub_0_r. Qed.



(** ** Tours that visit every city *)

Lemma cities_In (n : nat) (c : Z) :
  In c (cities n) <-> exists i, i < n /\ c = Z.of_nat i.
Proof.
  unfold cities, range. rewrite in_map_iff. split.
  - intros (i & <- & Hi). apply in_seq in Hi. exists i. split; [lia | reflexivity].
  - intros (i & Hi & ->). exists i. split; [reflexivity|]. apply in_seq. lia.
Qed.

Lemma cities_NoDup (n : nat) : List.NoDup (cities n).
Proof.
  unfold cities, range. apply Finite.Injective_map_NoDup.
  - intros a b. apply Nat2Z.inj.
  - apply seq_NoDup.
Qed.

(** Distinct cities below [n], at least [n] of them, form a tour. *)
Lemma full_tour (n : nat) (tour : list Z) :
  List.NoDup tour -> (forall c, In c tour -> exists i, i < n /\ c = Z.of_nat i) ->
  n <= length tour -> is_tour n tour.
Proof.
  intros Hnd Hin Hlen. unfold is_tour.
  apply NoDup_Permutation_bis; [assumption | now rewrite cities_length |].
  intros c Hc. apply cities_In. now apply Hin.
Qed.

(** A list that holds every city below [n] has at least [n] elements. *)
Lemma all_cities_length (n : nat) (tour : list Z) :
  (forall i, i < n -> In (Z.of_nat i) tour) -> n <= length tour.
Proof.
  intros H. rewrite <- (cities_length n).
  apply NoDup_incl_length; [apply cities_NoDup|].
  intros c Hc. apply cities_In in Hc as (i & Hi & ->). now apply H.
Qed.

(** ** Nearest neighbour *)

Section NearestNeighborFacts.
Variable graph : list (list Q).
Variable n : nat.

Lemma js_set_inside {A : Type} (hole : A) (arr : list A) (k : nat) (v : A) :
  k < length arr -> js_set hole arr k v = <[k := v]> arr.
Proof.
  intros H. unfold js_set.
  now replace (k <? length arr) with true by (symmetry; apply Nat.ltb_lt; lia).
Qed.

(** The scan returns an unvisited city whenever there is one. *)
Lemma nearest_scan_spec (visited : list bool) (current : Z) :
  let nearest := fst (NearestNeighbor.nearest_scan graph n visited current) in
  (nearest = (-1)%Z /\ forall i, i < n -> nth i visited false = true) \/
  (exists i, i < n /\ nearest = Z.of_nat i /\ nth i visited false = false).
Proof.
  unfold NearestNeighbor.nearest_scan.
  set (body := fun (best : Z * num) (i : nat) =>
                 if negb (nth i visited false) &&
                    lt_num (graph_at graph current (Z.of_nat i)) (snd best)
                 then (Z.of_nat i, Fin (graph_at graph current (Z.of_nat i)))
                 else best).
  set (good := fun (done : list nat) (best : Z * num) =>
                 (best = ((-1)%Z, Infinity) /\
                  forall i, In i done -> nth i visited false = true) \/
                 (exists i, fst best = Z.of_nat i /\
                            nth i visited false = false /\ In i done)).
  assert (G : forall (l done : list nat) (best : Z * num),
            good done best -> good (done ++ l) (fold_left body l best)).
  { induction l as [|i l IH]; intros done best Hgood; cbn [fold_left].
    - now rewrite app_nil_r.
    - replace (done ++ i :: l) with ((done ++ [i]) ++ l)
        by (now rewrite <- app_assoc).
      apply IH. unfold body.
      destruct (nth i visited false) eqn:Ev; cbn [negb andb].
      + destruct Hgood as [[-> Hall]|(k & K1 & K2 & K3)].
        * left. split; [reflexivity|]. intros k Hk.
          apply in_app_or in Hk as [Hk|[<-|[]]]; [now apply Hall | assumption].
        * right. exists k. split; [assumption|]. split; [assumption|].
          apply in_or_app. now left.
      + destruct (lt_num (graph_at graph current (Z.of_nat i)) (snd best)) eqn:El.
        * right. exists i. split; [reflexivity|]. split; [assumption|].
          apply in_or_app. right. now left.
        * destruct Hgood as [[-> Hall]|(k & K1 & K2 & K3)].
          -- cbn in El. discriminate.
          -- right. exists k. split; [assumption|]. split; [assumption|].
             apply in_or_app. now left. }
  specialize (G (seq 0 n) [] ((-1)%Z, Infinity)).
  cbn [app] in G. cbn zeta.
  destruct G as [[G1 G2]|(i & G1 & G2 & G3)].
  - left. split; [reflexivity|]. intros i [].
  - left. rewrite G1. split; [reflexivity|]. intros i Hi. apply G2.
    apply in_seq. lia.
  - right. exists i. apply in_seq in G3. split; [lia|]. now split.
Qed.

(** With enough fuel the loop ends, and it ends with a tour. *)
Lemma tour_loop_spec (fuel : nat) :
  forall (start : Z) (visited : list bool) (tour : list Z) (current : Z),
    nn_invariant n start visited tour ->
    1 <= length tour -> length tour + fuel >= n ->
    exists result,
      NearestNeighbor.tour_loop fuel graph n visited tour current = Some result /\
      is_tour n result /\ hd (-1)%Z result = start.
Proof.
  induction fuel as [|fuel IH];
    intros start visited tour current (I1 & I2 & I3 & I4 & I5) Hlen Hfuel.
  - assert (Hge : (length tour <? n) = false) by (apply Nat.ltb_ge; lia).
    cbn [NearestNeighbor.tour_loop]. rewrite Hge.
    exists tour. split; [reflexivity|]. split; [|assumption].
    apply full_tour; [assumption | assumption | lia].
  - cbn [NearestNeighbor.tour_loop].
    destruct (length tour <? n) eqn:Hlt.
    + apply Nat.ltb_lt in Hlt.
      destruct (nearest_scan_spec visited current) as [[E Hall]|(i & Hi & E & Hv)];
        cbn zeta in *.
      * exfalso. assert (n <= length tour); [|lia].
        apply all_cities_length. intros i Hi. apply I5; [assumption|].
        now apply Hall.
      * rewrite E.
        replace (Z.of_nat i =? -1)%Z with false by (symmetry; apply Z.eqb_neq; lia).
        rewrite Nat2Z.id.
        apply IH; [|rewrite length_app; cbn; lia | rewrite length_app; cbn; lia].
        assert (Hnotin : ~ In (Z.of_nat i) tour).
        { intros Hin. apply I5 in Hin; [congruence | assumption]. }
        rewrite js_set_inside by lia.
        split; [now rewrite length_insert|]. split; [|split; [|split]].
        -- apply List.NoDup_app; [assumption | apply List.NoDup_cons; [intros [] | apply List.NoDup_nil] |].
           intros c Hc [<-|[]]. contradiction.
        -- destruct tour; [cbn in Hlen; lia | assumption].
        -- intros c Hc. apply in_app_or in Hc as [Hc|[<-|[]]];
             [now apply I4 | now exists i].
        -- intros k Hk. destruct (Nat.eq_dec k i) as [->|Hne].
           ++ rewrite nth_insert_eq by lia. split; [|reflexivity].
              intros _. apply in_or_app. right. now left.
           ++ rewrite nth_insert_ne by lia. rewrite (I5 k Hk). split.
              ** intros H. apply in_or_app. now left.
              ** intros H. apply in_app_or in H as [H|[H|[]]]; [assumption|].
                 apply Nat2Z.inj in H. congruence.
    + apply Nat.ltb_ge in Hlt.
      exists tour. split; [reflexivity|]. split; [|assumption].
      apply full_tour; assumption.
Qed.

(** [generateTour] from a start city below [n] returns a tour that
    begins at that city. *)
Lemma nearestNeighbor_tour (fuel : nat) (points : list Point) (startCity : nat) :
  length points = n -> startCity < n -> n <= fuel ->
  exists result,
    NearestNeighbor.generateTour fuel points graph startCity = Some result /\
    is_tour n result /\ hd (-1)%Z result = Z.of_nat startCity.
Proof.
  intros Hpoints Hstart Hfuel. unfold NearestNeighbor.generateTour.
  rewrite Hpoints. apply tour_loop_spec; [|cbn; lia | cbn; lia].
  rewrite js_set_inside by (rewrite repeat_length; lia).
  split; [now rewrite length_insert, repeat_length|].
  split; [apply List.NoDup_cons; [intros [] | apply List.NoDup_nil]|].
  split; [reflexivity|]. split.
  - intros c [<-|[]]. now exists startCity.
  - intros i Hi. destruct (Nat.eq_dec i startCity) as [->|Hne].
    + rewrite nth_insert_eq by (rewrite repeat_length; lia).
      split; [now left | reflexivity].
    + rewrite nth_insert_ne by lia. rewrite nth_repeat. split; [discriminate|].
      intros [H|[]]. apply Nat2Z.inj in H. congruence.
Qed.
End NearestNeighborFacts.

(** C10: on an empty point list [generateTour] returns the one-city tour
    [[startCity]]; with [n >= 1] points and [startCity < n] the tour it
    returns starts with [startCity]. *)
Theorem nearestNeighbor_first_city :
  (forall (fuel : nat) (graph : list (list Q)) (startCity : nat),
     NearestNeighbor.generateTour fuel [] graph startCity =
       Some [Z.of_nat startCity]) /\
  (forall (fuel : nat) (points : list Point) (graph : list (list Q))
          (startCity : nat),
     1 <= length points -> startCity < length points -> length points <= fuel ->
     exists result,
       NearestNeighbor.generateTour fuel points graph startCity = Some result /\
       nth 0 result (-1)%Z = Z.of_nat startCity).
Proof.
  split.
  - intros fuel graph startCity. unfold NearestNeighbor.generateTour.
    cbn [length]. destruct fuel; reflexivity.
  - intros fuel points graph startCity _ Hstart Hfuel.
    destruct (nearestNeighbor_tour graph (length points) fuel points startCity
                eq_refl Hstart Hfuel) as (result & H1 & _ & H3).
    exists result. split; [assumption|].
    destruct result; assumption.
Qed.

Lemma nearestNeighbor_first_city_witness :
  let graph := [[0; 1; 3 # 2; 1]; [1; 0; 1; 3 # 2];
                [3 # 2; 1; 0; 1]; [1; 3 # 2; 1; 0]]%Q in
  let points := [mkPoint 0 0 0 0; mkPoint 1 0 0 1;
                 mkPoint 1 1 0 2; mkPoint 0 1 0 3] in
  exists result,
    NearestNeighbor.generateTour 4 points graph 2 = Some result /\
    nth 0 result (-1)%Z = 2%Z.
Proof.
  intros graph points.
  apply (proj2 nearestNeighbor_first_city 4 points graph 2); cbn; lia.
Defined.

(** ** Zigzag *)

Lemma filter_filter_and {A : Type} (f g : A -> bool) (l : list A) :
  List.filter f (List.filter g l) = List.filter (fun a => g a && f a) l.
Proof.
  induction l as [|a l IH]; [reflexivity|]. cbn [List.filter].
  destruct (g a); cbn [List.filter andb]; [destruct (f a)|]; now rewrite IH.
Qed.

Lemma first_occurrences_In (l : list Z) (v : Z) :
  In v (first_occurrences l) <-> In v l.
Proof.
  induction l as [|a l IH]; [reflexivity|]. cbn [first_occurrences In].
  rewrite List.filter_In, IH. destruct (Z.eq_dec a v) as [->|Hne].
  - tauto.
  - split; [tauto|]. intros [H|H]; [tauto|]. right. split; [assumption|].
    apply negb_true_iff, Z.eqb_neq. congruence.
Qed.

Lemma first_occurrences_NoDup (l : list Z) : List.NoDup (first_occurrences l).
Proof.
  induction l as [|a l IH]; [apply List.NoDup_nil|]. cbn [first_occurrences].
  apply List.NoDup_cons.
  - rewrite List.filter_In. intros [_ H]. rewrite Z.eqb_refl in H. discriminate.
  - now apply List.NoDup_filter.
Qed.

(** The [Set] keeps the first occurrence of every value, in order. *)
Lemma new_Set_first_occurrences (l : list Z) :
  Zigzag.new_Set l = first_occurrences l.
Proof.
  unfold Zigzag.new_Set.
  assert (G : forall l acc,
            fold_left Zigzag.set_add l acc =
            acc ++ List.filter (fun w => negb (existsb (Z.eqb w) acc))
                          (first_occurrences l)).
  { clear l. induction l as [|v l IH]; intros acc.
    - cbn. now rewrite app_nil_r.
    - cbn [fold_left first_occurrences List.filter]. rewrite IH.
      unfold Zigzag.set_add. destruct (existsb (Z.eqb v) acc) eqn:E.
      + cbn [negb]. f_equal. rewrite filter_filter_and.
        apply List.filter_ext_in. intros w Hw.
        destruct (Z.eqb_spec w v) as [->|Hne]; cbn [negb andb];
          [now rewrite E | reflexivity].
      + cbn [negb]. rewrite <- app_assoc. cbn [app]. f_equal. f_equal.
        rewrite filter_filter_and. apply List.filter_ext. intros w.
        rewrite existsb_app. cbn [existsb]. rewrite orb_false_r.
        rewrite negb_orb. apply andb_comm. }
  rewrite G. cbn [app]. rewrite <- (List.filter_ext (fun _ => true)); [|reflexivity].
  clear. induction (first_occurrences l) as [|a t IH]; [reflexivity|].
  cbn [List.filter]. now rewrite IH.
Qed.

Lemma nth_map_inside {A B : Type} (f : A -> B) (l : list A) (p : nat) (d : A) (d' : B) :
  p < length l -> nth p (map f l) d' = f (nth p l d).
Proof.
  revert p. induction l as [|a l IH]; intros p Hp; [cbn in Hp; lia|].
  destruct p; [reflexivity|]. cbn [map nth]. apply IH. cbn in Hp. lia.
Qed.

Section ZigzagFacts.
Variable hypot : Q -> Q -> Q.
Variable tourIndices : list Z.
Variable points : list Point.

Let tourPoints := Zigzag.tour_points tourIndices points.

Lemma tour_points_length : length tourPoints = length tourIndices.
Proof. unfold tourPoints, Zigzag.tour_points. apply length_map. Qed.

Lemma originalId_pt (p : nat) :
  p < length tourIndices ->
  Zigzag.originalId (Zigzag.pt tourPoints p) = nth p tourIndices (-1)%Z.
Proof.
  intros Hp. unfold Zigzag.pt, tourPoints, Zigzag.tour_points, Zigzag.originalId.
  now rewrite (nth_map_inside _ _ _ (-1)%Z).
Qed.

(** With enough fuel the walk ends; it pushes only ids of the tour and
    every position of the tour is pushed. *)
Lemma emit_spec (fuel : nat) :
  forall (i : nat) (newTour : list Z),
    1 <= i -> length tourIndices <= i + fuel ->
    (forall v, In v newTour -> In v tourIndices) ->
    (forall p, p < length tourIndices -> p < i -> 1 < i ->
               In (nth p tourIndices (-1)%Z) newTour) ->
    exists emitted,
      Zigzag.emit fuel hypot tourPoints i newTour = Some emitted /\
      (forall v, In v emitted -> In v tourIndices) /\
      (2 <= length tourIndices ->
       forall p, p < length tourIndices -> In (nth p tourIndices (-1)%Z) emitted).
Proof.
  induction fuel as [|fuel IH]; intros i newTour Hi Hfuel Hsub Hcov.
  - cbn [Zigzag.emit]. rewrite tour_points_length.
    replace (i <? length tourIndices) with false by (symmetry; apply Nat.ltb_ge; lia).
    exists newTour. split; [reflexivity|]. split; [assumption|].
    intros HL p Hp. apply Hcov; lia.
  - cbn [Zigzag.emit]. rewrite tour_points_length.
    destruct (i <? length tourIndices) eqn:Hlt.
    + apply Nat.ltb_lt in Hlt.
      assert (Hmod : i mod length tourIndices = i) by (apply Nat.mod_small; lia).
      destruct ((2 <? length tourIndices - i) &&
                Zigzag.shouldZigzag hypot i tourPoints) eqn:Hz.
      * apply andb_prop in Hz as [Hz _]. apply Nat.ltb_lt in Hz.
        rewrite Hmod, !Nat.mod_small by lia.
        rewrite !originalId_pt by lia.
        apply IH; [lia | lia | |].
        -- intros v Hv. apply in_app_or in Hv as [Hv|Hv]; [now apply Hsub|].
           cbn [In] in Hv.
           destruct Hv as [<-|[<-|[<-|[<-|[]]]]]; apply nth_In; lia.
        -- intros p Hp Hp' _. apply in_or_app.
           destruct (Nat.lt_ge_cases p (i - 1)) as [C|C].
           ++ left. apply Hcov; lia.
           ++ right. cbn [In].
              assert (p = i - 1 \/ p = i \/ p = i + 1 \/ p = i + 2) as
                [-> | [-> | [-> | ->]]] by lia; tauto.
      * rewrite Hmod. rewrite !originalId_pt by lia.
        apply IH; [lia | lia | |].
        -- intros v Hv. apply in_app_or in Hv as [Hv|Hv]; [now apply Hsub|].
           cbn [In] in Hv. destruct Hv as [<-|[<-|[]]]; apply nth_In; lia.
        -- intros p Hp Hp' _. apply in_or_app.
           destruct (Nat.lt_ge_cases p (i - 1)) as [C|C].
           ++ left. apply Hcov; lia.
           ++ right. cbn [In].
              assert (p = i - 1 \/ p = i) as [-> | ->] by lia; tauto.
    + apply Nat.ltb_ge in Hlt.
      exists newTour. split; [reflexivity|]. split; [assumption|].
      intros HL p Hp. apply Hcov; lia.
Qed.
End ZigzagFacts.

(** C8: on a tour of [n >= 3] cities and its point list, [optimize] returns
    the ids it pushed in the order of their first occurrence, without
    duplicates, and every id of the input tour is among them. *)
Theorem zigzag_optimize_keeps_ids :
  forall (hypot : Q -> Q -> Q) (n fuel : nat) (tourIndices : list Z)
         (points : list Point) (graph : list (list Q)),
    3 <= n -> is_tour n tourIndices -> length points = n -> n <= fuel ->
    exists emitted result,
      Zigzag.emit fuel hypot (Zigzag.tour_points tourIndices points) 1 [] =
        Some emitted /\
      Zigzag.optimize fuel hypot tourIndices points graph = Some result /\
      result = first_occurrences emitted /\
      List.NoDup result /\
      (forall id, In id tourIndices -> In id result) /\
      is_tour n result.
Proof.
  intros hypot n fuel tourIndices points graph Hn Htour _ Hfuel.
  pose proof (is_tour_length n tourIndices Htour) as Hlen.
  destruct (emit_spec hypot tourIndices points fuel 1 [])
    as (emitted & E1 & E2 & E3); [lia | lia | intros v [] | intros; lia |].
  exists emitted, (first_occurrences emitted).
  assert (Hall : forall id, In id tourIndices -> In id (first_occurrences emitted)).
  { intros id Hid. apply first_occurrences_In.
    destruct (In_nth _ _ (-1)%Z Hid) as (p & Hp & <-). apply E3; lia. }
  split; [exact E1|]. split.
  { unfold Zigzag.optimize. cbn zeta. rewrite E1. cbn [option_map].
    now rewrite new_Set_first_occurrences. }
  split; [reflexivity|]. split; [apply first_occurrences_NoDup|].
  split; [exact Hall|].
  unfold is_tour. rewrite <- Htour.
  apply Permutation.NoDup_Permutation.
  - apply first_occurrences_NoDup.
  - eapply Permutation.Permutation_NoDup; [symmetry; exact Htour | apply cities_NoDup].
  - intros v. split; [|apply Hall].
    intros Hv. apply (proj1 (first_occurrences_In _ _)) in Hv. now apply E2.
Qed.

Lemma zigzag_optimize_keeps_ids_witness :
  let points := [mkPoint 0 0 0 0; mkPoint 1 0 0 1;
                 mkPoint 1 1 0 2; mkPoint 0 1 0 3] in
  let hypot := fun a b : Q => (a * a + b * b)%Q in
  exists emitted result,
    Zigzag.emit 4 hypot (Zigzag.tour_points [0; 2; 1; 3]%Z points) 1 [] =
      Some emitted /\
    Zigzag.optimize 4 hypot [0; 2; 1; 3]%Z points [] = Some result /\
    result = first_occurrences emitted /\
    List.NoDup result /\
    (forall id, In id [0; 2; 1; 3]%Z -> In id result) /\
    is_tour 4 result.
Proof.
  intros points hypot.
  apply (zigzag_optimize_keeps_ids hypot 4 4 [0; 2; 1; 3]%Z points []).
  - lia.
  - unfold is_tour. apply (bool_decide_unpack _). vm_compute. reflexivity.
  - reflexivity.
  - lia.
Defined.

(** ** Order crossover *)

Section CrossoverIndex.
(** A draw in [[0, 1)] gives an index below [k]. *)
Lemma random_index_lt (r : Q) (k : nat) :
  (0 <= r)%Q -> (r < 1)%Q -> 1 <= k -> GeneticAlgorithm.random_index r k < k.
Proof.
  intros H0 H1 Hk. unfold GeneticAlgorithm.random_index.
  set (q := inject_Z (Z.of_nat k)).
  assert (Hq : (0 < q)%Q).
  { unfold q. rewrite <- (Zlt_Qlt 0). lia. }
  assert (Hlt : (Qfloor (r * q) < Z.of_nat k)%Z).
  { rewrite Zlt_Qlt. fold q.
    apply Qle_lt_trans with (r * q)%Q; [apply Qfloor_le | nra]. }
  assert (Hge : (0 <= Qfloor (r * q))%Z).
  { change 0%Z with (Qfloor 0). apply Qfloor_resp_le. nra. }
  lia.
Qed.
End CrossoverIndex.

Section CrossoverLoops.
Variable n : nat.

(** The first loop after [m] rounds. *)
Lemma copy_segment_rounds (parent1 : list Z) (start m : nat) :
  start + m <= n ->
  let r := fold_left
             (fun (st : list Z * gset Z) i =>
                (<[i := at_ parent1 i]> (fst st), {[at_ parent1 i]} ∪ snd st))
             (seq start m) (repeat (-1)%Z n, ∅) in
  length (fst r) = n /\
  (forall pos, nth pos (fst r) (-1)%Z =
     if (start <=? pos) && (pos <? start + m) then at_ parent1 pos else (-1)%Z) /\
  (forall c, c ∈ snd r <-> exists i, start <= i < start + m /\ c = at_ parent1 i).
Proof.
  intros Hm. induction m as [|m IH]; cbn zeta.
  - cbn [seq fold_left fst snd]. split; [apply repeat_length|]. split.
    + intros pos.
      replace ((start <=? pos) && (pos <? start + 0)) with false.
      * destruct (Nat.lt_ge_cases pos n) as [H|H].
        -- apply nth_repeat_lt. exact H.
        -- apply nth_overflow. now rewrite repeat_length.
      * symmetry. apply andb_false_iff.
        destruct (Nat.le_gt_cases start pos);
          [right; apply Nat.ltb_ge; lia | left; apply Nat.leb_gt; lia].
    + intros c. split; [intros H; now apply elem_of_empty in H|].
      intros (i & Hi & _). lia.
  - rewrite seq_S, fold_left_app. cbn [fold_left fst snd].
    destruct IH as (L & N & U); [lia|]. cbn zeta in L, N, U.
    split; [now rewrite length_insert|]. split.
    + intros pos. destruct (Nat.eq_dec pos (start + m)) as [->|Hne].
      * rewrite nth_insert_eq by lia.
        replace ((start <=? start + m) && (start + m <? start + S m)) with true;
          [reflexivity|].
        symmetry. apply andb_true_iff. split;
          [apply Nat.leb_le | apply Nat.ltb_lt]; lia.
      * rewrite nth_insert_ne by lia. rewrite N.
        destruct (start <=? pos) eqn:E1; [|reflexivity]. cbn [andb].
        destruct (pos <? start + m) eqn:E2; destruct (pos <? start + S m) eqn:E3;
          try reflexivity.
        -- apply Nat.ltb_lt in E2. apply Nat.ltb_ge in E3. lia.
        -- apply Nat.ltb_ge in E2. apply Nat.ltb_lt in E3. lia.
    + intros c. rewrite elem_of_union, elem_of_singleton, U. split.
      * intros [->|(i & Hi & ->)]; [exists (start + m) | exists i]; split;
          try reflexivity; lia.
      * intros (i & Hi & ->). destruct (Nat.eq_dec i (start + m)) as [->|Hne];
          [now left|]. right. exists i. split; [lia | reflexivity].
Qed.

(** The second loop writes, in order, the cities it does not skip. *)
Lemma fill_rest_writes (parent2 : list Z) (end_ : nat) (used : gset Z)
    (st : list Z * nat) :
  GeneticAlgorithm.fill_rest parent2 n end_ used st =
  fold_left (cyclic_write n)
    (List.filter (fun c => negb (bool_decide (c ∈ used)))
       (map (fun i => at_ parent2 ((end_ + 1 + i) mod n)) (seq 0 n)))
    st.
Proof.
  unfold GeneticAlgorithm.fill_rest. generalize (seq 0 n). intros l. revert st.
  induction l as [|i l IH]; intros st; [reflexivity|].
  cbn [fold_left map List.filter].
  destruct (bool_decide (at_ parent2 ((end_ + 1 + i) mod n) ∈ used));
    cbn [negb fold_left]; apply IH.
Qed.

(** Writing the cities of [F] round the array from [idx]. *)
Lemma cyclic_write_nth (F : list Z) :
  forall (child : list Z) (idx : nat),
    idx < n -> length child = n -> length F <= n ->
    let r := fold_left (cyclic_write n) F (child, idx) in
    length (fst r) = n /\
    forall pos, pos < n ->
      nth pos (fst r) (-1)%Z =
        if offset n idx pos <? length F
        then nth (offset n idx pos) F (-1)%Z
        else nth pos child (-1)%Z.
Proof.
  induction F as [|c F IH]; intros child idx Hidx Hlen HF; cbn zeta.
  - cbn [fold_left fst length]. split; [assumption|]. intros pos _. reflexivity.
  - cbn [fold_left].
    change (cyclic_write n (child, idx) c)
      with (<[idx := c]> child, (idx + 1) mod n).
    cbn [length] in HF.
    assert (Hidx1 : (idx + 1) mod n < n) by (apply Nat.mod_upper_bound; lia).
    destruct (IH (<[idx := c]> child) ((idx + 1) mod n) Hidx1
                ltac:(now rewrite length_insert) ltac:(lia)) as [L N].
    cbn zeta in L, N. split; [exact L|].
    intros pos Hpos. rewrite (N pos Hpos). clear N L IH.
    assert (Hstep : (idx + 1) mod n = if idx + 1 =? n then 0 else idx + 1).
    { destruct (idx + 1 =? n) eqn:E.
      - apply Nat.eqb_eq in E. rewrite E. apply Nat.Div0.mod_same.
      - apply Nat.eqb_neq in E. apply Nat.mod_small. lia. }
    rewrite Hstep. unfold offset. cbn [length].
    destruct (Nat.eq_dec pos idx) as [->|Hne].
    + replace (idx <=? idx) with true by (symmetry; apply Nat.leb_le; lia).
      rewrite Nat.sub_diag. change (0 <? S (length F)) with true. cbn [nth].
      rewrite nth_insert_eq by lia.
      destruct (idx + 1 =? n) eqn:E.
      * apply Nat.eqb_eq in E. change (0 <=? idx) with true. cbv iota.
        replace (idx - 0 <? length F) with false
          by (symmetry; apply Nat.ltb_ge; lia).
        reflexivity.
      * apply Nat.eqb_neq in E.
        replace (idx + 1 <=? idx) with false by (symmetry; apply Nat.leb_gt; lia).
        cbv iota.
        replace (idx + n - (idx + 1) <? length F) with false
          by (symmetry; apply Nat.ltb_ge; lia).
        reflexivity.
    + rewrite nth_insert_ne by lia.
      assert (Hshift : forall k, (S k <? S (length F)) = (k <? length F)).
      { intros k. destruct (k <? length F) eqn:Ek.
        - apply Nat.ltb_lt in Ek. apply Nat.ltb_lt. lia.
        - apply Nat.ltb_ge in Ek. apply Nat.ltb_ge. lia. }
      destruct (idx + 1 =? n) eqn:E.
      * apply Nat.eqb_eq in E. change (0 <=? pos) with true.
        replace (idx <=? pos) with false by (symmetry; apply Nat.leb_gt; lia).
        cbv iota.
        replace (pos + n - idx) with (S (pos - 0)) by lia.
        rewrite Hshift. cbn [nth]. reflexivity.
      * apply Nat.eqb_neq in E.
        destruct (idx <=? pos) eqn:E1.
        -- apply Nat.leb_le in E1.
           replace (idx + 1 <=? pos) with true by (symmetry; apply Nat.leb_le; lia).
           cbv iota.
           replace (pos - idx) with (S (pos - (idx + 1))) by lia.
           rewrite Hshift. cbn [nth]. reflexivity.
        -- apply Nat.leb_gt in E1.
           replace (idx + 1 <=? pos) with false by (symmetry; apply Nat.leb_gt; lia).
           cbv iota.
           replace (pos + n - idx) with (S (pos + n - (idx + 1))) by lia.
           rewrite Hshift. cbn [nth]. reflexivity.
Qed.
End CrossoverLoops.

Lemma NoDup_app_disjoint {A : Type} (l1 l2 : list A) (a : A) :
  List.NoDup (l1 ++ l2) -> In a l1 -> In a l2 -> False.
Proof.
  induction l1 as [|b l1 IH]; intros Hnd H1 H2; [destruct H1|].
  cbn [app] in Hnd. apply List.NoDup_cons_iff in Hnd as [Hb Hnd].
  destruct H1 as [->|H1].
  - apply Hb. apply in_or_app. now right.
  - now apply IH.
Qed.

Lemma is_tour_NoDup (n : nat) (tour : list Z) : is_tour n tour -> List.NoDup tour.
Proof.
  intros H. eapply Permutation.Permutation_NoDup; [symmetry; exact H|].
  apply cities_NoDup.
Qed.

Lemma is_tour_In (n : nat) (tour : list Z) (c : Z) :
  is_tour n tour -> In c tour <-> exists i, i < n /\ c = Z.of_nat i.
Proof.
  intros H. rewrite <- cities_In. split; apply Permutation_in;
    [exact H | symmetry; exact H].
Qed.

Section CrossoverValid.
Variables (n start end_ : nat) (parent1 parent2 : list Z).
Hypothesis tour1 : is_tour n parent1.
Hypothesis tour2 : is_tour n parent2.
Hypothesis bounds : start <= end_ /\ end_ < n.

Let seglen := end_ + 1 - start.
Let e1 := (end_ + 1) mod n.
Let seg := copy_segment_rounds n parent1 start seglen.
Let used : gset Z :=
  snd (GeneticAlgorithm.copy_segment parent1 start end_ (repeat (-1)%Z n, ∅)).
Let child1 : list Z :=
  fst (GeneticAlgorithm.copy_segment parent1 start end_ (repeat (-1)%Z n, ∅)).
Let R := map (fun i => at_ parent2 ((end_ + 1 + i) mod n)) (seq 0 n).
Let F := List.filter (fun c => negb (bool_decide (c ∈ used))) R.

Lemma e1_value : e1 = if end_ + 1 =? n then 0 else end_ + 1.
Proof.
  unfold e1. destruct (end_ + 1 =? n) eqn:E.
  - apply Nat.eqb_eq in E. rewrite E. apply Nat.Div0.mod_same.
  - apply Nat.eqb_neq in E. apply Nat.mod_small. lia.
Qed.

Lemma used_spec (c : Z) :
  c ∈ used <-> exists i, start <= i <= end_ /\ c = at_ parent1 i.
Proof.
  destruct (seg ltac:(unfold seglen; lia)) as (_ & _ & U). cbn zeta in U.
  unfold used, GeneticAlgorithm.copy_segment. fold seglen. rewrite U.
  unfold seglen. split; intros (i & Hi & ->); exists i; (split; [lia | reflexivity]).
Qed.

Lemma child1_spec :
  length child1 = n /\
  forall pos, nth pos child1 (-1)%Z =
    if (start <=? pos) && (pos <=? end_) then at_ parent1 pos else (-1)%Z.
Proof.
  destruct (seg ltac:(unfold seglen; lia)) as (L & N & _). cbn zeta in L, N.
  unfold child1, GeneticAlgorithm.copy_segment. fold seglen.
  split; [exact L|]. intros pos. rewrite N.
  replace (pos <? start + seglen) with (pos <=? end_); [reflexivity|].
  unfold seglen. destruct (pos <=? end_) eqn:E.
  - apply Nat.leb_le in E. symmetry. apply Nat.ltb_lt. lia.
  - apply Nat.leb_gt in E. symmetry. apply Nat.ltb_ge. lia.
Qed.

Lemma len1 : length parent1 = n.
Proof. now apply is_tour_length. Qed.

Lemma len2 : length parent2 = n.
Proof. now apply is_tour_length. Qed.

Lemma R_nth (k : nat) :
  k < n -> nth k R (-1)%Z = at_ parent2 ((end_ + 1 + k) mod n).
Proof.
  intros Hk. unfold R.
  rewrite (nth_map_inside _ _ _ 0) by (now rewrite length_seq).
  now rewrite seq_nth.
Qed.

Lemma R_NoDup : List.NoDup R.
Proof.
  apply (NoDup_nth R (-1)%Z). unfold R at 1 2.
  rewrite length_map, length_seq. intros i j Hi Hj.
  rewrite !R_nth by assumption. unfold at_. intros E.
  pose proof (is_tour_NoDup n parent2 tour2) as Hnd.
  rewrite (NoDup_nth parent2 (-1)%Z) in Hnd.
  apply Hnd in E; try (rewrite len2; apply Nat.mod_upper_bound; lia).
  assert (M : forall k, k < n ->
            (end_ + 1 + k) mod n =
            if end_ + 1 + k <? n then end_ + 1 + k else end_ + 1 + k - n).
  { intros k Hk. destruct (end_ + 1 + k <? n) eqn:E'.
    - apply Nat.ltb_lt in E'. now apply Nat.mod_small.
    - apply Nat.ltb_ge in E'.
      replace (end_ + 1 + k) with (end_ + 1 + k - n + 1 * n) at 1 by lia.
      rewrite Nat.Div0.mod_add. apply Nat.mod_small. lia. }
  rewrite (M i Hi), (M j Hj) in E.
  destruct (end_ + 1 + i <? n) eqn:Ei; destruct (end_ + 1 + j <? n) eqn:Ej;
    try apply Nat.ltb_lt in Ei; try apply Nat.ltb_ge in Ei;
    try apply Nat.ltb_lt in Ej; try apply Nat.ltb_ge in Ej; lia.
Qed.

Lemma R_In (c : Z) : In c R <-> exists i, i < n /\ c = Z.of_nat i.
Proof.
  rewrite <- (is_tour_In n parent2 c tour2).
  assert (P : Permutation R parent2).
  { apply NoDup_Permutation_bis; [apply R_NoDup | |].
    - rewrite len2. unfold R. now rewrite length_map, length_seq.
    - intros x Hx. unfold R in Hx. apply in_map_iff in Hx as (i & <- & Hi).
      apply nth_In. rewrite len2. apply Nat.mod_upper_bound. lia. }
  split; apply Permutation_in; [exact P | symmetry; exact P].
Qed.

Lemma F_spec :
  List.NoDup F /\
  (forall c, In c F <-> (exists i, i < n /\ c = Z.of_nat i) /\ c ∉ used) /\
  length F = n - seglen.
Proof.
  assert (HF : forall c, In c F <-> (exists i, i < n /\ c = Z.of_nat i) /\ c ∉ used).
  { intros c. unfold F. rewrite List.filter_In, R_In, negb_true_iff.
    rewrite bool_decide_eq_false. reflexivity. }
  assert (Hnd : List.NoDup F) by (apply List.NoDup_filter, R_NoDup).
  split; [exact Hnd|]. split; [exact HF|].
  set (Sg := map (at_ parent1) (seq start seglen)).
  assert (HSg : forall c, In c Sg <-> c ∈ used).
  { intros c. rewrite used_spec. unfold Sg. rewrite in_map_iff. split.
    - intros (i & <- & Hi). apply in_seq in Hi. exists i.
      split; [unfold seglen in Hi; lia | reflexivity].
    - intros (i & Hi & ->). exists i. split; [reflexivity|].
      apply in_seq. unfold seglen. lia. }
  assert (HSgnd : List.NoDup Sg).
  { apply (NoDup_nth Sg (-1)%Z). unfold Sg at 1 2.
    rewrite length_map, length_seq. intros i j Hi Hj.
    unfold Sg. rewrite !(nth_map_inside _ _ _ 0) by (now rewrite length_seq).
    rewrite !seq_nth by assumption. unfold at_. intros E.
    pose proof (is_tour_NoDup n parent1 tour1) as Hnd1.
    rewrite (NoDup_nth parent1 (-1)%Z) in Hnd1.
    apply Hnd1 in E; unfold seglen in *; rewrite ?len1; lia. }
  assert (P : Permutation (F ++ Sg) (cities n)).
  { apply Permutation.NoDup_Permutation.
    - apply List.NoDup_app; [assumption | assumption |].
      intros c Hc1 Hc2. apply HF in Hc1 as [_ Hc1]. apply Hc1. now apply HSg.
    - apply cities_NoDup.
    - intros c. rewrite in_app_iff, HF, HSg, cities_In. split.
      + intros [[H _]|H]; [exact H|].
        apply used_spec in H as (i & Hi & ->).
        apply (is_tour_In n parent1 _ tour1). apply nth_In. rewrite len1. lia.
      + intros H. destruct (decide (c ∈ used)); [now right | now left]. }
  apply Permutation_length in P.
  rewrite length_app, cities_length in P.
  unfold Sg in P. rewrite length_map, length_seq in P. lia.
Qed.

(** The child: the segment of the first parent in place, the other
    cities in the order of the second parent. *)
Lemma crossover_at_nth (pos : nat) :
  pos < n ->
  nth pos (GeneticAlgorithm.crossover_at start end_ parent1 parent2) (-1)%Z =
    if (start <=? pos) && (pos <=? end_) then at_ parent1 pos
    else nth (offset n e1 pos) F (-1)%Z.
Proof.
  intros Hpos. unfold GeneticAlgorithm.crossover_at. cbn zeta.
  rewrite len1. fold used child1. rewrite fill_rest_writes. fold R F e1.
  destruct F_spec as (_ & _ & HlenF). destruct child1_spec as [L1 N1].
  destruct (cyclic_write_nth n F child1 e1) as [_ N];
    [apply Nat.mod_upper_bound; lia | exact L1 | lia |].
  cbn zeta in N. rewrite (N pos Hpos), N1, HlenF. clear N.
  rewrite e1_value. unfold offset, seglen.
  destruct (end_ + 1 =? n) eqn:E;
    [apply Nat.eqb_eq in E | apply Nat.eqb_neq in E].
  - change (0 <=? pos) with true. cbv iota.
    destruct (start <=? pos) eqn:E1;
      [apply Nat.leb_le in E1 | apply Nat.leb_gt in E1]; cbn [andb].
    + replace (pos <=? end_) with true by (symmetry; apply Nat.leb_le; lia).
      now replace (pos - 0 <? n - (end_ + 1 - start)) with false
        by (symmetry; apply Nat.ltb_ge; lia).
    + now replace (pos - 0 <? n - (end_ + 1 - start)) with true
        by (symmetry; apply Nat.ltb_lt; lia).
  - destruct (end_ + 1 <=? pos) eqn:E2;
      [apply Nat.leb_le in E2 | apply Nat.leb_gt in E2].
    + replace (pos <=? end_) with false by (symmetry; apply Nat.leb_gt; lia).
      rewrite andb_false_r.
      now replace (pos - (end_ + 1) <? n - (end_ + 1 - start)) with true
        by (symmetry; apply Nat.ltb_lt; lia).
    + replace (pos <=? end_) with true by (symmetry; apply Nat.leb_le; lia).
      rewrite andb_true_r.
      destruct (start <=? pos) eqn:E1;
        [apply Nat.leb_le in E1 | apply Nat.leb_gt in E1].
      * now replace (pos + n - (end_ + 1) <? n - (end_ + 1 - start)) with false
          by (symmetry; apply Nat.ltb_ge; lia).
      * now replace (pos + n - (end_ + 1) <? n - (end_ + 1 - start)) with true
          by (symmetry; apply Nat.ltb_lt; lia).
Qed.
Lemma crossover_at_length :
  length (GeneticAlgorithm.crossover_at start end_ parent1 parent2) = n.
Proof.
  unfold GeneticAlgorithm.crossover_at. cbn zeta.
  rewrite len1. fold used child1. rewrite fill_rest_writes. fold R F e1.
  destruct F_spec as (_ & _ & HlenF). destruct child1_spec as [L1 _].
  destruct (cyclic_write_nth n F child1 e1) as [L _];
    [apply Nat.mod_upper_bound; lia | exact L1 | lia | exact L].
Qed.

(** Outside the segment the offsets from [e1] are distinct and below the
    number of cities written. *)
Lemma offset_outside (pos : nat) :
  pos < n -> (start <=? pos) && (pos <=? end_) = false ->
  offset n e1 pos < n - seglen /\
  pos = if offset n e1 pos + e1 <? n then offset n e1 pos + e1
        else offset n e1 pos + e1 - n.
Proof.
  intros Hpos Hout. rewrite e1_value. unfold offset, seglen.
  apply andb_false_iff in Hout.
  destruct (end_ + 1 =? n) eqn:E;
    [apply Nat.eqb_eq in E | apply Nat.eqb_neq in E].
  - change (0 <=? pos) with true. cbv iota.
    destruct Hout as [H|H]; [apply Nat.leb_gt in H | apply Nat.leb_gt in H; lia].
    replace (pos - 0 + 0 <? n) with true by (symmetry; apply Nat.ltb_lt; lia).
    lia.
  - destruct (end_ + 1 <=? pos) eqn:E2;
      [apply Nat.leb_le in E2 | apply Nat.leb_gt in E2].
    + replace (pos - (end_ + 1) + (end_ + 1) <? n) with true
        by (symmetry; apply Nat.ltb_lt; lia).
      lia.
    + destruct Hout as [H|H]; [apply Nat.leb_gt in H | apply Nat.leb_gt in H; lia].
      replace (pos + n - (end_ + 1) + (end_ + 1) <? n) with false
        by (symmetry; apply Nat.ltb_ge; lia).
      lia.
Qed.

(** The child is a tour. *)
Lemma crossover_at_valid :
  is_tour n (GeneticAlgorithm.crossover_at start end_ parent1 parent2).
Proof.
  destruct F_spec as (Fnd & Fin & Flen).
  apply full_tour.
  - apply (NoDup_nth _ (-1)%Z). rewrite crossover_at_length.
    intros i j Hi Hj. rewrite !crossover_at_nth by assumption.
    destruct ((start <=? i) && (i <=? end_)) eqn:Ei;
      destruct ((start <=? j) && (j <=? end_)) eqn:Ej.
    + pose proof (is_tour_NoDup n parent1 tour1) as Hnd1.
      rewrite (NoDup_nth parent1 (-1)%Z) in Hnd1.
      unfold at_. apply Hnd1; rewrite len1; assumption.
    + intros E. exfalso.
      destruct (offset_outside j Hj Ej) as [Ho _].
      assert (Hin : In (nth (offset n e1 j) F (-1)%Z) F)
        by (apply nth_In; lia).
      apply Fin in Hin as [_ Hin]. apply Hin. rewrite <- E.
      apply used_spec. exists i. apply andb_prop in Ei as [E1 E2].
      apply Nat.leb_le in E1, E2. split; [lia | reflexivity].
    + intros E. exfalso.
      destruct (offset_outside i Hi Ei) as [Ho _].
      assert (Hin : In (nth (offset n e1 i) F (-1)%Z) F)
        by (apply nth_In; lia).
      apply Fin in Hin as [_ Hin]. apply Hin. rewrite E.
      apply used_spec. exists j. apply andb_prop in Ej as [E1 E2].
      apply Nat.leb_le in E1, E2. split; [lia | reflexivity].
    + intros E.
      destruct (offset_outside i Hi Ei) as [Hoi Hi'].
      destruct (offset_outside j Hj Ej) as [Hoj Hj'].
      rewrite (NoDup_nth F (-1)%Z) in Fnd.
      apply Fnd in E; [|lia|lia]. rewrite Hi', Hj', E. reflexivity.
  - intros c Hc. destruct (In_nth _ _ (-1)%Z Hc) as (pos & Hpos & <-).
    rewrite crossover_at_length in Hpos. rewrite crossover_at_nth by assumption.
    destruct ((start <=? pos) && (pos <=? end_)) eqn:Ep.
    + apply (is_tour_In n parent1 _ tour1). apply nth_In. now rewrite len1.
    + destruct (offset_outside pos Hpos Ep) as [Ho _].
      assert (Hin : In (nth (offset n e1 pos) F (-1)%Z) F)
        by (apply nth_In; lia).
      now apply Fin in Hin as [Hin _].
  - now rewrite crossover_at_length.
Qed.
End CrossoverValid.

(** C6: for [n >= 1], parents that are permutations of the cities and any
    two draws in [[0, 1)], the child of the order crossover is a permutation
    of the cities: every city once, no slot left at [-1]. *)
Theorem crossover_valid_permutation :
  forall (n : nat) (r1 r2 : Q) (parent1 parent2 : list Z),
    1 <= n -> is_tour n parent1 -> is_tour n parent2 ->
    (0 <= r1)%Q -> (r1 < 1)%Q -> (0 <= r2)%Q -> (r2 < 1)%Q ->
    is_tour n (GeneticAlgorithm.crossover r1 r2 parent1 parent2) /\
    ~ In (-1)%Z (GeneticAlgorithm.crossover r1 r2 parent1 parent2).
Proof.
  intros n r1 r2 parent1 parent2 Hn H1 H2 Hr1 Hr1' Hr2 Hr2'.
  unfold GeneticAlgorithm.crossover. cbn zeta.
  rewrite (is_tour_length n parent1 H1).
  pose proof (random_index_lt r1 n Hr1 Hr1' Hn) as Hs.
  pose proof (random_index_lt r2 (n - GeneticAlgorithm.random_index r1 n)
                Hr2 Hr2' ltac:(lia)) as He.
  assert (V : is_tour n (GeneticAlgorithm.crossover_at
                           (GeneticAlgorithm.random_index r1 n)
                           (GeneticAlgorithm.random_index r1 n +
                            GeneticAlgorithm.random_index r2
                              (n - GeneticAlgorithm.random_index r1 n))
                           parent1 parent2)).
  { apply crossover_at_valid; [assumption | assumption | lia]. }
  split; [exact V|].
  intros Hin. apply (is_tour_In n _ _ V) in Hin as (i & _ & Hi). lia.
Qed.

Lemma crossover_valid_permutation_witness :
  is_tour 4 (GeneticAlgorithm.crossover (1 # 2) (1 # 3)
               [0; 1; 2; 3]%Z [3; 2; 1; 0]%Z) /\
  ~ In (-1)%Z (GeneticAlgorithm.crossover (1 # 2) (1 # 3)
                 [0; 1; 2; 3]%Z [3; 2; 1; 0]%Z).
Proof.
  apply (crossover_valid_permutation 4).
  - lia.
  - unfold is_tour. apply (bool_decide_unpack _). vm_compute. reflexivity.
  - unfold is_tour. apply (bool_decide_unpack _). vm_compute. reflexivity.
  - discriminate.
  - reflexivity.
  - discriminate.
  - reflexivity.
Defined.

(** ** Sorting and the two angular constructions *)

Lemma sort_insert_perm {A : Type} (key : A -> Q) (a : A) (l : list A) :
  Permutation (sort_insert key a l) (a :: l).
Proof.
  induction l as [|b l IH]; [reflexivity|]. cbn [sort_insert].
  destruct (Qltb (key b) (key a)); [|reflexivity].
  rewrite IH. apply perm_swap.
Qed.

(** Sorting rearranges the array. *)
Lemma js_sort_perm {A : Type} (key : A -> Q) (l : list A) :
  Permutation (js_sort key l) l.
Proof.
  induction l as [|a l IH]; [reflexivity|]. cbn [js_sort fold_right].
  fold (js_sort key l). rewrite sort_insert_perm. now apply perm_skip.
Qed.


Section SonarFacts.
Variable PI : Q.
Variable hypot : Q -> Q -> Q.
Variable gridSize : nat.
Hypothesis PI_pos : (0 < PI)%Q.
Hypothesis grid_pos : 1 <= gridSize.

Let angleSteps := 4 * gridSize.
Let angleStep := (2 * PI / inject_Z (Z.of_nat angleSteps))%Q.




End SonarFacts.

(** ** Bit masks of the dynamic program *)

Section Bits.










End Bits.

Section MaskCities.
Variable n : nat.










End MaskCities.

Section GenerateSubsets.
Variable n : nat.
Hypothesis n_small : n <= 30.



End GenerateSubsets.

(** ** Held-Karp: the running minimum *)


(** ** Held-Karp: paths and table entries *)

Section HeldKarpPaths.
Variable graph : list (list Q).
Variable n : nat.
Hypothesis n_small : n <= 30.





End HeldKarpPaths.

(** ** Held-Karp: the tables *)

Section HeldKarpTables.
Variable graph : list (list Q).
Variable n : nat.
Hypothesis n_small : n <= 30.



End HeldKarpTables.

Section HeldKarpLevels.
Variable graph : list (list Q).
Variable n : nat.
Hypothesis n_small : n <= 30.





End HeldKarpLevels.

Section HeldKarpResult.
Variable graph : list (list Q).
Variable n : nat.
Hypothesis n_small : n <= 30.
Hypothesis n_two : 2 <= n.





End HeldKarpResult.

Section HeldKarpTours.
Variable graph : list (list Q).
Variable n : nat.
Hypothesis n_small : n <= 30.
Hypothesis n_two : 2 <= n.







End HeldKarpTours.



(** ** Greedy edge: union-find *)

Section UnionFind.
Lemma Root_is_root (p : list nat) (k x r : nat) :
  Root p k x r -> nth r p 0 = r.
Proof. induction 1; assumption. Qed.

Lemma Root_functional (p : list nat) (k x r : nat) :
  Root p k x r -> forall k' r', Root p k' x r' -> r = r' /\ k = k'.
Proof.
  induction 1 as [x Hx | k x y r Hx Hne Hy IH]; intros k' r' H'.
  - inversion H' as [x' Hx' | k2 x' y' r2 Hx' Hne' Hy']; subst; [now split|].
    congruence.
  - inversion H' as [x' Hx' | k2 x' y' r2 Hx' Hne' Hy']; subst; [congruence|].
    destruct (IH _ _ Hy') as [-> ->]. now split.
Qed.

(** Pointing [x] straight at its root keeps every root and makes no
    path to a root longer. *)
Lemma compress_keeps_roots (p : list nat) (x r kx : nat) :
  x < length p -> Root p kx x r ->
  forall z kz rz, Root p kz z rz ->
    exists kz', kz' <= kz /\ Root (<[x := r]> p) kz' z rz.
Proof.
  intros Hx Hxr z kz rz Hz.
  pose proof (Root_is_root _ _ _ _ Hxr) as Hr.
  induction Hz as [z Hz | k z y rz Hz Hne Hy IH].
  - exists 0. split; [lia|]. apply Root_here.
    destruct (Nat.eq_dec x z) as [->|Hxz].
    + destruct (Root_functional _ _ _ _ Hxr 0 z (Root_here p z Hz)) as [-> _].
      now rewrite nth_insert_eq.
    + now rewrite nth_insert_ne.
  - destruct IH as (k' & Hk' & IH).
    destruct (Nat.eq_dec x z) as [->|Hxz].
    + destruct (Root_functional _ _ _ _ Hxr _ _ (Root_step p k z y rz Hz Hne Hy))
        as [-> _].
      destruct (Nat.eq_dec rz z) as [E|E].
      * exfalso. rewrite E in Hr. congruence.
      * exists 1. split; [lia|].
        apply (Root_step _ 0 z rz rz); [now rewrite nth_insert_eq | exact E |].
        apply Root_here. now rewrite nth_insert_ne.
    + exists (S k'). split; [lia|].
      apply (Root_step _ k' z y rz); [now rewrite nth_insert_ne | exact Hne | exact IH].
Qed.

Lemma Root_in_range (p : list nat) (k x r : nat) :
  Root p k x r -> x < length p ->
  (forall y, y < length p -> nth y p 0 < length p) -> r < length p.
Proof.
  induction 1 as [x Hx | k x y r Hx Hne Hy IH]; intros Hlt Hrange; [exact Hlt|].
  apply IH; [|exact Hrange]. rewrite <- Hx. now apply Hrange.
Qed.

(** [find] returns the root; the new array has the same roots and no
    longer paths. *)
Lemma find_spec (fuel : nat) :
  forall (p : list nat) (x k r : nat),
    x < length p -> (forall y, y < length p -> nth y p 0 < length p) ->
    Root p k x r -> k < fuel ->
    exists p',
      GreedyEdge.find fuel p x = Some (p', r) /\
      length p' = length p /\
      (forall y, y < length p' -> nth y p' 0 < length p') /\
      (forall z kz rz, Root p kz z rz ->
         exists kz', kz' <= kz /\ Root p' kz' z rz).
Proof.
  induction fuel as [|fuel IH]; intros p x k r Hx Hrange Hroot Hk; [lia|].
  cbn [GreedyEdge.find].
  inversion Hroot as [x' Hx' | k' x' y r' Hx' Hne Hy]; subst.
  - rewrite Hx', Nat.eqb_refl. exists p. split; [reflexivity|].
    split; [reflexivity|]. split; [exact Hrange|].
    intros z kz rz Hz. exists kz. now split.
  - replace (nth x p 0 =? x) with false by (symmetry; apply Nat.eqb_neq; lia).
    destruct (IH p (nth x p 0) k' r (Hrange x Hx) Hrange Hy ltac:(lia))
      as (p1 & Hfind & Hlen & Hrange1 & Hkeep).
    rewrite Hfind. exists (<[x := r]> p1). split; [reflexivity|].
    split; [now rewrite length_insert|].
    split.
    { intros y Hy'. rewrite length_insert in *.
      destruct (Nat.eq_dec x y) as [->|Hxy].
      - rewrite nth_insert_eq by lia. rewrite Hlen.
        apply (Root_in_range p _ _ _ Hroot Hx Hrange).
      - rewrite nth_insert_ne by exact Hxy. now apply Hrange1. }
    intros z kz rz Hz.
    destruct (Hkeep z kz rz Hz) as (kz1 & Hkz1 & Hz1).
    destruct (Hkeep x _ r Hroot) as (kx1 & _ & Hx1).
    destruct (compress_keeps_roots p1 x r kx1 ltac:(lia) Hx1 z kz1 rz Hz1)
      as (kz2 & Hkz2 & Hz2).
    exists kz2. split; [lia | exact Hz2].
Qed.

(** Hanging the root [ra] under another root [rb]. *)
Lemma link_roots (p : list nat) (ra rb : nat) :
  ra < length p -> ra <> rb -> nth ra p 0 = ra -> nth rb p 0 = rb ->
  forall z kz rz, Root p kz z rz ->
    (rz = ra -> Root (<[ra := rb]> p) (S kz) z rb) /\
    (rz <> ra -> Root (<[ra := rb]> p) kz z rz).
Proof.
  intros Hra Hne Hra_root Hrb z kz rz Hz.
  induction Hz as [z Hz | k z y rz Hz Hyz Hy IH].
  - split.
    + intros ->. apply (Root_step _ 0 ra rb rb);
        [now rewrite nth_insert_eq | congruence |].
      apply Root_here. now rewrite nth_insert_ne.
    + intros Hz'. apply Root_here. now rewrite nth_insert_ne.
  - assert (Hzra : ra <> z) by congruence.
    destruct IH as [IH1 IH2]. split.
    + intros E. apply (Root_step _ (S k) z y rb);
        [now rewrite nth_insert_ne | exact Hyz | now apply IH1].
    + intros E. apply (Root_step _ k z y rz);
        [now rewrite nth_insert_ne | exact Hyz | now apply IH2].
Qed.
End UnionFind.

(** ** Greedy edge: neighbours in a path *)

Section Links.
Lemma link_In (P : list nat) (x y : nat) : link P x y -> In x P /\ In y P.
Proof.
  intros (l1 & l2 & ->). split; apply in_or_app; right; [now left|].
  right. now left.
Qed.

Lemma link_cons (a : nat) (P : list nat) (x y : nat) :
  link (a :: P) x y <-> (a = x /\ exists l, P = y :: l) \/ link P x y.
Proof.
  split.
  - intros (l1 & l2 & E). destruct l1 as [|b l1]; cbn in E.
    + injection E as -> ->. left. split; [reflexivity | now exists l2].
    + injection E as -> ->. right. now exists l1, l2.
  - intros [[-> (l & ->)]|(l1 & l2 & ->)].
    + now exists [], l.
    + now exists (a :: l1), l2.
Qed.

Lemma link_app_l (A B : list nat) (x y : nat) : link A x y -> link (A ++ B) x y.
Proof.
  intros (l1 & l2 & ->). exists l1, (l2 ++ B).
  rewrite <- app_assoc. reflexivity.
Qed.

Lemma link_app_r (A B : list nat) (x y : nat) : link B x y -> link (A ++ B) x y.
Proof.
  intros (l1 & l2 & ->). exists (A ++ l1), l2. now rewrite <- app_assoc.
Qed.

(** Links of two paths put end to end. *)
Lemma link_app (A B : list nat) (x y : nat) :
  link (A ++ B) x y <->
  link A x y \/ link B x y \/
  ((exists A', A = A' ++ [x]) /\ exists B', B = y :: B').
Proof.
  split.
  - revert x y. induction A as [|a A IH]; intros x y H.
    + right. now left.
    + cbn [app] in H. apply link_cons in H as [[-> (l & E)]|H].
      * destruct A as [|a' A]; cbn [app] in E.
        -- right. right. split; [now exists [] | now exists l].
        -- injection E as -> E. left. now exists [], A.
      * apply IH in H as [H|[H|[(A' & ->) HB]]].
        -- left. apply link_cons. now right.
        -- right. now left.
        -- right. right. split; [now exists (a :: A') | exact HB].
  - intros [H|[H|[(A' & ->) (B' & ->)]]].
    + now apply link_app_l.
    + now apply link_app_r.
    + exists A', B'. now rewrite <- app_assoc.
Qed.

Lemma link_rev (P : list nat) (x y : nat) : link (rev P) x y <-> link P y x.
Proof.
  assert (G : forall P x y, link P y x -> link (rev P) x y).
  { clear. intros P x y (l1 & l2 & ->). exists (rev l2), (rev l1).
    rewrite rev_app_distr. cbn [rev]. now rewrite <- !app_assoc. }
  split; [|apply G]. intros H. apply G in H. now rewrite rev_involutive in H.
Qed.

Lemma adjacent_sym (P : list nat) (x y : nat) : adjacent P x y <-> adjacent P y x.
Proof. unfold adjacent. tauto. Qed.

Lemma adjacent_rev (P : list nat) (x y : nat) :
  adjacent (rev P) x y <-> adjacent P x y.
Proof. unfold adjacent. rewrite !link_rev. tauto. Qed.

Lemma adjacent_In (P : list nat) (x y : nat) : adjacent P x y -> In x P /\ In y P.
Proof. intros [H|H]; apply link_In in H; tauto. Qed.

(** Neighbours in two paths joined at [a] and [b]. *)
Lemma adjacent_join (A' B' : list nat) (a b x y : nat) :
  adjacent ((A' ++ [a]) ++ b :: B') x y <->
  adjacent (A' ++ [a]) x y \/ adjacent (b :: B') x y \/
  (x = a /\ y = b) \/ (x = b /\ y = a).
Proof.
  unfold adjacent. rewrite !link_app. split.
  - intros [[H|[H|[(A1 & E1) (B1 & E2)]]]|[H|[H|[(A1 & E1) (B1 & E2)]]]];
      try tauto.
    + apply app_inj_tail in E1 as [_ <-]. injection E2 as <- _. tauto.
    + apply app_inj_tail in E1 as [_ <-]. injection E2 as <- _. tauto.
  - intros [[H|H]|[[H|H]|[[-> ->]|[-> ->]]]]; try tauto.
    + left. right. right. split; [now exists A' | now exists B'].
    + right. right. right. split; [now exists A' | now exists B'].
Qed.

(** In a path without repetition a city has one place. *)
Lemma NoDup_split_unique (l1 l1' r r' : list nat) (x : nat) :
  List.NoDup (l1 ++ x :: r) -> l1 ++ x :: r = l1' ++ x :: r' ->
  l1 = l1' /\ r = r'.
Proof.
  revert l1'. induction l1 as [|a l1 IH]; intros l1' Hnd E.
  - destruct l1' as [|a' l1']; cbn in *.
    + injection E as ->. now split.
    + injection E as <- E. exfalso.
      apply List.NoDup_cons_iff in Hnd as [Hn _]. apply Hn.
      rewrite E. apply in_or_app. right. now left.
  - destruct l1' as [|a' l1']; cbn in *.
    + injection E as -> E. exfalso.
      apply List.NoDup_cons_iff in Hnd as [Hn _]. apply Hn.
      apply in_or_app. right. now left.
    + injection E as <- E.
      apply List.NoDup_cons_iff in Hnd as [_ Hnd].
      destruct (IH l1' Hnd E) as [-> ->]. now split.
Qed.

Lemma link_next_unique (P : list nat) (x y y' : nat) :
  List.NoDup P -> link P x y -> link P x y' -> y = y'.
Proof.
  intros Hnd (l1 & l2 & E) (l1' & l2' & E'). subst P.
  destruct (NoDup_split_unique l1 l1' _ _ x Hnd E') as [_ E2].
  now injection E2.
Qed.

End Links.

(** ** Greedy edge: the set of paths *)

Section Paths.
Lemma Permutation_concat_lists (ps qs : list (list nat)) :
  Permutation ps qs -> Permutation (concat ps) (concat qs).
Proof.
  induction 1 as [|P ps qs _ IH|P Q ps|ps qs rs _ IH1 _ IH2]; cbn [concat].
  - reflexivity.
  - now apply Permutation_app_head.
  - rewrite !app_assoc. apply Permutation_app_tail, Permutation_app_comm.
  - now transitivity (concat qs).
Qed.

Lemma paths_NoDup (n : nat) (paths : list (list nat)) :
  paths_ok n paths -> List.NoDup (concat paths).
Proof.
  intros [Hp _]. eapply Permutation.Permutation_NoDup.
  - symmetry. exact Hp.
  - apply seq_NoDup.
Qed.

Lemma paths_cover (n : nat) (paths : list (list nat)) (x : nat) :
  paths_ok n paths -> x < n -> exists P, In P paths /\ In x P.
Proof.
  intros [Hp _] Hx.
  assert (Hin : In x (concat paths)).
  { eapply Permutation_in; [symmetry; exact Hp|]. apply in_seq. lia. }
  apply in_concat in Hin as (P & HP & HxP). now exists P.
Qed.

Lemma paths_range (n : nat) (paths : list (list nat)) (P : list nat) (x : nat) :
  paths_ok n paths -> In P paths -> In x P -> x < n.
Proof.
  intros [Hp _] HP Hx.
  assert (Hin : In x (seq 0 n)).
  { eapply Permutation_in; [exact Hp|]. apply in_concat. now exists P. }
  apply in_seq in Hin. lia.
Qed.

Lemma concat_NoDup_unique (paths : list (list nat)) (P Q : list nat) (x : nat) :
  List.NoDup (concat paths) -> In P paths -> In Q paths ->
  In x P -> In x Q -> P = Q.
Proof.
  induction paths as [|R paths IH]; intros Hnd HP HQ HxP HxQ; [destruct HP|].
  cbn [concat] in Hnd.
  destruct HP as [->|HP], HQ as [->|HQ].
  - reflexivity.
  - exfalso. eapply NoDup_app_disjoint; [exact Hnd | exact HxP|].
    apply in_concat. now exists Q.
  - exfalso. eapply NoDup_app_disjoint; [exact Hnd | exact HxQ|].
    apply in_concat. now exists P.
  - apply IH; try assumption. now apply List.NoDup_app_remove_l in Hnd.
Qed.

Lemma paths_unique (n : nat) (paths : list (list nat)) (P Q : list nat) (x : nat) :
  paths_ok n paths -> In P paths -> In Q paths -> In x P -> In x Q -> P = Q.
Proof. intros H. apply concat_NoDup_unique. eapply paths_NoDup, H. Qed.

Lemma concat_NoDup_each (paths : list (list nat)) (P : list nat) :
  List.NoDup (concat paths) -> In P paths -> List.NoDup P.
Proof.
  induction paths as [|R paths IH]; intros Hnd HP; [destruct HP|].
  cbn [concat] in Hnd. destruct HP as [->|HP].
  - now apply List.NoDup_app_remove_r in Hnd.
  - apply IH; [|exact HP]. now apply List.NoDup_app_remove_l in Hnd.
Qed.

Lemma path_NoDup (n : nat) (paths : list (list nat)) (P : list nat) :
  paths_ok n paths -> In P paths -> List.NoDup P.
Proof. intros H. apply concat_NoDup_each. eapply paths_NoDup, H. Qed.

Lemma pick_two (paths : list (list nat)) (Pa Pb : list nat) :
  In Pa paths -> In Pb paths -> Pa <> Pb ->
  exists rest, Permutation paths (Pa :: Pb :: rest).
Proof.
  intros Ha Hb Hne.
  apply in_split in Ha as (l1 & l2 & ->).
  assert (Hb' : In Pb (l1 ++ l2)).
  { apply in_app_or in Hb as [Hb|[Hb|Hb]]; [| congruence |];
      apply in_or_app; tauto. }
  apply in_split in Hb' as (l3 & l4 & E).
  exists (l3 ++ l4).
  rewrite <- Permutation_middle. apply perm_skip.
  rewrite E. now rewrite <- Permutation_middle.
Qed.

Lemma joined_cons (P : list nat) (ps : list (list nat)) (x y : nat) :
  joined (P :: ps) x y <-> adjacent P x y \/ joined ps x y.
Proof.
  unfold joined. split.
  - intros (Q & [<-|HQ] & H); [now left | right; now exists Q].
  - intros [H|(Q & HQ & H)]; [exists P | exists Q]; split;
      try assumption; [now left | now right].
Qed.

Lemma together_cons (P : list nat) (ps : list (list nat)) (x y : nat) :
  together (P :: ps) x y <-> (In x P /\ In y P) \/ together ps x y.
Proof.
  unfold together. split.
  - intros (Q & [<-|HQ] & H); [now left | right; now exists Q].
  - intros [H|(Q & HQ & H)]; [exists P | exists Q]; split;
      try assumption; [now left | now right].
Qed.

Lemma joined_perm (ps qs : list (list nat)) (x y : nat) :
  Permutation ps qs -> joined ps x y <-> joined qs x y.
Proof.
  intros Hp. unfold joined. split; intros (Q & HQ & H); exists Q; split;
    try assumption; eapply Permutation_in; try exact HQ; [|symmetry]; exact Hp.
Qed.

Lemma together_perm (ps qs : list (list nat)) (x y : nat) :
  Permutation ps qs -> together ps x y <-> together qs x y.
Proof.
  intros Hp. unfold together. split; intros (Q & HQ & H); exists Q; split;
    try assumption; eapply Permutation_in; try exact HQ; [|symmetry]; exact Hp.
Qed.

Lemma joined_together (paths : list (list nat)) (x y : nat) :
  joined paths x y -> together paths x y.
Proof.
  intros (P & HP & H). exists P. split; [exact HP|]. now apply adjacent_In.
Qed.

Lemma together_in (n : nat) (paths : list (list nat)) (P : list nat)
    (x y : nat) :
  paths_ok n paths -> In P paths -> In x P ->
  together paths x y <-> In y P.
Proof.
  intros Hok HP Hx. split.
  - intros (Q & HQ & HxQ & HyQ).
    now rewrite (paths_unique n paths P Q x Hok HP HQ Hx HxQ).
  - intros Hy. now exists P.
Qed.
End Paths.

(** ** Greedy edge: the ends of a path *)

Section Ends.
Lemma NoDup_all_equal (l : list nat) :
  List.NoDup l -> (forall u v, In u l -> In v l -> u = v) -> length l <= 1.
Proof.
  intros Hnd Heq. destruct l as [|a [|b l]]; cbn; try lia.
  exfalso. apply List.NoDup_cons_iff in Hnd as [Hn _]. apply Hn.
  rewrite (Heq a b); [now left | now left | right; now left].
Qed.

(** A city with at most one neighbour in its path is an end of it. *)
Lemma single_neighbour_end (P : list nat) (a : nat) :
  List.NoDup P -> In a P ->
  (forall u v, adjacent P a u -> adjacent P a v -> u = v) ->
  (exists l, P = a :: l) \/ (exists l, P = l ++ [a]).
Proof.
  intros Hnd Ha Hone. apply in_split in Ha as (l1 & l2 & ->).
  destruct l1 as [|c l1]; [left; now exists l2|].
  destruct l2 as [|v l2]; [right; now exists (c :: l1)|].
  exfalso.
  destruct (@exists_last _ (c :: l1)) as (l1' & u & E); [discriminate|].
  rewrite E in Hnd, Hone.
  assert (Hu : adjacent ((l1' ++ [u]) ++ a :: v :: l2) a u).
  { right. exists l1', (v :: l2). now rewrite <- app_assoc. }
  assert (Hv : adjacent ((l1' ++ [u]) ++ a :: v :: l2) a v).
  { left. now exists (l1' ++ [u]), l2. }
  pose proof (Hone u v Hu Hv) as ->.
  eapply NoDup_app_disjoint; [exact Hnd| |].
  - apply in_or_app. right. now left.
  - right. now left.
Qed.

Lemma head_neighbour (a : nat) (l : list nat) (y : nat) :
  List.NoDup (a :: l) -> adjacent (a :: l) a y -> exists l', l = y :: l'.
Proof.
  intros Hnd H. apply List.NoDup_cons_iff in Hnd as [Hn _].
  destruct H as [H|H]; apply link_cons in H as [[E (l' & H)]|H].
  - now exists l'.
  - exfalso. apply Hn. now apply link_In in H.
  - exfalso. apply Hn. rewrite H. now left.
  - exfalso. apply Hn. now apply link_In in H.
Qed.

Lemma last_neighbour (a : nat) (l : list nat) (y : nat) :
  List.NoDup (l ++ [a]) -> adjacent (l ++ [a]) a y -> exists l', l = l' ++ [y].
Proof.
  intros Hnd H. apply adjacent_rev in H. rewrite rev_app_distr in H.
  cbn [rev app] in H. apply head_neighbour in H as (l' & E).
  - exists (rev l'). rewrite <- (rev_involutive l), E. reflexivity.
  - apply List.NoDup_rev in Hnd. now rewrite rev_app_distr in Hnd.
Qed.
End Ends.

(** ** Greedy edge: the union-find forest follows the paths *)

Section Forest.
Variable n : nat.

Lemma paths_head_disjoint (A B : list nat) (rest : list (list nat)) (x : nat) :
  paths_ok n (A :: B :: rest) -> In x A -> In x B -> False.
Proof.
  intros Hok HA HB. apply paths_NoDup in Hok. cbn [concat] in Hok.
  eapply NoDup_app_disjoint; [exact Hok | exact HA|].
  apply in_or_app. now left.
Qed.

Lemma together_merge (A B : list nat) (rest : list (list nat)) (x y : nat) :
  together ((A ++ B) :: rest) x y <->
  together (A :: B :: rest) x y \/
  ((In x A \/ In x B) /\ (In y A \/ In y B)).
Proof.
  rewrite !together_cons, !in_app_iff. tauto.
Qed.

Lemma uf_find (fuel : nat) (p : list nat) (paths : list (list nat))
    (bound x : nat) :
  uf_ok n p paths bound -> bound < fuel -> x < n ->
  exists p' r,
    GreedyEdge.find fuel p x = Some (p', r) /\
    uf_ok n p' paths bound /\
    r < n /\
    (exists k, Root p' k x r) /\
    (forall z kz rz, Root p kz z rz -> exists kz', Root p' kz' z rz).
Proof.
  intros (Hlen & Hrange & Hroot & Hsame) Hfuel Hx.
  destruct (Hroot x Hx) as (r & k & Hr & Hk & Hrn).
  destruct (find_spec fuel p x k r) as (p' & Hfind & Hlen' & Hrange' & Hkeep).
  { now rewrite Hlen. }
  { now rewrite Hlen. }
  { exact Hr. }
  { lia. }
  exists p', r. split; [exact Hfind|].
  assert (Hkeep' : forall z kz rz, Root p kz z rz -> exists kz', Root p' kz' z rz).
  { intros z kz rz Hz. destruct (Hkeep z kz rz Hz) as (kz' & _ & H). now exists kz'. }
  split; [|split; [exact Hrn | split; [now apply (Hkeep' x k r) | exact Hkeep']]].
  split; [congruence|]. split; [now rewrite Hlen', Hlen in Hrange'|]. split.
  - intros z Hz. destruct (Hroot z Hz) as (rz & kz & Hrz & Hkz & Hrzn).
    destruct (Hkeep z kz rz Hrz) as (kz' & Hle & H).
    exists rz, kz'. split; [exact H | split; [lia | exact Hrzn]].
  - intros u v ru rv ku kv Hu Hv Hru Hrv.
    destruct (Hroot u Hu) as (ou & k1 & Hou & _ & _).
    destruct (Hroot v Hv) as (ov & k2 & Hov & _ & _).
    destruct (Hkeep' u k1 ou Hou) as (k1' & Hou').
    destruct (Hkeep' v k2 ov Hov) as (k2' & Hov').
    destruct (Root_functional _ _ _ _ Hru _ _ Hou') as [-> _].
    destruct (Root_functional _ _ _ _ Hrv _ _ Hov') as [-> _].
    now apply (Hsame u v ou ov k1 k2).
Qed.

(** The two finds of [union] always return. *)
Lemma uf_union_returns (fuel : nat) (p : list nat) (paths : list (list nat))
    (bound a b : nat) :
  uf_ok n p paths bound -> bound < fuel -> a < n -> b < n ->
  exists p', GreedyEdge.union fuel p a b = Some p'.
Proof.
  intros Huf Hfuel Ha Hb. unfold GreedyEdge.union.
  destruct (uf_find fuel p paths bound a Huf Hfuel Ha)
    as (p1 & ra & -> & Huf1 & _).
  destruct (uf_find fuel p1 paths bound b Huf1 Hfuel Hb)
    as (p2 & rb & -> & _).
  now eexists.
Qed.

(** [union] of two cities on different paths merges their trees. *)
Lemma uf_union (fuel : nat) (p : list nat) (A B : list nat)
    (rest : list (list nat)) (bound a b : nat) :
  paths_ok n (A :: B :: rest) -> uf_ok n p (A :: B :: rest) bound ->
  In a A -> In b B -> bound < fuel ->
  exists p',
    GreedyEdge.union fuel p a b = Some p' /\
    uf_ok n p' ((A ++ B) :: rest) (S bound).
Proof.
  intros Hok Huf HaA HbB Hfuel.
  assert (Ha : a < n) by (eapply paths_range; [exact Hok | now left | exact HaA]).
  assert (Hb : b < n)
    by (eapply paths_range; [exact Hok | right; now left | exact HbB]).
  unfold GreedyEdge.union.
  destruct (uf_find fuel p _ bound a Huf Hfuel Ha)
    as (p1 & ra & -> & Huf1 & Hra & (ka & Hroot_a) & _).
  destruct (uf_find fuel p1 _ bound b Huf1 Hfuel Hb)
    as (p2 & rb & -> & Huf2 & Hrb & (kb & Hroot_b) & Hkeep).
  destruct (Hkeep a ka ra Hroot_a) as (ka' & Hroot_a').
  destruct Huf2 as (Hlen & Hrange & Hroot & Hsame).
  assert (HinA : forall x ox kx, x < n -> Root p2 kx x ox -> ox = ra <-> In x A).
  { intros x ox kx Hx Hox.
    rewrite <- (together_in n (A :: B :: rest) A a x Hok (or_introl eq_refl) HaA).
    rewrite <- (Hsame a x ra ox ka' kx Ha Hx Hroot_a' Hox). split; congruence. }
  assert (HinB : forall x ox kx, x < n -> Root p2 kx x ox -> ox = rb <-> In x B).
  { intros x ox kx Hx Hox.
    rewrite <- (together_in n (A :: B :: rest) B b x Hok
                  (or_intror (or_introl eq_refl)) HbB).
    rewrite <- (Hsame b x rb ox kb kx Hb Hx Hroot_b Hox). split; congruence. }
  assert (Hne : ra <> rb).
  { intros E. apply (paths_head_disjoint A B rest b Hok); [|exact HbB].
    apply (HinA b rb kb Hb Hroot_b). now symmetry. }
  pose proof (Root_is_root _ _ _ _ Hroot_a') as Hra_root.
  pose proof (Root_is_root _ _ _ _ Hroot_b) as Hrb_root.
  assert (Hlink := link_roots p2 ra rb ltac:(lia) Hne Hra_root Hrb_root).
  eexists. split; [reflexivity|].
  split; [now rewrite length_insert|]. split; [|split].
  - intros x Hx. destruct (Nat.eq_dec ra x) as [<-|Hd].
    + rewrite nth_insert_eq by lia. exact Hrb.
    + rewrite nth_insert_ne by exact Hd. now apply Hrange.
  - intros x Hx. destruct (Hroot x Hx) as (ox & kx & Hox & Hkx & Hoxn).
    destruct (Hlink x kx ox Hox) as [H1 H2].
    destruct (Nat.eq_dec ox ra) as [E|E].
    + exists rb, (S kx). split; [now apply H1 | lia].
    + exists ox, kx. split; [now apply H2 | lia].
  - intros x y rx ry kx ky Hx Hy Hrx Hry.
    destruct (Hroot x Hx) as (ox & k1 & Hox & _ & _).
    destruct (Hroot y Hy) as (oy & k2 & Hoy & _ & _).
    rewrite together_merge.
    rewrite <- (Hsame x y ox oy k1 k2 Hx Hy Hox Hoy).
    rewrite <- (HinA x ox k1 Hx Hox), <- (HinB x ox k1 Hx Hox).
    rewrite <- (HinA y oy k2 Hy Hoy), <- (HinB y oy k2 Hy Hoy).
    destruct (Hlink x k1 ox Hox) as [Hx1 Hx2].
    destruct (Hlink y k2 oy Hoy) as [Hy1 Hy2].
    destruct (Nat.eq_dec ox ra) as [Ex|Ex], (Nat.eq_dec oy ra) as [Ey|Ey].
    + destruct (Root_functional _ _ _ _ Hrx _ _ (Hx1 Ex)) as [-> _].
      destruct (Root_functional _ _ _ _ Hry _ _ (Hy1 Ey)) as [-> _]. lia.
    + destruct (Root_functional _ _ _ _ Hrx _ _ (Hx1 Ex)) as [-> _].
      destruct (Root_functional _ _ _ _ Hry _ _ (Hy2 Ey)) as [-> _]. lia.
    + destruct (Root_functional _ _ _ _ Hrx _ _ (Hx2 Ex)) as [-> _].
      destruct (Root_functional _ _ _ _ Hry _ _ (Hy1 Ey)) as [-> _]. lia.
    + destruct (Root_functional _ _ _ _ Hrx _ _ (Hx2 Ex)) as [-> _].
      destruct (Root_functional _ _ _ _ Hry _ _ (Hy2 Ey)) as [-> _]. lia.
Qed.
End Forest.

(** ** Greedy edge: degrees and the ends of the paths *)

Section Degrees.
Variables (n : nat) (paths : list (list nat)) (adj : list (list nat)).
Variable degree : list nat.
Hypothesis Hpaths : paths_ok n paths.
Hypothesis Hadj : adj_ok n adj paths.
Hypothesis Hdeg : deg_ok n degree adj.

Lemma neighbours_in_path (P : list nat) (x y : nat) :
  In P paths -> In x P ->
  In y (nth x adj []) <-> adjacent P x y.
Proof.
  intros HP Hx.
  assert (Hxn : x < n) by (eapply paths_range; eassumption).
  destruct Hadj as [_ H]. destruct (H x Hxn) as [_ Hin]. rewrite Hin. split.
  - intros (Q & HQ & HA).
    rewrite (paths_unique n paths P Q x); try assumption.
    now apply adjacent_In in HA.
  - intros HA. now exists P.
Qed.

Lemma neighbours_NoDup (x : nat) : x < n -> List.NoDup (nth x adj []).
Proof. intros Hx. destruct Hadj as [_ H]. now destruct (H x Hx). Qed.

Lemma degree_length (x : nat) :
  x < n -> nth x degree 0 = length (nth x adj []).
Proof. intros Hx. destruct Hdeg as [_ H]. now apply H. Qed.

(** A city of degree below two is an end of its path. *)
Lemma end_of_path (P : list nat) (x : nat) :
  In P paths -> In x P -> nth x degree 0 < 2 ->
  (exists l, P = x :: l) \/ (exists l, P = l ++ [x]).
Proof.
  intros HP Hx Hd.
  assert (Hxn : x < n) by (eapply paths_range; eassumption).
  apply single_neighbour_end; [eapply path_NoDup; eassumption | exact Hx|].
  intros u v Hu Hv.
  apply (neighbours_in_path P x u HP Hx) in Hu.
  apply (neighbours_in_path P x v HP Hx) in Hv.
  rewrite (degree_length x Hxn) in Hd.
  destruct (nth x adj []) as [|c [|c' l]]; cbn in Hd, Hu, Hv.
  - destruct Hu.
  - destruct Hu as [<-|[]], Hv as [<-|[]]. reflexivity.
  - lia.
Qed.

(** The ends of a path have degree at most one. *)
Lemma head_degree (a : nat) (l : list nat) :
  In (a :: l) paths -> nth a degree 0 <= 1.
Proof.
  intros HP.
  assert (Ha : In a (a :: l)) by now left.
  assert (Han : a < n) by (eapply paths_range; eassumption).
  pose proof (path_NoDup n paths _ Hpaths HP) as Hnd.
  rewrite (degree_length a Han).
  apply NoDup_all_equal; [now apply neighbours_NoDup|].
  intros u v Hu Hv.
  apply (neighbours_in_path _ a u HP Ha) in Hu.
  apply (neighbours_in_path _ a v HP Ha) in Hv.
  apply head_neighbour in Hu as (l1 & E1); [|exact Hnd].
  apply head_neighbour in Hv as (l2 & E2); [|exact Hnd].
  congruence.
Qed.

Lemma last_degree (a : nat) (l : list nat) :
  In (l ++ [a]) paths -> nth a degree 0 <= 1.
Proof.
  intros HP.
  assert (Ha : In a (l ++ [a])) by (apply in_or_app; right; now left).
  assert (Han : a < n) by (eapply paths_range; eassumption).
  pose proof (path_NoDup n paths _ Hpaths HP) as Hnd.
  rewrite (degree_length a Han).
  apply NoDup_all_equal; [now apply neighbours_NoDup|].
  intros u v Hu Hv.
  apply (neighbours_in_path _ a u HP Ha) in Hu.
  apply (neighbours_in_path _ a v HP Ha) in Hv.
  apply last_neighbour in Hu as (l1 & E1); [|exact Hnd].
  apply last_neighbour in Hv as (l2 & E2); [|exact Hnd].
  rewrite E1 in E2. now apply app_inj_tail in E2 as [_ E2].
Qed.
End Degrees.

(** ** Greedy edge: the two array updates of an accepted edge *)

Section Updates.
Lemma two_updates {A : Type} (l : list A) (d : A) (f g : A -> A)
    (a b x : nat) :
  a <> b -> a < length l -> b < length l ->
  nth x (<[b := g (nth b (<[a := f (nth a l d)]> l) d)]>
           (<[a := f (nth a l d)]> l)) d =
  if Nat.eq_dec x a then f (nth a l d)
  else if Nat.eq_dec x b then g (nth b l d) else nth x l d.
Proof.
  intros Hne Ha Hb.
  destruct (Nat.eq_dec x a) as [->|Hxa].
  - rewrite nth_insert_ne by congruence. now rewrite nth_insert_eq.
  - destruct (Nat.eq_dec x b) as [->|Hxb].
    + rewrite nth_insert_eq by (now rewrite length_insert).
      now rewrite nth_insert_ne.
    + rewrite !nth_insert_ne by congruence. reflexivity.
Qed.

Lemma NoDup_snoc (l : list nat) (x : nat) :
  List.NoDup l -> ~ In x l -> List.NoDup (l ++ [x]).
Proof.
  intros Hnd Hx. eapply Permutation.Permutation_NoDup.
  - apply Permutation_cons_append.
  - now apply List.NoDup_cons.
Qed.
End Updates.

(** ** Greedy edge: accepting an edge *)

Section Accept.
Variables (fuel n : nat).

Lemma add_edge_spec (st : GreedyEdge.State) (e : GreedyEdge.Edge)
    (p' : list nat) :
  GreedyEdge.union fuel (GreedyEdge.parent st) (GreedyEdge.from e)
    (GreedyEdge.to e) = Some p' ->
  GreedyEdge.from e <> GreedyEdge.to e ->
  length (GreedyEdge.adj st) = n -> length (GreedyEdge.degree st) = n ->
  GreedyEdge.from e < n -> GreedyEdge.to e < n ->
  exists st',
    GreedyEdge.add_edge fuel st e = Some st' /\
    GreedyEdge.parent st' = p' /\
    GreedyEdge.edgeCount st' = GreedyEdge.edgeCount st + 1 /\
    length (GreedyEdge.adj st') = n /\
    length (GreedyEdge.degree st') = n /\
    (forall x,
       nth x (GreedyEdge.adj st') [] =
       if Nat.eq_dec x (GreedyEdge.from e)
       then nth (GreedyEdge.from e) (GreedyEdge.adj st) [] ++ [GreedyEdge.to e]
       else if Nat.eq_dec x (GreedyEdge.to e)
       then nth (GreedyEdge.to e) (GreedyEdge.adj st) [] ++ [GreedyEdge.from e]
       else nth x (GreedyEdge.adj st) []) /\
    (forall x y,
       In y (nth x (GreedyEdge.adj st') []) <->
       In y (nth x (GreedyEdge.adj st) []) \/
       (x = GreedyEdge.from e /\ y = GreedyEdge.to e) \/
       (x = GreedyEdge.to e /\ y = GreedyEdge.from e)) /\
    (forall x,
       length (nth x (GreedyEdge.adj st') []) =
       length (nth x (GreedyEdge.adj st) []) +
       (if Nat.eq_dec x (GreedyEdge.from e) then 1
        else if Nat.eq_dec x (GreedyEdge.to e) then 1 else 0)) /\
    (forall x,
       nth x (GreedyEdge.degree st') 0 =
       nth x (GreedyEdge.degree st) 0 +
       (if Nat.eq_dec x (GreedyEdge.from e) then 1
        else if Nat.eq_dec x (GreedyEdge.to e) then 1 else 0)).
Proof.
  intros Hun Hne Hla Hld Ha Hb.
  unfold GreedyEdge.add_edge. rewrite Hun. eexists. split; [reflexivity|].
  cbn [GreedyEdge.parent GreedyEdge.edgeCount GreedyEdge.adj GreedyEdge.degree].
  split; [reflexivity|]. split; [reflexivity|].
  split; [now rewrite !length_insert|]. split; [now rewrite !length_insert|].
  assert (Hadj := fun x => two_updates (GreedyEdge.adj st) []
            (fun v => v ++ [GreedyEdge.to e]) (fun v => v ++ [GreedyEdge.from e])
            (GreedyEdge.from e) (GreedyEdge.to e) x Hne
            ltac:(lia) ltac:(lia)).
  assert (Hdeg := fun x => two_updates (GreedyEdge.degree st) 0
            (fun v => v + 1) (fun v => v + 1)
            (GreedyEdge.from e) (GreedyEdge.to e) x Hne
            ltac:(lia) ltac:(lia)).
  cbv beta in Hadj, Hdeg.
  split; [exact Hadj|]. split; [|split].
  - intros x y. rewrite Hadj.
    destruct (Nat.eq_dec x (GreedyEdge.from e)) as [->|Hxa].
    + rewrite in_app_iff. cbn [In].
      split; [intros [H|[<-|[]]] | intros [H|[[_ ->]|[E _]]]]; tauto.
    + destruct (Nat.eq_dec x (GreedyEdge.to e)) as [->|Hxb]; [|tauto].
      rewrite in_app_iff. cbn [In].
      split; [intros [H|[<-|[]]] | intros [H|[[E _]|[_ ->]]]]; tauto.
  - intros x. rewrite Hadj.
    destruct (Nat.eq_dec x (GreedyEdge.from e)) as [->|Hxa];
      [rewrite length_app; reflexivity|].
    destruct (Nat.eq_dec x (GreedyEdge.to e)) as [->|Hxb];
      [rewrite length_app; reflexivity | lia].
  - intros x. rewrite Hdeg.
    destruct (Nat.eq_dec x (GreedyEdge.from e)) as [->|Hxa]; [reflexivity|].
    destruct (Nat.eq_dec x (GreedyEdge.to e)) as [->|Hxb]; [reflexivity | lia].
Qed.

Lemma joined_merge (A' B' : list nat) (rest : list (list nat)) (a b x y : nat) :
  joined (((A' ++ [a]) ++ b :: B') :: rest) x y <->
  joined ((A' ++ [a]) :: (b :: B') :: rest) x y \/
  (x = a /\ y = b) \/ (x = b /\ y = a).
Proof. rewrite !joined_cons, adjacent_join. tauto. Qed.

(** Joining the end [a] of one path to the start [b] of another keeps
    the forest. *)
Lemma merge_forest (st : GreedyEdge.State) (e : GreedyEdge.Edge)
    (a b : nat) (A' B' : list nat) (rest : list (list nat)) :
  GreedyEdge.from e = a -> GreedyEdge.to e = b ->
  forest_ok n st ((A' ++ [a]) :: (b :: B') :: rest) ->
  GreedyEdge.edgeCount st < fuel ->
  exists st',
    GreedyEdge.add_edge fuel st e = Some st' /\
    forest_ok n st' (((A' ++ [a]) ++ b :: B') :: rest) /\
    (forall x, nth x (GreedyEdge.degree st) 0 <= nth x (GreedyEdge.degree st') 0) /\
    nth a (GreedyEdge.degree st') 0 = nth a (GreedyEdge.degree st) 0 + 1 /\
    nth b (GreedyEdge.degree st') 0 = nth b (GreedyEdge.degree st) 0 + 1.
Proof.
  intros <- <- (Hpaths & Hadj & Hdeg & Huf & Hcount) Hfuel.
  set (a := GreedyEdge.from e) in *. set (b := GreedyEdge.to e) in *.
  assert (HaA : In a (A' ++ [a])) by (apply in_or_app; right; now left).
  assert (HbB : In b (b :: B')) by now left.
  assert (Ha : a < n) by (eapply paths_range; [exact Hpaths | now left | exact HaA]).
  assert (Hb : b < n)
    by (eapply paths_range; [exact Hpaths | right; now left | exact HbB]).
  assert (Hne : a <> b).
  { intros E. apply (paths_head_disjoint n _ _ rest a Hpaths HaA).
    rewrite E. now left. }
  destruct (uf_union n fuel _ _ _ rest _ a b Hpaths Huf HaA HbB Hfuel)
    as (p' & Hun & Huf').
  destruct (add_edge_spec st e p' Hun Hne (proj1 Hadj) (proj1 Hdeg) Ha Hb)
    as (st' & Hst' & Hp' & Hec & Hla & Hld & Hnth & Hin & Hlen & Hdg).
  fold a b in Hnth, Hin, Hlen, Hdg.
  exists st'. split; [exact Hst'|].
  split; [|split; [|split]].
  - split; [|split; [|split; [|split]]].
    + destruct Hpaths as [Hperm Hall]. split.
      * cbn [concat] in *. now rewrite <- app_assoc.
      * apply Forall_cons_iff. split; [now destruct A'|].
        apply Forall_cons_iff in Hall as [_ Hall].
        now apply Forall_cons_iff in Hall as [_ Hall].
    + split; [exact Hla|]. intros x Hx. split.
      * assert (Hnd : List.NoDup (nth x (GreedyEdge.adj st) []))
          by (eapply neighbours_NoDup; eassumption).
        assert (Hnot : ~ joined ((A' ++ [a]) :: (b :: B') :: rest) a b).
        { intros H. apply joined_together in H.
          apply (together_in n _ (A' ++ [a]) a b Hpaths (or_introl eq_refl) HaA) in H.
          now apply (paths_head_disjoint n _ _ rest b Hpaths H). }
        assert (Hnot' : ~ joined ((A' ++ [a]) :: (b :: B') :: rest) b a).
        { intros (P & HP & H). apply Hnot. exists P. split; [exact HP|].
          now apply adjacent_sym. }
        rewrite Hnth.
        destruct (Nat.eq_dec x a) as [->|Hxa].
        -- apply NoDup_snoc; [exact Hnd|]. intros H. apply Hnot.
           now apply (proj2 (proj2 Hadj a Ha)).
        -- destruct (Nat.eq_dec x b) as [->|Hxb]; [|exact Hnd].
           apply NoDup_snoc; [exact Hnd|]. intros H. apply Hnot'.
           now apply (proj2 (proj2 Hadj b Hb)).
      * intros y. rewrite Hin, joined_merge.
        now rewrite (proj2 (proj2 Hadj x Hx) y).
    + split; [exact Hld|]. intros x Hx. rewrite Hdg, Hlen.
      now rewrite (degree_length n _ _ Hdeg x Hx).
    + rewrite Hp', Hec, Nat.add_1_r. exact Huf'.
    + rewrite Hec. cbn [length] in *. lia.
  - intros x. rewrite Hdg. lia.
  - rewrite Hdg. destruct (Nat.eq_dec a a); [reflexivity | congruence].
  - rewrite Hdg. destruct (Nat.eq_dec b a); [reflexivity|].
    destruct (Nat.eq_dec b b); [reflexivity | congruence].
Qed.
End Accept.

(** ** Greedy edge: the passed edges stay unusable *)

Section Blocked.
Variable n : nat.

Lemma app_last_in (A B l : list nat) (x : nat) :
  B <> [] -> A ++ B = l ++ [x] -> In x B.
Proof.
  intros HB E. destruct (@exists_last _ B HB) as (B0 & z & ->).
  rewrite app_assoc in E. apply app_inj_tail in E as [_ ->].
  apply in_or_app. right. now left.
Qed.

Lemma app_head_in (A B l : list nat) (x : nat) :
  A <> [] -> A ++ B = x :: l -> In x A.
Proof.
  intros HA E. destruct A as [|c A]; [congruence|].
  injection E as -> _. now left.
Qed.

Lemma blocked_merge (st st' : GreedyEdge.State) (a b : nat)
    (A' B' : list nat) (rest : list (list nat)) :
  3 <= n ->
  forest_ok n st ((A' ++ [a]) :: (b :: B') :: rest) ->
  forest_ok n st' (((A' ++ [a]) ++ b :: B') :: rest) ->
  (forall x, nth x (GreedyEdge.degree st) 0 <= nth x (GreedyEdge.degree st') 0) ->
  nth a (GreedyEdge.degree st') 0 = nth a (GreedyEdge.degree st) 0 + 1 ->
  nth b (GreedyEdge.degree st') 0 = nth b (GreedyEdge.degree st) 0 + 1 ->
  (forall x y, x <> y ->
     blocked (GreedyEdge.degree st) ((A' ++ [a]) :: (b :: B') :: rest) x y ->
     blocked (GreedyEdge.degree st') (((A' ++ [a]) ++ b :: B') :: rest) x y) /\
  blocked (GreedyEdge.degree st') (((A' ++ [a]) ++ b :: B') :: rest) a b.
Proof.
  intros Hn (Hpaths & Hadj & Hdeg & _ & _) (Hpaths' & Hadj' & Hdeg' & _ & _)
    Hmono Hda Hdb.
  assert (HA : A' ++ [a] <> []) by now destruct A'.
  assert (HB : b :: B' <> []) by discriminate.
  assert (HN : In ((A' ++ [a]) ++ b :: B') (((A' ++ [a]) ++ b :: B') :: rest))
    by now left.
  assert (Hdisj : forall x, In x (A' ++ [a]) -> In x (b :: B') -> False)
    by (intros x; now apply (paths_head_disjoint n _ _ rest x)).
  split.
  - intros x y Hxy [H|[H|[Htog Hlen]]].
    + left. specialize (Hmono x). lia.
    + right. left. specialize (Hmono y). lia.
    + destruct (le_lt_dec 2 (nth x (GreedyEdge.degree st') 0)) as [Hx|Hx];
        [now left|].
      destruct (le_lt_dec 2 (nth y (GreedyEdge.degree st') 0)) as [Hy|Hy];
        [right; now left|].
      right. right. split; [apply together_merge; now left|].
      destruct rest as [|R rest]; [exfalso | cbn [length]; lia].
      assert (Hin : (In x (A' ++ [a]) /\ In y (A' ++ [a])) \/
                    (In x (b :: B') /\ In y (b :: B'))).
      { apply together_cons in Htog as [H|Htog]; [now left|].
        apply together_cons in Htog as [H|(Q & [] & _)]. now right. }
      assert (HxN : In x ((A' ++ [a]) ++ b :: B'))
        by (apply in_or_app; tauto).
      assert (HyN : In y ((A' ++ [a]) ++ b :: B'))
        by (apply in_or_app; tauto).
      destruct (end_of_path n _ _ _ Hpaths' Hadj' Hdeg' _ x HN HxN Hx)
        as [(lx & Ex)|(lx & Ex)];
      destruct (end_of_path n _ _ _ Hpaths' Hadj' Hdeg' _ y HN HyN Hy)
        as [(ly & Ey)|(ly & Ey)].
      * rewrite Ex in Ey. congruence.
      * apply app_last_in in Ey; [|exact HB]. apply app_head_in in Ex; [|exact HA].
        destruct Hin as [[_ H]|[H _]]; eauto.
      * apply app_last_in in Ex; [|exact HB]. apply app_head_in in Ey; [|exact HA].
        destruct Hin as [[H _]|[_ H]]; eauto.
      * rewrite Ex in Ey. apply app_inj_tail in Ey as [_ Ey]. congruence.
  - destruct (le_lt_dec 2 (nth a (GreedyEdge.degree st') 0)) as [Hx|Hx];
      [now left|].
    destruct (le_lt_dec 2 (nth b (GreedyEdge.degree st') 0)) as [Hy|Hy];
      [right; now left|].
    right. right. split.
    { exists ((A' ++ [a]) ++ b :: B'). split; [exact HN|].
      split; apply in_or_app; [left | right; now left].
      apply in_or_app. right. now left. }
    destruct rest as [|R rest]; [exfalso | cbn [length]; lia].
    assert (HaA : In a (A' ++ [a])) by (apply in_or_app; right; now left).
    assert (HbB : In b (b :: B')) by now left.
    assert (Han : a < n)
      by (eapply paths_range; [exact Hpaths | now left | exact HaA]).
    assert (Hbn : b < n)
      by (eapply paths_range; [exact Hpaths | right; now left | exact HbB]).
    assert (EA : A' = []).
    { destruct A' as [|c A0]; [reflexivity | exfalso].
      destruct (@exists_last _ (c :: A0)) as (A1 & u & E); [discriminate|].
      assert (Hu : In u (nth a (GreedyEdge.adj st) [])).
      { apply (neighbours_in_path n _ _ Hpaths Hadj ((c :: A0) ++ [a]) a u);
          [now left | exact HaA|].
        right. exists A1, []. rewrite E. now rewrite <- app_assoc. }
      rewrite (degree_length n _ _ Hdeg a Han) in Hda.
      destruct (nth a (GreedyEdge.adj st) []); [destruct Hu | cbn in Hda; lia]. }
    assert (EB : B' = []).
    { destruct B' as [|v B0]; [reflexivity | exfalso].
      assert (Hv : In v (nth b (GreedyEdge.adj st) [])).
      { apply (neighbours_in_path n _ _ Hpaths Hadj (b :: v :: B0) b v);
          [right; now left | exact HbB|].
        left. now exists [], B0. }
      rewrite (degree_length n _ _ Hdeg b Hbn) in Hdb.
      destruct (nth b (GreedyEdge.adj st) []); [destruct Hv | cbn in Hdb; lia]. }
    subst A' B'. destruct Hpaths' as [Hperm _].
    apply Permutation_length in Hperm. rewrite length_seq in Hperm.
    cbn in Hperm. lia.
Qed.

(** Two different paths can be turned so that [a] ends the first and
    [b] starts the second. *)
Lemma orient_paths (paths : list (list nat)) (Pa Pb : list nat) (a b : nat) :
  paths_ok n paths -> In Pa paths -> In Pb paths -> Pa <> Pb ->
  (exists l, Pa = a :: l) \/ (exists l, Pa = l ++ [a]) ->
  (exists l, Pb = b :: l) \/ (exists l, Pb = l ++ [b]) ->
  exists A' B' rest,
    paths_ok n ((A' ++ [a]) :: (b :: B') :: rest) /\
    length paths = S (S (length rest)) /\
    (forall x y, joined paths x y <->
                 joined ((A' ++ [a]) :: (b :: B') :: rest) x y) /\
    (forall x y, together paths x y <->
                 together ((A' ++ [a]) :: (b :: B') :: rest) x y).
Proof.
  intros [Hperm Hall] HPa HPb Hne Ha Hb.
  destruct (pick_two paths Pa Pb HPa HPb Hne) as (rest & Hp).
  assert (HA : exists A', Permutation (A' ++ [a]) Pa /\
             forall x y, adjacent (A' ++ [a]) x y <-> adjacent Pa x y).
  { destruct Ha as [(l & ->)|(l & ->)].
    - exists (rev l). change (rev l ++ [a]) with (rev (a :: l)). split.
      + symmetry. apply Permutation_rev.
      + intros x y. apply adjacent_rev.
    - exists l. split; [reflexivity | tauto]. }
  assert (HB : exists B', Permutation (b :: B') Pb /\
             forall x y, adjacent (b :: B') x y <-> adjacent Pb x y).
  { destruct Hb as [(l & ->)|(l & ->)].
    - exists l. split; [reflexivity | tauto].
    - exists (rev l).
      replace (b :: rev l) with (rev (l ++ [b])) by now rewrite rev_app_distr.
      split.
      + symmetry. apply Permutation_rev.
      + intros x y. apply adjacent_rev. }
  destruct HA as (A' & HpA & HadjA). destruct HB as (B' & HpB & HadjB).
  exists A', B', rest. split; [split|split; [|split]].
  - cbn [concat]. rewrite HpA, HpB. rewrite <- Hperm.
    symmetry. apply (Permutation_concat_lists _ _ Hp).
  - apply Forall_cons_iff. split; [now destruct A'|].
    apply Forall_cons_iff. split; [discriminate|].
    apply List.Forall_forall. intros Q HQ.
    apply (proj1 (List.Forall_forall _ _) Hall).
    eapply Permutation_in; [symmetry; exact Hp|]. right. now right.
  - apply Permutation_length in Hp. exact Hp.
  - intros x y. rewrite (joined_perm _ _ x y Hp), !joined_cons.
    now rewrite HadjA, HadjB.
  - intros x y. rewrite (together_perm _ _ x y Hp), !together_cons.
    assert (EA : forall z, In z (A' ++ [a]) <-> In z Pa).
    { intros z. split; apply Permutation_in; [|symmetry]; exact HpA. }
    assert (EB : forall z, In z (b :: B') <-> In z Pb).
    { intros z. split; apply Permutation_in; [|symmetry]; exact HpB. }
    now rewrite !EA, !EB.
Qed.

Lemma forest_transport (st : GreedyEdge.State) (paths paths' : list (list nat)) :
  paths_ok n paths' -> length paths = length paths' ->
  (forall x y, joined paths x y <-> joined paths' x y) ->
  (forall x y, together paths x y <-> together paths' x y) ->
  forest_ok n st paths -> forest_ok n st paths'.
Proof.
  intros Hok Hlen Hj Ht (_ & Hadj & Hdeg & Huf & Hcount).
  split; [exact Hok|]. split; [|split; [exact Hdeg|split; [|lia]]].
  - destruct Hadj as [Hl Hadj]. split; [exact Hl|]. intros x Hx.
    destruct (Hadj x Hx) as [Hnd Hin]. split; [exact Hnd|].
    intros y. now rewrite Hin.
  - destruct Huf as (H1 & H2 & H3 & H4). split; [exact H1|].
    split; [exact H2|]. split; [exact H3|].
    intros x y rx ry kx ky Hx Hy Hrx Hry.
    now rewrite (H4 x y rx ry kx ky Hx Hy Hrx Hry).
Qed.
End Blocked.

(** ** Greedy edge: one turn of the loop *)

Section EdgeStep.
Variables (fuel n : nat).
Hypothesis n_large : 3 <= n.
Hypothesis enough_fuel : n <= fuel.

Lemma blocked_sym (degree : list nat) (paths : list (list nat)) (a b : nat) :
  blocked degree paths a b -> blocked degree paths b a.
Proof.
  intros [H|[H|[(P & HP & Ha & Hb) Hlen]]].
  - right. now left.
  - now left.
  - right. right. split; [now exists P | exact Hlen].
Qed.

(** With [n - 1] edges accepted, an edge between two cities of degree
    below two closes the tour. *)
Lemma close_ring (st : GreedyEdge.State) (e : GreedyEdge.Edge) (P : list nat) :
  forest_ok n st [P] ->
  GreedyEdge.from e <> GreedyEdge.to e ->
  GreedyEdge.from e < n -> GreedyEdge.to e < n ->
  nth (GreedyEdge.from e) (GreedyEdge.degree st) 0 < 2 ->
  nth (GreedyEdge.to e) (GreedyEdge.degree st) 0 < 2 ->
  exists st', GreedyEdge.add_edge fuel st e = Some st' /\ closed_tour n st'.
Proof.
  intros (Hpaths & Hadj & Hdeg & Huf & Hcount) Hne Ha Hb Hda Hdb.
  cbn [length] in Hcount.
  destruct (uf_union_returns n fuel _ _ _ _ _ Huf ltac:(lia) Ha Hb) as (p' & Hun).
  destruct (add_edge_spec fuel n st e p' Hun Hne (proj1 Hadj) (proj1 Hdeg) Ha Hb)
    as (st' & Hst' & _ & Hec & Hla & _ & _ & Hin & _ & _).
  exists st'. split; [exact Hst'|]. split; [lia|]. exists P.
  assert (HP : In P [P]) by now left.
  assert (Hperm : Permutation P (seq 0 n)).
  { destruct Hpaths as [Hp _]. cbn [concat] in Hp. now rewrite app_nil_r in Hp. }
  assert (Hall : forall x, x < n -> In x P).
  { intros x Hx. eapply Permutation_in; [symmetry; exact Hperm|].
    apply in_seq. lia. }
  split; [exact Hperm|]. split; [exact Hla|].
  intros x y Hx. rewrite Hin.
  rewrite (neighbours_in_path n _ _ Hpaths Hadj P x y HP (Hall x Hx)).
  assert (Hends :
    (hd 0 P = GreedyEdge.from e /\ List.last P 0 = GreedyEdge.to e) \/
    (hd 0 P = GreedyEdge.to e /\ List.last P 0 = GreedyEdge.from e)).
  { destruct (end_of_path n _ _ _ Hpaths Hadj Hdeg P _ HP (Hall _ Ha) Hda)
      as [(la & Ea)|(la & Ea)];
    destruct (end_of_path n _ _ _ Hpaths Hadj Hdeg P _ HP (Hall _ Hb) Hdb)
      as [(lb & Eb)|(lb & Eb)].
    - rewrite Ea in Eb. congruence.
    - left. split; [now rewrite Ea | rewrite Eb; apply last_last].
    - right. split; [now rewrite Eb | rewrite Ea; apply last_last].
    - rewrite Ea in Eb. apply app_inj_tail in Eb as [_ Eb]. congruence. }
  destruct Hends as [[-> ->]|[-> ->]]; tauto.
Qed.

Lemma edge_step_closed (st : GreedyEdge.State) (e : GreedyEdge.Edge) :
  GreedyEdge.edgeCount st = n -> GreedyEdge.edge_step fuel n st e = Some st.
Proof.
  intros H. unfold GreedyEdge.edge_step.
  now replace (n <=? GreedyEdge.edgeCount st) with true
    by (symmetry; apply Nat.leb_le; lia).
Qed.

Lemma edge_step_spec (st : GreedyEdge.State) (e : GreedyEdge.Edge)
    (scanned : list GreedyEdge.Edge) :
  GreedyEdge.from e < GreedyEdge.to e -> GreedyEdge.to e < n ->
  (forall e', In e' scanned -> GreedyEdge.from e' <> GreedyEdge.to e') ->
  scanning n st scanned ->
  exists st',
    GreedyEdge.edge_step fuel n st e = Some st' /\
    (scanning n st' (e :: scanned) \/ closed_tour n st').
Proof.
  intros Hlt Hb Hvalid (paths & Hforest & Hblocked).
  pose proof Hforest as (Hpaths & Hadj & Hdeg & Huf & Hcount).
  set (a := GreedyEdge.from e) in *. set (b := GreedyEdge.to e) in *.
  assert (Ha : a < n) by lia.
  destruct (paths_cover n paths a Hpaths Ha) as (Pa & HPa & HaPa).
  destruct (paths_cover n paths b Hpaths Hb) as (Pb & HPb & HbPb).
  assert (Hsome : 1 <= length paths).
  { destruct paths; [destruct HPa | cbn [length]; lia]. }
  unfold GreedyEdge.edge_step. fold a b.
  replace (n <=? GreedyEdge.edgeCount st) with false
    by (symmetry; apply Nat.leb_gt; lia).
  destruct (2 <=? nth a (GreedyEdge.degree st) 0) eqn:Eda.
  { apply Nat.leb_le in Eda. cbn [orb]. exists st. split; [reflexivity|].
    left. exists paths. split; [exact Hforest|].
    intros e' [<-|He']; [now left | now apply Hblocked]. }
  destruct (2 <=? nth b (GreedyEdge.degree st) 0) eqn:Edb.
  { apply Nat.leb_le in Edb. cbn [orb]. exists st. split; [reflexivity|].
    left. exists paths. split; [exact Hforest|].
    intros e' [<-|He']; [right; now left | now apply Hblocked]. }
  cbn [orb]. apply Nat.leb_gt in Eda, Edb.
  destruct (GreedyEdge.edgeCount st <? n - 1) eqn:Ecount.
  - apply Nat.ltb_lt in Ecount.
    destruct (uf_find n fuel _ paths _ a Huf ltac:(lia) Ha)
      as (p1 & r1 & -> & Huf1 & Hr1 & (ka & Hroot_a) & _).
    destruct (uf_find n fuel _ paths _ b Huf1 ltac:(lia) Hb)
      as (p2 & r2 & -> & Huf2 & Hr2 & (kb & Hroot_b) & Hkeep).
    destruct (Hkeep a ka r1 Hroot_a) as (ka' & Hroot_a').
    set (st2 := GreedyEdge.mkState (GreedyEdge.degree st) p2
                  (GreedyEdge.adj st) (GreedyEdge.edgeCount st)).
    assert (Hforest2 : forest_ok n st2 paths).
    { split; [exact Hpaths|]. split; [exact Hadj|]. split; [exact Hdeg|].
      split; [exact Huf2 | exact Hcount]. }
    assert (Hsame : r1 = r2 <-> together paths a b).
    { destruct Huf2 as (_ & _ & _ & H4).
      exact (H4 a b r1 r2 ka' kb Ha Hb Hroot_a' Hroot_b). }
    destruct (r1 =? r2) eqn:Eroots.
    + apply Nat.eqb_eq in Eroots. exists st2. split; [reflexivity|].
      left. exists paths. split; [exact Hforest2|].
      intros e' [<-|He']; [|now apply Hblocked].
      right. right. split; [now apply Hsame | lia].
    + apply Nat.eqb_neq in Eroots.
      assert (Hdiff : Pa <> Pb).
      { intros E. apply Eroots, Hsame. exists Pa. rewrite E at 3. tauto. }
      pose proof (end_of_path n _ _ _ Hpaths Hadj Hdeg Pa a HPa HaPa Eda) as Hea.
      pose proof (end_of_path n _ _ _ Hpaths Hadj Hdeg Pb b HPb HbPb Edb) as Heb.
      destruct (orient_paths n paths Pa Pb a b Hpaths HPa HPb Hdiff Hea Heb)
        as (A' & B' & rest & Hok' & Hlen & Hj & Ht).
      pose proof (forest_transport n st2 paths _ Hok' Hlen Hj Ht Hforest2)
        as Hforest3.
      destruct (merge_forest fuel n st2 e a b A' B' rest eq_refl eq_refl
                  Hforest3 ltac:(cbn; lia))
        as (st' & Hst' & Hforest' & Hmono & Hda & Hdb).
      destruct (blocked_merge n st2 st' a b A' B' rest n_large Hforest3
                  Hforest' Hmono Hda Hdb) as [Hold Hnew].
      exists st'. split; [exact Hst'|]. left.
      exists (((A' ++ [a]) ++ b :: B') :: rest). split; [exact Hforest'|].
      intros e' [<-|He']; [exact Hnew|].
      apply Hold; [now apply Hvalid|].
      destruct (Hblocked e' He') as [H|[H|[Htog Hl]]].
      * now left.
      * right. now left.
      * right. right. split; [now apply Ht | cbn [length]; lia].
  - apply Nat.ltb_ge in Ecount.
    destruct paths as [|P [|Q paths]]; cbn [length] in Hcount, Hsome; try lia.
    destruct (close_ring st e P Hforest ltac:(fold a b; lia) Ha Hb Eda Edb)
      as (st' & Hst' & Hclosed).
    exists st'. split; [exact Hst' | now right].
Qed.
End EdgeStep.

(** ** Greedy edge: the whole loop *)

Section EdgeLoop.
Variables (fuel n : nat).
Hypothesis n_large : 3 <= n.
Hypothesis enough_fuel : n <= fuel.

Lemma edge_loop_spec (edges : list GreedyEdge.Edge) :
  forall (st : GreedyEdge.State) (scanned : list GreedyEdge.Edge),
    (forall e, In e edges ->
       GreedyEdge.from e < GreedyEdge.to e /\ GreedyEdge.to e < n) ->
    (forall e, In e scanned -> GreedyEdge.from e <> GreedyEdge.to e) ->
    scanning n st scanned \/ closed_tour n st ->
    exists st',
      GreedyEdge.edge_loop fuel n edges st = Some st' /\
      (scanning n st' (rev edges ++ scanned) \/ closed_tour n st').
Proof.
  induction edges as [|e edges IH]; intros st scanned Hedges Hscanned Hst.
  - exists st. split; [reflexivity | exact Hst].
  - cbn [GreedyEdge.edge_loop rev]. rewrite <- app_assoc. cbn [app].
    assert (Hrest : forall e', In e' edges ->
              GreedyEdge.from e' < GreedyEdge.to e' /\ GreedyEdge.to e' < n)
      by (intros e' He'; apply Hedges; now right).
    assert (Hscanned' : forall e', In e' (e :: scanned) ->
              GreedyEdge.from e' <> GreedyEdge.to e').
    { intros e' [<-|He']; [|now apply Hscanned].
      destruct (Hedges e (or_introl eq_refl)). lia. }
    destruct Hst as [Hst|Hst].
    + destruct (Hedges e (or_introl eq_refl)) as [Hlt Hb].
      destruct (edge_step_spec fuel n n_large enough_fuel st e scanned
                  Hlt Hb Hscanned Hst) as (st1 & -> & Hst1).
      apply IH; assumption.
    + rewrite (edge_step_closed fuel n n_large enough_fuel st e (proj1 Hst)).
      destruct (IH st (e :: scanned) Hrest Hscanned' (or_intror Hst))
        as (st' & Hloop & [H|H]).
      * exists st'. split; [exact Hloop | now left].
      * exists st'. split; [exact Hloop | now right].
Qed.

(** Once every pair of cities has been passed, the tour is closed. *)
Lemma scanning_complete (st : GreedyEdge.State)
    (scanned : list GreedyEdge.Edge) :
  (forall a b, a < b -> b < n ->
     exists e, In e scanned /\ GreedyEdge.from e = a /\ GreedyEdge.to e = b) ->
  scanning n st scanned -> False.
Proof.
  intros Hall (paths & (Hpaths & Hadj & Hdeg & Huf & Hcount) & Hblocked).
  assert (Hpair : forall a b, a < n -> b < n -> a <> b ->
            blocked (GreedyEdge.degree st) paths a b).
  { intros a b Ha Hb Hne. destruct (Nat.lt_ge_cases a b) as [Hlt|Hge].
    - destruct (Hall a b Hlt Hb) as (e & He & <- & <-). now apply Hblocked.
    - apply blocked_sym.
      destruct (Hall b a ltac:(lia) Ha) as (e & He & <- & <-).
      now apply Hblocked. }
  destruct paths as [|P [|Q paths]].
  - destruct (paths_cover n [] 0 Hpaths ltac:(lia)) as (P & [] & _).
  - assert (HP : In P [P]) by now left.
    assert (Hperm : Permutation P (seq 0 n)).
    { destruct Hpaths as [Hp _]. cbn [concat] in Hp.
      now rewrite app_nil_r in Hp. }
    pose proof (Permutation_length Hperm) as Hlen. rewrite length_seq in Hlen.
    pose proof (path_NoDup n _ P Hpaths HP) as Hnd.
    destruct P as [|a l]; [cbn in Hlen; lia|].
    destruct (@exists_last _ l) as (l0 & b & E).
    { intros ->. cbn in Hlen. lia. }
    subst l.
    assert (Hne : a <> b).
    { intros ->. apply List.NoDup_cons_iff in Hnd as [Hn _]. apply Hn.
      apply in_or_app. right. now left. }
    assert (Ha : a < n) by (eapply paths_range; [exact Hpaths | exact HP | now left]).
    assert (Hb : b < n).
    { eapply paths_range; [exact Hpaths | exact HP|].
      right. apply in_or_app. right. now left. }
    pose proof (head_degree n _ _ _ Hpaths Hadj Hdeg a (l0 ++ [b]) HP) as Hda.
    pose proof (last_degree n _ _ _ Hpaths Hadj Hdeg b (a :: l0) HP) as Hdb.
    destruct (Hpair a b Ha Hb Hne) as [H|[H|[_ H]]]; cbn [length] in H; lia.
  - pose proof Hpaths as [_ Hnonempty].
    apply Forall_cons_iff in Hnonempty as [HP Hnonempty].
    apply Forall_cons_iff in Hnonempty as [HQ _].
    destruct P as [|a lp]; [congruence|]. destruct Q as [|b lq]; [congruence|].
    assert (HinP : In (a :: lp) ((a :: lp) :: (b :: lq) :: paths)) by now left.
    assert (HinQ : In (b :: lq) ((a :: lp) :: (b :: lq) :: paths))
      by (right; now left).
    assert (Ha : a < n) by (eapply paths_range; [exact Hpaths | exact HinP | now left]).
    assert (Hb : b < n) by (eapply paths_range; [exact Hpaths | exact HinQ | now left]).
    assert (Hdisj : forall x, In x (a :: lp) -> In x (b :: lq) -> False)
      by (intros x; now apply (paths_head_disjoint n _ _ paths x)).
    assert (Hne : a <> b).
    { intros ->. apply (Hdisj b); now left. }
    pose proof (head_degree n _ _ _ Hpaths Hadj Hdeg a lp HinP) as Hda.
    pose proof (head_degree n _ _ _ Hpaths Hadj Hdeg b lq HinQ) as Hdb.
    destruct (Hpair a b Ha Hb Hne) as [H|[H|[Htog _]]]; try lia.
    apply (together_in n _ (a :: lp) a b Hpaths HinP (or_introl eq_refl)) in Htog.
    apply (Hdisj b Htog). now left.
Qed.

Lemma all_edges_valid (graph : list (list Q)) (e : GreedyEdge.Edge) :
  In e (GreedyEdge.all_edges graph n) ->
  GreedyEdge.from e < GreedyEdge.to e /\ GreedyEdge.to e < n.
Proof.
  unfold GreedyEdge.all_edges. intros H.
  apply List.in_flat_map in H as (i & Hi & H).
  apply List.in_map_iff in H as (j & <- & Hj).
  apply in_seq in Hi, Hj. cbn [GreedyEdge.from GreedyEdge.to]. lia.
Qed.

Lemma all_edges_complete (graph : list (list Q)) (a b : nat) :
  a < b -> b < n ->
  exists e, In e (GreedyEdge.all_edges graph n) /\
            GreedyEdge.from e = a /\ GreedyEdge.to e = b.
Proof.
  intros Hlt Hb.
  exists (GreedyEdge.mkEdge a b (graph_at graph (Z.of_nat a) (Z.of_nat b))).
  split; [|split; reflexivity].
  unfold GreedyEdge.all_edges. apply List.in_flat_map. exists a. split.
  - apply in_seq. lia.
  - apply List.in_map_iff. exists b. split; [reflexivity|]. apply in_seq. lia.
Qed.

Lemma concat_singletons (l : list nat) : concat (map (fun i => [i]) l) = l.
Proof. induction l as [|a l IH]; [reflexivity|]. cbn. now rewrite IH. Qed.

(** Before the loop every city is a path of its own. *)
Lemma initial_forest :
  forest_ok n (GreedyEdge.mkState (repeat 0 n) (seq 0 n) (repeat [] n) 0)
    (map (fun i => [i]) (seq 0 n)).
Proof.
  assert (Hsingle : forall P, In P (map (fun i => [i]) (seq 0 n)) ->
            exists i, P = [i] /\ i < n).
  { intros P H. apply List.in_map_iff in H as (i & <- & Hi).
    apply in_seq in Hi. exists i. split; [reflexivity | lia]. }
  split; [|split; [|split; [|split]]];
    cbn [GreedyEdge.adj GreedyEdge.degree GreedyEdge.parent GreedyEdge.edgeCount].
  - split; [now rewrite concat_singletons|].
    apply List.Forall_forall. intros P HP.
    destruct (Hsingle P HP) as (i & -> & _). discriminate.
  - split; [apply repeat_length|]. intros x Hx. rewrite nth_repeat.
    split; [constructor|]. intros y. split; [intros []|].
    intros (P & HP & HA). destruct (Hsingle P HP) as (i & -> & _).
    destruct HA as [(l1 & l2 & E)|(l1 & l2 & E)];
      apply (f_equal (@length nat)) in E; rewrite length_app in E;
      cbn in E; lia.
  - split; [apply repeat_length|]. intros x Hx. now rewrite !nth_repeat.
  - assert (Hroot : forall x, x < n -> Root (seq 0 n) 0 x x).
    { intros x Hx. constructor. now rewrite seq_nth. }
    split; [apply length_seq|]. split; [|split].
    + intros x Hx. now rewrite seq_nth.
    + intros x Hx. exists x, 0. split; [now apply Hroot | lia].
    + intros x y rx ry kx ky Hx Hy Hrx Hry.
      destruct (Root_functional _ _ _ _ Hrx _ _ (Hroot x Hx)) as [-> _].
      destruct (Root_functional _ _ _ _ Hry _ _ (Hroot y Hy)) as [-> _].
      split.
      * intros ->. exists [y]. split; [|split; now left].
        apply List.in_map_iff. exists y. split; [reflexivity|].
        apply in_seq. lia.
      * intros (P & HP & HxP & HyP). destruct (Hsingle P HP) as (i & -> & _).
        destruct HxP as [<-|[]], HyP as [<-|[]]. reflexivity.
  - now rewrite length_map, length_seq.
Qed.

(** The loop over the sorted edges returns with a closed tour. *)
Lemma edge_loop_closes (graph : list (list Q)) :
  exists st,
    GreedyEdge.edge_loop fuel n
      (js_sort GreedyEdge.dist (GreedyEdge.all_edges graph n))
      (GreedyEdge.mkState (repeat 0 n) (seq 0 n) (repeat [] n) 0) = Some st /\
    closed_tour n st.
Proof.
  pose proof (js_sort_perm GreedyEdge.dist (GreedyEdge.all_edges graph n)) as Hp.
  destruct (edge_loop_spec
              (js_sort GreedyEdge.dist (GreedyEdge.all_edges graph n))
              (GreedyEdge.mkState (repeat 0 n) (seq 0 n) (repeat [] n) 0) [])
    as (st & Hloop & Hst).
  - intros e He. apply (all_edges_valid graph).
    eapply Permutation_in; [exact Hp | exact He].
  - intros e [].
  - left. exists (map (fun i => [i]) (seq 0 n)).
    split; [apply initial_forest | intros e []].
  - exists st. split; [exact Hloop|]. destruct Hst as [Hst|Hst]; [|exact Hst].
    exfalso. apply (scanning_complete st _) in Hst; [exact Hst|].
    intros a b Hlt Hb.
    destruct (all_edges_complete graph a b Hlt Hb) as (e & He & Hfrom & Hto).
    exists e. split; [|now split].
    apply in_or_app. left. apply in_rev. rewrite rev_involutive.
    eapply Permutation_in; [symmetry; exact Hp | exact He].
Qed.
End EdgeLoop.

(** ** Greedy edge: the closed tour seen from city 0 *)

Section Ring.
Variables (n : nat) (adj : list (list nat)).

Lemma hd_app_nonempty (A B : list nat) : A <> [] -> hd 0 (A ++ B) = hd 0 A.
Proof. now destruct A. Qed.

Lemma last_app_nonempty (A B : list nat) :
  B <> [] -> List.last (A ++ B) 0 = List.last B 0.
Proof.
  intros HB. destruct (@exists_last _ B HB) as (B0 & z & ->).
  now rewrite app_assoc, !last_last.
Qed.

Lemma hd_rev (P : list nat) : hd 0 (rev P) = List.last P 0.
Proof.
  destruct P as [|a l]; [reflexivity|].
  destruct (@exists_last _ (a :: l)) as (l0 & z & ->); [discriminate|].
  now rewrite rev_app_distr, last_last.
Qed.

Lemma last_rev (P : list nat) : List.last (rev P) 0 = hd 0 P.
Proof. rewrite <- (rev_involutive P) at 2. now rewrite hd_rev. Qed.

Lemma adjacent_app (A B : list nat) (x y : nat) :
  A <> [] -> B <> [] ->
  adjacent (A ++ B) x y <->
  adjacent A x y \/ adjacent B x y \/
  (x = List.last A 0 /\ y = hd 0 B) \/ (x = hd 0 B /\ y = List.last A 0).
Proof.
  intros HA HB. destruct (@exists_last _ A HA) as (A' & a & ->).
  destruct B as [|b B']; [congruence|].
  rewrite last_last. cbn [hd]. apply adjacent_join.
Qed.

Lemma ring_rotate (l1 l2 : list nat) :
  ring_ok n adj (l1 ++ l2) -> ring_ok n adj (l2 ++ l1).
Proof.
  intros (Hperm & Hlen & Hin).
  destruct l1 as [|a1 t1]; [now rewrite app_nil_r|].
  destruct l2 as [|a2 t2]; [now rewrite app_nil_r in *|].
  split; [now rewrite Permutation_app_comm|]. split; [exact Hlen|].
  intros x y Hx. rewrite (Hin x y Hx).
  rewrite !adjacent_app by discriminate.
  rewrite !hd_app_nonempty, !last_app_nonempty by discriminate.
  cbn [hd]. tauto.
Qed.

Lemma ring_rev (P : list nat) : ring_ok n adj P -> ring_ok n adj (rev P).
Proof.
  intros (Hperm & Hlen & Hin).
  split; [now rewrite <- Permutation_rev|]. split; [exact Hlen|].
  intros x y Hx. rewrite (Hin x y Hx), adjacent_rev, hd_rev, last_rev. tauto.
Qed.

(** The tour can be read from city 0 towards the first neighbour that
    [adj] lists for it. *)
Lemma ring_oriented (P : list nat) :
  3 <= n -> ring_ok n adj P ->
  exists w rest t,
    ring_ok n adj (0 :: w :: rest) /\ nth 0 adj [] = w :: t.
Proof.
  intros Hn Hring.
  assert (H0 : In 0 P).
  { destruct Hring as (Hperm & _).
    eapply Permutation_in; [symmetry; exact Hperm|]. apply in_seq. lia. }
  apply in_split in H0 as (l1 & l2 & ->).
  apply ring_rotate in Hring. cbn [app] in Hring.
  remember (l2 ++ l1) as l3 eqn:E3. clear E3 l1 l2.
  pose proof Hring as (Hperm & Hlen & Hin).
  pose proof (Permutation_length Hperm) as Hl. rewrite length_seq in Hl.
  assert (Hnd : List.NoDup (0 :: l3)).
  { eapply Permutation.Permutation_NoDup; [symmetry; exact Hperm|].
    apply seq_NoDup. }
  destruct l3 as [|w1 l4]; [cbn in Hl; lia|].
  assert (Hw1 : In w1 (nth 0 adj [])).
  { apply (Hin 0 w1 ltac:(lia)). left. left. now exists [], l4. }
  destruct (nth 0 adj []) as [|w t] eqn:Eadj; [destruct Hw1|].
  assert (Hw : In w (nth 0 adj [])) by (rewrite Eadj; now left).
  apply (Hin 0 w ltac:(lia)) in Hw as [Hw|[[_ Hw]|[Hw _]]].
  - apply head_neighbour in Hw as (l' & E); [|exact Hnd].
    injection E as -> <-. exists w, l4, t. now split.
  - apply ring_rev in Hring.
    change (rev (0 :: w1 :: l4)) with (rev (w1 :: l4) ++ [0]) in Hring.
    apply ring_rotate in Hring. cbn [app] in Hring.
    destruct (@exists_last _ (w1 :: l4)) as (l5 & z & E); [discriminate|].
    rewrite E in Hring, Hw.
    change (0 :: l5 ++ [z]) with ((0 :: l5) ++ [z]) in Hw.
    rewrite last_last in Hw. subst z.
    rewrite rev_app_distr in Hring. cbn [rev app] in Hring.
    exists w, (rev l5), t. now split.
  - exfalso. apply List.NoDup_cons_iff in Hnd as [Hnot _]. apply Hnot.
    change (0 :: w1 :: l4) with ([0] ++ w1 :: l4) in Hw.
    rewrite last_app_nonempty in Hw by discriminate. rewrite Hw.
    destruct (@exists_last _ (w1 :: l4)) as (l5 & z & E); [discriminate|].
    rewrite E, last_last. apply in_or_app. right. now left.
Qed.
End Ring.

(** ** Greedy edge: the walk along the accepted edges *)

Section Walk.
Variables (n : nat) (adj : list (list nat)) (P : list nat).
Hypothesis Hring : ring_ok n adj P.

Lemma walk_S (k : nat) (visited : list bool) (tour : list Z) (current : nat) :
  GreedyEdge.walk (S k) adj visited tour current =
  match List.find
          (fun neighbor =>
             negb (nth neighbor (js_set false visited current true) false))
          (nth current adj []) with
  | None => tour ++ [Z.of_nat current]
  | Some next =>
      GreedyEdge.walk k adj (js_set false visited current true)
        (tour ++ [Z.of_nat current]) next
  end.
Proof. reflexivity. Qed.

Lemma ring_NoDup : List.NoDup P.
Proof.
  destruct Hring as (Hperm & _).
  eapply Permutation.Permutation_NoDup; [symmetry; exact Hperm|].
  apply seq_NoDup.
Qed.

Lemma ring_range (x : nat) : In x P <-> x < n.
Proof.
  destruct Hring as (Hperm & _). split.
  - intros H. apply (Permutation_in _ Hperm) in H. apply in_seq in H. lia.
  - intros H. eapply Permutation_in; [symmetry; exact Hperm|].
    apply in_seq. lia.
Qed.

(** After the first city the walk follows [P]. *)
Lemma walk_along (todo : list nat) :
  forall (done : list nat) (current : nat) (visited : list bool)
         (tour : list Z),
    P = done ++ current :: todo -> done <> [] ->
    length visited = n ->
    (forall x, x < n -> nth x visited false = true <-> In x done) ->
    GreedyEdge.walk (S (length todo)) adj visited tour current =
    tour ++ map Z.of_nat (current :: todo).
Proof.
  pose proof ring_NoDup as Hnd. destruct Hring as (_ & Hlen & Hin).
  induction todo as [|t1 todo IH];
    intros done current visited tour HP Hdone Hvl Hvis.
  - cbn [length GreedyEdge.walk map].
    now destruct (List.find _ _).
  - assert (Hcur : current < n).
    { apply ring_range. rewrite HP. apply in_or_app. right. now left. }
    assert (Ht1 : t1 < n).
    { apply ring_range. rewrite HP. apply in_or_app. right. right. now left. }
    cbn [length]. rewrite walk_S.
    set (visited' := js_set false visited current true).
    assert (Hvl' : length visited' = n).
    { unfold visited'. rewrite js_set_inside by lia. now rewrite length_insert. }
    assert (Hvis' : forall x, x < n ->
              nth x visited' false = true <-> In x (done ++ [current])).
    { intros x Hx. unfold visited'. rewrite js_set_inside by lia.
      rewrite in_app_iff. cbn [In].
      destruct (Nat.eq_dec current x) as [->|Hd].
      - rewrite nth_insert_eq by lia. tauto.
      - rewrite nth_insert_ne by exact Hd. rewrite (Hvis x Hx).
        split; [tauto | intros [H|[H|[]]]; [exact H | congruence]]. }
    assert (HP' : P = (done ++ [current]) ++ t1 :: todo)
      by (now rewrite <- app_assoc).
    assert (Hnext : In t1 (nth current adj [])).
    { apply (Hin current t1 Hcur). left. left. exists done, todo. exact HP. }
    assert (Hfresh : nth t1 visited' false = false).
    { destruct (nth t1 visited' false) eqn:E; [exfalso | reflexivity].
      apply (Hvis' t1 Ht1) in E. rewrite HP' in Hnd.
      apply (NoDup_app_disjoint _ _ t1 Hnd E). now left. }
    destruct (List.find _ _) as [y|] eqn:Efind.
    + apply List.find_some in Efind as [Hy Hunvisited].
      assert (Hyn : y < n).
      { apply ring_range. apply (Hin current y Hcur) in Hy.
        destruct Hy as [Hy|[[_ ->]|[_ ->]]].
        - now apply adjacent_In in Hy.
        - rewrite HP. rewrite last_app_nonempty by discriminate.
          destruct (@exists_last _ (current :: t1 :: todo)) as (l & z & E);
            [discriminate|].
          rewrite E, last_last. apply in_or_app. right.
          apply in_or_app. right. now left.
        - rewrite HP. destruct done; [congruence | now left]. }
      assert (Hynot : ~ In y (done ++ [current])).
      { intros H. apply (Hvis' y Hyn) in H. rewrite H in Hunvisited.
        discriminate. }
      assert (Ey : y = t1).
      { apply (Hin current y Hcur) in Hy.
        destruct Hy as [[Hy|Hy]|[[Hc _]|[_ ->]]].
        - eapply link_next_unique; [exact Hnd | exact Hy|].
          exists done, todo. exact HP.
        - exfalso. destruct Hy as (l1 & l2 & E). apply Hynot.
          rewrite HP in Hnd.
          replace (l1 ++ y :: current :: l2) with ((l1 ++ [y]) ++ current :: l2)
            in E by (now rewrite <- app_assoc).
          rewrite HP in E.
          destruct (NoDup_split_unique _ _ _ _ current Hnd E) as [-> _].
          apply in_or_app. left. apply in_or_app. right. now left.
        - exfalso. rewrite HP in Hnd, Hc.
          destruct done as [|d done]; [congruence|]. cbn [hd app] in Hc.
          subst d. cbn [app] in Hnd.
          apply List.NoDup_cons_iff in Hnd as [Hn _]. apply Hn.
          apply in_or_app. right. now left.
        - exfalso. apply Hynot. rewrite HP.
          destruct done as [|d done]; [congruence|]. now left. }
      subst y.
      rewrite (IH (done ++ [current]) t1 visited' _ HP'
                 ltac:(now destruct done) Hvl' Hvis').
      rewrite <- app_assoc. reflexivity.
    + exfalso. apply (List.find_none _ _ Efind) in Hnext.
      rewrite Hfresh in Hnext. discriminate.
Qed.
End Walk.

Section GreedyTour.
Lemma walk_ring (n : nat) (adj : list (list nat)) (w : nat)
    (rest : list nat) (t : list nat) :
  ring_ok n adj (0 :: w :: rest) -> nth 0 adj [] = w :: t ->
  GreedyEdge.walk n adj (repeat false n) [] 0 =
  map Z.of_nat (0 :: w :: rest).
Proof.
  intros Hring Eadj.
  pose proof (ring_NoDup n adj _ Hring) as Hnd.
  pose proof Hring as (Hperm & _).
  apply Permutation_length in Hperm. rewrite length_seq in Hperm.
  cbn [length] in Hperm. rewrite <- Hperm at 1.
  rewrite walk_S, Eadj. cbn [List.find app].
  assert (Hw : w <> 0).
  { intros ->. apply List.NoDup_cons_iff in Hnd as [Hn _]. apply Hn. now left. }
  assert (Hset : js_set false (repeat false n) 0 true = <[0 := true]> (repeat false n)).
  { apply js_set_inside. rewrite repeat_length. lia. }
  rewrite Hset. rewrite nth_insert_ne by congruence.
  rewrite nth_repeat. cbn [negb].
  rewrite (walk_along n adj _ Hring rest [0] w); [reflexivity | reflexivity | discriminate | |].
  - now rewrite length_insert, repeat_length.
  - intros x Hx. cbn [In]. destruct (Nat.eq_dec 0 x) as [<-|Hd].
    + rewrite nth_insert_eq by (rewrite repeat_length; lia). tauto.
    + rewrite nth_insert_ne by exact Hd. rewrite nth_repeat.
      split; [discriminate | intros [H|[]]; congruence].
Qed.

End GreedyTour.

(** * Further properties *)

(** ** The exact solvers *)

(** With fewer than two cities [heldKarp] finds no last city: whatever
    the matrix, it returns the tour [[0, -1]] with length [Infinity]. *)
Theorem heldKarp_below_two_cities :
  forall (n fuel : nat) (graph : list (list Q)),
    n <= 1 -> 1 <= fuel ->
    BruteForce.heldKarp fuel graph n =
    Some {| BruteForce.tour := [0; -1]%Z; BruteForce.length := Infinity |}.
Proof.
  intros n fuel graph Hn Hfuel.
  destruct fuel as [|fuel]; [lia|].
  assert (Hdone : forall (tour : list Z) (mask : Z),
            BruteForce.reconstruct fuel ∅ tour mask None = Some tour)
    by (intros tour mask; now destruct fuel).
  destruct n as [|[|n]]; [| |lia];
    unfold BruteForce.heldKarp, BruteForce.hk_tables, BruteForce.hk_base,
      BruteForce.hk_close;
    cbn; now rewrite lookup_empty, Hdone.
Qed.

Lemma heldKarp_below_two_cities_witness :
  BruteForce.heldKarp 1 [[0%Q]] 1 =
  Some {| BruteForce.tour := [0; -1]%Z; BruteForce.length := Infinity |}.
Proof. apply heldKarp_below_two_cities; lia. Defined.

(** ** Two-opt: what the reversals keep *)

Section TwoOptKeeps.
Variable graph : list (list Q).

Lemma scan_order_In (n i j : nat) :
In (i, j) (TwoOptRestart.scan_order n) <-> i + 2 <= j /\ j < n.
Proof.
unfold TwoOptRestart.scan_order. rewrite List.in_flat_map. split.
- intros (k & Hk & H). apply List.in_map_iff in H as (j' & E & Hj).
  injection E as -> ->. apply in_seq in Hk, Hj. lia.
- intros [H1 H2]. exists i. split; [apply in_seq; lia|].
  apply List.in_map_iff. exists j. split; [reflexivity|]. apply in_seq. lia.
Qed.

Lemma reverse_segment_keeps (tour : list Z) (i j : nat) :
i < j -> j < length tour ->
Permutation (TwoOpt.reverse_segment tour i j) tour /\
at_ (TwoOpt.reverse_segment tour i j) 0 = at_ tour 0.
Proof.
intros Hij Hj. rewrite reverse_segment_split by assumption.
assert (E : tour = firstn (i + 1) tour ++
                   firstn (j - i) (skipn (i + 1) tour) ++ skipn (j + 1) tour).
{ rewrite <- (firstn_skipn (i + 1) tour) at 1. f_equal.
  rewrite <- (firstn_skipn (j - i) (skipn (i + 1) tour)) at 1. f_equal.
  rewrite skipn_skipn. f_equal. lia. }
assert (Hpre : 1 <= length (firstn (i + 1) tour))
  by (rewrite length_firstn; lia).
set (pre := firstn (i + 1) tour) in *.
set (mid := firstn (j - i) (skipn (i + 1) tour)) in *.
set (post := skipn (j + 1) tour) in *.
clearbody pre mid post. rewrite E. split.
- apply Permutation_app_head, Permutation_app_tail.
  symmetry. apply Permutation_rev.
- unfold at_. rewrite !app_nth1 by lia. reflexivity.
Qed.

Lemma scan_step_keeps (n : nat) (st : list Z * bool) (p : nat * nat) :
In p (TwoOptRestart.scan_order n) -> length (fst st) = n ->
let st' := TwoOptRestart.scan_step graph n st p in
length (fst st') = n /\ Permutation (fst st') (fst st) /\
at_ (fst st') 0 = at_ (fst st) 0.
Proof.
intros Hp Hlen. destruct p as [i j]. apply scan_order_In in Hp.
cbn zeta. rewrite scan_step_improves.
destruct (TwoOptRestart.improves graph n (fst st) (i, j)); [|now split].
cbn [fst snd].
destruct (reverse_segment_keeps (fst st) i j) as [H1 H2]; [lia | lia|].
split; [|now split]. apply Permutation_length in H1. lia.
Qed.

Lemma pass_keeps (n : nat) (tour : list Z) :
length tour = n ->
length (fst (TwoOpt.pass graph n tour)) = n /\
Permutation (fst (TwoOpt.pass graph n tour)) tour /\
at_ (fst (TwoOpt.pass graph n tour)) 0 = at_ tour 0.
Proof.
intros Hlen. rewrite pass_scan_order.
assert (G : forall l st,
          (forall p, In p l -> In p (TwoOptRestart.scan_order n)) ->
          length (fst st) = n ->
          let st' := fold_left (TwoOptRestart.scan_step graph n) l st in
          length (fst st') = n /\ Permutation (fst st') (fst st) /\
          at_ (fst st') 0 = at_ (fst st) 0).
{ induction l as [|p l IH]; intros st Hl Hst; cbn [fold_left].
  - now split.
  - destruct (scan_step_keeps n st p (Hl p (or_introl eq_refl)) Hst)
      as (K1 & K2 & K3).
    destruct (IH (TwoOptRestart.scan_step graph n st p)
                (fun q Hq => Hl q (or_intror Hq)) K1) as (L1 & L2 & L3).
    split; [exact L1|]. split; [now rewrite L2 | congruence]. }
exact (G _ (tour, false) (fun p Hp => Hp) Hlen).
Qed.

Lemma improve_loop_keeps (remaining n : nat) :
forall tour : list Z,
  length tour = n ->
  Permutation (TwoOpt.improve_loop remaining graph n tour) tour /\
  at_ (TwoOpt.improve_loop remaining graph n tour) 0 = at_ tour 0.
Proof.
induction remaining as [|r IH]; intros tour Hlen; cbn [TwoOpt.improve_loop].
- now split.
- destruct (pass_keeps n tour Hlen) as (K1 & K2 & K3).
  destruct (snd (TwoOpt.pass graph n tour)); [|now split].
  destruct (IH _ K1) as [L1 L2]. split; [now rewrite L1 | congruence].
Qed.



End TwoOptKeeps.

(** [improve] returns a permutation of the cities again, and the city
    at position 0 stays where it is. *)
Theorem twoOpt_improve_keeps_tour :
  forall (n : nat) (graph : list (list Q)) (tour : list Z) (maxIterations : nat),
    square n graph -> is_tour n tour ->
    is_tour n (TwoOpt.improve tour graph maxIterations) /\
    at_ (TwoOpt.improve tour graph maxIterations) 0 = at_ tour 0.
Proof.
  intros n graph tour maxIterations _ Htour. unfold TwoOpt.improve.
  destruct (improve_loop_keeps graph maxIterations (length tour) tour eq_refl)
    as [H1 H2].
  split; [|exact H2]. unfold is_tour in *. now rewrite H1.
Qed.

Lemma twoOpt_improve_keeps_tour_witness :
  let graph := [[0; 1; 1; 1; 1]; [1; 0; 3; 1; 1]; [1; 3; 0; 1; 1];
                [1; 1; 1; 0; 2]; [1; 1; 1; 2; 0]]%Q in
  is_tour 5 (TwoOpt.improve [0; 1; 2; 3; 4]%Z graph 100) /\
  at_ (TwoOpt.improve [0; 1; 2; 3; 4]%Z graph 100) 0 = at_ [0; 1; 2; 3; 4]%Z 0.
Proof.
  intros graph. apply (twoOpt_improve_keeps_tour 5 graph).
  - apply squareb_square. reflexivity.
  - apply Permutation_refl.
Defined.



(** A tour of at most three cities is returned as it is: the scan has
    no pair to try. *)
Theorem twoOpt_improve_short_tour :
  forall (graph : list (list Q)) (tour : list Z) (maxIterations : nat),
    length tour <= 3 -> TwoOpt.improve tour graph maxIterations = tour.
Proof.
  intros graph tour maxIterations Hlen. unfold TwoOpt.improve.
  destruct tour as [|a [|b [|c [|d tour]]]]; cbn in Hlen; try lia;
    destruct maxIterations; reflexivity.
Qed.

Lemma twoOpt_improve_short_tour_witness :
  TwoOpt.improve [2; 0; 1]%Z [[0; 5; 1]; [5; 0; 1]; [1; 1; 0]]%Q 100 =
  [2; 0; 1]%Z.
Proof. apply twoOpt_improve_short_tour. cbn. lia. Defined.

(** ** Nearest neighbour: the choice of the next city *)

Section NearestNeighborChoice.
Variable graph : list (list Q).
Variable n : nat.

(** The scan returns an unvisited city that no unvisited city beats. *)
Lemma nearest_scan_min (visited : list bool) (current : Z) (i : nat) :
i < n -> nth i visited false = false ->
exists k,
  fst (NearestNeighbor.nearest_scan graph n visited current) = Z.of_nat k /\
  (graph_at graph current (Z.of_nat k) <=
   graph_at graph current (Z.of_nat i))%Q.
Proof.
intros Hi Hv. unfold NearestNeighbor.nearest_scan.
set (body := fun (best : Z * num) (i : nat) =>
               if negb (nth i visited false) &&
                  lt_num (graph_at graph current (Z.of_nat i)) (snd best)
               then (Z.of_nat i, Fin (graph_at graph current (Z.of_nat i)))
               else best).
set (good := fun (done : list nat) (best : Z * num) =>
               (best = ((-1)%Z, Infinity) /\
                forall j, In j done -> nth j visited false = true) \/
               (exists k, best = (Z.of_nat k,
                                  Fin (graph_at graph current (Z.of_nat k))) /\
                 forall j, In j done -> nth j visited false = false ->
                   (graph_at graph current (Z.of_nat k) <=
                    graph_at graph current (Z.of_nat j))%Q)).
assert (G : forall (l done : list nat) (best : Z * num),
          good done best -> good (done ++ l) (fold_left body l best)).
{ induction l as [|j l IH]; intros done best Hgood; cbn [fold_left].
  - now rewrite app_nil_r.
  - replace (done ++ j :: l) with ((done ++ [j]) ++ l)
      by (now rewrite <- app_assoc).
    apply IH. unfold body.
    destruct (nth j visited false) eqn:Ev; cbn [negb andb].
    + destruct Hgood as [[-> Hall]|(k & -> & Hk)].
      * left. split; [reflexivity|]. intros m Hm.
        apply in_app_or in Hm as [Hm|[<-|[]]]; [now apply Hall | assumption].
      * right. exists k. split; [reflexivity|]. intros m Hm Hvm.
        apply in_app_or in Hm as [Hm|[<-|[]]]; [now apply Hk | congruence].
    + destruct Hgood as [[-> Hall]|(k & -> & Hk)]; cbn [snd lt_num].
      * right. exists j. split; [reflexivity|]. intros m Hm Hvm.
        apply in_app_or in Hm as [Hm|[<-|[]]]; [|apply Qle_refl].
        apply Hall in Hm. congruence.
      * unfold Qltb. destruct (Qlt_le_dec _ _) as [Hlt|Hle].
        -- right. exists j. split; [reflexivity|]. intros m Hm Hvm.
           apply in_app_or in Hm as [Hm|[<-|[]]]; [|apply Qle_refl].
           specialize (Hk m Hm Hvm). lra.
        -- right. exists k. split; [reflexivity|]. intros m Hm Hvm.
           apply in_app_or in Hm as [Hm|[<-|[]]]; [now apply Hk | exact Hle]. }
specialize (G (seq 0 n) [] ((-1)%Z, Infinity)). cbn [app] in G.
assert (Hin : In i (seq 0 n)) by (apply in_seq; lia).
destruct G as [[_ Hall]|(k & -> & Hk)].
- left. split; [reflexivity | intros j []].
- apply Hall in Hin. congruence.
- exists k. split; [reflexivity | now apply Hk].
Qed.

Lemma nearest_first_snoc (tour : list Z) (c : Z) :
tour <> [] -> nearest_first graph n tour ->
(forall i, i < n -> ~ In (Z.of_nat i) tour ->
   (graph_at graph (List.last tour (-1)%Z) c <=
    graph_at graph (List.last tour (-1)%Z) (Z.of_nat i))%Q) ->
nearest_first graph n (tour ++ [c]).
Proof.
intros Hne Hold Hnew pre a b post E i Hi Hnot.
destruct post as [|z post' _] using rev_ind.
- replace (pre ++ [a; b]) with ((pre ++ [a]) ++ [b]) in E
    by (now rewrite <- app_assoc).
  apply app_inj_tail in E as [-> ->].
  rewrite last_last in Hnew. now apply Hnew.
- replace (pre ++ a :: b :: post' ++ [z])
    with ((pre ++ a :: b :: post') ++ [z]) in E
    by (now rewrite <- app_assoc).
  apply app_inj_tail in E as [-> _]. now apply (Hold pre a b post').
Qed.

(** The loop only appends nearest unvisited cities. *)
Lemma tour_loop_nearest_first (fuel : nat) :
forall (start : Z) (visited : list bool) (tour : list Z) (result : list Z),
  nn_invariant n start visited tour -> tour <> [] ->
  nearest_first graph n tour ->
  NearestNeighbor.tour_loop fuel graph n visited tour
    (List.last tour (-1)%Z) = Some result ->
  nearest_first graph n result.
Proof.
induction fuel as [|fuel IH];
  intros start visited tour result (I1 & I2 & I3 & I4 & I5) Hne Hgreedy Hrun;
  cbn [NearestNeighbor.tour_loop] in Hrun.
- destruct (length tour <? n); [discriminate|]. now injection Hrun as <-.
- destruct (length tour <? n) eqn:Hlt; [|now injection Hrun as <-].
  apply Nat.ltb_lt in Hlt.
  destruct (nearest_scan_spec graph n visited (List.last tour (-1)%Z))
    as [[E Hall]|(i & Hi & E & Hv)]; cbn zeta in *.
  + exfalso. assert (n <= length tour); [|lia].
    apply all_cities_length. intros i Hi. apply I5; [assumption|].
    now apply Hall.
  + rewrite E in Hrun.
    replace (Z.of_nat i =? -1)%Z with false in Hrun
      by (symmetry; apply Z.eqb_neq; lia).
    rewrite Nat2Z.id in Hrun.
    assert (Hnotin : ~ In (Z.of_nat i) tour).
    { intros Hin. apply I5 in Hin; [congruence | assumption]. }
    replace (Z.of_nat i) with (List.last (tour ++ [Z.of_nat i]) (-1)%Z)
      in Hrun at 2 by apply last_last.
    apply (IH start _ _ result) in Hrun; [exact Hrun | | now destruct tour |].
    * rewrite js_set_inside by lia.
      split; [now rewrite length_insert|]. split; [|split; [|split]].
      -- apply List.NoDup_app;
           [assumption
           | apply List.NoDup_cons; [intros [] | apply List.NoDup_nil] |].
         intros c Hc [<-|[]]. contradiction.
      -- destruct tour; [congruence | assumption].
      -- intros c Hc. apply in_app_or in Hc as [Hc|[<-|[]]];
           [now apply I4 | now exists i].
      -- intros k Hk. destruct (Nat.eq_dec k i) as [->|Hd].
         ++ rewrite nth_insert_eq by lia. split; [|reflexivity].
            intros _. apply in_or_app. right. now left.
         ++ rewrite nth_insert_ne by lia. rewrite (I5 k Hk). split.
            ** intros H. apply in_or_app. now left.
            ** intros H. apply in_app_or in H as [H|[H|[]]]; [assumption|].
               apply Nat2Z.inj in H. congruence.
    * apply nearest_first_snoc; [exact Hne | exact Hgreedy|].
      intros k Hk Hknot.
      assert (Hvk : nth k visited false = false).
      { destruct (nth k visited false) eqn:Ek; [|reflexivity].
        apply (I5 k Hk) in Ek. contradiction. }
      destruct (nearest_scan_min visited (List.last tour (-1)%Z) k Hk Hvk)
        as (m & Em & Hm).
      rewrite E in Em. apply Nat2Z.inj in Em. now subst m.
Qed.
End NearestNeighborChoice.

(** Nearest neighbour is greedy: in the returned tour every city after
    the first is, among the cities not visited before it, one that is
    nearest to the city visited just before. *)
Theorem nearestNeighbor_picks_nearest :
  forall (n fuel : nat) (points : list Point) (graph : list (list Q))
         (startCity : nat),
    length points = n -> square n graph -> startCity < n -> n <= fuel ->
    exists tour,
      NearestNeighbor.generateTour fuel points graph startCity = Some tour /\
      forall pre a b post, tour = pre ++ a :: b :: post ->
        forall i, i < n -> ~ In (Z.of_nat i) (pre ++ [a]) ->
          (graph_at graph a b <= graph_at graph a (Z.of_nat i))%Q.
Proof.
  intros n fuel points graph startCity Hlen _ Hstart Hfuel.
  destruct (nearestNeighbor_tour graph n fuel points startCity Hlen Hstart Hfuel)
    as (tour & Hrun & _).
  exists tour. split; [exact Hrun|].
  unfold NearestNeighbor.generateTour in Hrun. rewrite Hlen in Hrun.
  change (Z.of_nat startCity)
    with (List.last [Z.of_nat startCity] (-1)%Z) in Hrun at 2.
  apply (tour_loop_nearest_first graph n fuel (Z.of_nat startCity)) in Hrun;
    [exact Hrun | | discriminate |].
  - rewrite js_set_inside by (rewrite repeat_length; lia).
    split; [now rewrite length_insert, repeat_length|].
    split; [apply List.NoDup_cons; [intros [] | apply List.NoDup_nil]|].
    split; [reflexivity|]. split.
    + intros c [<-|[]]. now exists startCity.
    + intros i Hi. destruct (Nat.eq_dec i startCity) as [->|Hd].
      * rewrite nth_insert_eq by (rewrite repeat_length; lia).
        split; [now left | reflexivity].
      * rewrite nth_insert_ne by lia. rewrite nth_repeat. split; [discriminate|].
        intros [H|[]]. apply Nat2Z.inj in H. congruence.
  - intros pre a b post E. destruct pre as [|c [|c' pre]]; discriminate.
Qed.

Lemma nearestNeighbor_picks_nearest_witness :
  let graph := [[0; 1; 3 # 2; 1]; [1; 0; 1; 3 # 2];
                [3 # 2; 1; 0; 1]; [1; 3 # 2; 1; 0]]%Q in
  let points := [mkPoint 0 0 0 0; mkPoint 1 0 0 1;
                 mkPoint 1 1 0 2; mkPoint 0 1 0 3] in
  exists tour,
    NearestNeighbor.generateTour 4 points graph 2 = Some tour /\
    forall pre a b post, tour = pre ++ a :: b :: post ->
      forall i, i < 4 -> ~ In (Z.of_nat i) (pre ++ [a]) ->
        (graph_at graph a b <= graph_at graph a (Z.of_nat i))%Q.
Proof.
  intros graph points.
  apply (nearestNeighbor_picks_nearest 4 4 points graph 2).
  - reflexivity.
  - apply squareb_square. reflexivity.
  - lia.
  - lia.
Defined.

(** ** Sorting *)

Section SortFacts.
Context {A : Type} (key : A -> Q).

Lemma sort_insert_In (a b : A) (l : list A) :
In b (sort_insert key a l) <-> b = a \/ In b l.
Proof.
split.
- intros H. apply (Permutation_in _ (sort_insert_perm key a l)) in H.
  destruct H as [<-|H]; [now left | now right].
- intros H. apply (Permutation_in _ (Permutation_sym (sort_insert_perm key a l))).
  destruct H as [->|H]; [now left | now right].
Qed.

Lemma sort_insert_sorted (a : A) (l : list A) :
StronglySorted (fun u v => (key u <= key v)%Q) l ->
StronglySorted (fun u v => (key u <= key v)%Q) (sort_insert key a l).
Proof.
induction 1 as [|b l Hl IH Hb]; cbn [sort_insert].
- constructor; [constructor | constructor].
- unfold Qltb. destruct (Qlt_le_dec (key b) (key a)) as [Hlt|Hle].
  + constructor; [exact IH|]. apply List.Forall_forall. intros c Hc.
    apply sort_insert_In in Hc as [->|Hc]; [cbn beta; lra|].
    now apply (proj1 (List.Forall_forall _ _) Hb).
  + constructor; [now constructor|]. constructor; [exact Hle|].
    apply List.Forall_forall. intros c Hc.
    pose proof (proj1 (List.Forall_forall _ _) Hb c Hc) as Hbc.
    cbn beta in Hbc. lra.
Qed.

(** The sorted array is in ascending order of the key. *)
Lemma js_sort_sorted (l : list A) :
StronglySorted (fun u v => (key u <= key v)%Q) (js_sort key l).
Proof.
induction l as [|a l IH]; [constructor|].
cbn [js_sort fold_right]. now apply sort_insert_sorted.
Qed.

(** The sort is stable: elements with equal keys keep their order. *)
Lemma js_sort_stable (k : Q) (l : list A) :
List.filter (fun a => Qeq_bool (key a) k) (js_sort key l) =
List.filter (fun a => Qeq_bool (key a) k) l.
Proof.
induction l as [|a l IH]; [reflexivity|].
cbn [js_sort fold_right]. fold (js_sort key l).
cbn [List.filter]. rewrite <- IH. clear IH.
induction (js_sort key l) as [|b t IHt]; [reflexivity|].
cbn [sort_insert]. unfold Qltb.
destruct (Qlt_le_dec (key b) (key a)) as [Hlt|Hle]; [|reflexivity].
cbn [List.filter]. rewrite IHt.
destruct (Qeq_bool (key a) k) eqn:Ea; [|reflexivity].
destruct (Qeq_bool (key b) k) eqn:Eb; [|reflexivity].
apply Qeq_bool_iff in Ea, Eb. lra.
Qed.
End SortFacts.

(** ** Angular sort: the order of the tour *)

(** [angularSort.generateTour] lists the ids of all the points in
    ascending order of their angle, and points with the same angle in
    the order of the input. *)
Theorem angularSort_ascending :
  forall points : list Point,
    exists sorted : list Point,
      AngularSort.generateTour points = map id sorted /\
      Permutation sorted points /\
      StronglySorted (fun a b => (angle a <= angle b)%Q) sorted /\
      forall k : Q,
        List.filter (fun a => Qeq_bool (angle a) k) sorted =
        List.filter (fun a => Qeq_bool (angle a) k) points.
Proof.
  intros points. exists (js_sort angle points).
  split; [reflexivity|]. split; [apply js_sort_perm|].
  split; [apply js_sort_sorted | intros k; apply js_sort_stable].
Qed.

(** ** Sonar visit: which points the sweep visits, and in what order *)

Section SweepFacts.
Variable PI : Q.
Variable hypot : Q -> Q -> Q.
Variable gridSize : nat.


(** The points in the order of the sweep. *)
Let visited (points : list Point) : list Point :=
flat_map
  (fun i => js_sort (centre_distance hypot)
              (List.filter (fun p => (sweep_bucket PI gridSize p =? Z.of_nat i)%Z)
                           points))
  (seq 0 (4 * gridSize)).



End SweepFacts.



(** ** Zigzag: short tours and tours with nothing to swap *)

(** On a tour of a single city the loop of [zigzag.optimize] is not
    entered and nothing is pushed: the result is the empty tour, the
    city is lost. *)
Theorem zigzag_optimize_single_city :
  forall (fuel : nat) (hypot : Q -> Q -> Q) (c : Z) (points : list Point)
         (graph : list (list Q)),
    Zigzag.optimize fuel hypot [c] points graph = Some [].
Proof. intros fuel hypot c points graph. now destruct fuel. Qed.

Lemma firstn_snoc_nth (l : list Z) (i : nat) :
  i < length l -> firstn (S i) l = firstn i l ++ [nth i l (-1)%Z].
Proof.
  revert i. induction l as [|a l IH]; intros i Hi; [cbn in Hi; lia|].
  destruct i as [|i]; [reflexivity|]. cbn [firstn nth app]. f_equal.
  apply IH. cbn in Hi. lia.
Qed.

Section ZigzagPlain.
Variable hypot : Q -> Q -> Q.
Variable tourIndices : list Z.
Variable points : list Point.
Hypothesis distinct : List.NoDup tourIndices.
Hypothesis no_swap :
forall i, 1 <= i -> i + 2 < length tourIndices ->
  Zigzag.shouldZigzag hypot i (Zigzag.tour_points tourIndices points) = false.

Lemma set_add_old (s : list Z) (v : Z) : In v s -> Zigzag.set_add s v = s.
Proof.
intros H. unfold Zigzag.set_add.
replace (existsb (Z.eqb v) s) with true; [reflexivity|].
symmetry. apply existsb_exists. exists v. split; [exact H | apply Z.eqb_refl].
Qed.

Lemma set_add_new (s : list Z) (v : Z) :
~ In v s -> Zigzag.set_add s v = s ++ [v].
Proof.
intros H. unfold Zigzag.set_add.
replace (existsb (Z.eqb v) s) with false; [reflexivity|].
symmetry. apply not_true_is_false. intros E.
apply existsb_exists in E as (w & Hw & E). apply Z.eqb_eq in E. now subst w.
Qed.

Lemma nth_not_in_firstn (i : nat) :
i < length tourIndices ->
~ In (nth i tourIndices (-1)%Z) (firstn i tourIndices).
Proof.
intros Hi Hin.
rewrite <- (firstn_skipn i tourIndices) in distinct.
apply (NoDup_app_disjoint _ _ _ distinct Hin).
rewrite <- (firstn_skipn i tourIndices) at 1.
rewrite app_nth2 by (rewrite length_firstn; lia).
rewrite length_firstn.
replace (i - Nat.min i (length tourIndices)) with 0 by lia.
destruct (skipn i tourIndices) as [|a l] eqn:E; [|now left].
apply (f_equal (@length Z)) in E. rewrite length_skipn in E. cbn in E. lia.
Qed.

(** Without a swap the loop pushes the pairs [(i - 1, i)] and the [Set]
  keeps the cities met so far in their order. *)
Lemma emit_plain (fuel : nat) :
forall (i : nat) (newTour : list Z),
  1 <= i <= length tourIndices -> length tourIndices <= i + fuel ->
  Zigzag.new_Set newTour = (if i =? 1 then [] else firstn i tourIndices) ->
  2 <= length tourIndices ->
  exists emitted,
    Zigzag.emit fuel hypot (Zigzag.tour_points tourIndices points) i newTour =
      Some emitted /\
    Zigzag.new_Set emitted = tourIndices.
Proof.
induction fuel as [|fuel IH]; intros i newTour Hi Hfuel Hset Hlen;
  cbn [Zigzag.emit]; rewrite (tour_points_length tourIndices points).
- replace (i <? length tourIndices) with false
    by (symmetry; apply Nat.ltb_ge; lia).
  exists newTour. split; [reflexivity|]. rewrite Hset.
  replace (i =? 1) with false by (symmetry; apply Nat.eqb_neq; lia).
  apply firstn_all2. lia.
- destruct (i <? length tourIndices) eqn:Hlt.
  + apply Nat.ltb_lt in Hlt.
    replace ((2 <? length tourIndices - i) &&
             Zigzag.shouldZigzag hypot i (Zigzag.tour_points tourIndices points))
      with false.
    2:{ symmetry. apply andb_false_iff.
        destruct (2 <? length tourIndices - i) eqn:E; [right | now left].
        apply Nat.ltb_lt in E. apply no_swap; lia. }
    rewrite (Nat.mod_small i) by lia.
    rewrite !(originalId_pt tourIndices points) by lia.
    apply IH; [lia | lia | | exact Hlen].
    replace (i + 1 =? 1) with false by (symmetry; apply Nat.eqb_neq; lia).
    unfold Zigzag.new_Set in *. rewrite fold_left_app, Hset.
    cbn [fold_left]. replace (i + 1) with (S i) by lia.
    rewrite (firstn_snoc_nth tourIndices i Hlt).
    destruct (Nat.eqb_spec i 1) as [->|Hne].
    * rewrite (set_add_new [] _) by (intros []). cbn [app].
      rewrite set_add_new.
      -- destruct tourIndices as [|a [|b l]]; cbn in Hlen; try lia. reflexivity.
      -- intros [E|[]]. apply (nth_not_in_firstn 1 Hlt).
         destruct tourIndices as [|a [|b l]]; cbn in Hlen; try lia.
         cbn in *. now left.
    * rewrite (set_add_old (firstn i tourIndices)).
      -- now rewrite set_add_new by (now apply nth_not_in_firstn).
      -- replace i with (S (i - 1)) at 2 by lia.
         rewrite (firstn_snoc_nth tourIndices (i - 1)) by lia.
         apply in_or_app. right. now left.
  + apply Nat.ltb_ge in Hlt.
    exists newTour. split; [reflexivity|]. rewrite Hset.
    replace (i =? 1) with false by (symmetry; apply Nat.eqb_neq; lia).
    apply firstn_all2. lia.
Qed.
End ZigzagPlain.

(** When no position qualifies for a zigzag swap, [zigzag.optimize]
    returns the tour (of at least two distinct cities) as it was. *)
Theorem zigzag_optimize_nothing_to_swap :
  forall (fuel : nat) (hypot : Q -> Q -> Q) (tourIndices : list Z)
         (points : list Point) (graph : list (list Q)),
    List.NoDup tourIndices -> 2 <= length tourIndices ->
    length tourIndices <= fuel ->
    (forall i, 1 <= i -> i + 2 < length tourIndices ->
       Zigzag.shouldZigzag hypot i (Zigzag.tour_points tourIndices points) =
       false) ->
    Zigzag.optimize fuel hypot tourIndices points graph = Some tourIndices.
Proof.
  intros fuel hypot tourIndices points graph Hnd Hlen Hfuel Hno.
  unfold Zigzag.optimize.
  destruct (emit_plain hypot tourIndices points Hnd Hno fuel 1 [])
    as (emitted & -> & E); [lia | lia | reflexivity | exact Hlen|].
  cbn [option_map]. now rewrite E.
Qed.

Lemma zigzag_optimize_nothing_to_swap_witness :
  let points := [mkPoint 0 0 0 0; mkPoint 1 0 0 1;
                 mkPoint 1 1 0 2; mkPoint 0 1 0 3] in
  Zigzag.optimize 4 (fun a b : Q => (a * a + b * b)%Q) [0; 1; 2; 3]%Z points [] =
  Some [0; 1; 2; 3]%Z.
Proof.
  intros points. apply zigzag_optimize_nothing_to_swap.
  - repeat constructor; cbn; intuition discriminate.
  - cbn. lia.
  - cbn. lia.
  - intros i H1 H2. cbn in H2.
    assert (E : i = 1) by lia. subst i. reflexivity.
Defined.

(** ** The distance matrix *)

Section DistanceMatrix.
Variable hypot : Q -> Q -> Q.
Variable points : list Point.

Let n := length points.
Let d (i j : nat) : Q :=
TSPUtils.distance hypot (nth i points TSPUtils.no_point)
                        (nth j points TSPUtils.no_point).

(** The loop over [j] fills one row. *)
Lemma fill_row (i m : nat) (row : list Q) (k : nat) :
m <= length row ->
let row' :=
  fold_left (fun row j => if negb (i =? j) then <[j := d i j]> row else row)
            (seq 0 m) row in
length row' = length row /\
nth k row' 0%Q =
  if (k <? m) && negb (i =? k) then d i k else nth k row 0%Q.
Proof.
induction m as [|m IH]; intros Hm; cbn zeta.
- split; reflexivity.
- rewrite seq_S, fold_left_app. cbn [fold_left Nat.add].
  destruct (IH ltac:(lia)) as [IH1 IH2]. cbn zeta in IH1, IH2.
  set (r := fold_left _ (seq 0 m) row) in *.
  destruct (Nat.eqb_spec i m) as [->|Hne]; cbn [negb].
  + split; [exact IH1|]. rewrite IH2.
    destruct (Nat.eqb_spec m k) as [->|Hk]; cbn [negb].
    * now rewrite !andb_false_r.
    * rewrite !andb_true_r.
      destruct (Nat.ltb_spec k m), (Nat.ltb_spec k (S m)); try reflexivity; lia.
  + split; [now rewrite length_insert|].
    destruct (Nat.eq_dec m k) as [->|Hk].
    * rewrite nth_insert_eq by lia.
      replace (k <? S k) with true by (symmetry; apply Nat.ltb_lt; lia).
      now replace (i =? k) with false by (symmetry; apply Nat.eqb_neq; lia).
    * rewrite nth_insert_ne by exact Hk. rewrite IH2.
      destruct (Nat.ltb_spec k m), (Nat.ltb_spec k (S m)); try reflexivity; lia.
Qed.

(** The loop over [j] changes row [i] only. *)
Lemma fill_row_in_graph (i : nat) (l : list nat) :
forall graph : list (list Q),
  i < length graph ->
  fold_left
    (fun graph j =>
       if negb (i =? j)
       then <[i := <[j := d i j]> (nth i graph [])]> graph
       else graph) l graph =
  <[i := fold_left
           (fun row j => if negb (i =? j) then <[j := d i j]> row else row)
           l (nth i graph [])]> graph.
Proof.
induction l as [|j l IH]; intros graph Hi; cbn [fold_left].
- symmetry. apply list_insert_id.
  destruct (nth_lookup_or_length graph i []) as [E|E]; [exact E | lia].
- destruct (negb (i =? j)); [|now apply IH].
  rewrite IH by (now rewrite length_insert).
  rewrite nth_insert_eq by exact Hi. now rewrite list_insert_insert_eq.
Qed.

Lemma fill_rows (m : nat) (graph : list (list Q)) (k : nat) :
m <= length graph -> Forall (fun row => n <= length row) graph ->
let graph' :=
  fold_left
    (fun graph i =>
       fold_left
         (fun graph j =>
            if negb (i =? j)
            then <[i := <[j := d i j]> (nth i graph [])]> graph
            else graph)
         (seq 0 n) graph)
    (seq 0 m) graph in
length graph' = length graph /\
nth k graph' [] =
  if k <? m
  then fold_left
         (fun row j => if negb (k =? j) then <[j := d k j]> row else row)
         (seq 0 n) (nth k graph [])
  else nth k graph [].
Proof.
induction m as [|m IH]; intros Hm Hrows; cbn zeta.
- split; reflexivity.
- rewrite seq_S, fold_left_app. cbn [fold_left Nat.add].
  destruct (IH ltac:(lia) Hrows) as [IH1 IH2]. cbn zeta in IH1, IH2.
  set (g := fold_left _ (seq 0 m) graph) in *.
  rewrite fill_row_in_graph by lia.
  split; [now rewrite length_insert|].
  destruct (Nat.eq_dec m k) as [->|Hk].
  + rewrite nth_insert_eq by lia. rewrite IH2.
    replace (k <? k) with false by (symmetry; apply Nat.ltb_ge; lia).
    now replace (k <? S k) with true by (symmetry; apply Nat.ltb_lt; lia).
  + rewrite nth_insert_ne by exact Hk. rewrite IH2.
    destruct (Nat.ltb_spec k m), (Nat.ltb_spec k (S m)); try reflexivity; lia.
Qed.

Lemma createDistanceMatrix_rows (i : nat) :
let graph := TSPUtils.createDistanceMatrix hypot points in
length graph = n /\
(i < n ->
 length (nth i graph []) = n /\
 forall j, j < n ->
   nth j (nth i graph []) 0%Q = if i =? j then 0%Q else d i j).
Proof.
cbn zeta. unfold TSPUtils.createDistanceMatrix. cbn zeta. fold n.
destruct (fill_rows n (repeat (repeat 0%Q n) n) i) as [H1 H2].
{ now rewrite repeat_length. }
{ apply List.Forall_forall. intros row Hrow.
  apply repeat_spec in Hrow. subst row. now rewrite repeat_length. }
cbn zeta in H1, H2. unfold d in H1, H2 |- *.
rewrite repeat_length in H1. split; [exact H1|].
intros Hi. rewrite H2.
replace (i <? n) with true by (symmetry; apply Nat.ltb_lt; lia).
rewrite (nth_repeat_lt _ _ Hi).
split.
- destruct (fill_row i n (repeat 0%Q n) 0) as [E _];
    [now rewrite repeat_length|].
  cbn zeta in E. unfold d in E. now rewrite E, repeat_length.
- intros j Hj.
  destruct (fill_row i n (repeat 0%Q n) j) as [_ E];
    [now rewrite repeat_length|].
  cbn zeta in E. unfold d in E. rewrite E, nth_repeat.
  replace (j <? n) with true by (symmetry; apply Nat.ltb_lt; lia).
  now destruct (i =? j).
Qed.
End DistanceMatrix.

Lemma createDistanceMatrix_matrix :
  forall (hypot : Q -> Q -> Q) (points : list Point),
    let graph := TSPUtils.createDistanceMatrix hypot points in
    let n := length points in
    square n graph /\
    forall i j, i < n -> j < n ->
      graph_at graph (Z.of_nat i) (Z.of_nat j) =
      if i =? j then 0%Q
      else TSPUtils.distance hypot (nth i points TSPUtils.no_point)
                                   (nth j points TSPUtils.no_point).
Proof.
  intros hypot points graph n. split.
  - split; [apply (createDistanceMatrix_rows hypot points 0)|].
    apply List.Forall_forall. intros row Hrow.
    apply (In_nth _ _ []) in Hrow as (i & Hi & <-).
    destruct (createDistanceMatrix_rows hypot points i) as [Hlen Hrows].
    fold graph in Hlen, Hrows. cbn zeta in Hlen, Hrows. rewrite Hlen in Hi.
    now apply Hrows.
  - intros i j Hi Hj. unfold graph_at. rewrite !Nat2Z.id.
    destruct (createDistanceMatrix_rows hypot points i) as [_ Hrows].
    now apply Hrows.
Qed.

(** [createDistanceMatrix] returns a matrix with one row and one column
    per point, zeros on the diagonal and, everywhere else,
    [graph[i][j] = distance(points[i], points[j])]. *)
Theorem createDistanceMatrix_entries :
  forall (hypot : Q -> Q -> Q) (points : list Point),
    let graph := TSPUtils.createDistanceMatrix hypot points in
    let n := length points in
    square n graph /\
    forall i j, i < n -> j < n ->
      graph_at graph (Z.of_nat i) (Z.of_nat j) =
      if i =? j then 0%Q
      else TSPUtils.distance hypot (nth i points TSPUtils.no_point)
                                   (nth j points TSPUtils.no_point).
Proof.
  intros hypot points. apply createDistanceMatrix_matrix.
Qed.

(** When [Math.hypot] does not depend on the signs of its arguments and
    is never negative, the matrix of [createDistanceMatrix] is symmetric
    and non-negative: it is a matrix the solvers above accept. *)
Theorem createDistanceMatrix_symmetric :
  forall (hypot : Q -> Q -> Q) (points : list Point),
    (forall u v u' v' : Q, (u == - u')%Q -> (v == - v')%Q ->
       (hypot u v == hypot u' v')%Q) ->
    (forall u v : Q, (0 <= hypot u v)%Q) ->
    let graph := TSPUtils.createDistanceMatrix hypot points in
    let n := length points in
    square n graph /\ symmetric n graph /\ non_negative n graph.
Proof.
  intros hypot points Heven Hpos graph n.
  destruct (createDistanceMatrix_matrix hypot points) as [Hsq Hent].
  fold graph in Hsq, Hent. cbn zeta in Hsq, Hent. fold n in Hsq, Hent.
  split; [exact Hsq|]. split.
  - intros i j Hi Hj. rewrite (Hent i j Hi Hj), (Hent j i Hj Hi).
    rewrite (Nat.eqb_sym j i). destruct (i =? j); [reflexivity|].
    unfold TSPUtils.distance. apply Heven; ring.
  - intros i j Hi Hj. rewrite (Hent i j Hi Hj).
    destruct (i =? j); [apply Qle_refl | apply Hpos].
Qed.

Lemma createDistanceMatrix_symmetric_witness :
  let hypot := fun a b : Q => (a * a + b * b)%Q in
  let points := [mkPoint 0 0 0 0; mkPoint 1 0 0 1; mkPoint 1 1 0 2] in
  let graph := TSPUtils.createDistanceMatrix hypot points in
  square 3 graph /\ symmetric 3 graph /\ non_negative 3 graph.
Proof.
  intros hypot points.
  apply (createDistanceMatrix_symmetric hypot points).
  - intros u v u' v' Hu Hv. unfold hypot. rewrite Hu, Hv. ring.
  - intros u v. unfold hypot. nra.
Defined.

(** ** The genetic operators *)

Lemma swap_any_perm (arr : list Z) (i j : nat) :
  i < length arr -> j < length arr -> Permutation (BruteForce.swap arr i j) arr.
Proof.
  intros Hi Hj. destruct (Nat.le_gt_cases i j) as [Hle|Hgt].
  - now apply swap_perm.
  - replace (BruteForce.swap arr i j) with (BruteForce.swap arr j i).
    + apply swap_perm; lia.
    + unfold BruteForce.swap. apply list_insert_insert_ne. lia.
Qed.

Lemma randomTour_tour :
  forall (rand : nat -> Q) (n : nat),
    (forall k, (0 <= rand k)%Q /\ (rand k < 1)%Q) ->
    is_tour n (GeneticAlgorithm.randomTour rand n).
Proof.
  intros rand n Hrand. unfold GeneticAlgorithm.randomTour.
  assert (G : forall (l : list nat) (tour : list Z),
            (forall i, In i l -> i < n) -> is_tour n tour ->
            is_tour n
              (fold_left
                 (fun tour i =>
                    BruteForce.swap tour i
                      (GeneticAlgorithm.random_index (rand (n - 1 - i)) (i + 1)))
                 l tour)).
  { induction l as [|i l IH]; intros tour Hl Htour; cbn [fold_left];
      [exact Htour|].
    apply IH; [intros k Hk; apply Hl; now right|].
    pose proof (Hl i (or_introl eq_refl)) as Hi.
    destruct (Hrand (n - 1 - i)) as [H0 H1].
    pose proof (random_index_lt (rand (n - 1 - i)) (i + 1) H0 H1 ltac:(lia)) as Hj.
    unfold is_tour in *. rewrite <- Htour.
    pose proof (is_tour_length n tour Htour) as Hlen.
    apply swap_any_perm; lia. }
  apply G; [|apply Permutation_refl].
  intros i Hi. rewrite <- in_rev in Hi. apply in_seq in Hi. lia.
Qed.

(** [randomTour(n)] is a permutation of [{0..n-1}], whatever the draws
    in [[0, 1)]. *)
Theorem randomTour_permutation :
  forall (rand : nat -> Q) (n : nat),
    (forall k, (0 <= rand k)%Q /\ (rand k < 1)%Q) ->
    is_tour n (GeneticAlgorithm.randomTour rand n).
Proof.
  intros rand n Hrand. apply randomTour_tour. exact Hrand.
Qed.

Lemma randomTour_permutation_witness :
  is_tour 5 (GeneticAlgorithm.randomTour
               (fun k => if Nat.even k then (1 # 3)%Q else (3 # 4)%Q) 5).
Proof.
  apply randomTour_permutation.
  intros k. destruct (Nat.even k); split; try discriminate; reflexivity.
Defined.

Lemma mutate_tour :
  forall (n : nat) (r1 r2 : Q) (tour : list Z),
    1 <= n -> is_tour n tour ->
    (0 <= r1)%Q -> (r1 < 1)%Q -> (0 <= r2)%Q -> (r2 < 1)%Q ->
    is_tour n (GeneticAlgorithm.mutate r1 r2 tour).
Proof.
  intros n r1 r2 tour Hn Htour H1 H1' H2 H2'.
  unfold GeneticAlgorithm.mutate. cbn zeta.
  pose proof (is_tour_length n tour Htour) as Hlen. rewrite Hlen.
  pose proof (random_index_lt r1 n H1 H1' Hn).
  pose proof (random_index_lt r2 n H2 H2' Hn).
  unfold is_tour in *. rewrite <- Htour. apply swap_any_perm; lia.
Qed.

(** [mutate] swaps two positions: the mutated tour is again a
    permutation of the cities and no entry is lost or doubled. *)
Theorem mutate_permutation :
  forall (n : nat) (r1 r2 : Q) (tour : list Z),
    1 <= n -> is_tour n tour ->
    (0 <= r1)%Q -> (r1 < 1)%Q -> (0 <= r2)%Q -> (r2 < 1)%Q ->
    is_tour n (GeneticAlgorithm.mutate r1 r2 tour).
Proof.
  intros n r1 r2 tour Hn Htour H1 H1' H2 H2'.
  apply mutate_tour; assumption.
Qed.

Lemma mutate_permutation_witness :
  is_tour 4 (GeneticAlgorithm.mutate (1 # 3) (4 # 5) [2; 0; 3; 1]%Z).
Proof.
  apply (mutate_permutation 4).
  - lia.
  - apply Permutation_sym.
    apply (Permutation.NoDup_Permutation_bis (cities_NoDup 4)); [cbn; lia|].
    intros c Hc. vm_compute in Hc. vm_compute. tauto.
  - discriminate.
  - reflexivity.
  - discriminate.
  - reflexivity.
Defined.

(** ** Simulated annealing *)

Section Annealing.
Variable rand : nat -> Q.
Variable exp : Q -> Q.
Variable graph : list (list Q).
Variable coolingRate : Q.
Variable n : nat.
Hypothesis n_two : 2 <= n.
Hypothesis draws : forall k, (0 <= rand k)%Q /\ (rand k < 1)%Q.

(** [right - left] rounds are enough for the reversal loop: more rounds
  change nothing. *)
Lemma reverse_between_enough (rounds : nat) :
forall (extra : nat) (tour : list Z) (left right : nat),
  right - left <= rounds ->
  SimulatedAnnealing.reverse_between (rounds + extra) tour left right =
  SimulatedAnnealing.reverse_between rounds tour left right.
Proof.
induction rounds as [|r IH]; intros extra tour left right H.
- cbn [Nat.add SimulatedAnnealing.reverse_between].
  destruct extra as [|e]; [reflexivity|].
  cbn [SimulatedAnnealing.reverse_between].
  now replace (left <? right) with false by (symmetry; apply Nat.ltb_ge; lia).
- cbn [Nat.add SimulatedAnnealing.reverse_between].
  destruct (left <? right) eqn:E; [|reflexivity].
  apply Nat.ltb_lt in E. apply IH. lia.
Qed.

Lemma reverse_between_perm (rounds : nat) :
forall (tour : list Z) (left right : nat),
  right < length tour ->
  Permutation (SimulatedAnnealing.reverse_between rounds tour left right) tour.
Proof.
induction rounds as [|r IH]; intros tour left right H;
  cbn [SimulatedAnnealing.reverse_between]; [reflexivity|].
destruct (left <? right) eqn:E; [|reflexivity].
apply Nat.ltb_lt in E.
rewrite IH by (rewrite swap_length; lia).
apply swap_any_perm; lia.
Qed.

(** What every iteration keeps. *)
Let good (bound : Q) (st : SimulatedAnnealing.State) : Prop :=
is_tour n (SimulatedAnnealing.currentTour st) /\
is_tour n (SimulatedAnnealing.bestTour st) /\
SimulatedAnnealing.bestLength st =
  TSPUtils.calculateTourLength (SimulatedAnnealing.bestTour st) graph /\
(SimulatedAnnealing.bestLength st <= bound)%Q.

Lemma step_good (bound : Q) (st : SimulatedAnnealing.State) :
good bound st ->
good bound (SimulatedAnnealing.step rand exp graph coolingRate n st).
Proof.
intros (H1 & H2 & H3 & H4). unfold good, SimulatedAnnealing.step. cbn zeta.
set (i := GeneticAlgorithm.random_index (rand (SimulatedAnnealing.calls st))
            (n - 1)).
set (j0 := GeneticAlgorithm.random_index
             (rand (SimulatedAnnealing.calls st + 1)) (n - 1)).
assert (Hi : i < n - 1).
{ destruct (draws (SimulatedAnnealing.calls st)).
  apply random_index_lt; [assumption | assumption | lia]. }
assert (Hj0 : j0 < n - 1).
{ destruct (draws (SimulatedAnnealing.calls st + 1)).
  apply random_index_lt; [assumption | assumption | lia]. }
set (j := if i <=? j0 then j0 + 1 else j0).
assert (Hj : j < n) by (unfold j; destruct (i <=? j0); lia).
set (minIdx := if i <? j then i else j).
set (maxIdx := if i <? j then j else i).
assert (Hmax : maxIdx < n) by (unfold maxIdx; destruct (i <? j); lia).
set (newTour := SimulatedAnnealing.reverse_between (maxIdx - minIdx)
                  (SimulatedAnnealing.currentTour st) minIdx maxIdx).
assert (Hnew : is_tour n newTour).
{ unfold is_tour, newTour. rewrite reverse_between_perm; [exact H1|].
  now rewrite (is_tour_length n _ H1). }
destruct (_ || _).
- destruct (Qltb (TSPUtils.calculateTourLength newTour graph)
                 (SimulatedAnnealing.bestLength st)) eqn:E;
    cbn [SimulatedAnnealing.currentTour SimulatedAnnealing.bestTour
         SimulatedAnnealing.bestLength].
  + split; [exact Hnew|]. split; [exact Hnew|]. split; [reflexivity|].
    unfold Qltb in E. destruct (Qlt_le_dec _ _) as [Hlt|]; [|discriminate].
    lra.
  + now split.
- cbn [SimulatedAnnealing.currentTour SimulatedAnnealing.bestTour
       SimulatedAnnealing.bestLength]. now split.
Qed.

Lemma optimize_good (initialTour : list Z) (maxIterations : nat)
  (initialTemperature : Q) :
is_tour n initialTour ->
is_tour n
  (SimulatedAnnealing.optimize rand exp graph initialTour maxIterations
     initialTemperature coolingRate) /\
(TSPUtils.calculateTourLength
   (SimulatedAnnealing.optimize rand exp graph initialTour maxIterations
      initialTemperature coolingRate) graph <=
 TSPUtils.calculateTourLength initialTour graph)%Q.
Proof.
intros Htour. unfold SimulatedAnnealing.optimize. cbn zeta.
rewrite (is_tour_length n initialTour Htour).
set (L0 := TSPUtils.calculateTourLength initialTour graph).
assert (G : forall (l : list nat) (st : SimulatedAnnealing.State),
          good L0 st ->
          good L0 (fold_left
                     (fun st _ =>
                        SimulatedAnnealing.step rand exp graph coolingRate n st)
                     l st)).
{ induction l as [|a l IH]; intros st Hst; cbn [fold_left];
    [exact Hst | now apply IH, step_good]. }
destruct (G (seq 0 maxIterations)
            (SimulatedAnnealing.mkState initialTour L0 initialTour L0
               initialTemperature 0)) as (_ & G2 & G3 & G4).
{ split; [exact Htour|]. split; [exact Htour|]. split; [reflexivity|].
  apply Qle_refl. }
split; [exact G2 | now rewrite <- G3].
Qed.
End Annealing.

(** [simulatedAnnealing.optimize] returns a permutation of the cities:
    for a tour of [n >= 2] cities and draws in [[0, 1)], every accepted
    move reverses a segment inside the tour. *)
Theorem simulatedAnnealing_permutation :
  forall (rand : nat -> Q) (exp : Q -> Q) (graph : list (list Q)) (n : nat)
         (initialTour : list Z) (maxIterations : nat)
         (initialTemperature coolingRate : Q),
    2 <= n -> square n graph -> is_tour n initialTour ->
    (forall k, (0 <= rand k)%Q /\ (rand k < 1)%Q) ->
    (0 < initialTemperature)%Q -> (0 < coolingRate)%Q ->
    is_tour n
      (SimulatedAnnealing.optimize rand exp graph initialTour maxIterations
         initialTemperature coolingRate).
Proof.
  intros rand exp graph n initialTour maxIterations initialTemperature
    coolingRate Hn _ Htour Hrand _ _.
  now apply optimize_good.
Qed.

Lemma simulatedAnnealing_permutation_witness :
  let graph := [[0; 1; 3 # 2; 1]; [1; 0; 1; 3 # 2];
                [3 # 2; 1; 0; 1]; [1; 3 # 2; 1; 0]]%Q in
  is_tour 4
    (SimulatedAnnealing.optimize
       (fun k => if Nat.even k then (1 # 3)%Q else (3 # 4)%Q)
       (fun q => (1 # 2)%Q) graph [0; 2; 1; 3]%Z 10 1 (9 # 10)).
Proof.
  intros graph. apply (simulatedAnnealing_permutation _ _ graph 4).
  - lia.
  - apply squareb_square. reflexivity.
  - apply Permutation_sym.
    apply (Permutation.NoDup_Permutation_bis (cities_NoDup 4)); [cbn; lia|].
    intros c Hc. vm_compute in Hc. vm_compute. tauto.
  - intros k. destruct (Nat.even k); split; try discriminate; reflexivity.
  - reflexivity.
  - reflexivity.
Defined.

(** ** The genetic algorithm *)

Section Genetic.
Variable rand : nat -> Q.
Variable graph : list (list Q).
Variable n : nat.
Variable populationSize : nat.
Variable mutationRate : Q.
Hypothesis n_pos : 1 <= n.
Hypothesis size_pos : 1 <= populationSize.
Hypothesis draws : forall k, (0 <= rand k)%Q /\ (rand k < 1)%Q.

(** A population the loops can work with. *)
Let sound (population : list (list Z)) : Prop :=
length population = populationSize /\ Forall (is_tour n) population.

Lemma crossover_tour (r1 r2 : Q) (parent1 parent2 : list Z) :
is_tour n parent1 -> is_tour n parent2 ->
(0 <= r1)%Q /\ (r1 < 1)%Q -> (0 <= r2)%Q /\ (r2 < 1)%Q ->
is_tour n (GeneticAlgorithm.crossover r1 r2 parent1 parent2).
Proof.
intros H1 H2 [Hr1 Hr1'] [Hr2 Hr2'].
unfold GeneticAlgorithm.crossover. cbn zeta.
rewrite (is_tour_length n parent1 H1).
pose proof (random_index_lt r1 n Hr1 Hr1' n_pos) as Hs.
pose proof (random_index_lt r2 (n - GeneticAlgorithm.random_index r1 n)
              Hr2 Hr2' ltac:(lia)) as He.
apply crossover_at_valid; [assumption | assumption | lia].
Qed.

Lemma initial_population_sound :
sound (fst (GeneticAlgorithm.initial_population rand n populationSize)).
Proof.
unfold GeneticAlgorithm.initial_population.
assert (G : forall (l : list nat) (st : list (list Z) * nat),
          Forall (is_tour n) (fst st) ->
          let st' :=
            fold_left
              (fun st _ =>
                 (fst st ++
                    [GeneticAlgorithm.randomTour (fun j => rand (snd st + j)) n],
                  snd st + (n - 1))) l st in
          length (fst st') = length (fst st) + length l /\
          Forall (is_tour n) (fst st')).
{ induction l as [|a l IH]; intros st Hst; cbn [fold_left length].
  - split; [lia | exact Hst].
  - destruct (IH (fst st ++
                    [GeneticAlgorithm.randomTour (fun j => rand (snd st + j)) n],
                  snd st + (n - 1))) as [L1 L2].
    + cbn [fst]. apply Forall_app. split; [exact Hst|].
      constructor; [|constructor]. apply randomTour_tour.
      intros k. apply draws.
    + cbn zeta in L1, L2. cbn [fst] in L1. rewrite length_app in L1.
      cbn [length] in L1. split; [lia | exact L2]. }
destruct (G (seq 0 populationSize) ([], 0)) as [G1 G2]; [constructor|].
cbn zeta in G1, G2. split; [|exact G2].
rewrite G1, length_seq. reflexivity.
Qed.

(** [select()] returns an individual of the population. *)
Lemma select_member (r : Q) (population : list (list Z)) (fitnesses : list GeneticAlgorithm.jsnum) :
sound population ->
exists tour,
  GeneticAlgorithm.select r population fitnesses populationSize = Some tour /\
  In tour population.
Proof.
intros [Hlen _]. unfold GeneticAlgorithm.select. cbn zeta.
assert (Hread : forall i, i < populationSize ->
          exists tour, population !! i = Some tour /\ In tour population).
{ intros i Hi.
  destruct (nth_lookup_or_length population i []) as [E|E]; [|lia].
  eexists. split; [exact E|]. apply nth_In. lia. }
generalize (GeneticAlgorithm.js_scale r
              (fold_left GeneticAlgorithm.js_add fitnesses
                 (GeneticAlgorithm.JNum 0))).
assert (G : forall rounds i v, i + rounds = populationSize ->
          exists tour,
            GeneticAlgorithm.select_loop population fitnesses populationSize
              v i rounds = Some tour /\ In tour population).
{ induction rounds as [|c IH]; intros i v Hi;
    cbn [GeneticAlgorithm.select_loop].
  - replace (populationSize =? 0) with false
      by (symmetry; apply Nat.eqb_neq; lia).
    apply Hread. lia.
  - destruct (GeneticAlgorithm.js_le_zero _); [apply Hread; lia|].
    apply IH. lia. }
intros v. now apply G.
Qed.

Lemma best_index_inside (fitnesses : list GeneticAlgorithm.jsnum) :
GeneticAlgorithm.best_index fitnesses populationSize < populationSize.
Proof.
unfold GeneticAlgorithm.best_index.
assert (G : forall (l : list nat) (b : nat),
          b < populationSize -> (forall i, In i l -> i < populationSize) ->
          fold_left
            (fun bestIdx i =>
               if GeneticAlgorithm.js_gt (nth i fitnesses GeneticAlgorithm.JNaN)
                    (nth bestIdx fitnesses GeneticAlgorithm.JNaN)
               then i else bestIdx) l b < populationSize).
{ induction l as [|i l IH]; intros b Hb Hl; cbn [fold_left]; [exact Hb|].
  apply IH; [|intros k Hk; apply Hl; now right].
  destruct (GeneticAlgorithm.js_gt _ _); [apply Hl; now left | exact Hb]. }
apply G; [lia|]. intros i Hi. apply in_seq in Hi. lia.
Qed.

(** One round of breeding appends one tour. *)
Lemma breed_sound (population : list (list Z)) (fitnesses : list GeneticAlgorithm.jsnum)
  (newPopulation : list (list Z)) (k : nat) :
sound population -> Forall (is_tour n) newPopulation ->
exists child k',
  GeneticAlgorithm.breed rand mutationRate population fitnesses populationSize
    (Some (newPopulation, k)) = Some (newPopulation ++ [child], k') /\
  is_tour n child.
Proof.
intros Hpop Hnew. unfold GeneticAlgorithm.breed.
destruct (select_member (rand k) population fitnesses Hpop)
  as (p1 & -> & Hp1).
destruct (select_member (rand (k + 1)) population fitnesses Hpop)
  as (p2 & -> & Hp2).
destruct Hpop as [_ Hall]. rewrite List.Forall_forall in Hall.
pose proof (crossover_tour (rand (k + 2)) (rand (k + 3)) p1 p2
              (Hall p1 Hp1) (Hall p2 Hp2) (draws _) (draws _)) as Hchild.
cbn zeta. destruct (Qltb (rand (k + 4)) mutationRate).
- eexists _, _. split; [reflexivity|].
  destruct (draws (k + 5)), (draws (k + 6)).
  apply mutate_tour; assumption.
- eexists _, _. split; [reflexivity | exact Hchild].
Qed.

(** A generation keeps the fittest individual in front and fills the
  population again. *)
Lemma generation_sound (population : list (list Z)) (k : nat) :
sound population ->
exists rest k',
  GeneticAlgorithm.generation rand graph populationSize mutationRate
    (Some (population, k)) =
  Some (nth (GeneticAlgorithm.best_index
               (map (GeneticAlgorithm.fitness graph) population)
               populationSize) population [] :: rest, k') /\
  sound (nth (GeneticAlgorithm.best_index
                (map (GeneticAlgorithm.fitness graph) population)
                populationSize) population [] :: rest).
Proof.
intros Hpop. unfold GeneticAlgorithm.generation.
set (fs := map (GeneticAlgorithm.fitness graph) population).
pose proof (best_index_inside fs) as Hbest.
set (b := GeneticAlgorithm.best_index fs populationSize) in *.
destruct (nth_lookup_or_length population b []) as [E|E];
  [|destruct Hpop; lia].
rewrite E. set (elite := nth b population []).
assert (Helite : is_tour n elite).
{ destruct Hpop as [Hlen Hall]. rewrite List.Forall_forall in Hall.
  apply Hall, nth_In. lia. }
assert (G : forall (l : list nat) (rest : list (list Z)) (k0 : nat),
          Forall (is_tour n) rest ->
          exists rest' k',
            fold_left
              (fun st _ =>
                 GeneticAlgorithm.breed rand mutationRate population fs
                   populationSize st) l (Some (elite :: rest, k0)) =
            Some (elite :: rest', k') /\
            length rest' = length rest + length l /\
            Forall (is_tour n) rest').
{ induction l as [|a l IH]; intros rest k0 Hrest; cbn [fold_left length].
  - exists rest, k0. split; [reflexivity|]. split; [lia | exact Hrest].
  - destruct (breed_sound population fs (elite :: rest) k0 Hpop)
      as (child & k1 & -> & Hchild); [now constructor|].
    destruct (IH (rest ++ [child]) k1) as (rest' & k' & R1 & R2 & R3).
    + apply Forall_app. split; [exact Hrest | now constructor].
    + exists rest', k'. split; [exact R1|]. split; [|exact R3].
      rewrite R2, length_app. cbn [length]. lia. }
destruct (G (seq 1 (populationSize - 1)) [] k) as (rest & k' & R1 & R2 & R3);
  [constructor|].
exists rest, k'. split; [exact R1|]. split.
- cbn [length]. rewrite R2, length_seq. cbn [length]. lia.
- now constructor.
Qed.

(** The last loop returns a shortest tour of the population. *)
Lemma best_of_shortest (population : list (list Z)) :
population <> [] ->
exists tour,
  GeneticAlgorithm.best_of graph population = Some tour /\
  In tour population /\
  forall p, In p population ->
    (TSPUtils.calculateTourLength tour graph <=
     TSPUtils.calculateTourLength p graph)%Q.
Proof.
intros Hne. unfold GeneticAlgorithm.best_of.
destruct population as [|first rest]; [congruence|].
eexists. split; [reflexivity|].
assert (G : forall (l : list (list Z)) (best : list Z * Q),
          snd best = TSPUtils.calculateTourLength (fst best) graph ->
          let best' :=
            fold_left
              (fun best tour =>
                 if Qltb (TSPUtils.calculateTourLength tour graph) (snd best)
                 then (tour, TSPUtils.calculateTourLength tour graph)
                 else best)
              l best in
          snd best' = TSPUtils.calculateTourLength (fst best') graph /\
          (In (fst best') l \/ fst best' = fst best) /\
          (snd best' <= snd best)%Q /\
          forall p, In p l ->
            (snd best' <= TSPUtils.calculateTourLength p graph)%Q).
{ induction l as [|t l IH]; intros best Hbest; cbn [fold_left].
  - split; [exact Hbest|]. split; [now right|].
    split; [apply Qle_refl | intros p []].
  - destruct (Qltb (TSPUtils.calculateTourLength t graph) (snd best)) eqn:E.
    + assert (Hlt : (TSPUtils.calculateTourLength t graph < snd best)%Q).
      { unfold Qltb in E. now destruct (Qlt_le_dec _ _). }
      destruct (IH (t, TSPUtils.calculateTourLength t graph) eq_refl)
        as (I1 & I2 & I3 & I4).
      cbn zeta in *. cbn [fst snd] in *.
      split; [exact I1|]. split; [|split].
      * left. destruct I2 as [I2|I2]; [now right | left; now rewrite I2].
      * lra.
      * intros p [<-|Hp]; [exact I3 | now apply I4].
    + assert (Hle : (snd best <= TSPUtils.calculateTourLength t graph)%Q).
      { unfold Qltb in E. now destruct (Qlt_le_dec _ _). }
      destruct (IH best Hbest) as (I1 & I2 & I3 & I4). cbn zeta in *.
      split; [exact I1|]. split; [|split].
      * destruct I2 as [I2|I2]; [left; now right | now right].
      * exact I3.
      * intros p [<-|Hp]; [lra | now apply I4]. }
destruct (G (first :: rest)
            (first, TSPUtils.calculateTourLength first graph) eq_refl)
  as (G1 & G2 & G3 & G4).
cbn zeta in *. cbn [fst snd] in *. split.
- destruct G2 as [G2|G2]; [exact G2 | rewrite G2; now left].
- intros p Hp. rewrite <- G1. now apply G4.
Qed.

(** The population after the generations. *)
Lemma generations_sound (l : list nat) :
forall (population : list (list Z)) (k : nat),
  sound population ->
  exists population' k',
    fold_left
      (fun st _ =>
         GeneticAlgorithm.generation rand graph populationSize mutationRate st)
      l (Some (population, k)) = Some (population', k') /\
    sound population'.
Proof.
induction l as [|a l IH]; intros population k Hpop; cbn [fold_left].
- now exists population, k.
- destruct (generation_sound population k Hpop) as (rest & k1 & -> & Hnext).
  now apply IH.
Qed.

Lemma optimize_tour (generations : nat) :
exists tour,
  GeneticAlgorithm.optimize rand graph n populationSize generations
    mutationRate = Some tour /\
  is_tour n tour.
Proof.
unfold GeneticAlgorithm.optimize.
pose proof initial_population_sound as Hinit.
destruct (GeneticAlgorithm.initial_population rand n populationSize)
  as [population0 k0]. cbn [fst] in Hinit.
destruct (generations_sound (seq 0 generations) population0 k0 Hinit)
  as (population & k & -> & Hlen & Hall).
destruct (best_of_shortest population) as (tour & -> & Hin & _).
{ intros ->. cbn in Hlen. lia. }
exists tour. split; [reflexivity|].
rewrite List.Forall_forall in Hall. now apply Hall.
Qed.
End Genetic.

(** For [n >= 1] cities and a population of at least one,
    [geneticAlgorithm.optimize] returns (it does not throw) a
    permutation of the cities, whatever the draws in [[0, 1)], the
    number of generations and the mutation rate. *)
Theorem geneticAlgorithm_permutation :
  forall (rand : nat -> Q) (graph : list (list Q))
         (n populationSize generations : nat) (mutationRate : Q),
    1 <= n -> 1 <= populationSize -> square n graph ->
    (forall k, (0 <= rand k)%Q /\ (rand k < 1)%Q) ->
    exists tour,
      GeneticAlgorithm.optimize rand graph n populationSize generations
        mutationRate = Some tour /\
      is_tour n tour.
Proof.
  intros rand graph n populationSize generations mutationRate Hn Hsize _ Hrand.
  now apply optimize_tour.
Qed.

Lemma geneticAlgorithm_permutation_witness :
  let graph := [[0; 1; 3 # 2; 1]; [1; 0; 1; 3 # 2];
                [3 # 2; 1; 0; 1]; [1; 3 # 2; 1; 0]]%Q in
  exists tour,
    GeneticAlgorithm.optimize
      (fun k => if Nat.even k then (1 # 3)%Q else (3 # 4)%Q)
      graph 4 3 2 (1 # 2) = Some tour /\
    is_tour 4 tour.
Proof.
  intros graph. apply geneticAlgorithm_permutation.
  - lia.
  - lia.
  - apply squareb_square. reflexivity.
  - intros k. destruct (Nat.even k); split; try discriminate; reflexivity.
Defined.

(** ** The genetic algorithm: the fittest individual survives *)

Lemma is_tour_in_range (n : nat) (tour : list Z) : is_tour n tour -> in_range n tour.
Proof.
  intros H. apply List.Forall_forall. intros c Hc.
  apply (is_tour_In n tour c H) in Hc as (i & Hi & ->). lia.
Qed.


(** ** Prim's algorithm: exchanging one edge of a spanning tree *)

Lemma edge_in_sym (E : list (nat * nat)) (u v : nat) : edge_in E u v -> edge_in E v u.
Proof. unfold edge_in. tauto. Qed.

Lemma reach_trans (E : list (nat * nat)) (u v w : nat) :
  reach E u v -> reach E v w -> reach E u w.
Proof.
  induction 1 as [u|u v' w' He Hr IH]; intros H; [exact H|].
  apply (reach_step E u v'); [exact He|]. now apply IH.
Qed.

Lemma reach_edge (E : list (nat * nat)) (u v : nat) : edge_in E u v -> reach E u v.
Proof. intros H. apply (reach_step E u v); [exact H|apply reach_here]. Qed.

Lemma reach_sym (E : list (nat * nat)) (u v : nat) : reach E u v -> reach E v u.
Proof.
  induction 1 as [u|u v' w' He Hr IH]; [apply reach_here|].
  apply (reach_trans E w' v' u); [exact IH|].
  apply reach_edge. now apply edge_in_sym.
Qed.

Lemma chain_tail (E : list (nat * nat)) (a : nat) (l : list nat) :
  chain E (a :: l) -> chain E l.
Proof. destruct l as [|b t]; [intros _; exact I|]. now intros [_ H]. Qed.

Lemma chain_app_r (E : list (nat * nat)) (l1 l2 : list nat) :
  chain E (l1 ++ l2) -> chain E l2.
Proof.
  induction l1 as [|a l1 IH]; intros H; [exact H|].
  apply IH. now apply (chain_tail E a).
Qed.

Lemma chain_app_l (E : list (nat * nat)) (l1 l2 : list nat) :
  chain E (l1 ++ l2) -> chain E l1.
Proof.
  induction l1 as [|a l1 IH]; intros H; [exact I|].
  destruct l1 as [|b t]; [exact I|].
  destruct H as [He H]. split; [exact He|]. now apply IH.
Qed.

(** Every city of a chain is reached from its first city. *)
Lemma chain_reach (E : list (nat * nat)) (l : list nat) (a v : nat) :
  chain E (a :: l) -> In v (a :: l) -> reach E a v.
Proof.
  revert a. induction l as [|b t IH]; intros a Hc Hv.
  - destruct Hv as [<-|[]]. apply reach_here.
  - destruct Hv as [<-|Hv]; [apply reach_here|].
    destruct Hc as [He Hc]. apply (reach_step E a b); [exact He|].
    now apply IH.
Qed.

Lemma chain_transfer (E E' : list (nat * nat)) (l : list nat) :
  (forall u v, In u l -> In v l -> edge_in E u v -> edge_in E' u v) ->
  chain E l -> chain E' l.
Proof.
  induction l as [|a l IH]; intros Hm Hc; [exact I|].
  destruct l as [|b t]; [exact I|].
  destruct Hc as [He Hc]. split.
  - apply Hm; [now left|right; now left|exact He].
  - apply IH; [|exact Hc]. intros u v Hu Hv. apply Hm; now right.
Qed.

Lemma chain_snoc (E : list (nat * nat)) (l : list nat) (v w : nat) :
  chain E (l ++ [v]) -> edge_in E v w -> chain E (l ++ [v; w]).
Proof.
  intros Hc He. induction l as [|a l IH]; [now split|].
  destruct l as [|b t].
  - destruct Hc as [H1 _]. cbn [app]. now repeat split.
  - destruct Hc as [H1 Hc]. split; [exact H1|]. now apply IH.
Qed.

(** A city that is reached is reached along a chain without repetition. *)
Lemma reach_simple (E : list (nat * nat)) (u w : nat) :
  reach E u w ->
  exists l, List.NoDup l /\ chain E l /\ hd_error l = Some u /\ In w l.
Proof.
  intros H. apply reach_sym in H.
  induction H as [u|w v u He Hr (l & Hnd & Hc & Hh & Hv)].
  - exists [u]. repeat split; [|now left].
    constructor; [intros []|constructor].
  - destruct (in_dec Nat.eq_dec w l) as [Hin|Hout]; [now exists l|].
    apply in_split in Hv as (l1 & l2 & ->).
    exists (l1 ++ [v; w]). repeat split.
    + change (v :: l2) with ([v] ++ l2) in Hnd. rewrite app_assoc in Hnd.
      apply NoDup_app_remove_r in Hnd.
      change [v; w] with ([v] ++ [w]). rewrite app_assoc.
      apply (Permutation_NoDup (Permutation_cons_append (l1 ++ [v]) w)).
      constructor; [|exact Hnd].
      intros Hx. apply Hout.
      rewrite in_app_iff in Hx. rewrite in_app_iff.
      destruct Hx as [Hx|[<-|[]]]; [now left|right; now left].
    + apply chain_snoc; [|now apply edge_in_sym].
      change (v :: l2) with ([v] ++ l2) in Hc. rewrite app_assoc in Hc.
      now apply chain_app_l in Hc.
    + now destruct l1.
    + rewrite in_app_iff. right. right. now left.
Qed.

(** A chain that leaves a set of cities has a first edge that leaves it. *)
Lemma first_crossing (S : nat -> bool) (l : list nat) (x y : nat) :
  hd_error l = Some x -> S x = true -> In y l -> S y = false ->
  exists l1 a b l2,
    l = l1 ++ a :: b :: l2 /\
    (forall v, In v (l1 ++ [a]) -> S v = true) /\ S b = false.
Proof.
  revert x. induction l as [|c l IH]; intros x Hh Hx Hy Hny; [discriminate|].
  injection Hh as ->.
  destruct Hy as [->|Hy]; [congruence|].
  destruct l as [|d t]; [destruct Hy|].
  destruct (S d) eqn:Ed.
  - destruct (IH d eq_refl Ed Hy Hny) as (l1 & a & b & l2 & Hs & Hin & Hb).
    exists (x :: l1), a, b, l2. repeat split.
    + cbn [app]. now rewrite Hs.
    + intros v [<-|Hv]; [exact Hx|now apply Hin].
    + exact Hb.
  - exists [], x, d, t. repeat split; [|exact Ed].
    intros v [<-|[]]. exact Hx.
Qed.

Section Exchange.
Variable n : nat.
Variable S : nat -> bool.
Variables P R : list (nat * nat).
Variables x y : nat.
Hypothesis inside : forall u v, In (u, v) P -> S u = true /\ S v = true.
Hypothesis connected : forall v, v < n -> reach (P ++ R) 0 v.
Hypothesis x_city : x < n.
Hypothesis y_city : y < n.
Hypothesis x_in : S x = true.
Hypothesis y_out : S y = false.

(** Some edge [f] of [R] leaves the set [S]; with [(x, y)] in its place
  the edges still connect every city to city 0. *)
Lemma exchange :
exists a b f R1 R2,
  R = R1 ++ f :: R2 /\ (f = (a, b) \/ f = (b, a)) /\
  S a = true /\ S b = false /\
  forall v, v < n -> reach (P ++ [(x, y)] ++ R1 ++ R2) 0 v.
Proof.
assert (Hxy : reach (P ++ R) x y).
{ apply (reach_trans _ x 0 y); [apply reach_sym|]; now apply connected. }
apply reach_simple in Hxy as (l & Hnd & Hc & Hh & Hy).
destruct (first_crossing S l x y Hh x_in Hy y_out)
  as (l1 & a & b & l2 & Hs & Hin & Hb).
assert (Ha : S a = true) by (apply Hin, in_app_iff; right; now left).
assert (Hab : edge_in (P ++ R) a b).
{ rewrite Hs in Hc. apply chain_app_r in Hc. exact (proj1 Hc). }
assert (Hf : exists f, (f = (a, b) \/ f = (b, a)) /\ In f R).
{ destruct Hab as [H|H]; apply in_app_iff in H as [H|H].
  - apply inside in H. destruct H. congruence.
  - exists (a, b). split; [now left|exact H].
  - apply inside in H. destruct H. congruence.
  - exists (b, a). split; [now right|exact H]. }
destruct Hf as (f & Hf & HfR).
apply in_split in HfR as (R1 & R2 & HR).
exists a, b, f, R1, R2. repeat split; try assumption.
set (E' := P ++ [(x, y)] ++ R1 ++ R2).
assert (Hkeep : forall u v, edge_in (P ++ R) u v ->
          (u, v) <> (a, b) -> (u, v) <> (b, a) -> edge_in E' u v).
{ intros u v Huv N1 N2. unfold E'. rewrite HR in Huv.
  destruct Huv as [H|H]; [left|right];
    rewrite !in_app_iff in *; cbn [In] in *;
    destruct H as [H|[H|[H|H]]]; try tauto; subst f;
    destruct Hf as [Hf|Hf]; injection Hf as -> ->; tauto. }
assert (Hpre : chain E' (l1 ++ [a])).
{ apply (chain_transfer (P ++ R)).
  - intros u v Hu Hv He. apply Hkeep; [exact He| |].
    + intros [= _ ->]. apply Hin in Hv. congruence.
    + intros [= -> _]. apply Hin in Hu. congruence.
  - rewrite Hs in Hc. change (a :: b :: l2) with ([a] ++ b :: l2) in Hc.
    rewrite app_assoc in Hc. now apply chain_app_l in Hc. }
assert (Hna : ~ In a (b :: l2)).
{ rewrite Hs in Hnd. apply NoDup_app_remove_l in Hnd.
  now apply NoDup_cons_iff in Hnd as [Hnd _]. }
assert (Hsuf : chain E' (b :: l2)).
{ apply (chain_transfer (P ++ R)).
  - intros u v Hu Hv He. apply Hkeep; [exact He| |].
    + intros [= -> _]. now apply Hna.
    + intros [= _ ->]. now apply Hna.
  - rewrite Hs in Hc. apply chain_app_r in Hc. now apply chain_tail in Hc. }
assert (Hxa : reach E' x a).
{ destruct l1 as [|c l1].
  - rewrite Hs in Hh. injection Hh as ->. apply reach_here.
  - rewrite Hs in Hh. injection Hh as ->.
    apply (chain_reach E' (l1 ++ [a])); [exact Hpre|].
    right. apply in_app_iff. right. now left. }
assert (Hby : reach E' b y).
{ apply (chain_reach E' l2); [exact Hsuf|].
  rewrite Hs in Hy. apply in_app_iff in Hy as [Hy|[<-|Hy]].
  - assert (S y = true) by (apply Hin, in_app_iff; now left). congruence.
  - congruence.
  - exact Hy. }
assert (Hnew : reach E' a b).
{ apply (reach_trans _ a x b); [now apply reach_sym|].
  apply (reach_step _ x y); [|now apply reach_sym].
  left. unfold E'. rewrite !in_app_iff. right. left. now left. }
assert (Hall : forall u w, reach (P ++ R) u w -> reach E' u w).
{ induction 1 as [u|u v w He Hr IH]; [apply reach_here|].
  apply (reach_trans _ u v w); [|exact IH].
  destruct (Nat.eq_dec u a) as [->|Nu].
  - destruct (Nat.eq_dec v b) as [->|Nv]; [exact Hnew|].
    apply reach_edge, Hkeep; [exact He| |]; intros [=]; congruence.
  - destruct (Nat.eq_dec u b) as [->|Nu'].
    + destruct (Nat.eq_dec v a) as [->|Nv]; [now apply reach_sym|].
      apply reach_edge, Hkeep; [exact He| |]; intros [=]; congruence.
    + apply reach_edge, Hkeep; [exact He| |]; intros [=]; congruence. }
intros v Hv. now apply Hall, connected.
Qed.

End Exchange.

Lemma tree_weight_app (graph : list (list Q)) (A B : list (nat * nat)) :
  (tree_weight graph (A ++ B) == tree_weight graph A + tree_weight graph B)%Q.
Proof.
  unfold tree_weight. induction A as [|e A IH]; cbn [app fold_right].
  - now rewrite Qplus_0_l.
  - rewrite IH. now rewrite Qplus_assoc.
Qed.

(** ** Prim's algorithm: the scan for the shortest edge that leaves the
    selected cities *)

Lemma Qltb_true (a b : Q) : Qltb a b = true -> (a < b)%Q.
Proof. unfold Qltb. now destruct (Qlt_le_dec a b). Qed.

Lemma Qltb_false (a b : Q) : Qltb a b = false -> (b <= a)%Q.
Proof. unfold Qltb. now destruct (Qlt_le_dec a b). Qed.

Section PrimScan.
Variable graph : list (list Q).
Variable n : nat.
Variable selected : list bool.

Let S (v : nat) : bool := nth v selected false.
Let g (i j : nat) : Q := graph_at graph (Z.of_nat i) (Z.of_nat j).
Let inner (i : nat) (st : num * nat * nat) (j : nat) : num * nat * nat :=
if negb (nth j selected false) && negb (Qeq_bool (g i j) 0) then
  if lt_num (g i j) (fst (fst st)) then (Fin (g i j), i, j) else st
else st.
Let scan_ok (st : num * nat * nat) : Prop :=
st = (Infinity, 0, 0) \/
exists x y, st = (Fin (g x y), x, y) /\ x < n /\ y < n /\
            S x = true /\ S y = false.
Let below (st st' : num * nat * nat) : Prop :=
forall m, fst (fst st) = Fin m ->
exists m', fst (fst st') = Fin m' /\ (m' <= m)%Q.

Lemma below_refl (st : num * nat * nat) : below st st.
Proof. intros m H. exists m. split; [exact H|apply Qle_refl]. Qed.

Lemma below_trans (a b c : num * nat * nat) : below a b -> below b c -> below a c.
Proof.
intros H1 H2 m Hm. destruct (H1 m Hm) as (m1 & E1 & L1).
destruct (H2 m1 E1) as (m2 & E2 & L2). exists m2. split; [exact E2|lra].
Qed.

Lemma inner_step (i j : nat) (st : num * nat * nat) :
i < n -> j < n -> S i = true -> scan_ok st ->
scan_ok (inner i st j) /\ below st (inner i st j) /\
(S j = false -> ~ (g i j == 0)%Q ->
 exists m, fst (fst (inner i st j)) = Fin m /\ (m <= g i j)%Q).
Proof.
intros Hi Hj Si Hok. unfold inner. fold (S j).
destruct (S j) eqn:Sj; cbn [negb andb].
{ split; [exact Hok|]. split; [apply below_refl|discriminate]. }
destruct (Qeq_bool (g i j) 0) eqn:Ez; cbn [negb].
{ split; [exact Hok|]. split; [apply below_refl|].
  intros _ N. apply Qeq_bool_iff in Ez. contradiction. }
destruct (lt_num (g i j) (fst (fst st))) eqn:El.
- split; [|split].
  + right. exists i, j. now repeat split.
  + intros m Hm. exists (g i j). split; [reflexivity|].
    rewrite Hm in El. apply Qltb_true in El. lra.
  + intros _ _. exists (g i j). split; [reflexivity|apply Qle_refl].
- split; [exact Hok|]. split; [apply below_refl|].
  intros _ _. destruct (fst (fst st)) as [m|]; [|discriminate].
  exists m. split; [reflexivity|]. now apply Qltb_false.
Qed.

Lemma scan_row (i : nat) (js : list nat) (st : num * nat * nat) :
i < n -> S i = true -> (forall j, In j js -> j < n) -> scan_ok st ->
scan_ok (fold_left (inner i) js st) /\
below st (fold_left (inner i) js st) /\
(forall j, In j js -> S j = false -> ~ (g i j == 0)%Q ->
 exists m, fst (fst (fold_left (inner i) js st)) = Fin m /\ (m <= g i j)%Q).
Proof.
intros Hi Si. revert st. induction js as [|j js IH]; intros st Hjs Hok.
- split; [exact Hok|]. split; [apply below_refl|intros j []].
- cbn [fold_left].
  destruct (inner_step i j st Hi (Hjs j (or_introl eq_refl)) Si Hok)
    as (Hok1 & Hb1 & Hm1).
  destruct (IH (inner i st j) (fun j' H => Hjs j' (or_intror H)) Hok1)
    as (Hok2 & Hb2 & Hm2).
  split; [exact Hok2|]. split; [now apply (below_trans _ (inner i st j))|].
  intros j' [<-|Hj'] Sj N.
  + destruct (Hm1 Sj N) as (m & Em & Lm).
    destruct (Hb2 m Em) as (m' & Em' & Lm'). exists m'. split; [exact Em'|lra].
  + now apply Hm2.
Qed.

Lemma scan_rows (rows : list nat) (st : num * nat * nat) :
(forall i, In i rows -> i < n) -> scan_ok st ->
let st' := fold_left
             (fun st i => if nth i selected false
                          then fold_left (inner i) (seq 0 n) st else st)
             rows st in
scan_ok st' /\ below st st' /\
(forall i j, In i rows -> j < n -> S i = true -> S j = false ->
 ~ (g i j == 0)%Q ->
 exists m, fst (fst st') = Fin m /\ (m <= g i j)%Q).
Proof.
revert st. induction rows as [|i rows IH]; intros st His Hok; cbn zeta.
- split; [exact Hok|]. split; [apply below_refl|intros i j []].
- cbn [fold_left]. fold (S i).
  set (st1 := if S i then fold_left (inner i) (seq 0 n) st else st).
  assert (H1 : scan_ok st1 /\ below st st1 /\
               (forall j, j < n -> S i = true -> S j = false ->
                  ~ (g i j == 0)%Q ->
                  exists m, fst (fst st1) = Fin m /\ (m <= g i j)%Q)).
  { unfold st1. destruct (S i) eqn:Si.
    - destruct (scan_row i (seq 0 n) st (His i (or_introl eq_refl)) Si)
        as (A & B & C); [intros j Hj; apply in_seq in Hj; lia|exact Hok|].
      split; [exact A|]. split; [exact B|].
      intros j Hj _. apply C. apply in_seq. lia.
    - split; [exact Hok|]. split; [apply below_refl|discriminate]. }
  destruct H1 as (Hok1 & Hb1 & Hm1).
  destruct (IH st1 (fun i' H => His i' (or_intror H)) Hok1)
    as (Hok2 & Hb2 & Hm2).
  split; [exact Hok2|]. split; [now apply (below_trans _ st1)|].
  intros i' j [<-|Hi'] Hj Si Sj N.
  + destruct (Hm1 j Hj Si Sj N) as (m & Em & Lm).
    destruct (Hb2 m Em) as (m' & Em' & Lm'). exists m'. split; [exact Em'|lra].
  + now apply Hm2.
Qed.

(** The scan finds a shortest edge from a selected city to a city that is
  not selected, when such an edge exists. *)
Lemma mst_scan_shortest (a b : nat) :
apart n graph -> a < n -> b < n -> S a = true -> S b = false ->
exists x y,
  TSPUtils.mst_scan graph n selected = (Fin (g x y), x, y) /\
  x < n /\ y < n /\ S x = true /\ S y = false /\
  forall i j, i < n -> j < n -> S i = true -> S j = false ->
              (g x y <= g i j)%Q.
Proof.
intros Hap Ha Hb Sa Sb.
assert (Hne : forall i j, i < n -> j < n -> S i = true -> S j = false ->
                ~ (g i j == 0)%Q).
{ intros i j Hi Hj Si Sj. assert (i <> j) by (intros ->; congruence).
  pose proof (Hap i j Hi Hj H). unfold g. lra. }
destruct (scan_rows (seq 0 n) (Infinity, 0, 0)) as (Hok & _ & Hm).
{ intros i Hi. apply in_seq in Hi. lia. }
{ now left. }
change (fold_left _ (seq 0 n) (Infinity, 0, 0))
  with (TSPUtils.mst_scan graph n selected) in Hok, Hm.
assert (Hm' : forall i j, i < n -> j < n -> S i = true -> S j = false ->
          exists m, fst (fst (TSPUtils.mst_scan graph n selected)) = Fin m /\
                    (m <= g i j)%Q).
{ intros i j Hi Hj Si Sj. apply Hm; try assumption.
  - apply in_seq. lia.
  - now apply Hne. }
destruct Hok as [E|(x & y & E & Hx & Hy & Sx & Sy)].
- destruct (Hm' a b Ha Hb Sa Sb) as (m & Em & _). rewrite E in Em. discriminate.
- exists x, y. repeat split; try assumption.
  intros i j Hi Hj Si Sj. destruct (Hm' i j Hi Hj Si Sj) as (m & Em & Lm).
  rewrite E in Em. injection Em as <-. exact Lm.
Qed.

End PrimScan.

(** ** Prim's algorithm: the loop keeps part of a spanning tree that is
    no heavier than a given one *)

Section Prim.
Variable graph : list (list Q).
Variable n : nat.
Variable T : list (nat * nat).
Hypothesis n_pos : 1 <= n.
Hypothesis graph_sym : symmetric n graph.
Hypothesis graph_apart : apart n graph.
Hypothesis T_tree : spanning_tree n T.

Let g (i j : nat) : Q := graph_at graph (Z.of_nat i) (Z.of_nat j).
Let step (st : list bool * list (nat * nat)) : list bool * list (nat * nat) :=
let scan := TSPUtils.mst_scan graph n (fst st) in
(js_set false (fst st) (snd scan) true,
 snd st ++ [(snd (fst scan), snd scan)]).
Let start : list bool * list (nat * nat) :=
(js_set false (repeat false n) 0 true, []).
Let good (k : nat) (st : list bool * list (nat * nat)) : Prop :=
exists P R Sel,
  length (fst st) = n /\ length P = k /\
  List.NoDup Sel /\ length Sel = k + 1 /\
  (forall v, In v Sel <-> nth v (fst st) false = true) /\
  (forall u v, In (u, v) P ->
     nth u (fst st) false = true /\ nth v (fst st) false = true) /\
  spanning_tree n (P ++ R) /\
  (tree_weight graph (P ++ R) <= tree_weight graph T)%Q /\
  snd st = P.

Lemma start_good : good 0 start.
Proof.
unfold good, start. exists [], T, [0]. cbn [fst snd app length].
assert (Hs : js_set false (repeat false n) 0 true = <[0 := true]> (repeat false n)).
{ apply js_set_inside. rewrite repeat_length. lia. }
rewrite Hs.
split; [|split; [|split; [|split; [|split; [|split; [|split; [|split]]]]]]].
- now rewrite length_insert, repeat_length.
- reflexivity.
- constructor; [intros []|constructor].
- reflexivity.
- intros v. split.
  + intros [<-|[]]. apply nth_insert_eq. rewrite repeat_length. lia.
  + intros H. destruct (Nat.eq_dec v 0) as [->|N]; [now left|].
    rewrite nth_insert_ne in H by lia.
    destruct (Nat.lt_ge_cases v n) as [L|L].
    * rewrite nth_repeat_lt in H by lia. discriminate.
    * rewrite nth_overflow in H by (rewrite repeat_length; lia). discriminate.
- intros u v [].
- exact T_tree.
- apply Qle_refl.
- reflexivity.
Qed.

Lemma unselected_city (selected : list bool) (Sel : list nat) :
List.NoDup Sel -> length Sel < n ->
(forall v, In v Sel <-> nth v selected false = true) ->
exists b, b < n /\ nth b selected false = false.
Proof.
intros Hnd Hlen Hsel.
destruct (List.find (fun b => negb (nth b selected false)) (seq 0 n)) as [b|] eqn:F.
- apply find_some in F as [Hb F]. apply in_seq in Hb.
  exists b. split; [lia|]. now destruct (nth b selected false).
- exfalso. assert (Hincl : incl (seq 0 n) Sel).
  { intros v Hv. apply Hsel.
    pose proof (find_none _ _ F v Hv) as H. cbn beta in H.
    now destruct (nth v selected false). }
  pose proof (NoDup_incl_length (seq_NoDup n 0) Hincl) as H.
  rewrite length_seq in H. lia.
Qed.

Lemma prim_step_good (k : nat) (st : list bool * list (nat * nat)) :
k < n - 1 -> good k st -> good (k + 1) (step st).
Proof.
intros Hk (P & R & Sel & Hlen & HP & Hnd & HSel & Hsel & Hin & Htree & Hw & Hst).
destruct st as [selected w]. cbn [fst snd] in *.
destruct Htree as (HE & Hrange & Hconn).
assert (Hlt : forall v, nth v selected false = true -> v < n).
{ intros v Hv. destruct (Nat.lt_ge_cases v n) as [L|L]; [exact L|].
  rewrite nth_overflow in Hv by lia. discriminate. }
assert (Ha : exists a, nth a selected false = true).
{ destruct Sel as [|a Sel]; [cbn in HSel; lia|].
  exists a. apply Hsel. now left. }
destruct Ha as (a & Sa).
destruct (unselected_city selected Sel Hnd ltac:(lia) Hsel) as (b & Hb & Sb).
destruct (mst_scan_shortest graph n selected a b graph_apart (Hlt a Sa) Hb Sa Sb)
  as (x & y & Escan & Hx & Hy & Sx & Sy & Hmin).
destruct (exchange n (fun v => nth v selected false) P R x y Hin Hconn Hx Hy Sx Sy)
  as (a' & b' & f & R1 & R2 & HR & Hf & Sa' & Sb' & Hconn').
cbn beta in Sa', Sb'.
unfold good, step. cbn [fst snd]. rewrite Escan. cbn [fst snd].
rewrite js_set_inside by lia.
exists (P ++ [(x, y)]), (R1 ++ R2), (y :: Sel). cbn [fst snd].
assert (Hup : forall v, nth v selected false = true ->
                nth v (<[y := true]> selected) false = true).
{ intros v Hv. destruct (Nat.eq_dec v y) as [->|N].
  - apply nth_insert_eq. lia.
  - now rewrite nth_insert_ne by lia. }
assert (Hfr : In f (P ++ R)).
{ rewrite HR, in_app_iff. right. apply in_app_iff. right. now left. }
assert (Hab : a' < n /\ b' < n).
{ destruct Hf as [-> | ->]; apply Hrange in Hfr; lia. }
assert (Hwf : (g x y <= graph_at graph (Z.of_nat (fst f)) (Z.of_nat (snd f)))%Q).
{ pose proof (Hmin a' b' (proj1 Hab) (proj2 Hab) Sa' Sb') as H.
  destruct Hf as [-> | ->]; cbn [fst snd].
  - exact H.
  - pose proof (graph_sym a' b' (proj1 Hab) (proj2 Hab)) as Hs.
    fold (g a' b') in Hs. rewrite <- Hs. exact H. }
split; [|split; [|split; [|split; [|split; [|split; [|split; [|split]]]]]]].
- now rewrite length_insert.
- rewrite length_app. cbn [length]. lia.
- constructor; [|exact Hnd]. intros Hy'. apply Hsel in Hy'. congruence.
- cbn [length]. lia.
- intros v. split.
  + intros [<-|Hv].
    * apply nth_insert_eq. lia.
    * now apply Hup, Hsel.
  + intros Hv. destruct (Nat.eq_dec v y) as [->|N]; [now left|].
    right. apply Hsel. now rewrite nth_insert_ne in Hv by lia.
- intros u v H. apply in_app_iff in H as [H|[[= <- <-]|[]]].
  + split; now apply Hup, (Hin u v).
  + split; [now apply Hup|apply nth_insert_eq; lia].
- split; [|split].
  + rewrite <- HE, HR. repeat (rewrite length_app || cbn [length]). lia.
  + intros u v H. rewrite <- app_assoc, !in_app_iff in H. cbn [In] in H.
    assert (Hr : In (u, v) (P ++ R) -> u < n /\ v < n) by apply Hrange.
    rewrite HR, !in_app_iff in Hr. cbn [In] in Hr.
    destruct H as [H|[[H|[]]|[H|H]]]; try (apply Hr; tauto).
    injection H as <- <-. split; [exact Hx|exact Hy].
  + intros v Hv. rewrite <- app_assoc. now apply Hconn'.
- rewrite HR in Hw. rewrite !tree_weight_app in Hw.
  rewrite !tree_weight_app.
  change (tree_weight graph (f :: R2))
    with (graph_at graph (Z.of_nat (fst f)) (Z.of_nat (snd f))
          + tree_weight graph R2)%Q in Hw.
  change (tree_weight graph [(x, y)]) with (g x y + 0)%Q.
  lra.
- now rewrite Hst.
Qed.

Lemma rounds_good (k : nat) :
k <= n - 1 -> good k (fold_left (fun st _ => step st) (seq 0 k) start).
Proof.
induction k as [|k IH]; intros Hk; [exact start_good|].
rewrite seq_S, fold_left_app. cbn [fold_left].
replace (S k) with (k + 1) by lia. apply prim_step_good; [lia|]. apply IH. lia.
Qed.

(** The edges that [calculateMST] adds form a spanning tree that is no
  heavier than [T]. *)
Lemma prim_result :
length graph = n ->
spanning_tree n (mst_edges graph) /\
(tree_weight graph (mst_edges graph) <= tree_weight graph T)%Q.
Proof.
intros Hn. unfold mst_edges. cbn zeta. rewrite Hn.
destruct (rounds_good (n - 1) (le_n _))
  as (P & R & Sel & _ & HP & _ & _ & _ & _ & Htree & Hw & Hst).
assert (HR : R = []).
{ destruct Htree as (HE & _). rewrite length_app in HE.
  destruct R; [reflexivity|cbn [length] in HE; lia]. }
subst R. rewrite app_nil_r in *.
unfold step, start in Hst. rewrite Hst. split; [exact Htree|exact Hw].
Qed.

End Prim.

(** ** The edges of a tour without its closing edge are a spanning tree *)

Lemma path_edges_length (path : list Z) : length (path_edges path) = length path - 1.
Proof.
  induction path as [|a [|b t] IH]; [reflexivity|reflexivity|].
  change (path_edges (a :: b :: t))
    with ((Z.to_nat a, Z.to_nat b) :: path_edges (b :: t)).
  cbn [length] in *. lia.
Qed.

Lemma path_edges_In (path : list Z) (u v : nat) :
  In (u, v) (path_edges path) ->
  exists a b, In a path /\ In b path /\ u = Z.to_nat a /\ v = Z.to_nat b.
Proof.
  induction path as [|a [|b t] IH]; [intros []|intros []|].
  change (path_edges (a :: b :: t))
    with ((Z.to_nat a, Z.to_nat b) :: path_edges (b :: t)).
  intros [[= <- <-]|H].
  - exists a, b. repeat split; [now left|right; now left].
  - destruct (IH H) as (a' & b' & Ha & Hb & -> & ->).
    exists a', b'. repeat split; now right.
Qed.

Lemma path_edges_chain (path : list Z) :
  chain (path_edges path) (map Z.to_nat path).
Proof.
  induction path as [|a [|b t] IH]; [exact I|exact I|].
  change (path_edges (a :: b :: t))
    with ((Z.to_nat a, Z.to_nat b) :: path_edges (b :: t)).
  change (map Z.to_nat (a :: b :: t))
    with (Z.to_nat a :: map Z.to_nat (b :: t)).
  change (map Z.to_nat (b :: t)) with (Z.to_nat b :: map Z.to_nat t) at 1.
  split; [left; now left|].
  apply (chain_transfer (path_edges (b :: t))); [|exact IH].
  intros u v _ _ [H|H]; [left|right]; now right.
Qed.

Lemma path_edges_weight (graph : list (list Q)) (n : nat) (path : list Z) :
  in_range n path ->
  (tree_weight graph (path_edges path) == path_length graph path)%Q.
Proof.
  induction path as [|a [|b t] IH]; intros Hr; [reflexivity|reflexivity|].
  apply Forall_cons_iff in Hr as [Ha Hr].
  pose proof (proj1 (proj1 (Forall_cons_iff _ _ _) Hr)) as Hb.
  cbn beta in Ha, Hb.
  change (path_edges (a :: b :: t))
    with ((Z.to_nat a, Z.to_nat b) :: path_edges (b :: t)).
  change (path_length graph (a :: b :: t))
    with (graph_at graph a b + path_length graph (b :: t))%Q.
  change (tree_weight graph ((Z.to_nat a, Z.to_nat b) :: path_edges (b :: t)))
    with (graph_at graph (Z.of_nat (Z.to_nat a)) (Z.of_nat (Z.to_nat b))
          + tree_weight graph (path_edges (b :: t)))%Q.
  rewrite !Z2Nat.id by lia. rewrite (IH Hr). reflexivity.
Qed.

Lemma tour_spanning_tree (n : nat) (tour : list Z) :
  is_tour n tour -> spanning_tree n (path_edges tour).
Proof.
  intros Htour. split; [|split].
  - rewrite path_edges_length. now rewrite (is_tour_length n).
  - intros u v H. apply path_edges_In in H as (a & b & Ha & Hb & -> & ->).
    apply (is_tour_In n tour a Htour) in Ha as (i & Hi & ->).
    apply (is_tour_In n tour b Htour) in Hb as (j & Hj & ->).
    rewrite !Nat2Z.id. split; assumption.
  - intros v Hv.
    assert (Hin : forall c, c < n -> In c (map Z.to_nat tour)).
    { intros c Hc. apply in_map_iff. exists (Z.of_nat c).
      split; [apply Nat2Z.id|]. apply (is_tour_In n tour _ Htour). now exists c. }
    pose proof (path_edges_chain tour) as Hc.
    destruct (map Z.to_nat tour) as [|h l] eqn:E.
    { destruct (Hin v Hv). }
    apply (reach_trans _ 0 h v).
    + apply reach_sym. apply (chain_reach _ l); [exact Hc|]. apply Hin. lia.
    + apply (chain_reach _ l); [exact Hc|]. now apply Hin.
Qed.

Lemma path_below_cycle (graph : list (list Q)) (n : nat) (tour : list Z) :
  non_negative n graph -> is_tour n tour ->
  (path_length graph tour <= cycle_length graph tour)%Q.
Proof.
  intros Hpos Htour. destruct tour as [|a t]; [apply Qle_refl|].
  unfold cycle_length.
  rewrite (path_length_join graph (a :: t) [a] 0%Z) by discriminate.
  cbn [hd path_length].
  pose proof (is_tour_in_range n _ Htour) as Hr.
  assert (Ha : (0 <= a < Z.of_nat n)%Z).
  { now apply Forall_cons_iff in Hr as [Ha _]. }
  assert (Hl : (0 <= List.last (a :: t) 0%Z < Z.of_nat n)%Z).
  { assert (Hin : In (List.last (a :: t) 0%Z) (a :: t)).
    { destruct (exists_last (l := a :: t)) as (p & z & E); [discriminate|].
      rewrite E, last_last. apply in_app_iff. right. now left. }
    exact (proj1 (List.Forall_forall _ _) Hr _ Hin). }
  pose proof (Hpos (Z.to_nat (List.last (a :: t) 0%Z)) (Z.to_nat a)
                ltac:(lia) ltac:(lia)) as H.
  rewrite !Z2Nat.id in H by lia. lra.
Qed.

(** What the loop of [calculateMST] adds up, exactly and with rounding:
    the distances of the edges it chose, in the order it chose them. *)
Lemma calculateMST_of_edges (rnd : Q -> Q) (graph : list (list Q)) :
  (TSPUtils.calculateMST graph == tree_weight graph (mst_edges graph))%Q /\
  TSPUtils64.calculateMST rnd graph = rounded_weight rnd graph (mst_edges graph).
Proof.
  unfold TSPUtils.calculateMST, TSPUtils64.calculateMST, mst_edges. cbn zeta.
  generalize (js_set false (repeat false (length graph)) 0 true).
  generalize (length graph - 1). intros k.
  assert (G : forall (l : list nat) (selected : list bool) (w r : Q)
                     (E : list (nat * nat)),
            (w == tree_weight graph E)%Q -> r = rounded_weight rnd graph E ->
            let f := fun (st : list bool * Q) (_ : nat) =>
              (js_set false (fst st)
                 (snd (TSPUtils.mst_scan graph (length graph) (fst st))) true,
               (snd st +
                graph_at graph
                  (Z.of_nat (snd (fst (TSPUtils.mst_scan graph (length graph)
                                         (fst st)))))
                  (Z.of_nat (snd (TSPUtils.mst_scan graph (length graph)
                                    (fst st)))))%Q) in
            let f64 := fun (st : list bool * Q) (_ : nat) =>
              (js_set false (fst st)
                 (snd (TSPUtils.mst_scan graph (length graph) (fst st))) true,
               rnd (snd st +
                    graph_at graph
                      (Z.of_nat (snd (fst (TSPUtils.mst_scan graph (length graph)
                                             (fst st)))))
                      (Z.of_nat (snd (TSPUtils.mst_scan graph (length graph)
                                        (fst st)))))%Q) in
            let h := fun (st : list bool * list (nat * nat)) (_ : nat) =>
              (js_set false (fst st)
                 (snd (TSPUtils.mst_scan graph (length graph) (fst st))) true,
               snd st ++
               [(snd (fst (TSPUtils.mst_scan graph (length graph) (fst st))),
                 snd (TSPUtils.mst_scan graph (length graph) (fst st)))]) in
            (snd (fold_left f l (selected, w)) ==
             tree_weight graph (snd (fold_left h l (selected, E))))%Q /\
            snd (fold_left f64 l (selected, r)) =
            rounded_weight rnd graph (snd (fold_left h l (selected, E)))).
  { induction l as [|a l IH]; intros selected w r E Hw Hr; cbn zeta;
      cbn [fold_left fst snd]; [now split|].
    apply IH.
    - rewrite tree_weight_app, Hw.
      set (e := (snd (fst (TSPUtils.mst_scan graph (length graph) selected)),
                 snd (TSPUtils.mst_scan graph (length graph) selected))).
      change (tree_weight graph [e])
        with (graph_at graph (Z.of_nat (fst e)) (Z.of_nat (snd e)) + 0)%Q.
      subst e. cbn [fst snd]. lra.
    - unfold rounded_weight. rewrite fold_left_app. cbn [fold_left fst snd].
      now rewrite Hr. }
  intros selected. apply (G (seq 0 k) selected 0%Q 0%Q []); reflexivity.
Qed.

(** On a symmetric matrix whose entries between different cities are
    positive, the edges that the loop of [calculateMST] chooses are a
    minimum spanning tree: they connect all [n] cities with [n - 1]
    edges, and no such set of edges has a smaller sum of distances.
    [calculateMST] returns the distances of these edges added in the
    order in which they were chosen, each sum rounded. *)
Theorem calculateMST_minimum_tree (rnd : Q -> Q) (graph : list (list Q))
    (n : nat) :
  1 <= n -> square n graph -> symmetric n graph -> apart n graph ->
  spanning_tree n (mst_edges graph) /\
  (forall T, spanning_tree n T ->
             (tree_weight graph (mst_edges graph) <= tree_weight graph T)%Q) /\
  TSPUtils64.calculateMST rnd graph = rounded_weight rnd graph (mst_edges graph).
Proof.
  intros Hn [Hlen _] Hsym Hap. split; [|split].
  - assert (HT : spanning_tree n (path_edges (cities n))).
    { apply tour_spanning_tree. apply Permutation_refl. }
    now destruct (prim_result graph n _ Hn Hsym Hap HT Hlen).
  - intros T HT. now destruct (prim_result graph n T Hn Hsym Hap HT Hlen).
  - now destruct (calculateMST_of_edges rnd graph).
Qed.

Lemma calculateMST_minimum_tree_witness :
  let graph := map (map round64)
                 [[0; 1 # 10; 1; 1]; [1 # 10; 0; 2 # 10; 1];
                  [1; 2 # 10; 0; 3 # 10]; [1; 1; 3 # 10; 0]]%Q in
  spanning_tree 4 (mst_edges graph) /\
  (forall T, spanning_tree 4 T ->
             (tree_weight graph (mst_edges graph) <= tree_weight graph T)%Q) /\
  TSPUtils64.calculateMST round64 graph =
    rounded_weight round64 graph (mst_edges graph).
Proof.
  intros graph. apply (calculateMST_minimum_tree round64 graph 4).
  - lia.
  - apply squareb_square. vm_compute. reflexivity.
  - apply symmetricb_symmetric. vm_compute. reflexivity.
  - intros i j Hi Hj Hne.
    destruct i as [|[|[|[|i]]]]; destruct j as [|[|[|[|j]]]]; try lia;
      vm_compute; reflexivity.
Defined.

(** On a symmetric matrix with no negative entry and positive
    off-diagonal entries, [calculateMST] is a lower bound for the length
    of every tour. *)
Theorem calculateMST_below_every_tour (graph : list (list Q)) (n : nat)
    (tour : list Z) :
  1 <= n -> square n graph -> symmetric n graph -> non_negative n graph ->
  apart n graph -> is_tour n tour ->
  (TSPUtils.calculateMST graph <= TSPUtils.calculateTourLength tour graph)%Q.
Proof.
  intros Hn [Hlen _] Hsym Hpos Hap Htour.
  pose proof (tour_spanning_tree n tour Htour) as HT.
  destruct (prim_result graph n _ Hn Hsym Hap HT Hlen) as (_ & Hle).
  destruct (calculateMST_of_edges (fun x => x) graph) as (Hw & _).
  rewrite Hw, calculateTourLength_cycle.
  rewrite (path_edges_weight graph n) in Hle by now apply is_tour_in_range.
  pose proof (path_below_cycle graph n tour Hpos Htour). lra.
Qed.

Lemma calculateMST_below_every_tour_witness :
  let graph := [[0; 2; 3; 4]; [2; 0; 5; 1]; [3; 5; 0; 6]; [4; 1; 6; 0]]%Q in
  let tour := [2; 0; 3; 1]%Z in
  1 <= 4 /\ square 4 graph /\ symmetric 4 graph /\ non_negative 4 graph /\
  apart 4 graph /\ is_tour 4 tour /\
  (TSPUtils.calculateMST graph <= TSPUtils.calculateTourLength tour graph)%Q.
Proof.
  cbv zeta.
  assert (H1 : 1 <= 4) by lia.
  assert (H2 : square 4 [[0; 2; 3; 4]; [2; 0; 5; 1]; [3; 5; 0; 6]; [4; 1; 6; 0]]%Q).
  { apply squareb_square. reflexivity. }
  assert (H3 : symmetric 4 [[0; 2; 3; 4]; [2; 0; 5; 1]; [3; 5; 0; 6]; [4; 1; 6; 0]]%Q).
  { apply symmetricb_symmetric. reflexivity. }
  assert (H4 : non_negative 4 [[0; 2; 3; 4]; [2; 0; 5; 1]; [3; 5; 0; 6]; [4; 1; 6; 0]]%Q).
  { apply non_negativeb_non_negative. reflexivity. }
  assert (H5 : apart 4 [[0; 2; 3; 4]; [2; 0; 5; 1]; [3; 5; 0; 6]; [4; 1; 6; 0]]%Q).
  { intros i j Hi Hj Hne.
    destruct i as [|[|[|[|i]]]]; destruct j as [|[|[|[|j]]]]; try lia; reflexivity. }
  assert (H6 : is_tour 4 [2; 0; 3; 1]%Z).
  { unfold is_tour. apply (bool_decide_unpack _). vm_compute. reflexivity. }
  split; [exact H1|]. split; [exact H2|]. split; [exact H3|].
  split; [exact H4|]. split; [exact H5|]. split; [exact H6|].
  exact (calculateMST_below_every_tour _ 4 _ H1 H2 H3 H4 H5 H6).
Defined.

(** ** The order crossover: what the child takes from each parent *)

Lemma crossover_at_order (n start end_ : nat) (parent1 parent2 : list Z) :
  is_tour n parent1 -> is_tour n parent2 -> start <= end_ < n ->
  let child := GeneticAlgorithm.crossover_at start end_ parent1 parent2 in
  let rest :=
    List.filter
      (fun c => negb (existsb (Z.eqb c)
                        (map (at_ parent1) (seq start (end_ + 1 - start)))))
      (map (fun i => at_ parent2 ((end_ + 1 + i) mod n)) (seq 0 n)) in
  (forall i, start <= i <= end_ -> at_ child i = at_ parent1 i) /\
  length rest = n - (end_ + 1 - start) /\
  (forall k, k < length rest ->
     at_ child ((end_ + 1 + k) mod n) = nth k rest (-1)%Z).
Proof.
  intros H1 H2 Hb child rest.
  assert (Erest : rest =
    List.filter
      (fun c => negb (bool_decide
         (c ∈ snd (GeneticAlgorithm.copy_segment parent1 start end_
                     (repeat (-1)%Z n, ∅)))))
      (map (fun i => at_ parent2 ((end_ + 1 + i) mod n)) (seq 0 n))).
  { unfold rest. apply List.filter_ext. intros c. f_equal.
    destruct (existsb (Z.eqb c)
                (map (at_ parent1) (seq start (end_ + 1 - start)))) eqn:E.
    - symmetry. apply bool_decide_eq_true. apply (used_spec n); [exact Hb|].
      apply existsb_exists in E as (x & Hx & Ex). apply Z.eqb_eq in Ex. subst x.
      apply in_map_iff in Hx as (i & <- & Hi). apply in_seq in Hi.
      exists i. split; [lia|reflexivity].
    - symmetry. apply bool_decide_eq_false. intros Hc.
      apply (used_spec n) in Hc as (i & Hi & ->); [|exact Hb].
      assert (Ht : existsb (Z.eqb (at_ parent1 i))
                     (map (at_ parent1) (seq start (end_ + 1 - start))) = true).
      { apply existsb_exists. exists (at_ parent1 i).
        split; [|apply Z.eqb_refl]. apply in_map. apply in_seq. lia. }
      congruence. }
  destruct (F_spec n start end_ parent1 parent2 H1 H2 Hb) as (_ & _ & HlenF).
  rewrite <- Erest in HlenF.
  split; [|split].
  - intros i Hi. unfold at_ at 1. unfold child.
    rewrite (crossover_at_nth n) by (assumption || lia).
    replace (start <=? i) with true by (symmetry; apply Nat.leb_le; lia).
    replace (i <=? end_) with true by (symmetry; apply Nat.leb_le; lia).
    reflexivity.
  - exact HlenF.
  - intros k Hk. rewrite HlenF in Hk.
    set (pos := (end_ + 1 + k) mod n).
    assert (Hpos : pos < n) by (apply Nat.mod_upper_bound; lia).
    assert (Hcase : (end_ + 1 + k < n /\ pos = end_ + 1 + k) \/
                    (n <= end_ + 1 + k /\ pos = end_ + 1 + k - n)).
    { destruct (Nat.lt_ge_cases (end_ + 1 + k) n) as [L|L].
      - left. split; [exact L|]. apply Nat.mod_small. exact L.
      - right. split; [exact L|]. unfold pos.
        replace (end_ + 1 + k) with ((end_ + 1 + k - n) + 1 * n) at 1 by lia.
        rewrite Nat.Div0.mod_add. apply Nat.mod_small. lia. }
    assert (He1 : (end_ + 1) mod n = if end_ + 1 =? n then 0 else end_ + 1).
    { destruct (end_ + 1 =? n) eqn:E.
      - apply Nat.eqb_eq in E. rewrite E. apply Nat.Div0.mod_same.
      - apply Nat.eqb_neq in E. apply Nat.mod_small. lia. }
    unfold at_ at 1. unfold child.
    rewrite (crossover_at_nth n) by assumption.
    replace ((start <=? pos) && (pos <=? end_)) with false.
    + rewrite <- Erest. f_equal. unfold offset. rewrite He1.
      destruct (end_ + 1 =? n) eqn:E.
      * apply Nat.eqb_eq in E. cbn [Nat.leb]. lia.
      * apply Nat.eqb_neq in E.
        destruct (end_ + 1 <=? pos) eqn:E2;
          [apply Nat.leb_le in E2|apply Nat.leb_gt in E2]; lia.
    + symmetry. apply andb_false_iff.
      destruct Hcase as [[L ->]|[L ->]].
      * right. apply Nat.leb_gt. lia.
      * left. apply Nat.leb_gt. lia.
Qed.

(** [crossover(parent1, parent2)] on two tours of [n >= 1] cities, with
    [start] and [end] as drawn: the child has the cities of [parent1] at
    the positions [start..end], and from position [end + 1] on, round the
    array, the other cities in the order in which [parent2] has them
    from its position [end + 1] on. *)
Theorem crossover_keeps_order (n : nat) (r1 r2 : Q) (parent1 parent2 : list Z) :
  1 <= n -> is_tour n parent1 -> is_tour n parent2 ->
  (0 <= r1)%Q -> (r1 < 1)%Q -> (0 <= r2)%Q -> (r2 < 1)%Q ->
  let start := GeneticAlgorithm.random_index r1 n in
  let end_ := start + GeneticAlgorithm.random_index r2 (n - start) in
  let child := GeneticAlgorithm.crossover r1 r2 parent1 parent2 in
  let rest :=
    List.filter
      (fun c => negb (existsb (Z.eqb c)
                        (map (at_ parent1) (seq start (end_ + 1 - start)))))
      (map (fun i => at_ parent2 ((end_ + 1 + i) mod n)) (seq 0 n)) in
  (forall i, start <= i <= end_ -> at_ child i = at_ parent1 i) /\
  length rest = n - (end_ + 1 - start) /\
  (forall k, k < length rest ->
     at_ child ((end_ + 1 + k) mod n) = nth k rest (-1)%Z).
Proof.
  intros Hn H1 H2 Hr1 Hr1' Hr2 Hr2' start end_ child.
  pose proof (random_index_lt r1 n Hr1 Hr1' Hn) as Hs. fold start in Hs.
  pose proof (random_index_lt r2 (n - start) Hr2 Hr2' ltac:(lia)) as He.
  unfold child, GeneticAlgorithm.crossover. cbn zeta.
  rewrite (is_tour_length n parent1 H1). fold start. fold end_.
  apply crossover_at_order; [exact H1|exact H2|unfold end_; lia].
Qed.

Lemma crossover_keeps_order_witness :
  let parent1 := [0; 1; 2; 3; 4]%Z in
  let parent2 := [4; 2; 0; 3; 1]%Z in
  let r1 := (1 # 4)%Q in
  let r2 := (1 # 2)%Q in
  let start := GeneticAlgorithm.random_index r1 5 in
  let end_ := start + GeneticAlgorithm.random_index r2 (5 - start) in
  let child := GeneticAlgorithm.crossover r1 r2 parent1 parent2 in
  let rest :=
    List.filter
      (fun c => negb (existsb (Z.eqb c)
                        (map (at_ parent1) (seq start (end_ + 1 - start)))))
      (map (fun i => at_ parent2 ((end_ + 1 + i) mod 5)) (seq 0 5)) in
  (forall i, start <= i <= end_ -> at_ child i = at_ parent1 i) /\
  length rest = 5 - (end_ + 1 - start) /\
  (forall k, k < length rest ->
     at_ child ((end_ + 1 + k) mod 5) = nth k rest (-1)%Z).
Proof.
  intros parent1 parent2 r1 r2.
  apply (crossover_keeps_order 5 r1 r2 parent1 parent2).
  - lia.
  - unfold is_tour. apply (bool_decide_unpack _). vm_compute. reflexivity.
  - unfold is_tour. apply (bool_decide_unpack _). vm_compute. reflexivity.
  - discriminate.
  - reflexivity.
  - discriminate.
  - reflexivity.
Defined.

(** ** Greedy edge: the shortest edge is part of the tour *)

Lemma adj_push_keeps (l : list (list nat)) (k z x y : nat) :
  In y (nth x l []) -> In y (nth x (<[k := nth k l [] ++ [z]]> l) []).
Proof.
  intros H. destruct (Nat.eq_dec k x) as [->|N].
  - destruct (Nat.lt_ge_cases x (length l)) as [L|L].
    + rewrite nth_insert_eq by exact L. apply in_app_iff. now left.
    + rewrite nth_overflow in H by exact L. destruct H.
  - now rewrite nth_insert_ne by exact N.
Qed.

Lemma add_edge_keeps (fuel : nat) (st st' : GreedyEdge.State)
    (e : GreedyEdge.Edge) (x y : nat) :
  GreedyEdge.add_edge fuel st e = Some st' ->
  In y (nth x (GreedyEdge.adj st) []) -> In y (nth x (GreedyEdge.adj st') []).
Proof.
  unfold GreedyEdge.add_edge. cbn zeta.
  destruct (GreedyEdge.union fuel _ _ _); [|discriminate].
  intros [= <-] H. cbn [GreedyEdge.adj]. now do 2 apply adj_push_keeps.
Qed.

Lemma edge_step_keeps (fuel n : nat) (st st' : GreedyEdge.State)
    (e : GreedyEdge.Edge) (x y : nat) :
  GreedyEdge.edge_step fuel n st e = Some st' ->
  In y (nth x (GreedyEdge.adj st) []) -> In y (nth x (GreedyEdge.adj st') []).
Proof.
  unfold GreedyEdge.edge_step.
  destruct (n <=? GreedyEdge.edgeCount st); [now intros [= <-]|].
  destruct (_ || _); [now intros [= <-]|].
  destruct (GreedyEdge.edgeCount st <? n - 1); [|apply add_edge_keeps].
  destruct (GreedyEdge.find fuel _ _) as [[p1 r1]|]; [|discriminate].
  destruct (GreedyEdge.find fuel p1 _) as [[p2 r2]|]; [|discriminate].
  cbn zeta. destruct (r1 =? r2).
  - now intros [= <-].
  - intros H Hin. apply (add_edge_keeps _ _ _ _ x y H). exact Hin.
Qed.

Lemma edge_loop_keeps (fuel n : nat) (edges : list GreedyEdge.Edge) :
  forall (st st' : GreedyEdge.State) (x y : nat),
    GreedyEdge.edge_loop fuel n edges st = Some st' ->
    In y (nth x (GreedyEdge.adj st) []) -> In y (nth x (GreedyEdge.adj st') []).
Proof.
  induction edges as [|e edges IH]; intros st st' x y; cbn [GreedyEdge.edge_loop].
  - now intros [= <-].
  - destruct (GreedyEdge.edge_step fuel n st e) as [st1|] eqn:E; [|discriminate].
    intros H Hin. apply (IH st1 st' x y H). now apply (edge_step_keeps fuel n st st1 e).
Qed.

Lemma find_own_root (fuel n x : nat) :
  1 <= fuel -> x < n ->
  GreedyEdge.find fuel (seq 0 n) x = Some (seq 0 n, x).
Proof.
  intros Hf Hx. destruct fuel as [|f]; [lia|]. cbn [GreedyEdge.find]. cbn zeta.
  rewrite seq_nth by exact Hx. cbn [Nat.add]. now rewrite Nat.eqb_refl.
Qed.

(** The first edge of the loop is accepted. *)
Lemma first_edge_accepted (fuel n : nat) (e : GreedyEdge.Edge)
    (st : GreedyEdge.State) :
  3 <= n -> 1 <= fuel -> GreedyEdge.from e < GreedyEdge.to e < n ->
  GreedyEdge.edge_step fuel n
    (GreedyEdge.mkState (repeat 0 n) (seq 0 n) (repeat [] n) 0) e = Some st ->
  In (GreedyEdge.to e) (nth (GreedyEdge.from e) (GreedyEdge.adj st) []).
Proof.
  intros Hn Hf He. unfold GreedyEdge.edge_step.
  cbn [GreedyEdge.edgeCount GreedyEdge.degree GreedyEdge.parent GreedyEdge.adj].
  replace (n <=? 0) with false by (symmetry; apply Nat.leb_gt; lia).
  rewrite !nth_repeat. cbn [Nat.leb orb].
  replace (0 <? n - 1) with true by (symmetry; apply Nat.ltb_lt; lia).
  rewrite !find_own_root by lia. cbn zeta.
  replace (GreedyEdge.from e =? GreedyEdge.to e) with false
    by (symmetry; apply Nat.eqb_neq; lia).
  unfold GreedyEdge.add_edge. cbn zeta.
  cbn [GreedyEdge.edgeCount GreedyEdge.degree GreedyEdge.parent GreedyEdge.adj].
  destruct (GreedyEdge.union fuel _ _ _); [|discriminate].
  intros [= <-]. cbn [GreedyEdge.adj].
  rewrite nth_insert_ne by lia.
  rewrite nth_insert_eq by (rewrite repeat_length; lia).
  apply in_app_iff. right. now left.
Qed.

Lemma all_edges_dist (graph : list (list Q)) (n : nat) (e : GreedyEdge.Edge) :
  In e (GreedyEdge.all_edges graph n) ->
  GreedyEdge.dist e =
  graph_at graph (Z.of_nat (GreedyEdge.from e)) (Z.of_nat (GreedyEdge.to e)).
Proof.
  unfold GreedyEdge.all_edges. intros H.
  apply List.in_flat_map in H as (i & Hi & H).
  apply List.in_map_iff in H as (j & <- & Hj). reflexivity.
Qed.

(** Neighbours in the ring are neighbours in the tour, round the end. *)
Lemma ring_neighbours (n : nat) (adj : list (list nat)) (P : list nat)
    (a b : nat) :
  1 <= n -> ring_ok n adj P -> a < n -> In b (nth a adj []) ->
  exists k, k < n /\
    ((nth k P 0 = a /\ nth ((k + 1) mod n) P 0 = b) \/
     (nth k P 0 = b /\ nth ((k + 1) mod n) P 0 = a)).
Proof.
  intros Hn (Hperm & _ & Hadj) Ha Hin.
  assert (Hlen : length P = n).
  { apply Permutation_length in Hperm. now rewrite length_seq in Hperm. }
  assert (Hlink : forall x y, link P x y ->
            exists k, k < n /\ nth k P 0 = x /\ nth ((k + 1) mod n) P 0 = y).
  { intros x y (l1 & l2 & E). exists (length l1).
    rewrite E, length_app in Hlen. cbn [length] in Hlen.
    split; [lia|]. rewrite Nat.mod_small by lia. rewrite E. split.
    - now rewrite nth_middle.
    - change (l1 ++ x :: y :: l2) with (l1 ++ [x] ++ y :: l2).
      rewrite app_assoc.
      replace (length l1 + 1) with (length (l1 ++ [x]))
        by (rewrite length_app; reflexivity).
      now rewrite nth_middle. }
  assert (Hend : nth (n - 1) P 0 = List.last P 0 /\ nth ((n - 1 + 1) mod n) P 0 = hd 0 P).
  { split.
    - destruct (exists_last (l := P)) as (p' & z & E).
      { intros ->. cbn [length] in Hlen. lia. }
      rewrite <- Hlen, E, last_last, length_app. cbn [length].
      replace (length p' + 1 - 1) with (length p') by lia.
      apply nth_middle.
    - replace (n - 1 + 1) with n by lia. rewrite Nat.Div0.mod_same.
      destruct P; reflexivity. }
  apply (Hadj a b Ha) in Hin as [[H|H]|[[-> ->]|[-> ->]]].
  - destruct (Hlink a b H) as (k & Hk & E1 & E2). exists k. split; [exact Hk|now left].
  - destruct (Hlink b a H) as (k & Hk & E1 & E2). exists k. split; [exact Hk|now right].
  - exists (n - 1). split; [lia|]. right. now destruct Hend.
  - exists (n - 1). split; [lia|]. left. now destruct Hend.
Qed.

(** For at least two cities the greedy-edge tour contains a shortest
    edge of the graph: two cities [a < b] whose distance [graph[a][b]] is
    the least of all [graph[i][j]] with [i < j] are neighbours in the
    returned tour (position [k] and the next one, round the end). *)
Theorem greedyEdge_takes_shortest_edge (fuel : nat) (points : list Point)
    (graph : list (list Q)) :
  2 <= length points -> length points <= fuel ->
  exists tour a b k,
    GreedyEdge.generateTour fuel points graph = Some tour /\
    a < b /\ b < length points /\
    (forall i j, i < j -> j < length points ->
       (graph_at graph (Z.of_nat a) (Z.of_nat b)
        <= graph_at graph (Z.of_nat i) (Z.of_nat j))%Q) /\
    k < length points /\
    ((at_ tour k = Z.of_nat a /\
      at_ tour ((k + 1) mod length points) = Z.of_nat b) \/
     (at_ tour k = Z.of_nat b /\
      at_ tour ((k + 1) mod length points) = Z.of_nat a)).
Proof.
  intros Hn Hfuel. unfold GreedyEdge.generateTour.
  remember (length points) as n eqn:En. clear En points. cbn zeta.
  destruct (le_lt_dec 3 n) as [Hlarge|Hsmall].
  - destruct (edge_loop_closes fuel n Hlarge Hfuel graph)
      as (st & Hloop & (_ & P & Hring)).
    rewrite Hloop.
    destruct (ring_oriented n _ P Hlarge Hring) as (w & rest & t & Hring' & Eadj).
    rewrite (walk_ring n _ w rest t Hring' Eadj).
    pose proof (js_sort_perm GreedyEdge.dist (GreedyEdge.all_edges graph n)) as Hp.
    pose proof (js_sort_sorted GreedyEdge.dist (GreedyEdge.all_edges graph n)) as Hs.
    destruct (all_edges_complete fuel n Hlarge Hfuel graph 0 1 ltac:(lia) ltac:(lia))
      as (e01 & He01 & _).
    destruct (js_sort GreedyEdge.dist (GreedyEdge.all_edges graph n))
      as [|e0 edges] eqn:Esort.
    { apply Permutation_nil in Hp. rewrite Hp in He01.
      destruct He01. }
    assert (He0 : In e0 (GreedyEdge.all_edges graph n)).
    { apply (Permutation_in _ Hp). now left. }
    pose proof (all_edges_valid fuel n Hlarge Hfuel graph e0 He0) as Hv.
    apply StronglySorted_inv in Hs as [_ Hmin].
    cbn [GreedyEdge.edge_loop] in Hloop.
    destruct (GreedyEdge.edge_step fuel n _ e0) as [st1|] eqn:Estep; [|discriminate].
    pose proof (first_edge_accepted fuel n e0 st1 Hlarge ltac:(lia) Hv Estep) as Hin1.
    pose proof (edge_loop_keeps fuel n edges st1 st _ _ Hloop Hin1) as Hin.
    destruct (ring_neighbours n _ _ (GreedyEdge.from e0) (GreedyEdge.to e0)
                ltac:(lia) Hring' ltac:(lia) Hin) as (k & Hk & Hpos).
    assert (Hlen : length (0 :: w :: rest) = n).
    { destruct Hring' as (Hperm & _). apply Permutation_length in Hperm.
      now rewrite length_seq in Hperm. }
    assert (Hat : forall p, p < n ->
              at_ (map Z.of_nat (0 :: w :: rest)) p
              = Z.of_nat (nth p (0 :: w :: rest) 0)).
    { intros p Hp'. unfold at_. apply nth_map_inside. now rewrite Hlen. }
    exists (map Z.of_nat (0 :: w :: rest)), (GreedyEdge.from e0),
           (GreedyEdge.to e0), k.
    split; [reflexivity|]. split; [lia|]. split; [lia|]. split; [|split; [exact Hk|]].
    + intros i j Hij Hj.
      destruct (all_edges_complete fuel n Hlarge Hfuel graph i j Hij Hj)
        as (e & He & <- & <-).
      rewrite <- (all_edges_dist graph n e0 He0), <- (all_edges_dist graph n e He).
      assert (He' : In e (e0 :: edges)).
      { apply (Permutation_in _ (Permutation_sym Hp)). exact He. }
      destruct He' as [->|He']; [apply Qle_refl|].
      exact (proj1 (List.Forall_forall _ _) Hmin e He').
    + assert (Hk' : (k + 1) mod n < n) by (apply Nat.mod_upper_bound; lia).
      rewrite !Hat by assumption.
      destruct Hpos as [[-> ->]|[-> ->]]; [left|right]; split; reflexivity.
  - destruct n as [|[|[|n]]]; try lia.
    destruct fuel as [|[|fuel]]; try lia.
    exists [0; 1]%Z, 0, 1, 0. split; [reflexivity|].
    split; [lia|]. split; [lia|]. split; [|split; [lia|left; split; reflexivity]].
    intros i j Hij Hj. assert (i = 0) by lia. assert (j = 1) by lia. subst.
    apply Qle_refl.
Qed.

Lemma greedyEdge_takes_shortest_edge_witness :
  let graph := [[0; 3; 1; 2]; [3; 0; 2; 4]; [1; 2; 0; 5]; [2; 4; 5; 0]]%Q in
  let points := [mkPoint 0 0 0 0; mkPoint 1 0 0 1; mkPoint 1 1 0 2;
                 mkPoint 0 1 0 3] in
  exists tour a b k,
    GreedyEdge.generateTour 4 points graph = Some tour /\
    a < b /\ b < length points /\
    (forall i j, i < j -> j < length points ->
       (graph_at graph (Z.of_nat a) (Z.of_nat b)
        <= graph_at graph (Z.of_nat i) (Z.of_nat j))%Q) /\
    k < length points /\
    ((at_ tour k = Z.of_nat a /\
      at_ tour ((k + 1) mod length points) = Z.of_nat b) \/
     (at_ tour k = Z.of_nat b /\
      at_ tour ((k + 1) mod length points) = Z.of_nat a)).
Proof.
  intros graph points.
  apply (greedyEdge_takes_shortest_edge 4 points graph); cbn; lia.
Defined.

(** ** The exact solvers report the tour from city 0 *)



(** * Binary64 rounding *)

Local Open Scope Q_scope.

(** ** Rounding keeps the order *)

Lemma round_even_bounds (x : Q) :
  (Qfloor x <= round_even x <= Qfloor x + 1)%Z.
Proof.
  unfold round_even. cbn zeta.
  destruct (Qcompare (x - inject_Z (Qfloor x)) (1 # 2)); [|lia|lia].
  destruct (Z.even (Qfloor x)); lia.
Qed.

Lemma round_even_mono (x y : Q) : x <= y -> (round_even x <= round_even y)%Z.
Proof.
  intros H. pose proof (Qfloor_resp_le x y H) as Hf.
  pose proof (round_even_bounds x) as Bx. pose proof (round_even_bounds y) as By.
  destruct (Z.eq_dec (Qfloor x) (Qfloor y)) as [E|N]; [|lia].
  unfold round_even. cbn zeta. rewrite <- E.
  destruct (Qcompare_spec (x - inject_Z (Qfloor x)) (1 # 2)) as [Hx|Hx|Hx];
    destruct (Qcompare_spec (y - inject_Z (Qfloor x)) (1 # 2)) as [Hy|Hy|Hy];
    try lia; try (destruct (Z.even (Qfloor x)); lia); lra.
Qed.

Lemma round_even_Z (k : Z) : round_even (inject_Z k) = k.
Proof.
  unfold round_even. cbn zeta. rewrite Qfloor_Z.
  destruct (Qcompare_spec (inject_Z k - inject_Z k) (1 # 2)) as [H|H|H];
    [lra|reflexivity|lra].
Qed.

Lemma pow2_pos (e : Z) : 0 < 2 ^ e.
Proof. apply Qpower_0_lt. reflexivity. Qed.

Lemma pow2_succ (e : Z) : 2 ^ (e + 1) == 2 * 2 ^ e.
Proof. rewrite Qpower_plus by discriminate. change (2 ^ 1) with 2. ring. Qed.

Lemma pow2_Z (k : Z) : (0 <= k)%Z -> inject_Z (2 ^ k) == 2 ^ k.
Proof. intros H. now rewrite Zpower_Qpower. Qed.

(** The exponent of a positive number brackets it between two powers
    of two. *)
Lemma exponent_spec (a : Q) :
  0 < a -> 2 ^ exponent a <= a /\ a < 2 ^ (exponent a + 1).
Proof.
  intros Ha. unfold exponent. cbn zeta.
  destruct a as [n d]. cbn [Qnum Qden].
  assert (Hn : (0 < n)%Z).
  { unfold Qlt in Ha. cbn in Ha. lia. }
  pose proof (Z.log2_spec n Hn) as [Ln Un].
  pose proof (Z.log2_spec (Z.pos d) eq_refl) as [Ld Ud].
  pose proof (Z.log2_nonneg n) as Nn. pose proof (Z.log2_nonneg (Z.pos d)) as Nd.
  set (p := Z.log2 n) in *. set (q := Z.log2 (Z.pos d)) in *.
  rewrite <- Z.add_1_r in Un, Ud.
  assert (Qn : inject_Z n < 2 ^ (p + 1)).
  { rewrite <- pow2_Z by lia. now rewrite <- Zlt_Qlt. }
  assert (Qn' : 2 ^ p <= inject_Z n).
  { rewrite <- pow2_Z by lia. now rewrite <- Zle_Qle. }
  assert (Qd : inject_Z (Z.pos d) < 2 ^ (q + 1)).
  { rewrite <- pow2_Z by lia. now rewrite <- Zlt_Qlt. }
  assert (Qd' : 2 ^ q <= inject_Z (Z.pos d)).
  { rewrite <- pow2_Z by lia. now rewrite <- Zle_Qle. }
  assert (Hd : 0 < inject_Z (Z.pos d)) by reflexivity.
  assert (Ev : n # d == inject_Z n / inject_Z (Z.pos d)) by apply Qmake_Qdiv.
  pose proof (pow2_pos p) as Pp. pose proof (pow2_pos q) as Pq.
  pose proof (pow2_pos (p - q)) as Ppq.
  assert (Epq : 2 ^ p == 2 ^ (p - q) * 2 ^ q).
  { rewrite <- Qpower_plus by discriminate. now replace (p - q + q)%Z with p by lia. }
  assert (Up : n # d < 2 ^ (p - q + 1)).
  { rewrite Ev. apply Qlt_shift_div_r; [exact Hd|].
    rewrite pow2_succ. rewrite pow2_succ in Qn. nra. }
  assert (Lo : 2 ^ (p - q - 1) < n # d).
  { rewrite Ev. apply Qlt_shift_div_l; [exact Hd|].
    assert (E1 : 2 ^ (p - q) == 2 * 2 ^ (p - q - 1)).
    { rewrite <- pow2_succ. now replace (p - q - 1 + 1)%Z with (p - q)%Z by lia. }
    rewrite pow2_succ in Qd. pose proof (pow2_pos (p - q - 1)). nra. }
  unfold Qltb. destruct (Qlt_le_dec (n # d) (2 ^ (p - q))) as [H|H].
  - split; [now apply Qlt_le_weak|].
    now replace (p - q - 1 + 1)%Z with (p - q)%Z by lia.
  - split; [exact H|exact Up].
Qed.

Lemma exponent_mono (a b : Q) : 0 < a -> a <= b -> (exponent a <= exponent b)%Z.
Proof.
  intros Ha Hab. destruct (exponent_spec a Ha) as [La _].
  destruct (exponent_spec b ltac:(lra)) as [_ Ub].
  assert (H : 2 ^ exponent a < 2 ^ (exponent b + 1)) by lra.
  apply Qpower_lt_compat_l_inv in H; [lia|reflexivity].
Qed.

Section RoundPos.
Variable a : Q.
Hypothesis a_pos : 0 < a.

Let e := Z.max (exponent a) (-1022).
Let ulp := 2 ^ (e - 52).

Lemma round_pos_value : round_pos a == inject_Z (round_even (a / ulp)) * ulp.
Proof. unfold round_pos. cbn zeta. apply Qred_correct. Qed.

Lemma ulp_scale (k : Z) : 2 ^ (e + k) == 2 ^ (52 + k) * ulp.
Proof.
unfold ulp. rewrite <- Qpower_plus by discriminate.
now replace (52 + k + (e - 52))%Z with (e + k)%Z by lia.
Qed.

Lemma round_pos_upper : round_pos a <= 2 ^ (e + 1).
Proof.
rewrite round_pos_value, ulp_scale.
pose proof (pow2_pos (e - 52)) as Hu. fold ulp in Hu.
apply Qmult_le_compat_r; [|lra].
change (52 + 1)%Z with 53%Z. rewrite <- pow2_Z by lia. rewrite <- Zle_Qle.
rewrite <- (round_even_Z (2 ^ 53)). apply round_even_mono.
apply Qle_shift_div_r; [exact Hu|]. rewrite pow2_Z by lia.
change 53%Z with (52 + 1)%Z. rewrite <- ulp_scale.
destruct (exponent_spec a a_pos) as [_ U].
apply Qlt_le_weak, (Qlt_le_trans _ _ _ U).
apply Qpower_le_compat_l; [unfold e; lia|discriminate].
Qed.

Lemma round_pos_lower : (-1022 <= exponent a)%Z -> 2 ^ e <= round_pos a.
Proof.
intros He. rewrite round_pos_value.
replace e with (e + 0)%Z at 1 by lia. rewrite ulp_scale.
pose proof (pow2_pos (e - 52)) as Hu. fold ulp in Hu.
apply Qmult_le_compat_r; [|lra].
change (52 + 0)%Z with 52%Z. rewrite <- pow2_Z by lia. rewrite <- Zle_Qle.
rewrite <- (round_even_Z (2 ^ 52)). apply round_even_mono.
apply Qle_shift_div_l; [exact Hu|]. rewrite pow2_Z by lia.
change 52%Z with (52 + 0)%Z. rewrite <- ulp_scale.
replace (e + 0)%Z with (exponent a) by (unfold e; lia).
now destruct (exponent_spec a a_pos).
Qed.

Lemma round_pos_nonneg : 0 <= round_pos a.
Proof.
rewrite round_pos_value.
pose proof (pow2_pos (e - 52)) as Hu. fold ulp in Hu.
apply Qmult_le_0_compat; [|lra].
change 0 with (inject_Z 0). rewrite <- Zle_Qle.
rewrite <- (round_even_Z 0). apply round_even_mono.
apply Qle_shift_div_l; [exact Hu|]. change (inject_Z 0) with 0. lra.
Qed.
End RoundPos.

Lemma round_pos_mono (a b : Q) : 0 < a -> a <= b -> round_pos a <= round_pos b.
Proof.
  intros Ha Hab. assert (Hb : 0 < b) by lra.
  pose proof (exponent_mono a b Ha Hab) as He.
  destruct (Z.eq_dec (Z.max (exponent a) (-1022)) (Z.max (exponent b) (-1022)))
    as [E|N].
  - rewrite (round_pos_value a), (round_pos_value b), <- E.
    pose proof (pow2_pos (Z.max (exponent a) (-1022) - 52)) as Hu.
    apply Qmult_le_compat_r; [|lra].
    rewrite <- Zle_Qle. apply round_even_mono.
    apply Qle_shift_div_l; [exact Hu|].
    setoid_replace (a / 2 ^ (Z.max (exponent a) (-1022) - 52)
                    * 2 ^ (Z.max (exponent a) (-1022) - 52)) with a using relation Qeq;
      [exact Hab|].
    field. intros H0. rewrite H0 in Hu. now apply Qlt_irrefl in Hu.
  - apply Qle_trans with (2 ^ (Z.max (exponent a) (-1022) + 1)).
    + now apply round_pos_upper.
    + apply Qle_trans with (2 ^ (Z.max (exponent b) (-1022))).
      * apply Qpower_le_compat_l; [lia|discriminate].
      * apply round_pos_lower; [exact Hb|lia].
Qed.

Lemma Qnum_sign (x : Q) :
  match Qnum x with
  | Z0 => x == 0
  | Zpos _ => 0 < x
  | Zneg _ => x < 0
  end.
Proof. destruct x as [[|p|p] d]; reflexivity. Qed.

(** Rounding to binary64 never reverses the order of two numbers. *)
Lemma round64_monotone (x y : Q) : x <= y -> round64 x <= round64 y.
Proof.
  intros H. unfold round64.
  pose proof (Qnum_sign x) as Sx. pose proof (Qnum_sign y) as Sy.
  destruct (Qnum x) eqn:Ex; destruct (Qnum y) eqn:Ey; try lra.
  - now apply round_pos_nonneg.
  - now apply round_pos_mono.
  - assert (0 <= round_pos (- x)) by (apply round_pos_nonneg; lra). lra.
  - assert (0 <= round_pos (- x)) by (apply round_pos_nonneg; lra).
    assert (0 <= round_pos y) by (now apply round_pos_nonneg). lra.
  - assert (round_pos (- y) <= round_pos (- x)) by (apply round_pos_mono; lra).
    lra.
Qed.

Local Close Scope Q_scope.

(** * The claims that depend on the rounding *)

(** ** Two-opt in binary64: the exact length of the tour *)

Section TwoOpt64Length.
Variable rnd : Q -> Q.
Variable graph : list (list Q).
Hypothesis rnd_monotone : forall x y : Q, (x <= y)%Q -> (rnd x <= rnd y)%Q.
Hypothesis graph_sym : forall a b : Z, (graph_at graph a b == graph_at graph b a)%Q.

(** A reversal that passes the rounded test shortens the tour. *)
Lemma scan_j64_not_worse (n i j : nat) (st : list Z * bool) :
i < j -> j < n -> length (fst st) = n ->
let st' := TwoOpt64.scan_j rnd graph n i st j in
length (fst st') = n /\
(cycle_length graph (fst st') <= cycle_length graph (fst st))%Q.
Proof.
intros Hij Hj Hn. unfold TwoOpt64.scan_j. cbn zeta.
destruct ((j =? n - 1) && (i =? 0)); [split; [assumption | lra]|].
destruct (Qltb _ _) eqn:E; [|split; [assumption | lra]].
apply Qltb_true in E. cbn [fst]. split.
- rewrite reverse_segment_split by lia.
  rewrite !length_app, length_rev, !length_firstn, !length_skipn. lia.
- pose proof (reverse_segment_length graph graph_sym (fst st) i j Hij ltac:(lia))
    as H.
  cbn zeta in H. rewrite Hn in H.
  set (new := (graph_at graph (at_ (fst st) i) (at_ (fst st) j) +
               graph_at graph (at_ (fst st) (i + 1))
                 (at_ (fst st) ((j + 1) mod n)))%Q) in *.
  set (cur := (graph_at graph (at_ (fst st) i) (at_ (fst st) (i + 1)) +
               graph_at graph (at_ (fst st) j)
                 (at_ (fst st) ((j + 1) mod n)))%Q) in *.
  destruct (Qlt_le_dec new cur) as [Hlt|Hle]; [lra|].
  apply rnd_monotone in Hle. lra.
Qed.

Lemma scan_i64_not_worse (n i : nat) (st : list Z * bool) :
length (fst st) = n ->
let st' := TwoOpt64.scan_i rnd graph n st i in
length (fst st') = n /\
(cycle_length graph (fst st') <= cycle_length graph (fst st))%Q.
Proof.
unfold TwoOpt64.scan_i. cbn zeta.
assert (G : forall js st, Forall (fun j => i < j /\ j < n) js ->
          length (fst st) = n ->
          length (fst (fold_left (TwoOpt64.scan_j rnd graph n i) js st)) = n /\
          (cycle_length graph
             (fst (fold_left (TwoOpt64.scan_j rnd graph n i) js st))
           <= cycle_length graph (fst st))%Q).
{ induction js as [|j js IH]; intros s HF Hs; cbn [fold_left].
  - split; [assumption | lra].
  - apply Forall_cons_iff in HF as [[Hj1 Hj2] HF'].
    destruct (scan_j64_not_worse n i j s Hj1 Hj2 Hs) as [L1 L2].
    destruct (IH _ HF' L1) as [L3 L4]. split; [assumption | lra]. }
intros Hn. apply G; [|assumption].
apply List.Forall_forall. intros j Hj. apply in_seq in Hj. lia.
Qed.

Lemma pass64_not_worse (n : nat) (tour : list Z) :
length tour = n ->
length (fst (TwoOpt64.pass rnd graph n tour)) = n /\
(cycle_length graph (fst (TwoOpt64.pass rnd graph n tour))
 <= cycle_length graph tour)%Q.
Proof.
unfold TwoOpt64.pass.
assert (G : forall rows st, length (fst st) = n ->
          length (fst (fold_left (TwoOpt64.scan_i rnd graph n) rows st)) = n /\
          (cycle_length graph
             (fst (fold_left (TwoOpt64.scan_i rnd graph n) rows st))
           <= cycle_length graph (fst st))%Q).
{ induction rows as [|i rows IH]; intros s Hs; cbn [fold_left].
  - split; [assumption | lra].
  - destruct (scan_i64_not_worse n i s Hs) as [L1 L2].
    destruct (IH _ L1) as [L3 L4]. split; [assumption | lra]. }
intros Hn. apply (G _ (tour, false)). exact Hn.
Qed.

Lemma improve_loop64_not_worse (remaining n : nat) (tour : list Z) :
length tour = n ->
(cycle_length graph (TwoOpt64.improve_loop rnd remaining graph n tour)
 <= cycle_length graph tour)%Q.
Proof.
revert tour. induction remaining as [|r IH]; intros tour Hn;
  cbn [TwoOpt64.improve_loop].
- lra.
- destruct (pass64_not_worse n tour Hn) as [L1 L2].
  destruct (snd (TwoOpt64.pass rnd graph n tour)); [|exact L2].
  specialize (IH _ L1). lra.
Qed.
End TwoOpt64Length.

(** C4, as amended: for a symmetric non-negative matrix, a tour that is
    a permutation of the cities and any iteration cap, the sum of the
    edge distances of the tour that [improve] returns, added without
    rounding, is not larger than that of the input tour.  [improve] is
    taken with its rounded arithmetic; of the rounding only its being
    monotone is used. *)
Theorem twoOpt_improve_exact_length_not_worse :
  forall (rnd : Q -> Q) (n : nat) (graph : list (list Q)) (tour : list Z)
         (maxIterations : nat),
    (forall x y : Q, (x <= y)%Q -> (rnd x <= rnd y)%Q) ->
    square n graph -> symmetric n graph -> non_negative n graph ->
    is_tour n tour ->
    (cycle_length graph (TwoOpt64.improve rnd tour graph maxIterations)
     <= cycle_length graph tour)%Q.
Proof.
  intros rnd n graph tour maxIterations Hrnd Hsq Hsym _ Htour.
  unfold TwoOpt64.improve.
  apply improve_loop64_not_worse; [exact Hrnd| |reflexivity].
  now apply (symmetric_everywhere n).
Qed.

Lemma twoOpt_improve_exact_length_not_worse_witness :
  let graph := map (map round64)
                 [[0; 1 # 10; 4 # 10; 1 # 10]; [1 # 10; 0; 5 # 10; 2 # 10];
                  [4 # 10; 5 # 10; 0; 5 # 10]; [1 # 10; 2 # 10; 5 # 10; 0]]%Q in
  let tour := [1; 2; 0; 3]%Z in
  (cycle_length graph (TwoOpt64.improve round64 tour graph 100)
   <= cycle_length graph tour)%Q.
Proof.
  intros graph tour.
  apply (twoOpt_improve_exact_length_not_worse round64 4 graph tour 100).
  - exact round64_monotone.
  - apply squareb_square. vm_compute. reflexivity.
  - apply symmetricb_symmetric. vm_compute. reflexivity.
  - apply non_negativeb_non_negative. vm_compute. reflexivity.
  - unfold is_tour. apply (bool_decide_unpack _). vm_compute. reflexivity.
Defined.

(** C4, as stated, fails: the lengths that [calculateTourLength]
    computes can be in the other order.  Here the input tour measures
    1.2 and the tour that [improve] returns 1.2000000000000002. *)
Lemma twoOpt_improve_computed_length_grows :
  let graph := map (map round64)
                 [[0; 1 # 10; 4 # 10; 1 # 10]; [1 # 10; 0; 5 # 10; 2 # 10];
                  [4 # 10; 5 # 10; 0; 5 # 10]; [1 # 10; 2 # 10; 5 # 10; 0]]%Q in
  let tour := [1; 2; 0; 3]%Z in
  squareb 4 graph = true /\ symmetricb 4 graph = true /\
  non_negativeb 4 graph = true /\ is_tour 4 tour /\
  TwoOpt64.improve round64 tour graph 100 = [1; 2; 3; 0]%Z /\
  TSPUtils64.calculateTourLength round64 tour graph = round64 (12 # 10) /\
  (TSPUtils64.calculateTourLength round64 tour graph <
   TSPUtils64.calculateTourLength round64
     (TwoOpt64.improve round64 tour graph 100) graph)%Q.
Proof.
  cbv zeta. split; [vm_compute; reflexivity|]. split; [vm_compute; reflexivity|].
  split; [vm_compute; reflexivity|]. split.
  { unfold is_tour. apply (bool_decide_unpack _). vm_compute. reflexivity. }
  split; [vm_compute; reflexivity|]. split; [vm_compute; reflexivity|].
  vm_compute. reflexivity.
Qed.

(** ** The exhaustive search in binary64 *)

Section Permute64.
Variable rnd : Q -> Q.
Variable graph : list (list Q).

Let len (p : list Z) : Q := TSPUtils64.calculateTourLength rnd p graph.

(** [best] is a permutation of [arr] stored with its length. *)
Let sound (arr : list Z) (best : list Z * Q) : Prop :=
Permutation (fst best) arr /\ snd best = len (fst best).

(** What a call of [permute] guarantees. *)
Let permute_post (arr : list Z) (start : nat) (best : list Z * Q)
  (r : list Z * (list Z * Q)) : Prop :=
fst r = arr /\
(snd (snd r) <= snd best)%Q /\
(sound arr best -> sound arr (snd r)) /\
(forall p, Permutation p arr -> firstn start p = firstn start arr ->
   (snd (snd r) <= len p)%Q).

Lemma permute64_spec (depth : nat) :
forall (arr : list Z) (start : nat) (best : list Z * Q),
  start < length arr -> length arr - start <= depth + 1 ->
  permute_post arr start best (BruteForce64.permute rnd depth graph arr start best).
Proof.
induction depth as [|d IH]; intros arr start best Hstart Hdepth.
- assert (E : start + 1 = length arr) by lia.
  cbn [BruteForce64.permute]. apply Nat.eqb_eq in E as E'. rewrite E'.
  unfold permute_post, sound. cbn [fst snd]. fold (len arr).
  unfold Qltb. destruct (Qlt_le_dec (len arr) (snd best)) as [Hlt|Hle];
    cbn [fst snd].
  + split; [reflexivity|]. split; [lra|]. split; [intros _; split; reflexivity|].
    intros p Hp Hpre. rewrite (last_cell_fixed arr p start E Hp Hpre). lra.
  + split; [reflexivity|]. split; [lra|]. split; [tauto|].
    intros p Hp Hpre. rewrite (last_cell_fixed arr p start E Hp Hpre). lra.
- cbn [BruteForce64.permute].
  destruct (start + 1 =? length arr) eqn:E.
  + apply Nat.eqb_eq in E.
    unfold permute_post, sound. cbn [fst snd]. fold (len arr).
    unfold Qltb. destruct (Qlt_le_dec (len arr) (snd best)) as [Hlt|Hle];
      cbn [fst snd].
    * split; [reflexivity|]. split; [lra|]. split; [intros _; split; reflexivity|].
      intros p Hp Hpre. rewrite (last_cell_fixed arr p start E Hp Hpre). lra.
    * split; [reflexivity|]. split; [lra|]. split; [tauto|].
      intros p Hp Hpre. rewrite (last_cell_fixed arr p start E Hp Hpre). lra.
  + apply Nat.eqb_neq in E.
    set (body := fun (st : list Z * (list Z * Q)) (i : nat) =>
                   (BruteForce.swap
                      (fst (BruteForce64.permute rnd d graph
                              (BruteForce.swap (fst st) start i)
                              (start + 1) (snd st))) start i,
                    snd (BruteForce64.permute rnd d graph
                           (BruteForce.swap (fst st) start i)
                           (start + 1) (snd st)))).
    assert (Loop : forall (is_ : list nat) (b : list Z * Q),
              Forall (fun i => start <= i /\ i < length arr) is_ ->
              let r := fold_left body is_ (arr, b) in
              fst r = arr /\
              (snd (snd r) <= snd b)%Q /\
              (sound arr b -> sound arr (snd r)) /\
              (forall i p, In i is_ ->
                 Permutation p (BruteForce.swap arr start i) ->
                 firstn (start + 1) p =
                   firstn (start + 1) (BruteForce.swap arr start i) ->
                 (snd (snd r) <= len p)%Q)).
    { induction is_ as [|i is_ IHl]; intros b HF; cbn zeta.
      - cbn [fold_left fst snd]. split; [reflexivity|]. split; [lra|].
        split; [tauto|]. intros i p [].
      - apply Forall_cons_iff in HF as [[Hi1 Hi2] HF].
        cbn [fold_left].
        pose proof (IH (BruteForce.swap arr start i) (start + 1) b
                      ltac:(rewrite swap_length; lia)
                      ltac:(rewrite swap_length; lia))
          as (R1 & R2 & R3 & R4).
        set (b1 := snd (BruteForce64.permute rnd d graph
                          (BruteForce.swap arr start i) (start + 1) b)) in *.
        assert (Eb : body (arr, b) i = (arr, b1)).
        { unfold body. cbn [fst snd]. fold b1.
          rewrite R1, swap_swap by assumption. reflexivity. }
        rewrite Eb.
        specialize (IHl b1 HF). cbn zeta in IHl.
        destruct IHl as (L1 & L2 & L3 & L4).
        pose proof (swap_perm arr start i Hi1 Hi2) as Hsw.
        split; [exact L1|]. split; [lra|]. split.
        + intros Hb. apply L3. destruct Hb as [Hb1 Hb2].
          destruct R3 as [R3a R3b]; [split; [now rewrite Hsw | exact Hb2]|].
          split; [now rewrite <- Hsw | exact R3b].
        + intros k p [<-|Hk] Hp Hpre.
          * specialize (R4 p Hp Hpre). lra.
          * exact (L4 k p Hk Hp Hpre). }
    specialize (Loop (seq start (length arr - start)) best).
    destruct Loop as (L1 & L2 & L3 & L4).
    { apply List.Forall_forall. intros i Hi. apply in_seq in Hi. lia. }
    unfold permute_post. split; [exact L1|]. split; [exact L2|].
    split; [exact L3|].
    intros p Hp Hpre.
    destruct (swap_covers arr p start Hstart Hp Hpre) as (i & Hi1 & Hi2 & Hi3).
    apply (L4 i p).
    * apply in_seq. lia.
    * rewrite Hp. symmetry. now apply swap_perm.
    * exact Hi3.
Qed.
End Permute64.

(** The search returns a tour with the length the code computes for it,
    and no tour that starts at city [0] is computed to be shorter. *)
Lemma bruteForceExact64_best (rnd : Q -> Q) (n : nat) (graph : list (list Q)) :
  1 <= n ->
  let r := BruteForce64.bruteForceExact rnd graph n in
  exists len : Q,
    is_tour n (BruteForce.tour r) /\
    BruteForce.length r = Fin len /\
    len = TSPUtils64.calculateTourLength rnd (BruteForce.tour r) graph /\
    forall p, is_tour n p -> firstn 1 p = firstn 1 (cities n) ->
      (len <= TSPUtils64.calculateTourLength rnd p graph)%Q.
Proof.
  intros Hn. unfold BruteForce64.bruteForceExact. cbn zeta.
  set (best0 := (cities n, TSPUtils64.calculateTourLength rnd (cities n) graph)).
  set (r := BruteForce64.permute rnd (n - 1) graph (cities n) 1 best0).
  cbn [BruteForce.tour BruteForce.length].
  exists (snd (snd r)).
  destruct (Nat.eq_dec n 1) as [->|Hn1].
  - subst r best0.
    cbn [BruteForce64.permute Nat.sub Nat.add Nat.eqb cities range
         seq map List.length length fst snd].
    split; [unfold is_tour; reflexivity|]. split; [reflexivity|].
    split; [reflexivity|].
    intros p Hp _. apply Permutation_sym, Permutation_length_1_inv in Hp.
    subst p. apply Qle_refl.
  - destruct (permute64_spec rnd graph (n - 1) (cities n) 1 best0)
      as (_ & _ & R3 & R4).
    + rewrite cities_length. lia.
    + rewrite cities_length. lia.
    + fold r in R3, R4. destruct R3 as [R3a R3b].
      { split; reflexivity. }
      split; [exact R3a|]. split; [reflexivity|]. split; [exact R3b|exact R4].
Qed.

(** C1, as amended: for [n >= 1] and an [n]-by-[n] matrix,
    [bruteForceExact] returns a permutation of the cities together with
    the length that [calculateTourLength] computes for it, and this
    length is not larger than the one [calculateTourLength] computes for
    any permutation that has city 0 first.  This holds for every
    rounding of the additions. *)
Theorem bruteForceExact_shortest_from_city_0 :
  forall (rnd : Q -> Q) (n : nat) (graph : list (list Q)),
    1 <= n -> square n graph ->
    let r := BruteForce64.bruteForceExact rnd graph n in
    is_tour n (BruteForce.tour r) /\
    BruteForce.length r =
      Fin (TSPUtils64.calculateTourLength rnd (BruteForce.tour r) graph) /\
    forall p, is_tour n p -> at_ p 0 = 0%Z ->
      (TSPUtils64.calculateTourLength rnd (BruteForce.tour r) graph
       <= TSPUtils64.calculateTourLength rnd p graph)%Q.
Proof.
  intros rnd n graph Hn _ r.
  destruct (bruteForceExact64_best rnd n graph Hn) as (len & H1 & H2 & H3 & H4).
  fold r in H1, H2, H3, H4.
  split; [exact H1|]. split; [now rewrite H2, H3|].
  intros p Hp H0. rewrite <- H3. apply H4; [exact Hp|].
  pose proof (is_tour_length n p Hp) as Hlen.
  destruct n as [|m]; [lia|]. rewrite cities_S.
  destruct p as [|c p]; [discriminate|]. cbn [firstn]. unfold at_ in H0.
  cbn [nth] in H0. now rewrite H0.
Qed.

Lemma bruteForceExact_shortest_from_city_0_witness :
  let graph := map (map round64)
                 [[0; 1 # 10; 4 # 10]; [1 # 10; 0; 2 # 10];
                  [4 # 10; 2 # 10; 0]]%Q in
  let r := BruteForce64.bruteForceExact round64 graph 3 in
  is_tour 3 (BruteForce.tour r) /\
  BruteForce.length r =
    Fin (TSPUtils64.calculateTourLength round64 (BruteForce.tour r) graph) /\
  forall p, is_tour 3 p -> at_ p 0 = 0%Z ->
    (TSPUtils64.calculateTourLength round64 (BruteForce.tour r) graph
     <= TSPUtils64.calculateTourLength round64 p graph)%Q.
Proof.
  intros graph.
  apply (bruteForceExact_shortest_from_city_0 round64 3 graph).
  - lia.
  - apply squareb_square. vm_compute. reflexivity.
Defined.

(** C1, as stated, fails: a permutation that starts at another city can
    be computed to be shorter than the length the search reports.  On
    this matrix the search reports 0.7000000000000001, and the tour
    1, 0, 2 measures 0.7. *)
Lemma bruteForceExact_not_shortest_of_all :
  let graph := map (map round64)
                 [[0; 1 # 10; 4 # 10]; [1 # 10; 0; 2 # 10];
                  [4 # 10; 2 # 10; 0]]%Q in
  squareb 3 graph = true /\ is_tour 3 [1; 0; 2]%Z /\
  BruteForce.length (BruteForce64.bruteForceExact round64 graph 3) =
    Fin (6305039478318695 # 9007199254740992) /\
  TSPUtils64.calculateTourLength round64 [1; 0; 2]%Z graph = round64 (7 # 10) /\
  (TSPUtils64.calculateTourLength round64 [1; 0; 2]%Z graph <
   6305039478318695 # 9007199254740992)%Q.
Proof.
  cbv zeta. split; [vm_compute; reflexivity|]. split.
  { unfold is_tour. apply (bool_decide_unpack _). vm_compute. reflexivity. }
  split; [vm_compute; reflexivity|]. split; vm_compute; reflexivity.
Qed.

(** ** The sweep in binary64 *)

Section Sonar64.
Variable rnd : Q -> Q.
Variable PI : Q.
Variable hypot : Q -> Q -> Q.
Variable gridSize : nat.

Let angleStep := SonarVisit64.angleStep rnd PI gridSize.



End Sonar64.




(** ** The solvers return a tour, at and above the ceiling *)










(** ** Simulated annealing keeps the best tour it has met *)

Section AnnealingBest.
Variable rand : nat -> Q.
Variable exp : Q -> Q.
Variable graph : list (list Q).
Variable coolingRate : Q.
Variable n : nat.
Hypothesis n_two : 2 <= n.
Hypothesis draws : forall k, (0 <= rand k)%Q /\ (rand k < 1)%Q.

Let len (tour : list Z) : Q := TSPUtils.calculateTourLength tour graph.

(** The lengths kept beside the two tours are their lengths, and the
  best one is not longer than the current one. *)
Let kept (st : SimulatedAnnealing.State) : Prop :=
length (SimulatedAnnealing.currentTour st) = n /\
SimulatedAnnealing.currentLength st = len (SimulatedAnnealing.currentTour st) /\
SimulatedAnnealing.bestLength st = len (SimulatedAnnealing.bestTour st) /\
(SimulatedAnnealing.bestLength st <= SimulatedAnnealing.currentLength st)%Q.

Lemma step_kept (st : SimulatedAnnealing.State) :
kept st ->
kept (SimulatedAnnealing.step rand exp graph coolingRate n st) /\
(SimulatedAnnealing.bestLength
   (SimulatedAnnealing.step rand exp graph coolingRate n st)
 <= SimulatedAnnealing.bestLength st)%Q.
Proof.
intros (H1 & H2 & H3 & H4). unfold kept, SimulatedAnnealing.step. cbn zeta.
set (i := GeneticAlgorithm.random_index (rand (SimulatedAnnealing.calls st))
            (n - 1)).
set (j0 := GeneticAlgorithm.random_index
             (rand (SimulatedAnnealing.calls st + 1)) (n - 1)).
assert (Hi : i < n - 1).
{ destruct (draws (SimulatedAnnealing.calls st)).
  apply random_index_lt; [assumption | assumption | lia]. }
assert (Hj0 : j0 < n - 1).
{ destruct (draws (SimulatedAnnealing.calls st + 1)).
  apply random_index_lt; [assumption | assumption | lia]. }
set (j := if i <=? j0 then j0 + 1 else j0).
assert (Hj : j < n) by (unfold j; destruct (i <=? j0); lia).
set (minIdx := if i <? j then i else j).
set (maxIdx := if i <? j then j else i).
assert (Hmax : maxIdx < n) by (unfold maxIdx; destruct (i <? j); lia).
set (newTour := SimulatedAnnealing.reverse_between (maxIdx - minIdx)
                  (SimulatedAnnealing.currentTour st) minIdx maxIdx).
assert (Hnew : length newTour = n).
{ unfold newTour.
  rewrite (Permutation_length
             (reverse_between_perm n n_two (maxIdx - minIdx)
                (SimulatedAnnealing.currentTour st) minIdx maxIdx
                ltac:(lia))).
  exact H1. }
destruct (_ || _).
- fold (len newTour).
  destruct (Qltb (len newTour) (SimulatedAnnealing.bestLength st)) eqn:E;
    cbn [SimulatedAnnealing.currentTour SimulatedAnnealing.bestTour
         SimulatedAnnealing.bestLength SimulatedAnnealing.currentLength].
  + apply Qltb_true in E. repeat split; try assumption; try reflexivity; lra.
  + apply Qltb_false in E. repeat split; try assumption; try reflexivity; lra.
- cbn [SimulatedAnnealing.currentTour SimulatedAnnealing.bestTour
       SimulatedAnnealing.bestLength SimulatedAnnealing.currentLength].
  repeat split; try assumption; lra.
Qed.

Lemma rounds_kept (l : list nat) :
forall st : SimulatedAnnealing.State,
  kept st ->
  kept (fold_left
          (fun st _ => SimulatedAnnealing.step rand exp graph coolingRate n st)
          l st) /\
  (SimulatedAnnealing.bestLength
     (fold_left
        (fun st _ => SimulatedAnnealing.step rand exp graph coolingRate n st)
        l st)
   <= SimulatedAnnealing.bestLength st)%Q.
Proof.
induction l as [|a l IH]; intros st Hst; cbn [fold_left].
- split; [exact Hst|apply Qle_refl].
- destruct (step_kept st Hst) as [K1 K2].
  destruct (IH _ K1) as [K3 K4]. split; [exact K3|lra].
Qed.

Lemma annealing_best_met (initialTour : list Z) (maxIterations k : nat)
  (initialTemperature : Q) :
length initialTour = n -> k <= maxIterations ->
(len (SimulatedAnnealing.optimize rand exp graph initialTour maxIterations
        initialTemperature coolingRate)
 <= len (SimulatedAnnealing.currentTour
           (annealing_state rand exp graph initialTour k
              initialTemperature coolingRate)))%Q.
Proof.
intros Hlen Hk.
unfold SimulatedAnnealing.optimize, annealing_state. cbn zeta.
rewrite Hlen. fold (len initialTour).
set (st0 := SimulatedAnnealing.mkState initialTour (len initialTour)
              initialTour (len initialTour) initialTemperature 0).
assert (K0 : kept st0).
{ unfold kept, st0. cbn. repeat split; try assumption; try reflexivity.
  apply Qle_refl. }
replace maxIterations with (k + (maxIterations - k)) by lia.
rewrite seq_app, fold_left_app.
destruct (rounds_kept (seq 0 k) st0 K0) as [(_ & C2 & _ & C4) _].
set (stk := fold_left _ (seq 0 k) st0) in *.
destruct (rounds_kept (seq (0 + k) (maxIterations - k)) stk)
  as [(_ & _ & D3 & _) D5].
{ destruct (rounds_kept (seq 0 k) st0 K0) as [K _]. exact K. }
rewrite <- D3, <- C2. lra.
Qed.
End AnnealingBest.

(** [simulatedAnnealing.optimize] returns the best tour it has met: the
    tour it returns is not longer than the tour [currentTour] is after
    any number [k] of its iterations, the initial tour ([k = 0])
    included. *)
Theorem simulatedAnnealing_best_met :
  forall (rand : nat -> Q) (exp : Q -> Q) (graph : list (list Q)) (n : nat)
         (initialTour : list Z) (maxIterations k : nat)
         (initialTemperature coolingRate : Q),
    2 <= n -> square n graph -> is_tour n initialTour ->
    (forall k, (0 <= rand k)%Q /\ (rand k < 1)%Q) ->
    (0 < initialTemperature)%Q -> (0 < coolingRate)%Q ->
    k <= maxIterations ->
    (TSPUtils.calculateTourLength
       (SimulatedAnnealing.optimize rand exp graph initialTour maxIterations
          initialTemperature coolingRate) graph <=
     TSPUtils.calculateTourLength
       (SimulatedAnnealing.currentTour
          (annealing_state rand exp graph initialTour k
             initialTemperature coolingRate)) graph)%Q.
Proof.
  intros rand exp graph n initialTour maxIterations k initialTemperature
    coolingRate Hn _ Htour Hrand _ _ Hk.
  apply (annealing_best_met rand exp graph coolingRate n Hn Hrand);
    [now apply is_tour_length|exact Hk].
Qed.

Lemma simulatedAnnealing_best_met_witness :
  let graph := [[0; 1; 3 # 2; 1]; [1; 0; 1; 3 # 2];
                [3 # 2; 1; 0; 1]; [1; 3 # 2; 1; 0]]%Q in
  let rand := fun k => if Nat.even k then (1 # 3)%Q else (3 # 4)%Q in
  (TSPUtils.calculateTourLength
     (SimulatedAnnealing.optimize rand (fun q => (1 # 2)%Q) graph
        [0; 2; 1; 3]%Z 10 1 (9 # 10)) graph <=
   TSPUtils.calculateTourLength
     (SimulatedAnnealing.currentTour
        (annealing_state rand (fun q => (1 # 2)%Q) graph [0; 2; 1; 3]%Z 4
           1 (9 # 10))) graph)%Q.
Proof.
  intros graph rand. apply (simulatedAnnealing_best_met _ _ graph 4).
  - lia.
  - apply squareb_square. reflexivity.
  - unfold is_tour. apply (bool_decide_unpack _). vm_compute. reflexivity.
  - intros k. unfold rand. destruct (Nat.even k); split; try discriminate;
      reflexivity.
  - reflexivity.
  - reflexivity.
  - lia.
Defined.

(** ** Efficiency against the length the search reports *)

Section Efficiency64.
Variable rnd : Q -> Q.
Hypothesis rnd_monotone : forall x y : Q, (x <= y)%Q -> (rnd x <= rnd y)%Q.
Hypothesis rnd_0 : (rnd 0 == 0)%Q.
Hypothesis rnd_1 : (rnd 1 == 1)%Q.
Hypothesis rnd_100 : (rnd 100 == 100)%Q.


End Efficiency64.



(** ** Two-opt in binary64 keeps the cities *)

Section TwoOpt64Keeps.
Variable rnd : Q -> Q.
Variable graph : list (list Q).



End TwoOpt64Keeps.

(** ** From points to an improved tour *)


